(** * KVDatabase: skip list with a node pool and an MVCC layer

    A shallow embedding of [skiplist_mvcc.h], [skiplist_optimized.h] and
    [memory_pool.h].  Raw node pointers become addresses into a finite map
    (the C++ heap), [uint64_t] becomes [Z] with its bound written out, the
    [while] loops that follow [forward] pointers carry a fuel bounded by the
    number of allocated nodes, and an operation that would dereference a
    dangling pointer or index an array out of range yields [None]. *)

From Stdlib Require Import ZArith Lia.
From stdpp Require Import gmap strings list fin_maps sorting.

Local Open Scope Z_scope.

(** ** Versions and version chains ([skiplist_mvcc.h]) *)

Definition UINT64_MAX : Z := 18446744073709551615.

Inductive TransactionState := ACTIVE | COMMITTED | ABORTED.

Global Instance TransactionState_eq_dec : EqDecision TransactionState.
Proof. solve_decision. Defined.

(** [Version<K,V>]; the [next] pointer is the tail of the list that holds
    the version, newest first. *)
Record Version := mkVersion {
  value : string;
  create_ts : Z;
  delete_ts : Z;
  is_committed : bool
}.

(** [Version(V v, uint64_t create, uint64_t del = UINT64_MAX)] *)
Definition new_Version (v : string) (create : Z) : Version :=
  {| value := v; create_ts := create; delete_ts := UINT64_MAX;
     is_committed := false |}.

Definition is_visible (v : Version) (txn_id : Z) : bool :=
  if create_ts v =? txn_id then txn_id <? delete_ts v
  else is_committed v && (create_ts v <? txn_id) && (txn_id <? delete_ts v).

(** [NodeMVCC::add_version] *)
Definition add_version (chain : list Version) (v : string) (txn_id : Z)
  : list Version :=
  new_Version v txn_id :: chain.

(** [NodeMVCC::get_visible_version]: the loop over [current->next]. *)
Fixpoint get_visible_version (chain : list Version) (txn_id : Z)
  : option Version :=
  match chain with
  | [] => None
  | current :: next =>
      if is_visible current txn_id then Some current
      else get_visible_version next txn_id
  end.

(** [NodeMVCC::mark_deleted] *)
Definition mark_deleted (chain : list Version) (txn_id : Z) : list Version :=
  match chain with
  | [] => []
  | head :: next =>
      {| value := value head; create_ts := create_ts head;
         delete_ts := txn_id; is_committed := is_committed head |} :: next
  end.

(** [NodeMVCC::commit_version] *)
Fixpoint commit_version (chain : list Version) (txn_id : Z) : list Version :=
  match chain with
  | [] => []
  | current :: next =>
      (if create_ts current =? txn_id
       then {| value := value current; create_ts := create_ts current;
               delete_ts := delete_ts current; is_committed := true |}
       else current) :: commit_version next txn_id
  end.

(** The loop of [NodeMVCC::gc_versions] over the versions behind [prev]. *)
Fixpoint gc_tail (rest : list Version) (min_active_txn_id : Z)
  : list Version :=
  match rest with
  | [] => []
  | current :: next =>
      if delete_ts current <? min_active_txn_id
      then gc_tail next min_active_txn_id
      else current :: gc_tail next min_active_txn_id
  end.

(** [NodeMVCC::gc_versions]: the head version is always kept. *)
Definition gc_versions (chain : list Version) (min_active_txn_id : Z)
  : list Version :=
  match chain with
  | [] => []
  | head :: rest => head :: gc_tail rest min_active_txn_id
  end.

Local Close Scope Z_scope.

(** ** Tower nodes on a heap

    [NodeOpt<K,V>] and [NodeMVCC<K,V>] have the same [key], [node_level] and
    [forward] members; they differ in what they carry (a value, or the head
    of a version chain), which is the [payload] here.  Keys are integers as
    in every instantiation of the templates in the repository.  A pointer
    is [Some a] for the node at address [a] and [None] for [nullptr]. *)

Record Node (P : Type) := mkNode {
  key : Z;
  node_level : nat;
  forward : list (option nat);
  payload : P
}.
Arguments mkNode {P} _ _ _ _.
Arguments key {P} _.
Arguments node_level {P} _.
Arguments forward {P} _.
Arguments payload {P} _.

(** A loop body run over a list of indices, stopping at the first failure. *)
Fixpoint for_each {S A : Type} (body : S → A → option S) (s : S)
  (xs : list A) : option S :=
  match xs with
  | [] => Some s
  | x :: rest => s' ← body s x; for_each body s' rest
  end.

(** [vector::operator[]] as a write: out of range is undefined in C++. *)
Definition vec_set {A : Type} (l : list A) (i : nat) (x : A)
  : option (list A) :=
  if decide (i < length l) then Some (<[i := x]> l) else None.

(** [update[i]] read as a node pointer that is about to be dereferenced. *)
Definition update_at (update : list (option nat)) (i : nat) : option nat :=
  match update !! i with
  | Some (Some p) => Some p
  | _ => None
  end.

(** [get_random_level]: [coin] is the number of odd results [rand()]
    delivers before the first even one. *)
Definition get_random_level (max_level : nat) (coin : nat) : nat :=
  let k := S coin in
  if k <? max_level then k else max_level.

Section Towers.
Context {P : Type}.
Implicit Types (h : gmap nat (Node P)) (a i : nat).

(** [Node(k, ..., level)]: [level + 1] null forward slots. *)
Definition new_node (k : Z) (level : nat) (p : P) : Node P :=
  mkNode k level (replicate (S level) None) p.

(** [a->forward[i]] *)
Definition fwd h a i : option (option nat) :=
  n ← h !! a; forward n !! i.

(** [a->forward[i] = v] *)
Definition set_forward h a i (v : option nat) : option (gmap nat (Node P)) :=
  n ← h !! a;
  if decide (i < length (forward n))
  then Some (<[a := mkNode (key n) (node_level n) (<[i := v]> (forward n))
                            (payload n)]> h)
  else None.

(** Assignment to the payload member of the node at [a]. *)
Definition set_payload h a (f : P → P) : option (gmap nat (Node P)) :=
  n ← h !! a;
  Some (<[a := mkNode (key n) (node_level n) (forward n) (f (payload n))]> h).

(** [while (current->forward[i] != NULL &&
           current->forward[i]->get_key() < key)
      current = current->forward[i];] *)
Fixpoint advance (fuel : nat) h i (k : Z) (current : nat) : option nat :=
  match fuel with
  | O => None
  | S fuel' =>
      nxt ← fwd h current i;
      match nxt with
      | None => Some current
      | Some a =>
          n ← h !! a;
          if (key n <? k)%Z then advance fuel' h i k a else Some current
      end
  end.

(** [for (i = level; i >= 0; i--) { while ...; update[i] = current; }] *)
Fixpoint find_update (fuel : nat) h (k : Z) i (current : nat)
  (update : list (option nat)) : option (nat * list (option nat)) :=
  cur ← advance fuel h i k current;
  upd ← vec_set update i (Some cur);
  match i with
  | O => Some (cur, upd)
  | S j => find_update fuel h k j cur upd
  end.

(** The same descent without the [update] array (search, delete in the
    MVCC list, range query). *)
Fixpoint find_prev (fuel : nat) h (k : Z) i (current : nat) : option nat :=
  cur ← advance fuel h i k current;
  match i with
  | O => Some cur
  | S j => find_prev fuel h k j cur
  end.

(** [for (i = level + 1; i < random_level + 1; i++) update[i] = header;] *)
Definition raise_update (update : list (option nat)) (header : nat)
  (level random_level : nat) : option (list (option nat)) :=
  for_each (λ upd i, vec_set upd i (Some header)) update
           (seq (S level) (random_level - level)).

(** [node->forward[i] = update[i]->forward[i];
     update[i]->forward[i] = node;] *)
Definition splice_level (update : list (option nat)) (node : nat) h i
  : option (gmap nat (Node P)) :=
  p ← update_at update i;
  nxt ← fwd h p i;
  h1 ← set_forward h node i nxt;
  set_forward h1 p i (Some node).

(** [for (i = 0; i <= random_level; i++) ...] *)
Definition splice (update : list (option nat)) (node : nat) h
  (random_level : nat) : option (gmap nat (Node P)) :=
  for_each (splice_level update node) h (seq 0 (S random_level)).

(** [for (i = 0; i <= level; i++) {
       if (update[i]->forward[i] != current) break;
       update[i]->forward[i] = current->forward[i]; }]
    run for the [n] levels from [i] on. *)
Fixpoint unsplice (update : list (option nat)) (current : nat) h i (n : nat)
  : option (gmap nat (Node P)) :=
  match n with
  | O => Some h
  | S n' =>
      p ← update_at update i;
      nxt ← fwd h p i;
      if decide (nxt = Some current)
      then
        after ← fwd h current i;
        h' ← set_forward h p i after;
        unsplice update current h' (S i) n'
      else Some h
  end.

(** [while (level > 0 && header->forward[level] == 0) level--;] *)
Fixpoint lower_level h (header : nat) (level : nat) : option nat :=
  match level with
  | O => Some O
  | S j =>
      nxt ← fwd h header level;
      match nxt with
      | None => lower_level h header j
      | Some _ => Some level
      end
  end.

(** [node = header->forward[i]; while (node != NULL) { ...;
     node = node->forward[i]; }]: the addresses met on level [i]. *)
Fixpoint walk (fuel : nat) h i (node : option nat) : option (list nat) :=
  match fuel with
  | O => None
  | S fuel' =>
      match node with
      | None => Some []
      | Some a =>
          nxt ← fwd h a i;
          rest ← walk fuel' h i nxt;
          Some (a :: rest)
      end
  end.

(** The nodes on level [i], from [header->forward[i]] on. *)
Definition level_nodes h (header : nat) i : option (list (Node P)) :=
  first ← fwd h header i;
  addrs ← walk (size h) h i first;
  mapM (λ a, h !! a) addrs.

(** The keys printed for level [i] by [display_list]. *)
Definition level_keys h (header : nat) i : option (list Z) :=
  match level_nodes h header i with
  | Some nodes => Some (key <$> nodes)
  | None => None
  end.

(** The node a search for [k] ends on: descend from [level], step once on
    level 0 and compare the key. *)
Definition find_node h (header level : nat) (k : Z)
  : option (option nat) :=
  prev ← find_prev (size h) h k level header;
  current ← fwd h prev 0;
  match current with
  | None => Some None
  | Some a =>
      n ← h !! a;
      if (key n =? k)%Z then Some (Some a) else Some None
  end.
End Towers.

(** ** The node pool ([memory_pool.h]) and the optimized list
       ([skiplist_optimized.h])

    The segment locks and mutexes only order concurrent callers; one
    operation at a time is modelled, so they do not appear.  The [int]
    counters are integers. *)
Module Opt.

Record NodeMemoryPool := mkPool {
  _free_list : list nat;
  _allocated_count : Z;
  _reused_count : Z
}.

(** [memset] of the first [n] slots of a forward array to null; writing
    past the end of the array is undefined. *)
Definition memset_null (fw : list (option nat)) (n : nat)
  : option (list (option nat)) :=
  if decide (n ≤ length fw) then Some (replicate n None ++ drop n fw)
  else None.

(** [reinitialize_node]; the contents of a freshly allocated array do not
    matter, [memset] overwrites all of it. *)
Definition reinitialize_node (h : gmap nat (Node string)) (node : nat)
  (k : Z) (v : string) (level : nat) : option (gmap nat (Node string)) :=
  n ← h !! node;
  let fw := if decide (node_level n ≠ level)
            then replicate (S level) None else forward n in
  let lv := if decide (node_level n ≠ level)
            then level else node_level n in
  fw' ← memset_null fw (S level);
  Some (<[node := mkNode k lv fw' v]> h).

(** [allocate]: the result is the node pointer, the pool and the heap. *)
Definition allocate (pool : NodeMemoryPool) (h : gmap nat (Node string))
  (k : Z) (v : string) (level : nat)
  : option (nat * NodeMemoryPool * gmap nat (Node string)) :=
  match last (_free_list pool) with
  | Some node =>
      h' ← reinitialize_node h node k v level;
      Some (node,
            mkPool (removelast (_free_list pool)) (_allocated_count pool)
                   (_reused_count pool + 1),
            h')
  | None =>
      let node := fresh (dom h) in
      Some (node,
            mkPool (_free_list pool) (_allocated_count pool + 1)
                   (_reused_count pool),
            <[node := new_node k level v]> h)
  end.

Definition deallocate (pool : NodeMemoryPool) (node : option nat)
  : NodeMemoryPool :=
  match node with
  | None => pool
  | Some a =>
      mkPool (_free_list pool ++ [a]) (_allocated_count pool)
             (_reused_count pool)
  end.

(** [SkipListOptimized<int, std::string>] together with the heap its
    pointers refer to. *)
Record SkipListOptimized := mkList {
  _max_level : nat;
  _skip_list_level : nat;
  _header : nat;
  _element_count : Z;
  _memory_pool : NodeMemoryPool;
  heap : gmap nat (Node string)
}.

(** The constructor: the header is the first object on the heap. *)
Definition create (max_level : nat) : SkipListOptimized :=
  mkList max_level 0 0 0 (mkPool [] 0 0)
         {[ 0 := new_node 0%Z max_level EmptyString ]}.

(** [insert_element]: 1 when the key exists, 0 after an insertion. *)
Definition insert_element (s : SkipListOptimized) (k : Z) (v : string)
  (coin : nat) : option (Z * SkipListOptimized) :=
  let h := heap s in
  '(current, update) ←
    find_update (size h) h k (_skip_list_level s) (_header s)
                (replicate (S (_max_level s)) None);
  nxt ← fwd h current 0;
  found ← match nxt with
          | None => Some false
          | Some a => n ← h !! a; Some (bool_decide (key n = k))
          end;
  if found : bool then Some (1%Z, s)
  else
    let random_level := get_random_level (_max_level s) coin in
    update' ← (if decide (_skip_list_level s < random_level)
               then raise_update update (_header s) (_skip_list_level s)
                                 random_level
               else Some update);
    let level' := if decide (_skip_list_level s < random_level)
                  then random_level else _skip_list_level s in
    '(node, pool', h1) ← allocate (_memory_pool s) h k v random_level;
    h2 ← splice update' node h1 random_level;
    Some (0%Z, mkList (_max_level s) level' (_header s)
                      (_element_count s + 1) pool' h2).

(** [search_element]: the result, and the value it prints when the key
    is found. *)
Definition search_element (s : SkipListOptimized) (k : Z)
  : option (bool * option string) :=
  found ← find_node (heap s) (_header s) (_skip_list_level s) k;
  match found with
  | None => Some (false, None)
  | Some a => n ← heap s !! a; Some (true, Some (payload n))
  end.

Definition delete_element (s : SkipListOptimized) (k : Z)
  : option SkipListOptimized :=
  let h := heap s in
  '(current, update) ←
    find_update (size h) h k (_skip_list_level s) (_header s)
                (replicate (S (_max_level s)) None);
  nxt ← fwd h current 0;
  match nxt with
  | None => Some s
  | Some a =>
      n ← h !! a;
      if bool_decide (key n = k) then
        h1 ← unsplice update a h 0 (S (_skip_list_level s));
        level' ← lower_level h1 (_header s) (_skip_list_level s);
        Some (mkList (_max_level s) level' (_header s)
                     (_element_count s - 1) (_memory_pool s)
                     (delete a h1))
      else Some s
  end.

Definition size (s : SkipListOptimized) : Z := _element_count s.

(** The calls of a single-threaded client. *)
Inductive call :=
| Insert (k : Z) (v : string) (coin : nat)
| Delete (k : Z).

Definition run (s : SkipListOptimized) (c : call)
  : option SkipListOptimized :=
  match c with
  | Insert k v coin => snd <$> insert_element s k v coin
  | Delete k => delete_element s k
  end.

(** The list a client gets from [SkipListOptimized(max_level)] by a
    sequence of calls. *)
Definition after (max_level : nat) (calls : list call)
  : option SkipListOptimized :=
  for_each run (create max_level) calls.

End Opt.

(** ** The MVCC list ([skiplist_mvcc.h])

    A [std::shared_ptr<Transaction>] is [Some i] for the [i]-th transaction
    object ever made and [None] for a null handle; the objects live in
    [txns], so the caller and [_active_transactions] share them.  Output to
    [std::cout] and the [_silent] flag are left out. *)
Module MVCC.

Record Transaction := mkTransaction {
  txn_id : Z;
  state : TransactionState;
  modified_nodes : list nat
}.

(** [Transaction::commit], [abort], [is_active], [add_modified_node] *)
Definition commit (t : Transaction) : Transaction :=
  mkTransaction (txn_id t) COMMITTED (modified_nodes t).

Definition abort (t : Transaction) : Transaction :=
  mkTransaction (txn_id t) ABORTED (modified_nodes t).

Definition is_active (t : Transaction) : bool :=
  bool_decide (state t = ACTIVE).

Definition add_modified_node (t : Transaction) (node : nat) : Transaction :=
  mkTransaction (txn_id t) (state t) (modified_nodes t ++ [node]).

(** [std::atomic<uint64_t>::fetch_add(1)]: the value stored afterwards. *)
Definition uint64_succ (x : Z) : Z := ((x + 1) mod (UINT64_MAX + 1))%Z.

Record SkipListMVCC := mkList {
  _max_level : nat;
  _skip_list_level : nat;
  _header : nat;
  _next_txn_id : Z;
  _active_transactions : gmap Z nat;
  _total_commits : Z;
  _total_aborts : Z;
  _total_versions : Z;
  heap : gmap nat (Node (list Version));
  txns : list Transaction
}.

(** The constructor; the header has no versions. *)
Definition create (max_level : nat) : SkipListMVCC :=
  mkList max_level 0 0 1 ∅ 0 0 0
         {[ 0 := new_node 0%Z max_level [] ]} [].

Definition with_heap (s : SkipListMVCC)
  (h : gmap nat (Node (list Version))) : SkipListMVCC :=
  mkList (_max_level s) (_skip_list_level s) (_header s) (_next_txn_id s)
         (_active_transactions s) (_total_commits s) (_total_aborts s)
         (_total_versions s) h (txns s).

(** The guard [!txn || !txn->is_active()]: [Some None] when it fires,
    [Some (Some t)] for an active transaction, [None] for a handle that
    names no object. *)
Definition check_active (s : SkipListMVCC) (txn : option nat)
  : option (option Transaction) :=
  match txn with
  | None => Some None
  | Some i =>
      t ← txns s !! i;
      Some (if is_active t then Some t else None)
  end.

Definition begin_transaction (s : SkipListMVCC) : nat * SkipListMVCC :=
  let id := _next_txn_id s in
  let i := length (txns s) in
  (i, mkList (_max_level s) (_skip_list_level s) (_header s)
             (uint64_succ id) (<[id := i]> (_active_transactions s))
             (_total_commits s) (_total_aborts s) (_total_versions s)
             (heap s) (txns s ++ [mkTransaction id ACTIVE []])).

Definition commit_transaction (s : SkipListMVCC) (txn : option nat)
  : option (bool * SkipListMVCC) :=
  chk ← check_active s txn;
  match chk, txn with
  | Some t, Some i =>
      h' ← for_each (λ h node,
                       set_payload h node (λ c, commit_version c (txn_id t)))
                    (heap s) (modified_nodes t);
      Some (true,
            mkList (_max_level s) (_skip_list_level s) (_header s)
                   (_next_txn_id s)
                   (delete (txn_id t) (_active_transactions s))
                   (uint64_succ (_total_commits s)) (_total_aborts s)
                   (_total_versions s) h'
                   (<[i := commit t]> (txns s)))
  | _, _ => Some (false, s)
  end.

Definition abort_transaction (s : SkipListMVCC) (txn : option nat)
  : option SkipListMVCC :=
  chk ← check_active s txn;
  match chk, txn with
  | Some t, Some i =>
      Some (mkList (_max_level s) (_skip_list_level s) (_header s)
                   (_next_txn_id s)
                   (delete (txn_id t) (_active_transactions s))
                   (_total_commits s) (uint64_succ (_total_aborts s))
                   (_total_versions s) (heap s)
                   (<[i := abort t]> (txns s)))
  | _, _ => Some s
  end.

(** [insert_element]: -1 when the guard fires, 0 otherwise. *)
Definition insert_element (s : SkipListMVCC) (txn : option nat) (k : Z)
  (v : string) (coin : nat) : option (Z * SkipListMVCC) :=
  chk ← check_active s txn;
  match chk, txn with
  | Some t, Some ti =>
      let h := heap s in
      '(current, update) ←
        find_update (size h) h k (_skip_list_level s) (_header s)
                    (replicate (S (_max_level s)) None);
      nxt ← fwd h current 0;
      found ← match nxt with
              | None => Some None
              | Some a =>
                  n ← h !! a;
                  Some (if bool_decide (key n = k) then Some a else None)
              end;
      match found with
      | Some a =>
          h' ← set_payload h a (λ c, add_version c v (txn_id t));
          Some (0%Z,
                mkList (_max_level s) (_skip_list_level s) (_header s)
                       (_next_txn_id s) (_active_transactions s)
                       (_total_commits s) (_total_aborts s)
                       (uint64_succ (_total_versions s)) h'
                       (<[ti := add_modified_node t a]> (txns s)))
      | None =>
          let random_level := get_random_level (_max_level s) coin in
          update' ← (if decide (_skip_list_level s < random_level)
                     then raise_update update (_header s)
                                       (_skip_list_level s) random_level
                     else Some update);
          let level' := if decide (_skip_list_level s < random_level)
                        then random_level else _skip_list_level s in
          let node := fresh (dom h) in
          let h1 := <[node := new_node k random_level
                                       (add_version [] v (txn_id t))]> h in
          h2 ← splice update' node h1 random_level;
          Some (0%Z,
                mkList (_max_level s) level' (_header s)
                       (_next_txn_id s) (_active_transactions s)
                       (_total_commits s) (_total_aborts s)
                       (uint64_succ (_total_versions s)) h2
                       (<[ti := add_modified_node t node]> (txns s)))
      end
  | _, _ => Some ((-1)%Z, s)
  end.

(** The version a read of [k] by transaction [id] resolves to. *)
Definition visible_version (s : SkipListMVCC) (id : Z) (k : Z)
  : option (option Version) :=
  found ← find_node (heap s) (_header s) (_skip_list_level s) k;
  match found with
  | None => Some None
  | Some a => n ← heap s !! a; Some (get_visible_version (payload n) id)
  end.

(** [search_element]: [Some v] stands for [true] with [*value = v],
    [None] for [false]. *)
Definition search_element (s : SkipListMVCC) (txn : option nat) (k : Z)
  : option (option string) :=
  chk ← check_active s txn;
  match chk with
  | None => Some None
  | Some t =>
      match visible_version s (txn_id t) k with
      | Some (Some ver) => Some (Some (value ver))
      | Some None => Some None
      | None => None
      end
  end.

Definition delete_element (s : SkipListMVCC) (txn : option nat) (k : Z)
  : option SkipListMVCC :=
  chk ← check_active s txn;
  match chk with
  | None => Some s
  | Some t =>
      found ← find_node (heap s) (_header s) (_skip_list_level s) k;
      match found with
      | None => Some s
      | Some a =>
          h' ← set_payload (heap s) a (λ c, mark_deleted c (txn_id t));
          Some (with_heap s h')
      end
  end.

(** [while (current != nullptr && current->get_key() <= end_key)] of
    [range_query]. *)
Fixpoint collect (fuel : nat) (h : gmap nat (Node (list Version)))
  (id : Z) (end_key : Z) (current : option nat)
  : option (list (Z * string)) :=
  match fuel with
  | O => None
  | S fuel' =>
      match current with
      | None => Some []
      | Some a =>
          n ← h !! a;
          if (key n <=? end_key)%Z then
            nxt ← fwd h a 0;
            rest ← collect fuel' h id end_key nxt;
            Some (match get_visible_version (payload n) id with
                  | Some ver => (key n, value ver) :: rest
                  | None => rest
                  end)
          else Some []
      end
  end.

Definition range_query (s : SkipListMVCC) (txn : option nat)
  (start_key end_key : Z) : option (list (Z * string)) :=
  chk ← check_active s txn;
  match chk with
  | None => Some []
  | Some t =>
      if (end_key <? start_key)%Z then Some []
      else
        prev ← find_prev (size (heap s)) (heap s) start_key
                         (_skip_list_level s) (_header s);
        current ← fwd (heap s) prev 0;
        collect (size (heap s)) (heap s) (txn_id t) end_key current
  end.

Definition get_min_active_txn_id (s : SkipListMVCC) : Z :=
  if decide (_active_transactions s = ∅) then _next_txn_id s
  else map_fold (λ id _ min_id, Z.min min_id id) UINT64_MAX
                (_active_transactions s).

(** The loop of [gc] over level 0. *)
Fixpoint gc_loop (fuel : nat) (h : gmap nat (Node (list Version)))
  (min_active_txn_id : Z) (current : option nat)
  : option (gmap nat (Node (list Version))) :=
  match fuel with
  | O => None
  | S fuel' =>
      match current with
      | None => Some h
      | Some a =>
          h' ← set_payload h a (λ c, gc_versions c min_active_txn_id);
          nxt ← fwd h' a 0;
          gc_loop fuel' h' min_active_txn_id nxt
      end
  end.

Definition gc (s : SkipListMVCC) : option SkipListMVCC :=
  first ← fwd (heap s) (_header s) 0;
  h' ← gc_loop (size (heap s)) (heap s) (get_min_active_txn_id s) first;
  Some (with_heap s h').

(** [size]: the number of nodes on level 0. *)
Definition size (s : SkipListMVCC) : option nat :=
  first ← fwd (heap s) (_header s) 0;
  length <$> walk (stdpp.base.size (heap s)) (heap s) 0 first.

(** The version chain stored for [k], if the key has a node. *)
Definition chain_of (s : SkipListMVCC) (k : Z)
  : option (option (list Version)) :=
  found ← find_node (heap s) (_header s) (_skip_list_level s) k;
  match found with
  | None => Some None
  | Some a => n ← heap s !! a; Some (Some (payload n))
  end.

(** The calls of a single-threaded client that change the list. *)
Inductive call :=
| Begin
| Commit (txn : option nat)
| Abort (txn : option nat)
| Insert (txn : option nat) (k : Z) (v : string) (coin : nat)
| Delete (txn : option nat) (k : Z)
| Gc.

Definition run (s : SkipListMVCC) (c : call) : option SkipListMVCC :=
  match c with
  | Begin => Some (snd (begin_transaction s))
  | Commit txn => snd <$> commit_transaction s txn
  | Abort txn => abort_transaction s txn
  | Insert txn k v coin => snd <$> insert_element s txn k v coin
  | Delete txn k => delete_element s txn k
  | Gc => gc s
  end.

(** A handle a client can hold: null, or one [begin_transaction] has
    returned. *)
Definition handle_ok (s : SkipListMVCC) (c : call) : Prop :=
  match c with
  | Commit (Some i) | Abort (Some i) | Insert (Some i) _ _ _
  | Delete (Some i) _ => i < length (txns s)
  | _ => True
  end.

(** The list a client gets from [SkipListMVCC(max_level)] by a sequence
    of calls. *)
Definition after (max_level : nat) (calls : list call)
  : option SkipListMVCC :=
  for_each run (create max_level) calls.

End MVCC.

(** ** The shape of a well-formed list

    A list is described by its level-0 sequence: one [entry] per live node,
    in the order of the level-0 chain. *)

Record entry := mkEntry { e_addr : nat; e_key : Z; e_level : nat }.

(** The addresses of the nodes whose tower reaches level [i]. *)
Definition at_level (i : nat) (l : list entry) : list nat :=
  e_addr <$> filter (λ e, i ≤ e_level e) l.

(** The pointer stored in a node that is followed by [rest]; [e] ends the
    segment. *)
Definition next_of (rest : list nat) (e : option nat) : option nat :=
  match rest with
  | b :: _ => Some b
  | [] => e
  end.

(** The last node of [c :: A]. *)
Definition last_of (c : nat) (A : list nat) : nat := default c (last A).

Section Shape.
Context {P : Type}.
Implicit Types (h : gmap nat (Node P)).

(** On level [i] every node of [li] points to its successor in [li], the
    last one to [e]. *)
Fixpoint seg h (i : nat) (li : list nat) (e : option nat) : Prop :=
  match li with
  | [] => True
  | a :: rest => fwd h a i = Some (next_of rest e) ∧ seg h i rest e
  end.

Definition shape (n : Node P) : Z * nat * nat :=
  (key n, node_level n, length (forward n)).

Record Inv h (header max_level level : nat) (l : list entry) : Prop := {
  inv_nodup : NoDup (header :: (e_addr <$> l));
  inv_sorted : StronglySorted Z.lt (e_key <$> l);
  inv_nodes : ∀ e, e ∈ l →
    shape <$> h !! e_addr e = Some (e_key e, e_level e, S (e_level e));
  inv_header : ∃ n, h !! header = Some n ∧ length (forward n) = S max_level;
  inv_max : level ≤ max_level;
  inv_top : level = max_list_with e_level l;
  inv_chain : ∀ i, i ≤ max_level → seg h i (header :: at_level i l) None
}.
End Shape.

(** The optimized list is well formed: its pool holds no node (the list
    never hands one back). *)
Definition Opt_wf (s : Opt.SkipListOptimized) (l : list entry) : Prop :=
  Inv (Opt.heap s) (Opt._header s) (Opt._max_level s) (Opt._skip_list_level s) l
  ∧ Opt._free_list (Opt._memory_pool s) = [].

(** The MVCC list is well formed: the structure is, every node a
    transaction has modified is live, and a version marked committed was
    created under the id of a committed transaction. *)
Record MVCC_wf (s : MVCC.SkipListMVCC) (l : list entry) : Prop := {
  wf_inv : Inv (MVCC.heap s) (MVCC._header s) (MVCC._max_level s)
               (MVCC._skip_list_level s) l;
  wf_modified : ∀ i t a, MVCC.txns s !! i = Some t →
      a ∈ MVCC.modified_nodes t → a ∈ e_addr <$> l;
  wf_committed : ∀ a n ver, MVCC.heap s !! a = Some n → ver ∈ payload n →
      is_committed ver = true →
      ∃ i t, MVCC.txns s !! i = Some t ∧ MVCC.txn_id t = create_ts ver
             ∧ MVCC.state t = COMMITTED
}.

(** The node on level [i] behind which a key is searched: the last node of
    level [i] among [lt], the entries with a smaller key, or the header. *)
Definition pred_at (header : nat) (lt : list entry) (i : nat) : nat :=
  last_of header (at_level i lt).

(** The row [range_query] emits for a node: its key and the value of its
    first version visible to transaction [id], if there is one. *)
Definition visible_row (id : Z) (n : Node (list Version))
  : option (Z * string) :=
  match get_visible_version (payload n) id with
  | Some ver => Some (key n, value ver)
  | None => None
  end.

(** ** Scenarios of [test_mvcc.cpp] and [test_optimized.cpp] *)

(** One round of [test_garbage_collection]: a transaction writes key 1 and
    commits. *)
Definition gc_round (coin : nat) (s : MVCC.SkipListMVCC) (v : string)
  : option MVCC.SkipListMVCC :=
  let '(txn, s1) := MVCC.begin_transaction s in
  '(_, s2) ← MVCC.insert_element s1 (Some txn) 1%Z v coin;
  '(_, s3) ← MVCC.commit_transaction s2 (Some txn);
  Some s3.

Definition ten_values : list string :=
  ["v0"; "v1"; "v2"; "v3"; "v4"; "v5"; "v6"; "v7"; "v8"; "v9"]%string.

(** Ten committed writes of key 1, then [gc()], then a read in a new
    transaction: the chain of key 1 after [gc()] and what the read
    returns. *)
Definition gc_scenario (max_level coin : nat)
  : option (option (list Version) * option string) :=
  s ← for_each (gc_round coin) (MVCC.create max_level) ten_values;
  s' ← MVCC.gc s;
  chain ← MVCC.chain_of s' 1%Z;
  let '(txn, s1) := MVCC.begin_transaction s' in
  r ← MVCC.search_element s1 (Some txn) 1%Z;
  Some (chain, r).

(** A committed version as the scenario leaves it. *)
Definition committed_version (v : string) (id : Z) : Version :=
  {| value := v; create_ts := id; delete_ts := UINT64_MAX;
     is_committed := true |}.




(** Sample lists for the examples: a committed write of key 10 followed
    by a new transaction, and three keys in the optimized list. *)
Definition sample_calls : list MVCC.call :=
  [MVCC.Begin; MVCC.Insert (Some 0) 10%Z "initial"%string 2;
   MVCC.Commit (Some 0); MVCC.Begin].

Definition sample_mvcc : MVCC.SkipListMVCC :=
  default (MVCC.create 4) (MVCC.after 4 sample_calls).

Definition sample_opt_calls : list Opt.call :=
  [Opt.Insert 3%Z "c"%string 0; Opt.Insert 1%Z "a"%string 2;
   Opt.Insert 5%Z "e"%string 1].

Definition sample_opt : Opt.SkipListOptimized :=
  default (Opt.create 4) (Opt.after 4 sample_opt_calls).

(** A pool that holds one returned node of level 2, and its heap. *)
Definition sample_pool : Opt.NodeMemoryPool := Opt.mkPool [0] 1 0.

Definition sample_pool_heap : gmap nat (Node string) :=
  {[ 0 := new_node 9%Z 2 "old"%string ]}.


From Stdlib Require DecimalString DecimalPos.

(** ** Further members of the optimized list and of the pool *)

Module OptMore.
Import Stdlib.Strings.Ascii.

(** [search_element_silent]: the search without output. *)
Definition search_element_silent (s : Opt.SkipListOptimized) (k : Z)
  : option bool :=
  found ← find_node (Opt.heap s) (Opt._header s) (Opt._skip_list_level s) k;
  Some (match found with Some _ => true | None => false end).

(** What [dump_file] and [display_list] write for a node. *)
Definition row (n : Node string) : Z * string := (key n, payload n).

(** [dump_file]: the lines written, one [key:value] pair per node of
    level 0. *)
Definition dump_file (s : Opt.SkipListOptimized)
  : option (list (Z * string)) :=
  match level_nodes (Opt.heap s) (Opt._header s) 0 with
  | Some nodes => Some (row <$> nodes)
  | None => None
  end.

(** [display_list]: the pairs printed for the levels 0 to
    [_skip_list_level]. *)
Definition display_list (s : Opt.SkipListOptimized)
  : option (list (list (Z * string))) :=
  mapM (λ i, match level_nodes (Opt.heap s) (Opt._header s) i with
             | Some nodes => Some (row <$> nodes)
             | None => None
             end)
       (seq 0 (S (Opt._skip_list_level s))).

(** [get_free_list_size] *)
Definition get_free_list_size (pool : Opt.NodeMemoryPool) : nat :=
  length (Opt._free_list pool).

(** [SkipListOptimized::clear(cur)]: the nodes of level 0 from [cur] on
    are deleted, the last one first; [delete] of an object that is not
    allocated is undefined. *)
Fixpoint clear (fuel : nat) (h : gmap nat (Node string)) (cur : nat)
  : option (gmap nat (Node string)) :=
  match fuel with
  | O => None
  | S fuel' =>
      nxt ← fwd h cur 0;
      h' ← match nxt with
           | Some a => clear fuel' h a
           | None => Some h
           end;
      match h' !! cur with
      | Some _ => Some (delete cur h')
      | None => None
      end
  end.

(** The body of [~SkipListOptimized]: what is left on the heap. *)
Definition destructor (s : Opt.SkipListOptimized)
  : option (gmap nat (Node string)) :=
  let h := Opt.heap s in
  first ← fwd h (Opt._header s) 0;
  h1 ← match first with
       | Some a => clear (size h) h a
       | None => Some h
       end;
  match h1 !! Opt._header s with
  | Some _ => Some (delete (Opt._header s) h1)
  | None => None
  end.

(** [str.find(":")]: the index of the first colon, [None] for [npos]. *)
Fixpoint find_colon (str : string) : option nat :=
  match str with
  | EmptyString => None
  | String c rest =>
      if Ascii.eqb c ":"%char then Some 0 else S <$> find_colon rest
  end.

(** [is_valid_string] *)
Definition is_valid_string (str : string) : bool :=
  match str with
  | EmptyString => false
  | _ => match find_colon str with
         | None => false
         | Some _ => true
         end
  end.

(** [get_key_value_from_string]: [key] and [value] are the strings the two
    pointers refer to before the call, the result is what they hold after
    it.  [substr(pos, count)] is [substring pos count]; with [npos] the
    first [substr] takes the whole string and [npos + 1] wraps to 0. *)
Definition get_key_value_from_string (str key value : string)
  : string * string :=
  if is_valid_string str then
    match find_colon str with
    | Some pos =>
        (String.substring 0 pos str,
         String.substring (pos + 1) (String.length str) str)
    | None =>
        (String.substring 0 (String.length str) str,
         String.substring 0 (String.length str) str)
    end
  else (key, value).

End OptMore.

(** ** Further members of the MVCC list *)

Module MVCCMore.

(** [display_list]: the keys printed for the levels 0 to
    [_skip_list_level]. *)
Definition display_list (s : MVCC.SkipListMVCC) : option (list (list Z)) :=
  mapM (λ i, level_keys (MVCC.heap s) (MVCC._header s) i)
       (seq 0 (S (MVCC._skip_list_level s))).

(** [dump_file]: the lines written; a node is listed with the value of
    the version visible to a reader whose id is [_next_txn_id], and not
    at all when there is none. *)
Definition dump_file (s : MVCC.SkipListMVCC) : option (list (Z * string)) :=
  match level_nodes (MVCC.heap s) (MVCC._header s) 0 with
  | Some nodes => Some (omap (visible_row (MVCC._next_txn_id s)) nodes)
  | None => None
  end.

End MVCCMore.

(** ** The pool's [clear] on a heap with separate forward arrays

    [NodeOpt] objects and the arrays their [forward] members point to are
    separate allocations here, so that freeing an array and freeing a
    node are distinct steps. *)

Module Mem.

Record NodeOpt := mkNodeOpt {
  key : Z;
  value : string;
  node_level : nat;
  forward : nat
}.

Record memory := mkMemory {
  nodes : gmap nat NodeOpt;
  arrays : gmap nat (list (option nat))
}.

(** [delete[] p]; undefined when [p] is not an allocated array. *)
Definition delete_array (m : memory) (p : nat) : option memory :=
  match arrays m !! p with
  | Some _ => Some (mkMemory (nodes m) (delete p (arrays m)))
  | None => None
  end.

(** [delete node]: [~NodeOpt] runs [delete []forward], then the object
    is freed. *)
Definition delete_node (m : memory) (node : nat) : option memory :=
  n ← nodes m !! node;
  m1 ← delete_array m (forward n);
  Some (mkMemory (delete node (nodes m1)) (arrays m1)).

(** [delete[] node->forward; delete node;] *)
Definition clear_node (m : memory) (node : nat) : option memory :=
  n ← nodes m !! node;
  m1 ← delete_array m (forward n);
  delete_node m1 node.

(** [NodeMemoryPool::clear] and the loop of [~NodeMemoryPool]. *)
Definition clear (pool : Opt.NodeMemoryPool) (m : memory)
  : option (Opt.NodeMemoryPool * memory) :=
  m' ← for_each clear_node m (Opt._free_list pool);
  Some (Opt.mkPool [] (Opt._allocated_count pool) (Opt._reused_count pool),
        m').

End Mem.

(** The rows of a well-formed optimized list, entry by entry. *)
Definition Opt_rows (s : Opt.SkipListOptimized) (l : list entry)
  (rows : list (Z * string)) : Prop :=
  Forall2 (λ e r, r.1 = e_key e
                  ∧ payload <$> Opt.heap s !! e_addr e = Some r.2) l rows.

(** The pair [display_list] prints for an entry. *)
Definition entry_row (h : gmap nat (Node string)) (e : entry)
  : option (Z * string) :=
  OptMore.row <$> h !! e_addr e.

(** The bookkeeping of a well-formed optimized list: the element counter,
    the statistics of its pool and the number of allocated objects. *)
Record Opt_books (s : Opt.SkipListOptimized) (l : list entry) : Prop := {
  books_wf : Opt_wf s l;
  books_count : Opt._element_count s = Z.of_nat (length l);
  books_reused : Opt._reused_count (Opt._memory_pool s) = 0%Z;
  books_allocated :
    (Z.of_nat (length l) ≤ Opt._allocated_count (Opt._memory_pool s))%Z;
  books_heap : size (Opt.heap s) = S (length l)
}.

(** Further sample lists: [sample_mvcc] after its active transaction has
    deleted key 10. *)
Definition sample_mvcc_deleted : MVCC.SkipListMVCC :=
  default sample_mvcc (MVCC.run sample_mvcc (MVCC.Delete (Some 1) 10%Z)).

(** ** One call of the MVCC list, seen from outside

    What a call that returns does to the transaction table, the counters
    and the version chains; [l] and [l'] are the entries before and
    after. *)

Definition same_counters (s s' : MVCC.SkipListMVCC) : Prop :=
  MVCC._total_commits s' = MVCC._total_commits s
  ∧ MVCC._total_aborts s' = MVCC._total_aborts s.

Definition same_table (s s' : MVCC.SkipListMVCC) : Prop :=
  MVCC.txns s' = MVCC.txns s
  ∧ MVCC._active_transactions s' = MVCC._active_transactions s
  ∧ MVCC._next_txn_id s' = MVCC._next_txn_id s.

Inductive MVCC_step (s : MVCC.SkipListMVCC) (l : list entry)
  : MVCC.SkipListMVCC → list entry → Prop :=
| step_same : MVCC_step s l s l
| step_begin : MVCC_step s l (MVCC.begin_transaction s).2 l
| step_commit ti t s' :
    MVCC.txns s !! ti = Some t → MVCC.state t = ACTIVE →
    MVCC.txns s'
    = <[ti := MVCC.mkTransaction (MVCC.txn_id t) COMMITTED
                                 (MVCC.modified_nodes t)]> (MVCC.txns s) →
    MVCC._active_transactions s'
    = delete (MVCC.txn_id t) (MVCC._active_transactions s) →
    MVCC._next_txn_id s' = MVCC._next_txn_id s →
    MVCC._total_commits s' = MVCC.uint64_succ (MVCC._total_commits s) →
    MVCC._total_aborts s' = MVCC._total_aborts s →
    (∀ b, payload <$> MVCC.heap s' !! b
          = if decide (b ∈ MVCC.modified_nodes t)
            then (λ c, commit_version c (MVCC.txn_id t))
                   <$> (payload <$> MVCC.heap s !! b)
            else payload <$> MVCC.heap s !! b) →
    MVCC_step s l s' l
| step_abort ti t s' :
    MVCC.txns s !! ti = Some t → MVCC.state t = ACTIVE →
    MVCC.txns s'
    = <[ti := MVCC.mkTransaction (MVCC.txn_id t) ABORTED
                                 (MVCC.modified_nodes t)]> (MVCC.txns s) →
    MVCC._active_transactions s'
    = delete (MVCC.txn_id t) (MVCC._active_transactions s) →
    MVCC._next_txn_id s' = MVCC._next_txn_id s →
    MVCC._total_commits s' = MVCC._total_commits s →
    MVCC._total_aborts s' = MVCC.uint64_succ (MVCC._total_aborts s) →
    MVCC.heap s' = MVCC.heap s →
    MVCC_step s l s' l
| step_write ti t s' l' a old v :
    MVCC.txns s !! ti = Some t → MVCC.state t = ACTIVE →
    MVCC.txns s'
    = <[ti := MVCC.mkTransaction (MVCC.txn_id t) ACTIVE
                                 (MVCC.modified_nodes t ++ [a])]>
        (MVCC.txns s) →
    MVCC._active_transactions s' = MVCC._active_transactions s →
    MVCC._next_txn_id s' = MVCC._next_txn_id s →
    same_counters s s' →
    payload <$> MVCC.heap s' !! a
    = Some (new_Version v (MVCC.txn_id t) :: old) →
    (payload <$> MVCC.heap s !! a = Some old ∧ l' = l
       ∧ (∃ e, e ∈ l ∧ e_addr e = a)
     ∨ MVCC.heap s !! a = None ∧ old = []
       ∧ ∃ lt ge e, l = lt ++ ge ∧ l' = lt ++ e :: ge ∧ e_addr e = a) →
    (∀ b, b ≠ a →
       payload <$> MVCC.heap s' !! b = payload <$> MVCC.heap s !! b) →
    MVCC_step s l s' l'
| step_delete ti t s' e :
    MVCC.txns s !! ti = Some t → MVCC.state t = ACTIVE → e ∈ l →
    same_table s s' → same_counters s s' →
    (∀ b, payload <$> MVCC.heap s' !! b
          = if decide (b = e_addr e)
            then (λ c, mark_deleted c (MVCC.txn_id t))
                   <$> (payload <$> MVCC.heap s !! b)
            else payload <$> MVCC.heap s !! b) →
    MVCC_step s l s' l
| step_gc s' :
    same_table s s' → same_counters s s' →
    (∀ b, payload <$> MVCC.heap s' !! b
          = if decide (b ∈ e_addr <$> l)
            then (λ c, gc_versions c (MVCC.get_min_active_txn_id s))
                   <$> (payload <$> MVCC.heap s !! b)
            else payload <$> MVCC.heap s !! b) →
    MVCC_step s l s' l.

(** Fewer than [UINT64_MAX] transactions have begun: the id counter has
    not wrapped around. *)
Definition no_wrap (s : MVCC.SkipListMVCC) : Prop :=
  (Z.of_nat (length (MVCC.txns s)) < UINT64_MAX)%Z.

(** The ids handed out, the id counter and the table of active
    transactions. *)
Record MVCC_ids (s : MVCC.SkipListMVCC) : Prop := {
  ids_txn : ∀ i t, MVCC.txns s !! i = Some t →
      MVCC.txn_id t = Z.of_nat (S i);
  ids_next : MVCC._next_txn_id s = Z.of_nat (S (length (MVCC.txns s)));
  ids_active : ∀ id i, MVCC._active_transactions s !! id = Some i ↔
      id = Z.of_nat (S i)
      ∧ ∃ t, MVCC.txns s !! i = Some t ∧ MVCC.state t = ACTIVE
}.

(** Every version was written by a transaction that recorded the node,
    and the versions of a committed transaction are marked committed. *)
Record MVCC_versions (s : MVCC.SkipListMVCC) : Prop := {
  ver_created : ∀ a n ver, MVCC.heap s !! a = Some n → ver ∈ payload n →
      ∃ i t, MVCC.txns s !! i = Some t ∧ MVCC.txn_id t = create_ts ver
             ∧ a ∈ MVCC.modified_nodes t;
  ver_marked : ∀ a n ver i t, MVCC.heap s !! a = Some n →
      ver ∈ payload n → MVCC.txns s !! i = Some t →
      MVCC.txn_id t = create_ts ver → MVCC.state t = COMMITTED →
      is_committed ver = true
}.

(** The number of transactions in a given state. *)
Definition count_state (st : TransactionState)
  (T : list MVCC.Transaction) : nat :=
  length (filter (λ t, MVCC.state t = st) T).

(** The statistics [print_stats] prints. *)
Record MVCC_counts (s : MVCC.SkipListMVCC) : Prop := {
  cnt_commits :
    MVCC._total_commits s = Z.of_nat (count_state COMMITTED (MVCC.txns s));
  cnt_aborts :
    MVCC._total_aborts s = Z.of_nat (count_state ABORTED (MVCC.txns s))
}.

(** ** The dump file as text

    [dump_file] writes the file with [operator<<], [load_file] reads it
    with [getline] and [std::stoi]; these library functions are modelled
    by what the C++ standard says they do. *)

Module Text.
Import Stdlib.Strings.Ascii.

Definition newline : ascii := ascii_of_nat 10.

(** [operator<<(std::ostream&, int)]: the decimal digits, behind a minus
    sign for a negative number. *)
Definition show (z : Z) : string :=
  DecimalString.NilZero.string_of_int (Z.to_int z).

(** [isspace] in the C locale. *)
Definition is_space (c : ascii) : bool :=
  let n := nat_of_ascii c in
  (n =? 32) || ((9 <=? n) && (n <=? 13)).

Fixpoint skip_space (str : string) : string :=
  match str with
  | String c rest => if is_space c then skip_space rest else str
  | EmptyString => str
  end.

Definition digit_of (c : ascii) : option Z :=
  let n := nat_of_ascii c in
  if (48 <=? n) && (n <=? 57) then Some (Z.of_nat (n - 48)) else None.

(** The value of the longest prefix of decimal digits, [acc] being the
    value of the digits read so far ([None]: no digit yet). *)
Fixpoint digits (acc : option Z) (str : string) : option Z :=
  match str with
  | String c rest =>
      match digit_of c with
      | Some d => digits (Some (default 0 acc * 10 + d)%Z) rest
      | None => acc
      end
  | EmptyString => acc
  end.

Definition INT_MAX : Z := 2147483647.
Definition INT_MIN : Z := -2147483648.

(** [std::stoi(str)]: white space, an optional sign, decimal digits up to
    the first other character; [None] stands for the exception thrown
    when there is no digit ([std::invalid_argument]) or the value does
    not fit an [int] ([std::out_of_range]). *)
Definition stoi (str : string) : option Z :=
  let s1 := skip_space str in
  let '(neg, s2) :=
    match s1 with
    | String c rest =>
        if Ascii.eqb c "-" then (true, rest)
        else if Ascii.eqb c "+" then (false, rest)
        else (false, s1)
    | EmptyString => (false, s1)
    end in
  n ← digits None s2;
  let z := if neg : bool then (- n)%Z else n in
  if (INT_MIN <=? z)%Z && (z <=? INT_MAX)%Z then Some z else None.

(** The lines [while (getline(reader, line))] delivers: the text between
    newlines, and what follows the last newline when it is not empty. *)
Fixpoint getlines (text : string) : list string :=
  match text with
  | EmptyString => []
  | String c rest =>
      if Ascii.eqb c newline then EmptyString :: getlines rest
      else match getlines rest with
           | [] => [String c EmptyString]
           | line :: lines => String c line :: lines
           end
  end.

(** [key << ":" << value], the line of a row without its newline. *)
Definition line (r : Z * string) : string :=
  show r.1 +:+ String ":" r.2.

(** [writer << key << ":" << value << "\n"] for every row. *)
Definition dump_text (rows : list (Z * string)) : string :=
  foldr (λ r rest, line r +:+ String newline rest) EmptyString rows.

(** [std::string::empty] *)
Definition empty (str : string) : bool :=
  match str with
  | EmptyString => true
  | String _ _ => false
  end.

End Text.

Module OptFile.

(** The loop of [load_file]; [key] and [value] are the two strings the
    function allocates once and passes to every
    [get_key_value_from_string], [coins] are the coins of the
    [insert_element] calls. *)
Fixpoint load_lines (s : Opt.SkipListOptimized) (lines : list string)
  (key value : string) (coins : list nat)
  : option Opt.SkipListOptimized :=
  match lines with
  | [] => Some s
  | line :: rest =>
      let '(key', value') :=
        OptMore.get_key_value_from_string line key value in
      if Text.empty key' || Text.empty value'
      then load_lines s rest key' value' coins
      else
        k ← Text.stoi key';
        '(_, s') ← Opt.insert_element s k value' (hd 0 coins);
        load_lines s' rest key' value' (tl coins)
  end.

(** [load_file] on a file that holds [text]. *)
Definition load_file (s : Opt.SkipListOptimized) (text : string)
  (coins : list nat) : option Opt.SkipListOptimized :=
  load_lines s (Text.getlines text) EmptyString EmptyString coins.

(** The text [dump_file] leaves in the file. *)
Definition dump_file (s : Opt.SkipListOptimized) : option string :=
  Text.dump_text <$> OptMore.dump_file s.

End OptFile.

Module MVCCFile.

(** The loop of [load_file]: a line without a colon is skipped. *)
Fixpoint load_lines (s : MVCC.SkipListMVCC) (txn : nat)
  (lines : list string) (coins : list nat) : option MVCC.SkipListMVCC :=
  match lines with
  | [] => Some s
  | line :: rest =>
      match OptMore.find_colon line with
      | None => load_lines s txn rest coins
      | Some pos =>
          k ← Text.stoi (String.substring 0 pos line);
          '(_, s') ← MVCC.insert_element s (Some txn) k
                       (String.substring (pos + 1) (String.length line)
                                         line)
                       (hd 0 coins);
          load_lines s' txn rest (tl coins)
      end
  end.

(** [load_file]: one transaction inserts every line and commits. *)
Definition load_file (s : MVCC.SkipListMVCC) (text : string)
  (coins : list nat) : option MVCC.SkipListMVCC :=
  let '(txn, s1) := MVCC.begin_transaction s in
  s2 ← load_lines s1 txn (Text.getlines text) coins;
  '(_, s3) ← MVCC.commit_transaction s2 (Some txn);
  Some s3.

(** The text [dump_file] leaves in the file. *)
Definition dump_file (s : MVCC.SkipListMVCC) : option string :=
  Text.dump_text <$> MVCCMore.dump_file s.

End MVCCFile.

(** A row that survives the way through the file: the key is an [int],
    the value holds no newline. *)
Definition clean_row (r : Z * string) : Prop :=
  (Text.INT_MIN ≤ r.1 ≤ Text.INT_MAX)%Z
  ∧ ¬ In Text.newline (String.list_ascii_of_string r.2).

(** The calls [load_file] makes for the rows of a dump. *)
Fixpoint opt_inserts (rows : list (Z * string)) (coins : list nat)
  : list Opt.call :=
  match rows with
  | [] => []
  | r :: rest => Opt.Insert r.1 r.2 (hd 0 coins) :: opt_inserts rest (tl coins)
  end.

Fixpoint mvcc_inserts (txn : nat) (rows : list (Z * string))
  (coins : list nat) : list MVCC.call :=
  match rows with
  | [] => []
  | r :: rest =>
      MVCC.Insert (Some txn) r.1 r.2 (hd 0 coins)
      :: mvcc_inserts txn rest (tl coins)
  end.

(** ** The optimized list as a table

    What a sequence of calls stores, told without pointers, levels and
    coins: a list of rows in the order of their keys. *)

Fixpoint put (k : Z) (v : string) (rows : list (Z * string))
  : list (Z * string) :=
  match rows with
  | [] => [(k, v)]
  | r :: rest =>
      if (r.1 <? k)%Z then r :: put k v rest
      else if (r.1 =? k)%Z then rows
      else (k, v) :: rows
  end.

Definition apply_call (rows : list (Z * string)) (c : Opt.call)
  : list (Z * string) :=
  match c with
  | Opt.Insert k v _ => put k v rows
  | Opt.Delete k => filter (λ r, r.1 ≠ k) rows
  end.

Definition table (calls : list Opt.call) : list (Z * string) :=
  foldl apply_call [] calls.

(** A line of a file to load: a row as [dump_file] writes it, or a text
    without a colon. *)
Definition render (item : (Z * string) + string) : string :=
  match item with
  | inl r => Text.line r
  | inr junk => junk
  end.

(** The rows [load_file] submits: the rendered rows whose value is not
    empty. *)
Definition loaded (items : list ((Z * string) + string))
  : list (Z * string) :=
  omap (λ item, match item with
                | inl r => if Text.empty r.2 then None else Some r
                | inr _ => None
                end) items.

Definition item_ok (item : (Z * string) + string) : Prop :=
  match item with
  | inl r => (Text.INT_MIN ≤ r.1 ≤ Text.INT_MAX)%Z
  | inr junk => OptMore.find_colon junk = None
  end.

(** The pair left in [key] and [value] by the lines before: an empty
    string among them, or a pair whose key is in the list. *)
Definition stale_ok (rows : list (Z * string)) (key value : string)
  : Prop :=
  Text.empty key || Text.empty value = true
  ∨ ∃ k, key = Text.show k ∧ (Text.INT_MIN ≤ k ≤ Text.INT_MAX)%Z
         ∧ k ∈ rows.*1.

(** ** The MVCC list as a ledger

    What a sequence of calls stores, told without nodes, pointers, levels
    and coins: the transactions begun, with the keys each has written, and
    one version chain per key, in the order of the keys. *)

Module Ledger.

Record txn := mkTxn {
  id : Z;
  st : TransactionState;
  keys : list Z
}.

Record ledger := mkLedger {
  txns : list txn;
  next : Z;
  active : gmap Z nat;
  chains : list (Z * list Version)
}.

Definition init : ledger := mkLedger [] 1 ∅ [].

(** The transaction a handle names, when it is active. *)
Definition guard (L : ledger) (handle : option nat) : option (nat * txn) :=
  i ← handle;
  t ← txns L !! i;
  if bool_decide (st t = ACTIVE) then Some (i, t) else None.

(** [f] applied to the chains of the keys selected by [q]. *)
Definition change (q : Z → bool) (f : list Version → list Version)
  (cs : list (Z * list Version)) : list (Z * list Version) :=
  (λ r, if q r.1 then (r.1, f r.2) else r) <$> cs.

(** A version put in front of the chain of [k]; a key not yet there gets
    a chain of its own at its place in the order. *)
Fixpoint write (k : Z) (ver : Version) (cs : list (Z * list Version))
  : list (Z * list Version) :=
  match cs with
  | [] => [(k, [ver])]
  | r :: rest =>
      if (r.1 <? k)%Z then r :: write k ver rest
      else if (r.1 =? k)%Z then (r.1, ver :: r.2) :: rest
      else (k, [ver]) :: cs
  end.

Definition min_active (L : ledger) : Z :=
  if decide (active L = ∅) then next L
  else map_fold (λ id _ min_id, Z.min min_id id) UINT64_MAX (active L).

Definition step (L : ledger) (c : MVCC.call) : ledger :=
  match c with
  | MVCC.Begin =>
      mkLedger (txns L ++ [mkTxn (next L) ACTIVE []])
               (MVCC.uint64_succ (next L))
               (<[next L := length (txns L)]> (active L)) (chains L)
  | MVCC.Commit handle =>
      match guard L handle with
      | Some (i, t) =>
          mkLedger (<[i := mkTxn (id t) COMMITTED (keys t)]> (txns L))
                   (next L) (delete (id t) (active L))
                   (change (λ k, bool_decide (k ∈ keys t))
                           (λ c, commit_version c (id t)) (chains L))
      | None => L
      end
  | MVCC.Abort handle =>
      match guard L handle with
      | Some (i, t) =>
          mkLedger (<[i := mkTxn (id t) ABORTED (keys t)]> (txns L))
                   (next L) (delete (id t) (active L)) (chains L)
      | None => L
      end
  | MVCC.Insert handle k v _ =>
      match guard L handle with
      | Some (i, t) =>
          mkLedger (<[i := mkTxn (id t) ACTIVE (keys t ++ [k])]> (txns L))
                   (next L) (active L)
                   (write k (new_Version v (id t)) (chains L))
      | None => L
      end
  | MVCC.Delete handle k =>
      match guard L handle with
      | Some (i, t) =>
          mkLedger (txns L) (next L) (active L)
                   (change (λ k', bool_decide (k' = k))
                           (λ c, mark_deleted c (id t)) (chains L))
      | None => L
      end
  | MVCC.Gc =>
      mkLedger (txns L) (next L) (active L)
               (change (λ _, true) (λ c, gc_versions c (min_active L))
                       (chains L))
  end.

Definition after (calls : list MVCC.call) : ledger := foldl step init calls.

(** The reads. *)
Definition chain (L : ledger) (k : Z) : option (list Version) :=
  (λ p, p.2.2) <$> list_find (λ r, r.1 = k) (chains L).

Definition row (reader : Z) (r : Z * list Version) : option (Z * string) :=
  (λ ver, (r.1, value ver)) <$> get_visible_version r.2 reader.

Definition search (L : ledger) (handle : option nat) (k : Z)
  : option string :=
  '(_, t) ← guard L handle;
  c ← chain L k;
  value <$> get_visible_version c (id t).

Definition range (L : ledger) (handle : option nat) (low high : Z)
  : list (Z * string) :=
  match guard L handle with
  | Some (_, t) =>
      omap (row (id t)) (filter (λ r, (low ≤ r.1 ≤ high)%Z) (chains L))
  | None => []
  end.

Definition dump (L : ledger) : list (Z * string) :=
  omap (row (next L)) (chains L).

End Ledger.

(** The transaction record of the list and of the ledger agree: the nodes
    modified are those of the keys written, in the same order. *)
Definition txn_agrees (l : list entry) (t : MVCC.Transaction)
  (m : Ledger.txn) : Prop :=
  MVCC.txn_id t = Ledger.id m ∧ MVCC.state t = Ledger.st m
  ∧ Forall2 (λ a k, ∃ e, e ∈ l ∧ e_addr e = a ∧ e_key e = k)
            (MVCC.modified_nodes t) (Ledger.keys m).

(** The list with entries [l] stores what the ledger says. *)
Record MVCC_refines (s : MVCC.SkipListMVCC) (l : list entry)
  (L : Ledger.ledger) : Prop := {
  ref_chains :
    Forall2 (λ e r, r.1 = e_key e
                    ∧ payload <$> MVCC.heap s !! e_addr e = Some r.2)
            l (Ledger.chains L);
  ref_txns : Forall2 (txn_agrees l) (MVCC.txns s) (Ledger.txns L);
  ref_next : MVCC._next_txn_id s = Ledger.next L;
  ref_active : MVCC._active_transactions s = Ledger.active L
}.

(** ** The sorted linked list of the first stage ([SortedList])

    A singly linked list with a [head] pointer; nodes live on a heap of
    their own, [new] takes a fresh address, and a read through a pointer
    that names no node is undefined. *)

Module Sorted.

Record Node := mkNode {
  key : Z;
  value : string;
  next : option nat
}.

Record SortedList := mkList {
  head : option nat;
  element_count : Z;
  heap : gmap nat Node
}.

Definition create : SortedList := mkList None 0 ∅.

(** [while (current->next != nullptr && current->next->key < key)
       current = current->next;] *)
Fixpoint scan (fuel : nat) (h : gmap nat Node) (k : Z) (current : nat)
  : option nat :=
  match fuel with
  | O => None
  | S fuel' =>
      n ← h !! current;
      match next n with
      | None => Some current
      | Some a =>
          m ← h !! a;
          if (key m <? k)%Z then scan fuel' h k a else Some current
      end
  end.

(** [node->next = nx] *)
Definition set_next (h : gmap nat Node) (node : nat) (nx : option nat)
  : option (gmap nat Node) :=
  n ← h !! node;
  Some (<[node := mkNode (key n) (value n) nx]> h).

(** [current->next != nullptr && current->next->key == key] *)
Definition next_has_key (h : gmap nat Node) (c : Node) (k : Z)
  : option bool :=
  match next c with
  | None => Some false
  | Some a => m ← h !! a; Some (key m =? k)%Z
  end.

Definition insert (s : SortedList) (k : Z) (v : string)
  : option SortedList :=
  let newNode := fresh (dom (heap s)) in
  let h := <[newNode := mkNode k v None]> (heap s) in
  let present := Some (mkList (head s) (element_count s) (delete newNode h)) in
  let at_head :=
    h1 ← set_next h newNode (head s);
    Some (mkList (Some newNode) (element_count s + 1) h1) in
  match head s with
  | None => at_head
  | Some first =>
      n ← h !! first;
      if (k <=? key n)%Z then
        if (key n =? k)%Z then present else at_head
      else
        current ← scan (size h) h k first;
        c ← h !! current;
        dup ← next_has_key h c k;
        if dup : bool then present
        else
          h1 ← set_next h newNode (next c);
          h2 ← set_next h1 current (Some newNode);
          Some (mkList (head s) (element_count s + 1) h2)
  end.

(** The loop of [search]: [Some v] stands for [true] with [v] printed as
    the value found, [None] for [false]. *)
Fixpoint find (fuel : nat) (h : gmap nat Node) (k : Z)
  (current : option nat) : option (option string) :=
  match fuel with
  | O => None
  | S fuel' =>
      match current with
      | None => Some None
      | Some a =>
          n ← h !! a;
          if (key n =? k)%Z then Some (Some (value n))
          else if (k <? key n)%Z then Some None
          else find fuel' h k (next n)
      end
  end.

Definition search (s : SortedList) (k : Z) : option (option string) :=
  find (S (size (heap s))) (heap s) k (head s).

Definition remove (s : SortedList) (k : Z) : option SortedList :=
  match head s with
  | None => Some s
  | Some first =>
      n ← heap s !! first;
      if (key n =? k)%Z then
        Some (mkList (next n) (element_count s - 1) (delete first (heap s)))
      else
        current ← scan (size (heap s)) (heap s) k first;
        c ← heap s !! current;
        match next c with
        | None => Some s
        | Some a =>
            m ← heap s !! a;
            if (key m =? k)%Z then
              h1 ← set_next (heap s) current (next m);
              Some (mkList (head s) (element_count s - 1) (delete a h1))
            else Some s
        end
  end.

(** The pairs [display] prints. *)
Fixpoint pairs (fuel : nat) (h : gmap nat Node) (current : option nat)
  : option (list (Z * string)) :=
  match fuel with
  | O => None
  | S fuel' =>
      match current with
      | None => Some []
      | Some a =>
          n ← h !! a;
          rest ← pairs fuel' h (next n);
          Some ((key n, value n) :: rest)
      end
  end.

(** [display]: the pairs and, unless the list is empty, the element
    count printed after them. *)
Definition display (s : SortedList)
  : option (list (Z * string) * option Z) :=
  ps ← pairs (S (size (heap s))) (heap s) (head s);
  Some (ps, match head s with
            | None => None
            | Some _ => Some (element_count s)
            end).

Definition size (s : SortedList) : Z := element_count s.

(** The loop of [~SortedList]: what is left on the heap. *)
Fixpoint destroy (fuel : nat) (h : gmap nat Node) (current : option nat)
  : option (gmap nat Node) :=
  match fuel with
  | O => None
  | S fuel' =>
      match current with
      | None => Some h
      | Some a =>
          n ← h !! a;
          destroy fuel' (delete a h) (next n)
      end
  end.

Definition destructor (s : SortedList) : option (gmap nat Node) :=
  destroy (S (stdpp.base.size (heap s))) (heap s) (head s).

Inductive call :=
| Insert (k : Z) (v : string)
| Remove (k : Z).

Definition run (s : SortedList) (c : call) : option SortedList :=
  match c with
  | Insert k v => insert s k v
  | Remove k => remove s k
  end.

Definition after (calls : list call) : option SortedList :=
  for_each run create calls.

(** The same call on the optimized skip list, with a coin for the tower
    of a new node. *)
Definition with_coin (coin : nat) (c : call) : Opt.call :=
  match c with
  | Insert k v => Opt.Insert k v coin
  | Remove k => Opt.Delete k
  end.

End Sorted.

(** The node after the nodes [rest], which are followed by [e]. *)
Definition next_cell (rest : list (nat * (Z * string))) (e : option nat)
  : option nat :=
  match rest with
  | [] => e
  | x :: _ => Some x.1
  end.

(** The cells [l] (address, key and value) are linked in this order and
    end in [e]. *)
Fixpoint linked (h : gmap nat Sorted.Node) (l : list (nat * (Z * string)))
  (e : option nat) : Prop :=
  match l with
  | [] => True
  | x :: rest =>
      h !! x.1 = Some (Sorted.mkNode x.2.1 x.2.2 (next_cell rest e))
      ∧ linked h rest e
  end.

(** The sorted list is made of the cells [l] and of nothing else. *)
Record Sorted_wf (s : Sorted.SortedList) (l : list (nat * (Z * string)))
  : Prop := {
  sl_head : Sorted.head s = next_cell l None;
  sl_linked : linked (Sorted.heap s) l None;
  sl_dom : dom (Sorted.heap s) = list_to_set (l.*1);
  sl_nodup : NoDup (l.*1);
  sl_sorted : StronglySorted Z.lt (l.*2.*1);
  sl_count : Sorted.element_count s = Z.of_nat (length l)
}.

(** What a call does to the table of rows. *)
Definition sorted_apply (rows : list (Z * string)) (c : Sorted.call)
  : list (Z * string) :=
  match c with
  | Sorted.Insert k v => put k v rows
  | Sorted.Remove k => filter (λ r, r.1 ≠ k) rows
  end.

Definition sorted_table (calls : list Sorted.call) : list (Z * string) :=
  foldl sorted_apply [] calls.

(** The value a table holds for a key. *)
Definition table_value (rows : list (Z * string)) (k : Z) : option string :=
  (λ p, p.2.2) <$> list_find (λ r, r.1 = k) rows.

(** ** Heap updates seen through [fwd] and [shape] *)

Section HeapFacts.
Context {P : Type}.
Implicit Types (h : gmap nat (Node P)) (a b i j : nat).

Lemma fwd_Some h a i n :
  h !! a = Some n → fwd h a i = forward n !! i.
Proof. intros H. unfold fwd. by rewrite H. Qed.

Lemma fwd_is_Some h a i :
  is_Some (fwd h a i) ↔ ∃ n, h !! a = Some n ∧ i < length (forward n).
Proof.
  unfold fwd. split.
  - intros [x Hx]. destruct (h !! a) as [n|] eqn:Hn; [|done].
    exists n. split; [done|]. simpl in Hx. by eapply lookup_lt_Some.
  - intros (n & -> & Hlt). simpl. by apply lookup_lt_is_Some.
Qed.

Lemma set_forward_inv h a i v h' :
  set_forward h a i v = Some h' →
  ∃ n, h !! a = Some n ∧ i < length (forward n) ∧
       h' = <[a := mkNode (key n) (node_level n) (<[i := v]> (forward n))
                          (payload n)]> h.
Proof.
  unfold set_forward. destruct (h !! a) as [n|]; [|done]. simpl.
  case_decide; [|done]. intros [= <-]. eauto.
Qed.

Lemma set_forward_is_Some h a i v :
  is_Some (fwd h a i) → is_Some (set_forward h a i v).
Proof.
  rewrite fwd_is_Some. intros (n & Hn & Hlt). unfold set_forward.
  rewrite Hn. simpl. case_decide; [eauto | lia].
Qed.

Lemma fwd_set_forward h a i v h' b j :
  set_forward h a i v = Some h' →
  fwd h' b j = if decide (b = a ∧ j = i) then Some v else fwd h b j.
Proof.
  intros (n & Hn & Hlt & ->)%set_forward_inv. unfold fwd.
  destruct (decide (b = a)) as [->|Hne].
  - rewrite lookup_insert_eq, Hn. simpl.
    destruct (decide (j = i)) as [->|Hji].
    + rewrite decide_True by done. by apply list_lookup_insert_eq.
    + rewrite decide_False by naive_solver.
      by apply list_lookup_insert_ne.
  - rewrite lookup_insert_ne by done.
    by rewrite decide_False by naive_solver.
Qed.

Lemma shape_set_forward h a i v h' b :
  set_forward h a i v = Some h' → shape <$> h' !! b = shape <$> h !! b.
Proof.
  intros (n & Hn & Hlt & ->)%set_forward_inv.
  destruct (decide (b = a)) as [->|Hne].
  - rewrite lookup_insert_eq, Hn. simpl. unfold shape. simpl.
    by rewrite length_insert.
  - by rewrite lookup_insert_ne.
Qed.

Lemma payload_set_forward h a i v h' b :
  set_forward h a i v = Some h' → payload <$> h' !! b = payload <$> h !! b.
Proof.
  intros (n & Hn & Hlt & ->)%set_forward_inv.
  destruct (decide (b = a)) as [->|Hne].
  - by rewrite lookup_insert_eq, Hn.
  - by rewrite lookup_insert_ne.
Qed.

Lemma set_payload_inv h a f h' :
  set_payload h a f = Some h' →
  ∃ n, h !! a = Some n ∧
       h' = <[a := mkNode (key n) (node_level n) (forward n)
                          (f (payload n))]> h.
Proof.
  unfold set_payload. destruct (h !! a) as [n|]; [|done]. simpl.
  intros [= <-]. eauto.
Qed.

Lemma fwd_set_payload h a f h' b j :
  set_payload h a f = Some h' → fwd h' b j = fwd h b j.
Proof.
  intros (n & Hn & ->)%set_payload_inv. unfold fwd.
  destruct (decide (b = a)) as [->|Hne].
  - by rewrite lookup_insert_eq, Hn.
  - by rewrite lookup_insert_ne.
Qed.

Lemma shape_set_payload h a f h' b :
  set_payload h a f = Some h' → shape <$> h' !! b = shape <$> h !! b.
Proof.
  intros (n & Hn & ->)%set_payload_inv.
  destruct (decide (b = a)) as [->|Hne].
  - by rewrite lookup_insert_eq, Hn.
  - by rewrite lookup_insert_ne.
Qed.

Lemma shape_key h a k lv len :
  shape <$> h !! a = Some (k, lv, len) →
  ∃ n, h !! a = Some n ∧ key n = k ∧ node_level n = lv
       ∧ length (forward n) = len.
Proof.
  destruct (h !! a) as [n|]; [|done]. simpl. unfold shape.
  intros [= <- <- <-]. eauto.
Qed.

(** *** Segments *)

Lemma next_of_app (A B : list nat) e :
  next_of (A ++ B) e = next_of A (next_of B e).
Proof. by destruct A. Qed.

Lemma seg_app h i A B e :
  seg h i (A ++ B) e ↔ seg h i A (next_of B e) ∧ seg h i B e.
Proof.
  induction A as [|a A IH]; simpl; [naive_solver|].
  rewrite IH, next_of_app. naive_solver.
Qed.

Lemma seg_ext h h' i li e :
  (∀ a, a ∈ li → fwd h' a i = fwd h a i) →
  seg h i li e → seg h' i li e.
Proof.
  induction li as [|a li IH]; simpl; [done|].
  intros Hext [Ha Hseg]. split.
  - rewrite Hext; [done | set_solver].
  - apply IH; [|done]. intros b Hb. apply Hext. set_solver.
Qed.

Lemma seg_snoc h i A p e :
  seg h i (A ++ [p]) e ↔ seg h i A (Some p) ∧ fwd h p i = Some e.
Proof. rewrite seg_app. simpl. naive_solver. Qed.

Lemma last_of_cons c a A : last_of c (a :: A) = last_of a A.
Proof.
  unfold last_of. destruct A as [|b A]; [done|].
  change (last (a :: b :: A)) with (last (b :: A)).
  by destruct (last (b :: A)) eqn:E; [|apply last_None in E].
Qed.

Lemma last_of_app c A p : last_of c (A ++ [p]) = p.
Proof. unfold last_of. by rewrite last_snoc. Qed.

Lemma last_of_split c A :
  ∃ X, c :: A = X ++ [last_of c A].
Proof.
  revert c. induction A as [|a A IH]; intros c.
  - by exists [].
  - destruct (IH a) as [X HX]. exists (c :: X).
    rewrite last_of_cons. by rewrite HX.
Qed.

Lemma last_of_elem c A : last_of c A ∈ c :: A.
Proof.
  destruct (last_of_split c A) as [X HX]. rewrite HX. set_solver.
Qed.

(** *** The stepping loop *)

Lemma advance_spec fuel h i k c A B :
  seg h i (c :: A ++ B) None →
  Forall (λ a, ∃ n, h !! a = Some n ∧ (key n < k)%Z) A →
  (∀ b, head B = Some b → ∃ n, h !! b = Some n ∧ (k ≤ key n)%Z) →
  length A < fuel →
  advance fuel h i k c = Some (last_of c A).
Proof.
  revert fuel c. induction A as [|a A IH]; intros fuel c Hseg HA HB Hfuel.
  - destruct fuel as [|fuel]; [simpl in Hfuel; lia|].
    simpl in *. destruct Hseg as [Hc _]. rewrite Hc. simpl.
    destruct B as [|b B]; simpl; [done|].
    destruct (HB b eq_refl) as (n & Hn & Hk). rewrite Hn. simpl.
    destruct (Z.ltb_spec (key n) k); [lia | done].
  - destruct fuel as [|fuel]; [simpl in Hfuel; lia|].
    rewrite last_of_cons.
    change (seg h i (c :: (a :: A) ++ B) None)
      with (fwd h c i = Some (Some a) ∧ seg h i (a :: A ++ B) None) in Hseg.
    destruct Hseg as [Hc Hseg].
    apply Forall_cons in HA as [(n & Hn & Hk) HA].
    simpl. rewrite Hc. simpl. rewrite Hn. simpl.
    destruct (Z.ltb_spec (key n) k); [|lia].
    apply IH; [done..|simpl in Hfuel; lia].
Qed.
End HeapFacts.

(** ** Lists of entries *)

Lemma at_level_app i (A B : list entry) :
  at_level i (A ++ B) = at_level i A ++ at_level i B.
Proof. unfold at_level. by rewrite filter_app, fmap_app. Qed.

Lemma at_level_cons i e (l : list entry) :
  at_level i (e :: l) =
  if decide (i ≤ e_level e) then e_addr e :: at_level i l else at_level i l.
Proof. unfold at_level. rewrite filter_cons. by case_decide. Qed.

Lemma at_level_elem i (l : list entry) a :
  a ∈ at_level i l ↔ ∃ e, e ∈ l ∧ e_addr e = a ∧ i ≤ e_level e.
Proof.
  unfold at_level. rewrite list_elem_of_fmap. split.
  - intros (e & -> & He). apply list_elem_of_filter in He. naive_solver.
  - intros (e & He & <- & Hi). exists e. split; [done|].
    by apply list_elem_of_filter.
Qed.

Lemma at_level_zero (l : list entry) : at_level 0 l = e_addr <$> l.
Proof.
  unfold at_level. f_equal. induction l as [|e l IH]; [done|].
  rewrite filter_cons_True by lia. by rewrite IH.
Qed.

Lemma at_level_nil_above i (l : list entry) :
  (∀ e, e ∈ l → e_level e < i) → at_level i l = [].
Proof.
  intros H. induction l as [|e l IH]; [done|].
  rewrite at_level_cons. rewrite decide_False.
  - apply IH. intros e' He'. apply H. set_solver.
  - assert (e_level e < i) by (apply H; set_solver). lia.
Qed.

Lemma at_level_nil_inv i (l : list entry) e :
  at_level i l = [] → e ∈ l → e_level e < i.
Proof.
  intros Hnil He. destruct (decide (i ≤ e_level e)) as [Hle|]; [|lia].
  assert (e_addr e ∈ at_level i l) as Hin by (apply at_level_elem; eauto).
  rewrite Hnil in Hin. by apply elem_of_nil in Hin.
Qed.

Lemma at_level_subseteq i (l : list entry) a :
  a ∈ at_level (S i) l → a ∈ at_level i l.
Proof.
  rewrite !at_level_elem. intros (e & ? & ? & ?). exists e. repeat split; [done..|lia].
Qed.

Lemma at_level_NoDup i (l : list entry) :
  NoDup (e_addr <$> l) → NoDup (at_level i l).
Proof.
  intros H. induction l as [|e l IH]; [constructor|].
  rewrite fmap_cons in H. apply NoDup_cons in H as [Hnin Hnd].
  rewrite at_level_cons. case_decide; [|by apply IH].
  apply NoDup_cons. split; [|by apply IH].
  intros (e' & He' & Haddr & _)%at_level_elem. apply Hnin.
  apply list_elem_of_fmap. eauto.
Qed.

Lemma max_list_with_app {A} (f : A → nat) (l1 l2 : list A) :
  max_list_with f (l1 ++ l2) = max_list_with f l1 `max` max_list_with f l2.
Proof. induction l1 as [|x l1 IH]; simpl; [done|]. rewrite IH. lia. Qed.

Lemma max_list_with_elem {A} (f : A → nat) (l : list A) x :
  x ∈ l → f x ≤ max_list_with f l.
Proof.
  induction 1 as [|x y l _ IH]; simpl; lia.
Qed.

Lemma max_list_with_bound {A} (f : A → nat) (l : list A) m :
  (∀ x, x ∈ l → f x ≤ m) → max_list_with f l ≤ m.
Proof.
  induction l as [|x l IH]; simpl; intros H; [lia|].
  assert (f x ≤ m) by (apply H; set_solver).
  assert (max_list_with f l ≤ m) by (apply IH; intros; apply H; set_solver).
  lia.
Qed.

Lemma max_list_with_attained {A} (f : A → nat) (l : list A) :
  l ≠ [] → ∃ x, x ∈ l ∧ f x = max_list_with f l.
Proof.
  induction l as [|x l IH]; [done|]. intros _. simpl.
  destruct l as [|y l].
  - exists x. split; [set_solver|]. simpl. lia.
  - destruct IH as (z & Hz & Hfz); [done|].
    destruct (decide (f x ≤ max_list_with f (y :: l))).
    + exists z. split; [set_solver|]. lia.
    + exists x. split; [set_solver|]. lia.
Qed.

(** A sorted sequence splits at any key. *)
Lemma sorted_split (k : Z) (l : list entry) :
  StronglySorted Z.lt (e_key <$> l) →
  ∃ lt ge, l = lt ++ ge ∧ Forall (λ e, (e_key e < k)%Z) lt
           ∧ Forall (λ e, (k ≤ e_key e)%Z) ge.
Proof.
  induction l as [|e l IH]; intros Hs.
  - exists [], []. by repeat split.
  - rewrite fmap_cons in Hs. apply StronglySorted_cons in Hs as [Hall Hs].
    destruct (decide (e_key e < k)%Z) as [Hlt|Hge].
    + destruct (IH Hs) as (lt & ge & -> & Hl & Hg).
      exists (e :: lt), ge. repeat split; [|done]. by constructor.
    + exists [], (e :: l). repeat split; [constructor|].
      constructor; [lia|]. apply Forall_forall. intros e' He'.
      rewrite Forall_forall in Hall.
      assert (e_key e < e_key e')%Z; [|lia].
      apply Hall. apply list_elem_of_fmap. eauto.
Qed.

(** ** Consequences of the invariant *)

Section InvFacts.
Context {P : Type}.
Implicit Types (h : gmap nat (Node P)).

Lemma Inv_level_le h header max_level level l e :
  Inv h header max_level level l → e ∈ l → e_level e ≤ level.
Proof.
  intros HI He. rewrite (inv_top _ _ _ _ _ HI).
  by apply max_list_with_elem.
Qed.

Lemma Inv_node h header max_level level l e :
  Inv h header max_level level l → e ∈ l →
  ∃ n, h !! e_addr e = Some n ∧ key n = e_key e
       ∧ node_level n = e_level e ∧ length (forward n) = S (e_level e).
Proof. intros HI He. by apply shape_key, (inv_nodes _ _ _ _ _ HI). Qed.

Lemma Inv_at_level_nil h header max_level level l i :
  Inv h header max_level level l → level < i → at_level i l = [].
Proof.
  intros HI Hi. apply at_level_nil_above. intros e He.
  pose proof (Inv_level_le _ _ _ _ _ _ HI He). lia.
Qed.

(** The fuel [size h] exceeds the number of live nodes. *)
Lemma Inv_fuel h header max_level level l :
  Inv h header max_level level l → length l < size h.
Proof.
  intros HI.
  pose proof (inv_nodup _ _ _ _ _ HI) as Hnd.
  assert (S (length l) = size (list_to_set (C := gset nat)
                                 (header :: (e_addr <$> l)))) as Hlen.
  { rewrite size_list_to_set by done. simpl. by rewrite length_fmap. }
  assert (list_to_set (C := gset nat) (header :: (e_addr <$> l)) ⊆ dom h)
    as Hsub.
  { intros a Ha. apply elem_of_list_to_set in Ha. apply elem_of_dom.
    apply elem_of_cons in Ha as [->|Ha].
    - destruct (inv_header _ _ _ _ _ HI) as (n & -> & _). eauto.
    - apply list_elem_of_fmap in Ha as (e & -> & He).
      destruct (Inv_node _ _ _ _ _ _ HI He) as (n & -> & _). eauto. }
  apply subseteq_size in Hsub. rewrite size_dom in Hsub. lia.
Qed.

(** The invariant only looks at the links and the shapes. *)
Lemma Inv_ext h h' header max_level level l :
  (∀ a i, fwd h' a i = fwd h a i) →
  (∀ a, shape <$> h' !! a = shape <$> h !! a) →
  Inv h header max_level level l → Inv h' header max_level level l.
Proof.
  intros Hf Hs HI. destruct HI as [H1 H2 H3 H4 H5 H6 H7].
  split; [done|done| | |done|done|].
  - intros e He. rewrite Hs. by apply H3.
  - destruct H4 as (n & Hn & Hlen).
    specialize (Hs header). rewrite Hn in Hs. simpl in Hs.
    destruct (h' !! header) as [n'|]; [|done]. simpl in Hs.
    exists n'. split; [done|]. unfold shape in Hs. congruence.
  - intros i Hi. eapply seg_ext; [|by apply H7]. intros; apply Hf.
Qed.
End InvFacts.

(** ** Searching a well-formed list *)

Lemma last_last_of c (A : list nat) : last (c :: A) = Some (last_of c A).
Proof.
  destruct (last_of_split c A) as [X HX]. rewrite HX at 1. apply last_snoc.
Qed.

Lemma last_of_suffix c (A X Y : list nat) cur :
  c :: A = X ++ cur :: Y → last_of c A = last_of cur Y.
Proof.
  intros H. assert (last (c :: A) = last (cur :: Y)) as Hl.
  { rewrite H. by rewrite last_app, last_last_of. }
  rewrite !last_last_of in Hl. congruence.
Qed.

Section Search.
Context {P : Type}.
Variables (h : gmap nat (Node P)) (header max_level level : nat).
Variables (lt ge : list entry) (k : Z).
Hypothesis HI : Inv h header max_level level (lt ++ ge).
Hypothesis Hlt : Forall (λ e, (e_key e < k)%Z) lt.
Hypothesis Hge : Forall (λ e, (k ≤ e_key e)%Z) ge.

Lemma lt_node a i :
  a ∈ at_level i lt → ∃ n, h !! a = Some n ∧ (key n < k)%Z.
Proof.
  intros (e & He & <- & _)%at_level_elem.
  destruct (Inv_node _ _ _ _ _ e HI) as (n & Hn & Hk & _); [set_solver|].
  exists n. split; [done|]. rewrite Hk.
  rewrite Forall_forall in Hlt. by apply Hlt.
Qed.

Lemma ge_node a i :
  a ∈ at_level i ge → ∃ n, h !! a = Some n ∧ (k ≤ key n)%Z.
Proof.
  intros (e & He & <- & _)%at_level_elem.
  destruct (Inv_node _ _ _ _ _ e HI) as (n & Hn & Hk & _); [set_solver|].
  exists n. split; [done|]. rewrite Hk.
  rewrite Forall_forall in Hge. by apply Hge.
Qed.

Lemma at_level_length i (l : list entry) : length (at_level i l) ≤ length l.
Proof. unfold at_level. rewrite length_fmap. apply length_filter. Qed.

Lemma level_seg i :
  i ≤ max_level →
  seg h i (header :: at_level i lt ++ at_level i ge) None.
Proof.
  intros Hi. rewrite <- at_level_app. by apply (inv_chain _ _ _ _ _ HI).
Qed.

Lemma pred_at_elem i : pred_at header lt i ∈ header :: at_level i lt.
Proof. apply last_of_elem. Qed.

Lemma pred_at_below i :
  pred_at header lt (S i) ∈ header :: at_level i lt.
Proof.
  pose proof (pred_at_elem (S i)) as H.
  apply elem_of_cons in H as [->|H]; [set_solver|].
  apply elem_of_cons. right. by apply at_level_subseteq.
Qed.

Lemma pred_at_above i : level < i → pred_at header lt i = header.
Proof.
  intros Hi. unfold pred_at.
  pose proof (Inv_at_level_nil _ _ _ _ _ i HI Hi) as Hnil.
  rewrite at_level_app in Hnil. apply app_eq_nil in Hnil as [-> _]. done.
Qed.

(** The pointer behind the predecessor on level [i]. *)
Lemma fwd_pred_at i :
  i ≤ max_level →
  fwd h (pred_at header lt i) i = Some (next_of (at_level i ge) None).
Proof.
  intros Hi. pose proof (level_seg i Hi) as Hseg.
  destruct (last_of_split header (at_level i lt)) as [X HX].
  rewrite app_comm_cons, HX in Hseg.
  apply seg_app in Hseg as [Hseg _].
  apply seg_snoc in Hseg as [_ Hp]. done.
Qed.

Lemma advance_level i cur fuel :
  i ≤ max_level → cur ∈ header :: at_level i lt →
  length (lt ++ ge) < fuel →
  advance fuel h i k cur = Some (pred_at header lt i).
Proof.
  intros Hi Hcur Hfuel.
  apply list_elem_of_split in Hcur as (X & Y & HXY).
  pose proof (level_seg i Hi) as Hseg.
  rewrite app_comm_cons, HXY, <- app_assoc in Hseg.
  apply seg_app in Hseg as [_ Hseg]. rewrite <- app_comm_cons in Hseg.
  unfold pred_at. rewrite (last_of_suffix _ _ _ _ _ HXY).
  assert (∀ a, a ∈ Y → a ∈ at_level i lt) as HY.
  { intros a Ha. destruct X as [|x X]; simpl in HXY.
    - injection HXY as _ HXY. by rewrite HXY.
    - injection HXY as _ HXY. rewrite HXY. set_solver. }
  apply advance_spec with (B := at_level i ge); [done| | |].
  - apply Forall_forall. intros a Ha. eapply lt_node. by apply HY.
  - intros b Hb. eapply (ge_node _ i).
    destruct (at_level i ge); simplify_eq/=. set_solver.
  - assert (length Y ≤ length (at_level i lt)).
    { assert (length (header :: at_level i lt) = length (X ++ cur :: Y))
        as Hl by (by rewrite HXY).
      rewrite length_app in Hl. simpl in Hl. lia. }
    pose proof (at_level_length i lt). rewrite length_app in Hfuel. lia.
Qed.

Lemma find_update_spec i : ∀ cur upd fuel,
  i ≤ max_level → i < length upd → cur ∈ header :: at_level i lt →
  length (lt ++ ge) < fuel →
  ∃ upd', find_update fuel h k i cur upd = Some (pred_at header lt 0, upd')
    ∧ length upd' = length upd
    ∧ (∀ j, j ≤ i → upd' !! j = Some (Some (pred_at header lt j)))
    ∧ (∀ j, i < j → upd' !! j = upd !! j).
Proof.
  induction i as [|i IH]; intros cur upd fuel Hi Hlen Hcur Hfuel.
  - simpl. rewrite (advance_level 0 cur fuel) by done. simpl.
    unfold vec_set. rewrite decide_True by done. simpl.
    eexists. split; [done|]. split; [by rewrite length_insert|]. split.
    + intros j Hj. assert (j = 0) as -> by lia.
      by apply list_lookup_insert_eq.
    + intros j Hj. apply list_lookup_insert_ne. lia.
  - simpl. rewrite (advance_level (S i) cur fuel) by done. simpl.
    unfold vec_set. rewrite decide_True by done. simpl.
    destruct (IH (pred_at header lt (S i))
                 (<[S i := Some (pred_at header lt (S i))]> upd) fuel)
      as (upd' & Hfu & Hl & Hlow & Hhigh).
    { lia. } { rewrite length_insert. lia. } { apply pred_at_below. }
    { done. }
    exists upd'. split; [done|]. split; [by rewrite Hl, length_insert|].
    split.
    + intros j Hj. destruct (decide (j = S i)) as [->|].
      * rewrite Hhigh by lia. by apply list_lookup_insert_eq.
      * apply Hlow. lia.
    + intros j Hj. rewrite Hhigh by lia. apply list_lookup_insert_ne. lia.
Qed.

Lemma find_prev_spec i : ∀ cur fuel,
  i ≤ max_level → cur ∈ header :: at_level i lt →
  length (lt ++ ge) < fuel →
  find_prev fuel h k i cur = Some (pred_at header lt 0).
Proof.
  induction i as [|i IH]; intros cur fuel Hi Hcur Hfuel.
  - simpl. by rewrite (advance_level 0 cur fuel) by done.
  - simpl. rewrite (advance_level (S i) cur fuel) by done. simpl.
    apply IH; [lia | apply pred_at_below | done].
Qed.

(** The pointer the level-0 step reads. *)
Lemma fwd_pred_zero :
  fwd h (pred_at header lt 0) 0 = Some (head (e_addr <$> ge)).
Proof.
  rewrite fwd_pred_at by lia. rewrite at_level_zero.
  by destruct (e_addr <$> ge).
Qed.

Lemma header_start i : header ∈ header :: at_level i lt.
Proof. set_solver. Qed.

Lemma find_node_spec :
  find_node h header level k =
  Some (match ge with
        | e :: _ => if decide (e_key e = k) then Some (e_addr e) else None
        | [] => None
        end).
Proof.
  unfold find_node.
  rewrite (find_prev_spec level header (size h)).
  - simpl. rewrite fwd_pred_zero. simpl.
    destruct ge as [|e ge']; [done|]. simpl.
    destruct (Inv_node _ _ _ _ _ e HI) as (n & Hn & Hk & _); [set_solver|].
    rewrite Hn. simpl. rewrite Hk.
    destruct (Z.eqb_spec (e_key e) k); by case_decide.
  - apply (inv_max _ _ _ _ _ HI).
  - apply header_start.
  - by apply (Inv_fuel _ _ _ _ _ HI).
Qed.
End Search.

(** ** The loops over levels *)

Lemma vec_set_Some {A} (l : list A) i x :
  i < length l → vec_set l i x = Some (<[i := x]> l).
Proof. intros H. unfold vec_set. by rewrite decide_True. Qed.

Lemma raise_for_each (x : option nat) : ∀ n a (upd : list (option nat)),
  a + n ≤ length upd →
  ∃ upd', for_each (λ u i, vec_set u i x) upd (seq a n) = Some upd'
    ∧ length upd' = length upd
    ∧ (∀ j, a ≤ j < a + n → upd' !! j = Some x)
    ∧ (∀ j, ¬ (a ≤ j < a + n) → upd' !! j = upd !! j).
Proof.
  induction n as [|n IH]; intros a upd Hlen.
  - exists upd. simpl. split; [done|]. split; [done|]. split; [intros; lia | done].
  - simpl. rewrite vec_set_Some by lia. simpl.
    destruct (IH (S a) (<[a := x]> upd)) as (upd' & Hf & Hl & Hin & Hout).
    { rewrite length_insert. lia. }
    exists upd'. split; [done|]. split; [by rewrite Hl, length_insert|].
    split.
    + intros j Hj. destruct (decide (j = a)) as [->|].
      * rewrite Hout by lia. apply list_lookup_insert_eq. lia.
      * apply Hin. lia.
    + intros j Hj. rewrite Hout by lia. apply list_lookup_insert_ne. lia.
Qed.

Section Splice.
Context {P : Type}.
Implicit Types (h : gmap nat (Node P)).

Lemma splice_level_spec upd node h i p :
  update_at upd i = Some p → p ≠ node →
  is_Some (fwd h p i) → is_Some (fwd h node i) →
  ∃ h', splice_level upd node h i = Some h'
    ∧ (∀ b, shape <$> h' !! b = shape <$> h !! b)
    ∧ (∀ b, payload <$> h' !! b = payload <$> h !! b)
    ∧ (∀ b j, j ≠ i → fwd h' b j = fwd h b j)
    ∧ fwd h' node i = fwd h p i
    ∧ fwd h' p i = Some (Some node)
    ∧ (∀ b, b ≠ node → b ≠ p → fwd h' b i = fwd h b i).
Proof.
  intros Hu Hne [nxt Hp] Hn. unfold splice_level. rewrite Hu. simpl.
  rewrite Hp. simpl.
  destruct (set_forward_is_Some h node i nxt Hn) as [h1 Hh1].
  rewrite Hh1. simpl.
  assert (is_Some (fwd h1 p i)) as Hp1.
  { rewrite (fwd_set_forward _ _ _ _ _ _ _ Hh1).
    rewrite decide_False by naive_solver. eauto. }
  destruct (set_forward_is_Some h1 p i (Some node) Hp1) as [h2 Hh2].
  exists h2. split; [done|].
  split. { intros b. rewrite (shape_set_forward _ _ _ _ _ _ Hh2).
           apply (shape_set_forward _ _ _ _ _ _ Hh1). }
  split. { intros b. rewrite (payload_set_forward _ _ _ _ _ _ Hh2).
           apply (payload_set_forward _ _ _ _ _ _ Hh1). }
  split. { intros b j Hj. rewrite (fwd_set_forward _ _ _ _ _ _ _ Hh2).
           rewrite decide_False by naive_solver.
           rewrite (fwd_set_forward _ _ _ _ _ _ _ Hh1).
           by rewrite decide_False by naive_solver. }
  split. { rewrite (fwd_set_forward _ _ _ _ _ _ _ Hh2).
           rewrite decide_False by naive_solver.
           rewrite (fwd_set_forward _ _ _ _ _ _ _ Hh1).
           by rewrite decide_True by done. }
  split. { rewrite (fwd_set_forward _ _ _ _ _ _ _ Hh2).
           by rewrite decide_True by done. }
  intros b Hb1 Hb2. rewrite (fwd_set_forward _ _ _ _ _ _ _ Hh2).
  rewrite decide_False by naive_solver.
  rewrite (fwd_set_forward _ _ _ _ _ _ _ Hh1).
  by rewrite decide_False by naive_solver.
Qed.

Lemma splice_for_each upd node : ∀ n a h,
  (∀ j, a ≤ j < a + n → ∃ p, update_at upd j = Some p ∧ p ≠ node
                             ∧ is_Some (fwd h p j)
                             ∧ is_Some (fwd h node j)) →
  ∃ h', for_each (splice_level upd node) h (seq a n) = Some h'
    ∧ (∀ b, shape <$> h' !! b = shape <$> h !! b)
    ∧ (∀ b, payload <$> h' !! b = payload <$> h !! b)
    ∧ (∀ b j, ¬ (a ≤ j < a + n) → fwd h' b j = fwd h b j)
    ∧ (∀ j p, a ≤ j < a + n → update_at upd j = Some p →
         fwd h' node j = fwd h p j ∧ fwd h' p j = Some (Some node)
         ∧ ∀ b, b ≠ node → b ≠ p → fwd h' b j = fwd h b j).
Proof.
  induction n as [|n IH]; intros a h Hpre.
  - exists h. simpl. split; [done|]. split; [done|]. split; [done|].
    split; [done|]. intros; lia.
  - simpl.
    destruct (Hpre a) as (p & Hu & Hne & Hp & Hn); [lia|].
    destruct (splice_level_spec upd node h a p Hu Hne Hp Hn)
      as (h1 & Hs & Hsh1 & Hpl1 & Hoth1 & Hnode1 & Hp1 & Hrest1).
    rewrite Hs. simpl.
    destruct (IH (S a) h1) as (h2 & Hf & Hsh2 & Hpl2 & Hout2 & Hin2).
    { intros j Hj. destruct (Hpre j) as (q & Hq & Hqn & Hq1 & Hq2); [lia|].
      exists q. rewrite !Hoth1 by lia. done. }
    exists h2. split; [done|].
    split. { intros b. by rewrite Hsh2. }
    split. { intros b. by rewrite Hpl2. }
    split. { intros b j Hj. rewrite Hout2 by lia. apply Hoth1. lia. }
    intros j q Hj Hq. destruct (decide (j = a)) as [->|Hja].
    + assert (q = p) as -> by congruence.
      rewrite !Hout2 by lia. split; [done|]. split; [done|].
      intros b Hb1 Hb2. rewrite Hout2 by lia. by apply Hrest1.
    + destruct (Hin2 j q) as (H1 & H2 & H3); [lia|done|].
      rewrite H1, H2. rewrite Hoth1 by done. split; [done|].
      split; [done|]. intros b Hb1 Hb2. rewrite H3 by done.
      by apply Hoth1.
Qed.
End Splice.

(** ** Insertion keeps the invariant *)

Section InvFacts2.
Context {P : Type}.
Implicit Types (h : gmap nat (Node P)).

Lemma Inv_level_NoDup h header max_level level l i :
  Inv h header max_level level l → NoDup (header :: at_level i l).
Proof.
  intros HI. pose proof (inv_nodup _ _ _ _ _ HI) as Hnd.
  apply NoDup_cons in Hnd as [Hnin Hnd]. apply NoDup_cons. split.
  - intros (e & He & Ha & _)%at_level_elem. apply Hnin.
    apply list_elem_of_fmap. eauto.
  - by apply at_level_NoDup.
Qed.

Lemma Inv_live h header max_level level l a i :
  Inv h header max_level level l → a ∈ header :: at_level i l →
  is_Some (h !! a).
Proof.
  intros HI Ha. apply elem_of_cons in Ha as [->|Ha].
  - destruct (inv_header _ _ _ _ _ HI) as (n & -> & _). eauto.
  - apply at_level_elem in Ha as (e & He & <- & _).
    destruct (Inv_node _ _ _ _ _ _ HI He) as (n & -> & _). eauto.
Qed.

Lemma fwd_insert_node h node (n : Node P) b j :
  fwd (<[node := n]> h) b j =
  if decide (b = node) then forward n !! j else fwd h b j.
Proof.
  unfold fwd. case_decide as Hb.
  - subst. by rewrite lookup_insert_eq.
  - by rewrite lookup_insert_ne.
Qed.
End InvFacts2.

Section Insert.
Context {P : Type}.
Variables (h : gmap nat (Node P)) (header max_level level : nat).
Variables (lt ge : list entry) (k : Z).
Hypothesis HI : Inv h header max_level level (lt ++ ge).
Hypothesis Hlt : Forall (λ e, (e_key e < k)%Z) lt.
Hypothesis Hge : Forall (λ e, (k < e_key e)%Z) ge.
Variables (node rl : nat) (p : P) (upd : list (option nat)).
Hypothesis Hfresh : h !! node = None.
Hypothesis Hrl : rl ≤ max_level.
Hypothesis Hupd :
  ∀ j, j ≤ rl → upd !! j = Some (Some (pred_at header lt j)).

Lemma node_not_live a i :
  a ∈ header :: at_level i (lt ++ ge) → a ≠ node.
Proof.
  intros Ha ->. destruct (Inv_live _ _ _ _ _ _ _ HI Ha) as [n Hn].
  congruence.
Qed.

Lemma pred_live j : pred_at header lt j ∈ header :: at_level j (lt ++ ge).
Proof.
  pose proof (last_of_elem header (at_level j lt)) as H.
  rewrite at_level_app. fold (pred_at header lt j) in H. set_solver.
Qed.

Lemma sorted_insert :
  StronglySorted Z.lt (e_key <$> lt ++ mkEntry node k rl :: ge).
Proof.
  pose proof (inv_sorted _ _ _ _ _ HI) as Hs.
  rewrite fmap_app in Hs. apply StronglySorted_app in Hs as (H12 & H1 & H2).
  rewrite fmap_app, fmap_cons. apply StronglySorted_app. split; [|split].
  - intros x1 x2 Hx1 Hx2. simpl in Hx2.
    apply elem_of_cons in Hx2 as [->|Hx2]; [|by apply H12].
    apply list_elem_of_fmap in Hx1 as (e & -> & He).
    rewrite Forall_forall in Hlt. by apply Hlt.
  - done.
  - apply StronglySorted_cons. split; [|done]. simpl.
    apply Forall_fmap, Forall_forall. intros e He. simpl.
    rewrite Forall_forall in Hge. by apply Hge.
Qed.

Lemma insert_Inv :
  ∃ h2, splice upd node (<[node := new_node k rl p]> h) rl = Some h2
    ∧ Inv h2 header max_level (level `max` rl)
          (lt ++ mkEntry node k rl :: ge)
    ∧ (∀ b, payload <$> h2 !! b
            = payload <$> (<[node := new_node k rl p]> h) !! b).
Proof.
  set (h1 := <[node := new_node k rl p]> h).
  assert (∀ b j, b ≠ node → fwd h1 b j = fwd h b j) as Hfwd1.
  { intros b j Hb. unfold h1. rewrite fwd_insert_node.
    by rewrite decide_False. }
  assert (∀ j, j ≤ rl → fwd h1 node j = Some None) as Hnew.
  { intros j Hj. unfold h1. rewrite fwd_insert_node, decide_True by done.
    unfold new_node. cbn [forward]. apply lookup_replicate_2. lia. }
  assert (∀ j, j ≤ rl → update_at upd j = Some (pred_at header lt j))
    as Hua.
  { intros j Hj. unfold update_at. by rewrite Hupd. }
  destruct (splice_for_each upd node (S rl) 0 h1)
    as (h2 & Hsp & Hsh & Hpl & Hout & Hin).
  { intros j Hj. exists (pred_at header lt j).
    split; [apply Hua; lia|].
    assert (pred_at header lt j ≠ node) as Hne
      by (eapply node_not_live, pred_live).
    split; [done|]. split.
    - rewrite Hfwd1 by done. rewrite (fwd_pred_at h header max_level level
        lt ge HI) by lia. eauto.
    - rewrite Hnew by lia. eauto. }
  exists h2. split; [done|]. split; [|done].
  assert (∀ b, b ≠ node → shape <$> h2 !! b = shape <$> h !! b) as Hsh'.
  { intros b Hb. rewrite Hsh. unfold h1. by rewrite lookup_insert_ne. }
  split.
  - (* no address twice *)
    pose proof (inv_nodup _ _ _ _ _ HI) as Hnd.
    rewrite fmap_app, fmap_cons. simpl.
    apply NoDup_cons in Hnd as [Hh Hnd]. rewrite fmap_app in Hh, Hnd.
    assert (node ∉ e_addr <$> (lt ++ ge)) as Hnode.
    { intros (e & He1 & He2)%list_elem_of_fmap.
      destruct (Inv_node _ _ _ _ _ _ HI He2) as (n & Hn & _).
      congruence. }
    rewrite fmap_app in Hnode.
    apply NoDup_cons. split.
    + rewrite elem_of_app, elem_of_cons.
      intros [?|[?|?]]; [set_solver| |set_solver].
      destruct (inv_header _ _ _ _ _ HI) as (n & Hn & _). congruence.
    + apply NoDup_app in Hnd as (N1 & N2 & N3).
      apply NoDup_app. split; [done|]. split.
      * intros x Hx1 Hx2. apply elem_of_cons in Hx2 as [->|Hx2].
        -- apply Hnode. set_solver.
        -- by apply (N2 x).
      * apply NoDup_cons. split; [|done]. set_solver.
  - apply sorted_insert.
  - intros e He. apply elem_of_app in He as [He|He];
      [|apply elem_of_cons in He as [->|He]].
    + rewrite Hsh'. { apply (inv_nodes _ _ _ _ _ HI). set_solver. }
      apply (node_not_live _ 0). rewrite at_level_zero.
      apply elem_of_cons. right. apply list_elem_of_fmap. exists e.
      split; [done|set_solver].
    + simpl. rewrite Hsh. unfold h1. rewrite lookup_insert_eq. simpl.
      unfold shape. simpl. by rewrite length_replicate.
    + rewrite Hsh'. { apply (inv_nodes _ _ _ _ _ HI). set_solver. }
      apply (node_not_live _ 0). rewrite at_level_zero.
      apply elem_of_cons. right. apply list_elem_of_fmap. exists e.
      split; [done|set_solver].
  - destruct (inv_header _ _ _ _ _ HI) as (n & Hn & Hlen).
    assert (header ≠ node) as Hhn by congruence.
    specialize (Hsh' header Hhn). rewrite Hn in Hsh'. simpl in Hsh'.
    destruct (h2 !! header) as [n'|]; [|done]. exists n'.
    split; [done|]. simpl in Hsh'. unfold shape in Hsh'. congruence.
  - pose proof (inv_max _ _ _ _ _ HI). lia.
  - rewrite max_list_with_app. simpl.
    rewrite (inv_top _ _ _ _ _ HI), max_list_with_app. lia.
  - intros i Hi.
    pose proof (level_seg h header max_level level lt ge HI i Hi) as Hseg.
    pose proof (Inv_level_NoDup _ _ _ _ _ i HI) as Hnd.
    rewrite at_level_app in Hnd.
    rewrite at_level_app, at_level_cons. cbn [e_level e_addr].
    destruct (last_of_split header (at_level i lt)) as [X HX].
    fold (pred_at header lt i) in HX.
    rewrite app_comm_cons, HX in Hseg, Hnd.
    assert (∀ a, a ∈ X ++ [pred_at header lt i] ++ at_level i ge →
                 a ≠ node) as Hlive.
    { intros a Ha. apply (node_not_live a i).
      rewrite at_level_app, app_comm_cons, HX. by rewrite <- app_assoc. }
    destruct (decide (i ≤ rl)) as [Hirl|Hirl].
    + apply seg_app in Hseg as [Hseg HB].
      apply seg_snoc in Hseg as [HX' Hp].
      destruct (Hin i (pred_at header lt i)) as (Hn1 & Hn2 & Hn3);
        [lia | by apply Hua |].
      apply NoDup_app in Hnd as (Hnd1 & Hnd2 & _).
      apply NoDup_app in Hnd1 as (_ & Hnd1 & _).
      rewrite app_comm_cons, HX. apply seg_app. split.
      * apply seg_snoc. split; [|done].
        eapply seg_ext; [|exact HX']. intros a Ha.
        rewrite Hn3, Hfwd1; [done| | |].
        -- apply Hlive. set_solver.
        -- apply Hlive. set_solver.
        -- intros ->. apply (Hnd1 _ Ha). set_solver.
      * simpl. split.
        -- rewrite Hn1, Hfwd1; [done|]. apply Hlive. set_solver.
        -- eapply seg_ext; [|exact HB]. intros a Ha.
           rewrite Hn3, Hfwd1; [done| | |].
           ++ apply Hlive. set_solver.
           ++ apply Hlive. set_solver.
           ++ intros ->. apply (Hnd2 (pred_at header lt i)); set_solver.
    + rewrite app_comm_cons, HX.
      eapply seg_ext; [|exact Hseg]. intros a Ha.
      rewrite Hout by lia. apply Hfwd1. apply Hlive.
      by rewrite <- app_assoc in Ha.
Qed.
End Insert.

(** ** Removal keeps the invariant *)

Section Unsplice.
Context {P : Type}.
Implicit Types (h : gmap nat (Node P)).

Lemma unsplice_spec upd cur L : ∀ n i h,
  (∀ j, i ≤ j < i + n → j ≤ L →
     ∃ p, update_at upd j = Some p ∧ fwd h p j = Some (Some cur)
          ∧ is_Some (fwd h cur j)) →
  (∀ j, i ≤ j < i + n → L < j →
     ∃ p nxt, update_at upd j = Some p ∧ fwd h p j = Some nxt
              ∧ nxt ≠ Some cur) →
  ∃ h', unsplice upd cur h i n = Some h'
    ∧ (∀ b, shape <$> h' !! b = shape <$> h !! b)
    ∧ (∀ b, payload <$> h' !! b = payload <$> h !! b)
    ∧ (∀ b j, ¬ (i ≤ j < i + n ∧ j ≤ L) → fwd h' b j = fwd h b j)
    ∧ (∀ j p, i ≤ j < i + n → j ≤ L → update_at upd j = Some p →
         fwd h' p j = fwd h cur j
         ∧ ∀ b, b ≠ p → fwd h' b j = fwd h b j).
Proof.
  induction n as [|n IH]; intros i h Hlow Hhigh.
  - exists h. simpl. split; [done|]. split; [done|]. split; [done|].
    split; [done|]. intros; lia.
  - simpl. destruct (decide (i ≤ L)) as [HiL|HiL].
    + destruct (Hlow i) as (p & Hu & Hp & [after Hc]); [lia|done|].
      rewrite Hu. simpl. rewrite Hp. simpl.
      rewrite decide_True by done. rewrite Hc. simpl.
      destruct (set_forward_is_Some h p i after) as [h1 Hh1]; [eauto|].
      rewrite Hh1. simpl.
      assert (∀ b j, j ≠ i → fwd h1 b j = fwd h b j) as Hoth.
      { intros b j Hj. rewrite (fwd_set_forward _ _ _ _ _ _ _ Hh1).
        by rewrite decide_False by naive_solver. }
      destruct (IH (S i) h1) as (h2 & Hun & Hsh & Hpl & Hout & Hin).
      { intros j Hj HjL. destruct (Hlow j) as (q & ? & ? & ?); [lia|done|].
        exists q. rewrite !Hoth by lia. done. }
      { intros j Hj HjL. destruct (Hhigh j) as (q & x & ? & ? & ?);
          [lia|done|]. exists q, x. rewrite !Hoth by lia. done. }
      exists h2. split; [done|].
      split. { intros b. rewrite Hsh.
               apply (shape_set_forward _ _ _ _ _ _ Hh1). }
      split. { intros b. rewrite Hpl.
               apply (payload_set_forward _ _ _ _ _ _ Hh1). }
      split. { intros b j Hj. rewrite Hout by lia. apply Hoth. lia. }
      intros j q Hj HjL Hq. destruct (decide (j = i)) as [->|Hji].
      * assert (q = p) as -> by congruence.
        rewrite Hout by lia. rewrite (fwd_set_forward _ _ _ _ _ _ _ Hh1).
        rewrite decide_True by done. split; [done|].
        intros b Hb. rewrite Hout by lia.
        rewrite (fwd_set_forward _ _ _ _ _ _ _ Hh1).
        by rewrite decide_False by naive_solver.
      * destruct (Hin j q) as [H1 H2]; [lia|done|done|].
        rewrite H1, Hoth by done. split; [done|].
        intros b Hb. rewrite H2 by done. by apply Hoth.
    + destruct (Hhigh i) as (p & nxt & Hu & Hp & Hne); [lia|lia|].
      rewrite Hu. simpl. rewrite Hp. simpl.
      rewrite decide_False by done.
      exists h. split; [done|]. split; [done|]. split; [done|].
      split; [done|]. intros; lia.
Qed.

Lemma lower_level_spec h header (l : list entry) : ∀ level,
  (∀ j, j ≤ level →
     fwd h header j = Some (next_of (at_level j l) None)) →
  (∀ e, e ∈ l → e_level e ≤ level) →
  lower_level h header level = Some (max_list_with e_level l).
Proof.
  induction level as [|j IH]; intros Hf Hle.
  - simpl. f_equal. symmetry.
    assert (max_list_with e_level l ≤ 0); [|lia].
    by apply max_list_with_bound.
  - simpl. rewrite Hf by done. simpl.
    destruct (at_level (S j) l) as [|a rest] eqn:Hat; simpl.
    + apply IH; [intros; apply Hf; lia|].
      intros e He. pose proof (at_level_nil_inv _ _ _ Hat He). lia.
    + f_equal. apply Nat.le_antisymm.
      * assert (a ∈ at_level (S j) l) as Ha by (rewrite Hat; set_solver).
        apply at_level_elem in Ha as (e & He & _ & Hlv).
        pose proof (max_list_with_elem e_level l e He). lia.
      * by apply max_list_with_bound.
Qed.
End Unsplice.

Section Delete.
Context {P : Type}.
Variables (h : gmap nat (Node P)) (header max_level level : nat).
Variables (lt ge : list entry) (e : entry).
Hypothesis HI : Inv h header max_level level (lt ++ e :: ge).
Variable (upd : list (option nat)).
Hypothesis Hupd :
  ∀ j, j ≤ level → upd !! j = Some (Some (pred_at header lt j)).

Lemma delete_Inv :
  ∃ h1 level',
    unsplice upd (e_addr e) h 0 (S level) = Some h1
    ∧ lower_level h1 header level = Some level'
    ∧ Inv (delete (e_addr e) h1) header max_level level' (lt ++ ge)
    ∧ (∀ b, b ≠ e_addr e →
         payload <$> delete (e_addr e) h1 !! b = payload <$> h !! b).
Proof.
  set (cur := e_addr e). set (L := e_level e).
  assert (∀ j, j ≤ level → update_at upd j = Some (pred_at header lt j))
    as Hua.
  { intros j Hj. unfold update_at. by rewrite Hupd. }
  pose proof (inv_max _ _ _ _ _ HI) as Hmax.
  assert (L ≤ level) as HL.
  { apply (Inv_level_le _ _ _ _ _ e HI). set_solver. }
  assert (∀ i, i ≤ max_level →
    ∃ X, header :: at_level i lt = X ++ [pred_at header lt i]
      ∧ seg h i X (Some (pred_at header lt i))
      ∧ fwd h (pred_at header lt i) i
          = Some (next_of (at_level i (e :: ge)) None)
      ∧ seg h i (at_level i (e :: ge)) None
      ∧ NoDup (X ++ [pred_at header lt i] ++ at_level i (e :: ge)))
    as Hlev.
  { intros i Hi.
    pose proof (level_seg h header max_level level lt (e :: ge) HI i Hi)
      as Hseg.
    pose proof (Inv_level_NoDup _ _ _ _ _ i HI) as Hnd.
    rewrite at_level_app in Hnd.
    destruct (last_of_split header (at_level i lt)) as [X HX].
    fold (pred_at header lt i) in HX. exists X. split; [done|].
    rewrite app_comm_cons, HX in Hseg, Hnd.
    apply seg_app in Hseg as [Hseg HB].
    apply seg_snoc in Hseg as [HX' Hp].
    rewrite <- app_assoc in Hnd. done. }
  destruct (unsplice_spec upd cur L (S level) 0 h)
    as (h1 & Hun & Hsh & Hpl & Hout & Hin).
  { intros j Hj HjL. exists (pred_at header lt j).
    split; [apply Hua; lia|].
    destruct (Hlev j) as (X & HX & HX' & Hp & HB & Hnd); [lia|].
    rewrite at_level_cons, decide_True in Hp, HB by done.
    split; [done|]. simpl in HB. destruct HB as [HB _]. eauto. }
  { intros j Hj HjL. exists (pred_at header lt j).
    destruct (Hlev j) as (X & HX & HX' & Hp & HB & Hnd); [lia|].
    rewrite at_level_cons, decide_False in Hp, Hnd by (fold L; lia).
    eexists. split; [apply Hua; lia|]. split; [done|].
    destruct (at_level j ge) as [|b rest] eqn:Hat; simpl; [done|].
    intros [= ->].
    pose proof (Inv_level_NoDup _ _ _ _ _ 0 HI) as Hnd0.
    rewrite at_level_zero, fmap_app, fmap_cons in Hnd0.
    apply NoDup_cons in Hnd0 as [_ Hnd0].
    apply NoDup_app in Hnd0 as (_ & _ & Hnd0).
    apply NoDup_cons in Hnd0 as [Hnin _]. apply Hnin.
    assert (cur ∈ at_level j ge) as Hc by (rewrite Hat; set_solver).
    apply at_level_elem in Hc as (e' & He' & Ha' & _).
    apply list_elem_of_fmap. eauto. }
  assert (∀ i, i ≤ max_level →
            seg h1 i (header :: at_level i (lt ++ ge)) None
            ∧ ∀ a, a ∈ header :: at_level i (lt ++ ge) → a ≠ cur)
    as Hchain.
  { intros i Hi.
    destruct (Hlev i Hi) as (X & HX & HX' & Hp & HB & Hnd).
    rewrite at_level_app, app_comm_cons, HX.
    rewrite at_level_cons in Hp, HB, Hnd.
    destruct (decide (i ≤ e_level e)) as [HiL|HiL].
    - simpl in HB. destruct HB as [Hc HB].
      destruct (Hin i (pred_at header lt i)) as [H1 H2];
        [lia | done | apply Hua; lia |].
      apply NoDup_app in Hnd as (_ & Hnd1 & Hnd).
      apply NoDup_app in Hnd as (_ & Hnd2 & Hnd).
      apply NoDup_cons in Hnd as [Hnd3 _].
      split.
      + apply seg_app. split.
        * apply seg_snoc. split.
          -- eapply seg_ext; [|exact HX']. intros a Ha. apply H2.
             intros ->. apply (Hnd1 _ Ha). set_solver.
          -- rewrite H1. exact Hc.
        * eapply seg_ext; [|exact HB]. intros a Ha. apply H2.
          intros ->. apply (Hnd2 (pred_at header lt i)); set_solver.
      + intros a Ha ->. rewrite <- app_assoc in Ha.
        apply elem_of_app in Ha as [Ha|Ha].
        * apply (Hnd1 _ Ha). set_solver.
        * apply elem_of_app in Ha as [Ha|Ha]; [|done].
          apply (Hnd2 cur); set_solver.
    - split.
      + eapply seg_ext; [intros a Ha; apply Hout; fold L; lia|].
        apply seg_app. split; [|done]. apply seg_snoc. by split.
      + intros a Ha ->.
        pose proof (Inv_level_NoDup _ _ _ _ _ 0 HI) as Hnd0.
        rewrite at_level_zero, fmap_app, fmap_cons in Hnd0.
        assert (cur ∈ header :: (e_addr <$> lt) ++ (e_addr <$> ge))
          as Hc.
        { rewrite <- HX, <- app_comm_cons, <- at_level_app in Ha.
          apply elem_of_cons in Ha as [Ha|Ha]; [set_solver|].
          apply at_level_elem in Ha as (e' & He' & Ha' & _).
          apply elem_of_cons. right. rewrite <- fmap_app.
          apply list_elem_of_fmap. eauto. }
        apply NoDup_cons in Hnd0 as [Hh Hnd0].
        apply NoDup_app in Hnd0 as (_ & Hd1 & Hd2).
        apply NoDup_cons in Hd2 as [Hd2 _].
        apply elem_of_cons in Hc as [Hc|Hc].
        * apply Hh. rewrite <- Hc. set_solver.
        * apply elem_of_app in Hc as [Hc|Hc]; [|done].
          apply (Hd1 _ Hc). set_solver. }
  assert (lower_level h1 header level
          = Some (max_list_with e_level (lt ++ ge))) as Hlow.
  { apply lower_level_spec.
    - intros j Hj. destruct (Hchain j) as [Hs _]; [lia|].
      simpl in Hs. by destruct Hs as [Hs _].
    - intros e' He'. apply (Inv_level_le _ _ _ _ _ e' HI). set_solver. }
  exists h1, (max_list_with e_level (lt ++ ge)).
  split; [done|]. split; [done|].
  assert (∀ b j, b ≠ cur → fwd (delete cur h1) b j = fwd h1 b j) as Hfd.
  { intros b j Hb. unfold fwd. by rewrite lookup_delete_ne. }
  assert (∀ e', e' ∈ lt ++ ge → e_addr e' ≠ cur) as Hne.
  { intros e' He'. destruct (Hchain 0) as [_ Hc]; [lia|]. apply Hc.
    rewrite at_level_zero. apply elem_of_cons. right.
    apply list_elem_of_fmap. eauto. }
  split; [|intros b Hb; by rewrite lookup_delete_ne, Hpl].
  split.
  - pose proof (inv_nodup _ _ _ _ _ HI) as Hnd.
    apply NoDup_cons in Hnd as [Hh Hnd]. rewrite fmap_app, fmap_cons in *.
    apply NoDup_cons. split; [set_solver|].
    apply NoDup_app in Hnd as (N1 & N2 & N3).
    apply NoDup_cons in N3 as [_ N3].
    apply NoDup_app. split; [done|]. split; [|done].
    intros x Hx1 Hx2. apply (N2 x Hx1). set_solver.
  - pose proof (inv_sorted _ _ _ _ _ HI) as Hs.
    rewrite fmap_app, fmap_cons in *.
    apply StronglySorted_app in Hs as (H12 & H1 & H2).
    apply StronglySorted_cons in H2 as [_ H2].
    apply StronglySorted_app. split; [|done].
    intros x1 x2 Hx1 Hx2. apply H12; set_solver.
  - intros e' He'. rewrite lookup_delete_ne by (symmetry; by apply Hne).
    rewrite Hsh. apply (inv_nodes _ _ _ _ _ HI). set_solver.
  - destruct (inv_header _ _ _ _ _ HI) as (n & Hn & Hlen).
    destruct (Hchain 0) as [_ Hc]; [lia|].
    assert (header ≠ cur) as Hhc by (apply Hc; set_solver).
    rewrite lookup_delete_ne by done.
    specialize (Hsh header). rewrite Hn in Hsh. simpl in Hsh.
    destruct (h1 !! header) as [n'|]; [|done]. exists n'.
    split; [done|]. simpl in Hsh. unfold shape in Hsh. congruence.
  - assert (max_list_with e_level (lt ++ ge) ≤ level); [|lia].
    apply max_list_with_bound. intros e' He'.
    apply (Inv_level_le _ _ _ _ _ e' HI). set_solver.
  - done.
  - intros i Hi. destruct (Hchain i Hi) as [Hs Hc].
    eapply seg_ext; [|exact Hs]. intros a Ha. apply Hfd. by apply Hc.
Qed.
End Delete.

(** ** Walking a level *)

Lemma sorted_filter_keys (Q : entry → Prop) `{!∀ e, Decision (Q e)}
    (l : list entry) :
  StronglySorted Z.lt (e_key <$> l) →
  StronglySorted Z.lt (e_key <$> filter Q l).
Proof.
  induction l as [|e l IH]; [done|]. rewrite fmap_cons.
  intros [Hall Hs]%StronglySorted_cons. rewrite filter_cons.
  case_decide; [|by apply IH]. rewrite fmap_cons.
  apply StronglySorted_cons. split; [|by apply IH].
  rewrite Forall_forall in *. intros x (e' & -> & He')%list_elem_of_fmap.
  apply Hall. apply list_elem_of_fmap. exists e'. split; [done|].
  by apply list_elem_of_filter in He' as [_ ?].
Qed.

Lemma get_random_level_le max_level coin :
  get_random_level max_level coin ≤ max_level.
Proof.
  unfold get_random_level. destruct (Nat.ltb_spec (S coin) max_level); lia.
Qed.

Section Levels.
Context {P : Type}.
Implicit Types (h : gmap nat (Node P)).

Lemma walk_spec h i : ∀ (li : list nat) fuel,
  seg h i li None → length li < fuel →
  walk fuel h i (next_of li None) = Some li.
Proof.
  induction li as [|a li IH]; intros fuel Hseg Hfuel.
  - destruct fuel; [lia|done].
  - destruct fuel as [|fuel]; [lia|]. simpl in *.
    destruct Hseg as [Ha Hseg]. rewrite Ha. simpl.
    rewrite IH by (done || lia). done.
Qed.

Lemma nodes_of_entries h (es : list entry) :
  (∀ e, e ∈ es → ∃ n, h !! e_addr e = Some n ∧ key n = e_key e) →
  ∃ ns, mapM (λ a, h !! a) (e_addr <$> es) = Some ns
    ∧ key <$> ns = e_key <$> es
    ∧ Forall2 (λ e n, h !! e_addr e = Some n) es ns.
Proof.
  induction es as [|e es IH]; intros H.
  - exists []. by repeat split.
  - destruct (H e) as (n & Hn & Hk); [set_solver|].
    destruct IH as (ns & Hm & Hks & Hf); [intros; apply H; set_solver|].
    exists (n :: ns). split; [|split].
    + rewrite fmap_cons. simpl. rewrite Hn. simpl. by rewrite Hm.
    + by rewrite !fmap_cons, Hk, Hks.
    + by constructor.
Qed.

Variables (h : gmap nat (Node P)) (header max_level level : nat).
Variable (l : list entry).
Hypothesis HI : Inv h header max_level level l.

Lemma Inv_walk i :
  i ≤ max_level →
  ∃ first, fwd h header i = Some first
    ∧ walk (size h) h i first = Some (at_level i l).
Proof.
  intros Hi. pose proof (inv_chain _ _ _ _ _ HI i Hi) as Hseg.
  simpl in Hseg. destruct Hseg as [Hh Hseg]. eexists. split; [done|].
  apply walk_spec; [done|].
  pose proof (Inv_fuel _ _ _ _ _ HI). unfold at_level.
  rewrite length_fmap. pose proof (length_filter (λ e, i ≤ e_level e) l).
  lia.
Qed.

Lemma Inv_level_nodes i :
  i ≤ max_level →
  ∃ ns, level_nodes h header i = Some ns
    ∧ key <$> ns = e_key <$> filter (λ e, i ≤ e_level e) l
    ∧ Forall2 (λ e n, h !! e_addr e = Some n)
              (filter (λ e, i ≤ e_level e) l) ns.
Proof.
  intros Hi. destruct (Inv_walk i Hi) as (first & Hf & Hw).
  destruct (nodes_of_entries h (filter (λ e, i ≤ e_level e) l))
    as (ns & Hm & Hk & HF).
  { intros e [_ He]%list_elem_of_filter.
    destruct (Inv_node _ _ _ _ _ _ HI He) as (n & ? & ? & _). eauto. }
  exists ns. split; [|done]. unfold level_nodes. rewrite Hf. simpl.
  rewrite Hw. simpl. exact Hm.
Qed.

Lemma Inv_level_keys i :
  i ≤ max_level →
  level_keys h header i
  = Some (e_key <$> filter (λ e, i ≤ e_level e) l).
Proof.
  intros Hi. destruct (Inv_level_nodes i Hi) as (ns & Hn & Hk & _).
  unfold level_keys. by rewrite Hn, Hk.
Qed.

Lemma Inv_level_sorted i :
  i ≤ max_level →
  ∃ ks, level_keys h header i = Some ks ∧ StronglySorted Z.lt ks.
Proof.
  intros Hi. eexists. split; [by apply Inv_level_keys|].
  apply sorted_filter_keys, (inv_sorted _ _ _ _ _ HI).
Qed.
End Levels.

(** ** The common start of insertion and removal *)

Section Locate.
Context {P : Type}.
Variables (h : gmap nat (Node P)) (header max_level level : nat).
Variables (lt ge : list entry) (k : Z).
Hypothesis HI : Inv h header max_level level (lt ++ ge).
Hypothesis Hlt : Forall (λ e, (e_key e < k)%Z) lt.
Hypothesis Hge : Forall (λ e, (k ≤ e_key e)%Z) ge.

Lemma locate_update :
  ∃ upd,
    find_update (size h) h k level header (replicate (S max_level) None)
    = Some (pred_at header lt 0, upd)
    ∧ length upd = S max_level
    ∧ (∀ j, j ≤ level → upd !! j = Some (Some (pred_at header lt j))).
Proof.
  pose proof (inv_max _ _ _ _ _ HI) as Hmax.
  destruct (find_update_spec h header max_level level lt ge k HI Hlt Hge
              level header (replicate (S max_level) None) (size h))
    as (upd & Hf & Hl & Hlow & _).
  - done.
  - rewrite length_replicate. lia.
  - set_solver.
  - by apply (Inv_fuel _ _ _ _ _ HI).
  - exists upd. rewrite length_replicate in Hl. done.
Qed.

Lemma raise_spec upd rl :
  length upd = S max_level → rl ≤ max_level →
  (∀ j, j ≤ level → upd !! j = Some (Some (pred_at header lt j))) →
  ∃ upd',
    (if decide (level < rl) then raise_update upd header level rl
     else Some upd) = Some upd'
    ∧ (∀ j, j ≤ rl → upd' !! j = Some (Some (pred_at header lt j))).
Proof.
  intros Hlen Hrl Hupd. case_decide as Hlv.
  - destruct (raise_for_each (Some header) (rl - level) (S level) upd)
      as (upd' & Hf & _ & Hin & Hout); [lia|].
    exists upd'. split; [done|]. intros j Hj.
    destruct (decide (j ≤ level)).
    + rewrite Hout by lia. by apply Hupd.
    + rewrite Hin by lia.
      rewrite (pred_at_above h header max_level level lt ge HI) by lia.
      done.
  - exists upd. split; [done|]. intros j Hj. apply Hupd. lia.
Qed.

(** What the level-0 step finds, told from the entries. *)
Lemma found_absent :
  (∀ e, e ∈ ge → e_key e ≠ k) →
  match head (e_addr <$> ge) with
  | None => Some false
  | Some a => n ← h !! a; Some (bool_decide (key n = k))
  end = Some false.
Proof.
  intros Hne. destruct ge as [|e ge']; [done|]. simpl.
  destruct (Inv_node _ _ _ _ _ e HI) as (n & Hn & Hk & _); [set_solver|].
  rewrite Hn. simpl. rewrite bool_decide_eq_false_2; [done|].
  rewrite Hk. apply Hne. set_solver.
Qed.
End Locate.

(** Keys not found are strictly above. *)
Lemma ge_strict (k : Z) (ge : list entry) :
  Forall (λ e, (k ≤ e_key e)%Z) ge → (∀ e, e ∈ ge → e_key e ≠ k) →
  Forall (λ e, (k < e_key e)%Z) ge.
Proof.
  rewrite !Forall_forall. intros H1 H2 e He.
  specialize (H1 e He). specialize (H2 e He). lia.
Qed.

(** In a sorted sequence only the first entry not below [k] can carry
    [k]. *)
Lemma sorted_head_key (k : Z) (lt ge : list entry) e :
  StronglySorted Z.lt (e_key <$> lt ++ ge) →
  Forall (λ e, (e_key e < k)%Z) lt →
  Forall (λ e, (k ≤ e_key e)%Z) ge →
  e ∈ lt ++ ge → e_key e = k → ∃ ge', ge = e :: ge'.
Proof.
  intros Hs Hlt Hge He Hk. apply elem_of_app in He as [He|He].
  - rewrite Forall_forall in Hlt. specialize (Hlt e He). lia.
  - destruct ge as [|e0 ge']; [by apply elem_of_nil in He|].
    apply elem_of_cons in He as [->|He]; [eauto|].
    rewrite fmap_app, fmap_cons in Hs.
    apply StronglySorted_app in Hs as (_ & _ & Hs).
    apply StronglySorted_cons in Hs as [Hall _].
    rewrite Forall_forall in Hall.
    assert (e_key e0 < e_key e)%Z
      by (apply Hall, list_elem_of_fmap; eauto).
    apply Forall_cons in Hge as [Hge _]. lia.
Qed.

(** ** The empty list *)

Lemma Inv_create {P : Type} (max_level : nat) (p : P) :
  Inv ({[ 0 := new_node 0%Z max_level p ]} : gmap nat (Node P))
      0 max_level 0 [].
Proof.
  split.
  - apply NoDup_singleton.
  - constructor.
  - intros e He. by apply elem_of_nil in He.
  - exists (new_node 0%Z max_level p). split.
    + apply lookup_singleton_eq.
    + unfold new_node. cbn [forward]. by rewrite length_replicate.
  - lia.
  - done.
  - intros i Hi. simpl. split; [|done]. unfold fwd.
    rewrite lookup_singleton_eq. unfold new_node. cbn [mbind option_bind forward].
    apply lookup_replicate_2. lia.
Qed.

Lemma sorted_around (lt ge : list entry) e :
  StronglySorted Z.lt (e_key <$> lt ++ e :: ge) →
  Forall (λ x, (e_key x < e_key e)%Z) lt
  ∧ Forall (λ x, (e_key e < e_key x)%Z) ge.
Proof.
  rewrite fmap_app, fmap_cons.
  intros (H12 & _ & H2)%StronglySorted_app.
  apply StronglySorted_cons in H2 as [H2 _]. split.
  - apply Forall_forall. intros x Hx. apply H12; [|set_solver].
    apply list_elem_of_fmap. eauto.
  - apply Forall_forall. intros x Hx. rewrite Forall_forall in H2.
    apply H2. apply list_elem_of_fmap. eauto.
Qed.

(** ** The optimized list *)

Lemma Opt_wf_create max_level : Opt_wf (Opt.create max_level) [].
Proof. split; [apply Inv_create | done]. Qed.

Lemma Opt_insert_found s l k v coin e :
  Opt_wf s l → e ∈ l → e_key e = k →
  Opt.insert_element s k v coin = Some (1%Z, s).
Proof.
  intros [HI Hpool] He Hk.
  destruct (sorted_split k l (inv_sorted _ _ _ _ _ HI))
    as (lt & ge & -> & Hlt & Hge).
  destruct (sorted_head_key k lt ge e (inv_sorted _ _ _ _ _ HI) Hlt Hge
              He Hk) as [ge' ->].
  destruct (locate_update _ _ _ _ _ _ k HI Hlt Hge)
    as (upd & Hf & Hlen & Hupd).
  unfold Opt.insert_element. rewrite Hf. cbn [mbind option_bind].
  rewrite (fwd_pred_zero _ _ _ _ _ _ HI). cbn [mbind option_bind].
  rewrite fmap_cons. cbn [head].
  destruct (Inv_node _ _ _ _ _ e HI) as (n & Hn & Hkn & _); [set_solver|].
  rewrite Hn. cbn [mbind option_bind].
  rewrite bool_decide_eq_true_2 by congruence. done.
Qed.

Lemma Opt_insert_new s l k v coin :
  Opt_wf s l → (∀ e, e ∈ l → e_key e ≠ k) →
  ∃ s' lt ge node,
    l = lt ++ ge
    ∧ Opt.insert_element s k v coin = Some (0%Z, s')
    ∧ Opt_wf s' (lt ++ mkEntry node k
                          (get_random_level (Opt._max_level s) coin) :: ge)
    ∧ Opt._max_level s' = Opt._max_level s
    ∧ Opt._header s' = Opt._header s
    ∧ payload <$> Opt.heap s' !! node = Some v
    ∧ (∀ b, b ≠ node →
         payload <$> Opt.heap s' !! b = payload <$> Opt.heap s !! b).
Proof.
  intros [HI Hpool] Hnew.
  destruct (sorted_split k l (inv_sorted _ _ _ _ _ HI))
    as (lt & ge & -> & Hlt & Hge).
  destruct (locate_update _ _ _ _ _ _ k HI Hlt Hge)
    as (upd & Hf & Hlen & Hupd).
  set (rl := get_random_level (Opt._max_level s) coin).
  pose proof (get_random_level_le (Opt._max_level s) coin) as Hrl.
  fold rl in Hrl.
  destruct (raise_spec _ _ _ _ _ _ HI upd rl Hlen Hrl Hupd)
    as (upd' & Hraise & Hupd').
  set (node := fresh (dom (Opt.heap s))).
  assert (Opt.heap s !! node = None) as Hfresh.
  { apply not_elem_of_dom. apply is_fresh. }
  assert (Forall (λ e, (k < e_key e)%Z) ge) as Hgt.
  { apply ge_strict; [done|]. intros e He. apply Hnew. set_solver. }
  destruct (insert_Inv _ _ _ _ _ _ k HI Hlt Hgt node rl v upd' Hfresh Hrl
              Hupd') as (h2 & Hsp & HI2 & Hpl).
  eexists _, lt, ge, node. split; [done|].
  unfold Opt.insert_element. rewrite Hf. cbn [mbind option_bind].
  rewrite (fwd_pred_zero _ _ _ _ _ _ HI). cbn [mbind option_bind].
  rewrite (found_absent _ _ _ _ _ _ k HI Hlt Hge)
    by (intros e He; apply Hnew; set_solver).
  cbn [mbind option_bind]. fold rl. rewrite Hraise. cbn [mbind option_bind].
  unfold Opt.allocate. rewrite Hpool. cbn [last mbind option_bind].
  fold node. rewrite Hsp. cbn [mbind option_bind].
  split; [done|]. split; [|split; [done|split; [done|split]]].
  - split; cbn; [|done].
    replace (if decide (Opt._skip_list_level s < rl) then rl
             else Opt._skip_list_level s)
      with (Opt._skip_list_level s `max` rl) by (case_decide; lia).
    done.
  - cbn. rewrite Hpl. by rewrite lookup_insert_eq.
  - intros b Hb. cbn. rewrite Hpl. by rewrite lookup_insert_ne.
Qed.

Lemma Opt_delete_absent s l k :
  Opt_wf s l → (∀ e, e ∈ l → e_key e ≠ k) →
  Opt.delete_element s k = Some s.
Proof.
  intros [HI Hpool] Hnew.
  destruct (sorted_split k l (inv_sorted _ _ _ _ _ HI))
    as (lt & ge & -> & Hlt & Hge).
  destruct (locate_update _ _ _ _ _ _ k HI Hlt Hge)
    as (upd & Hf & Hlen & Hupd).
  unfold Opt.delete_element. rewrite Hf. cbn [mbind option_bind].
  rewrite (fwd_pred_zero _ _ _ _ _ _ HI). cbn [mbind option_bind].
  destruct ge as [|e ge']; [done|]. rewrite fmap_cons. cbn [head].
  destruct (Inv_node _ _ _ _ _ e HI) as (n & Hn & Hkn & _); [set_solver|].
  rewrite Hn. cbn [mbind option_bind].
  rewrite bool_decide_eq_false_2; [done|].
  rewrite Hkn. apply Hnew. set_solver.
Qed.

Lemma Opt_delete_found s lt ge e :
  Opt_wf s (lt ++ e :: ge) →
  ∃ s', Opt.delete_element s (e_key e) = Some s'
    ∧ Opt_wf s' (lt ++ ge)
    ∧ Opt._max_level s' = Opt._max_level s
    ∧ Opt._header s' = Opt._header s
    ∧ Opt.heap s' !! e_addr e = None
    ∧ (∀ b, b ≠ e_addr e →
         payload <$> Opt.heap s' !! b = payload <$> Opt.heap s !! b).
Proof.
  intros [HI Hpool].
  destruct (sorted_around lt ge e (inv_sorted _ _ _ _ _ HI)) as [Hlt Hgt].
  assert (Forall (λ x, (e_key e ≤ e_key x)%Z) (e :: ge)) as Hge.
  { constructor; [lia|]. eapply Forall_impl; [exact Hgt|]. simpl. lia. }
  destruct (locate_update _ _ _ _ _ _ (e_key e) HI Hlt Hge)
    as (upd & Hf & Hlen & Hupd).
  destruct (delete_Inv _ _ _ _ _ _ _ HI upd Hupd)
    as (h1 & level' & Hun & Hlow & HI' & Hpl).
  eexists. unfold Opt.delete_element. rewrite Hf. cbn [mbind option_bind].
  rewrite (fwd_pred_zero _ _ _ _ _ _ HI). cbn [mbind option_bind].
  rewrite fmap_cons. cbn [head].
  destruct (Inv_node _ _ _ _ _ e HI) as (n & Hn & Hkn & _); [set_solver|].
  rewrite Hn. cbn [mbind option_bind].
  rewrite bool_decide_eq_true_2 by done.
  rewrite Hun. cbn [mbind option_bind]. rewrite Hlow.
  cbn [mbind option_bind]. split; [done|].
  split; [by split|]. split; [done|]. split; [done|]. split.
  - cbn. apply lookup_delete_eq.
  - intros b Hb. cbn. by apply Hpl.
Qed.

(** Every list a client can build is well formed. *)
Lemma Opt_run_wf s l c :
  Opt_wf s l →
  ∃ s' l', Opt.run s c = Some s' ∧ Opt_wf s' l'
           ∧ Opt._max_level s' = Opt._max_level s
           ∧ Opt._header s' = Opt._header s.
Proof.
  intros Hwf. destruct c as [k v coin|k]; simpl.
  - destruct (decide (Exists (λ e, e_key e = k) l))
      as [(e & He & Hk)%Exists_exists|Hno]; [|rewrite Exists_exists in Hno].
    + rewrite (Opt_insert_found s l k v coin e) by done. simpl. eauto 10.
    + destruct (Opt_insert_new s l k v coin Hwf)
        as (s' & lt & ge & node & -> & Hins & Hwf' & Hm & Hh & _).
      { intros e He Hk. apply Hno. eauto. }
      rewrite Hins. simpl. eauto 10.
  - destruct (decide (Exists (λ e, e_key e = k) l))
      as [(e & He & Hk)%Exists_exists|Hno]; [|rewrite Exists_exists in Hno].
    + apply list_elem_of_split in He as (lt & ge & ->). subst k.
      destruct (Opt_delete_found s lt ge e Hwf)
        as (s' & Hd & Hwf' & Hm & Hh & _).
      rewrite Hd. eauto 10.
    + rewrite (Opt_delete_absent s l k) by (done || naive_solver). eauto 10.
Qed.

Lemma Opt_for_each_wf (calls : list Opt.call) : ∀ s l s',
  Opt_wf s l → for_each Opt.run s calls = Some s' →
  ∃ l', Opt_wf s' l' ∧ Opt._max_level s' = Opt._max_level s
        ∧ Opt._header s' = Opt._header s.
Proof.
  induction calls as [|c calls IH]; intros s l s' Hwf Hrun; simpl in Hrun.
  - injection Hrun as <-. eauto.
  - destruct (Opt_run_wf s l c Hwf) as (s1 & l1 & Hc & Hwf1 & Hm & Hh).
    rewrite Hc in Hrun. simpl in Hrun.
    destruct (IH s1 l1 s' Hwf1 Hrun) as (l' & ? & ? & ?).
    exists l'. split; [done|]. split; congruence.
Qed.

Lemma Opt_after_wf max_level calls s :
  Opt.after max_level calls = Some s →
  ∃ l, Opt_wf s l ∧ Opt._max_level s = max_level ∧ Opt._header s = 0.
Proof.
  intros H.
  destruct (Opt_for_each_wf calls _ [] s (Opt_wf_create max_level) H)
    as (l & ? & ? & ?).
  exists l. done.
Qed.

(** No call of the optimized list fails. *)
Lemma Opt_after_total max_level calls :
  is_Some (Opt.after max_level calls).
Proof.
  unfold Opt.after.
  assert (∀ s l, Opt_wf s l → is_Some (for_each Opt.run s calls)) as H.
  { induction calls as [|c calls IH]; intros s l Hwf; simpl; [eauto|].
    destruct (Opt_run_wf s l c Hwf) as (s1 & l1 & Hc & Hwf1 & _).
    rewrite Hc. simpl. by eapply IH. }
  eapply H, Opt_wf_create.
Qed.

(** ** Payload updates *)

Section Payloads.
Context {P : Type}.
Implicit Types (h : gmap nat (Node P)) (f : P → P).

Lemma set_payload_live h a f :
  is_Some (h !! a) → is_Some (set_payload h a f).
Proof. intros [n Hn]. unfold set_payload. rewrite Hn. simpl. eauto. Qed.

Lemma payload_set_payload h a f h' b :
  set_payload h a f = Some h' →
  payload <$> h' !! b
  = if decide (b = a) then f <$> (payload <$> h !! b)
    else payload <$> h !! b.
Proof.
  intros (n & Hn & ->)%set_payload_inv. case_decide as Hb.
  - subst. by rewrite lookup_insert_eq, Hn.
  - by rewrite lookup_insert_ne.
Qed.

Lemma set_payload_dom h a f h' b :
  set_payload h a f = Some h' → is_Some (h' !! b) ↔ is_Some (h !! b).
Proof.
  intros (n & Hn & ->)%set_payload_inv.
  destruct (decide (b = a)) as [->|Hb].
  - rewrite lookup_insert_eq, Hn. split; eauto.
  - by rewrite lookup_insert_ne.
Qed.

Lemma Inv_set_payload h a f h' header max_level level l :
  set_payload h a f = Some h' →
  Inv h header max_level level l → Inv h' header max_level level l.
Proof.
  intros Hs. apply Inv_ext.
  - intros b i. by eapply fwd_set_payload.
  - intros b. by eapply shape_set_payload.
Qed.

(** One idempotent update applied to each node of a list of live nodes,
    as [commit_transaction] does over [modified_nodes]. *)
Lemma for_each_set_payload f (Hidem : ∀ c, f (f c) = f c) :
  ∀ (nodes : list nat) h,
  (∀ a, a ∈ nodes → is_Some (h !! a)) →
  ∃ h', for_each (λ h node, set_payload h node f) h nodes = Some h'
    ∧ (∀ b i, fwd h' b i = fwd h b i)
    ∧ (∀ b, shape <$> h' !! b = shape <$> h !! b)
    ∧ (∀ b, payload <$> h' !! b
            = if decide (b ∈ nodes) then f <$> (payload <$> h !! b)
              else payload <$> h !! b).
Proof.
  induction nodes as [|a nodes IH]; intros h Hlive.
  - exists h. simpl. split; [done|]. split; [done|]. split; [done|].
    by intros b.
  - destruct (set_payload_live h a f) as [h1 Hh1]; [apply Hlive; set_solver|].
    destruct (IH h1) as (h2 & Hf & Hfw & Hsh & Hpl).
    { intros b Hb. apply (set_payload_dom _ _ _ _ b Hh1).
      apply Hlive. set_solver. }
    exists h2. simpl. rewrite Hh1. simpl. split; [done|].
    split. { intros b i. rewrite Hfw. by eapply fwd_set_payload. }
    split. { intros b. rewrite Hsh. by eapply shape_set_payload. }
    intros b. rewrite Hpl, (payload_set_payload _ _ _ _ b Hh1).
    destruct (decide (b = a)) as [->|Hba].
    + rewrite (decide_True (P := a ∈ a :: nodes)) by set_solver.
      case_decide; [|done].
      destruct (payload <$> h !! a); simpl; [|done]. by rewrite Hidem.
    + destruct (decide (b ∈ nodes)).
      * by rewrite decide_True by set_solver.
      * by rewrite decide_False by set_solver.
Qed.
End Payloads.

(** ** Version chains *)

Lemma commit_version_idem c id :
  commit_version (commit_version c id) id = commit_version c id.
Proof.
  induction c as [|v c IH]; [done|]. simpl. rewrite IH. f_equal.
  destruct (create_ts v =? id)%Z eqn:E; simpl; by rewrite E.
Qed.

Lemma commit_version_elem c id ver :
  ver ∈ commit_version c id →
  ∃ old, old ∈ c ∧ value ver = value old ∧ create_ts ver = create_ts old
    ∧ delete_ts ver = delete_ts old
    ∧ (is_committed ver = is_committed old ∨ create_ts old = id).
Proof.
  induction c as [|v c IH]; simpl; [by intros ?%elem_of_nil|].
  intros [->|Hin]%elem_of_cons.
  - exists v. split; [set_solver|].
    destruct (Z.eqb_spec (create_ts v) id); simpl; eauto.
  - destruct (IH Hin) as (old & ? & ?). exists old. split; [set_solver|done].
Qed.

Lemma gc_tail_idem c m : gc_tail (gc_tail c m) m = gc_tail c m.
Proof.
  induction c as [|v c IH]; [done|]. simpl.
  destruct (delete_ts v <? m)%Z eqn:E; [done|]. simpl. by rewrite E, IH.
Qed.

Lemma gc_versions_idem c m : gc_versions (gc_versions c m) m = gc_versions c m.
Proof. destruct c as [|v c]; [done|]. simpl. by rewrite gc_tail_idem. Qed.

Lemma gc_tail_elem c m ver : ver ∈ gc_tail c m → ver ∈ c.
Proof.
  induction c as [|v c IH]; simpl; [done|].
  destruct (delete_ts v <? m)%Z; [set_solver|].
  intros [->|?]%elem_of_cons; set_solver.
Qed.

Lemma gc_versions_elem c m ver : ver ∈ gc_versions c m → ver ∈ c.
Proof.
  destruct c as [|v c]; simpl; [done|].
  intros [->|?%gc_tail_elem]%elem_of_cons; set_solver.
Qed.

Lemma mark_deleted_elem c id ver :
  ver ∈ mark_deleted c id →
  ∃ old, old ∈ c ∧ create_ts ver = create_ts old
         ∧ is_committed ver = is_committed old.
Proof.
  destruct c as [|v c]; simpl; [by intros ?%elem_of_nil|].
  intros [->|Hin]%elem_of_cons.
  - exists v. split; [set_solver|done].
  - exists ver. split; [set_solver|done].
Qed.

(** The loop of [gc] over a level-0 chain. *)
Lemma gc_loop_spec m : ∀ (li : list nat) fuel
    (h : gmap nat (Node (list Version))),
  seg h 0 li None → (∀ a, a ∈ li → is_Some (h !! a)) → length li < fuel →
  ∃ h', MVCC.gc_loop fuel h m (next_of li None) = Some h'
    ∧ (∀ b i, fwd h' b i = fwd h b i)
    ∧ (∀ b, shape <$> h' !! b = shape <$> h !! b)
    ∧ (∀ b, payload <$> h' !! b
            = if decide (b ∈ li)
              then (λ c, gc_versions c m) <$> (payload <$> h !! b)
              else payload <$> h !! b).
Proof.
  induction li as [|a li IH]; intros fuel h Hseg Hlive Hfuel.
  - destruct fuel; [simpl in Hfuel; lia|]. exists h. simpl.
    split; [done|]. split; [done|]. split; [done|].
    by intros b.
  - destruct fuel as [|fuel]; [simpl in Hfuel; lia|]. simpl in Hseg.
    destruct Hseg as [Ha Hseg].
    destruct (set_payload_live h a (λ c, gc_versions c m))
      as [h1 Hh1]; [apply Hlive; set_solver|].
    destruct (IH fuel h1) as (h2 & Hg & Hfw & Hsh & Hpl).
    { eapply seg_ext; [|exact Hseg]. intros b _.
      by eapply fwd_set_payload. }
    { intros b Hb. apply (set_payload_dom _ _ _ _ b Hh1).
      apply Hlive. set_solver. }
    { simpl in Hfuel. lia. }
    exists h2. cbn [MVCC.gc_loop next_of]. rewrite Hh1.
    cbn [mbind option_bind].
    rewrite (fwd_set_payload _ _ _ _ _ _ Hh1), Ha. cbn [mbind option_bind].
    split; [done|].
    split. { intros b i. rewrite Hfw. by eapply fwd_set_payload. }
    split. { intros b. rewrite Hsh. by eapply shape_set_payload. }
    intros b. rewrite Hpl, (payload_set_payload _ _ _ _ b Hh1).
    destruct (decide (b = a)) as [->|Hba].
    + rewrite (decide_True (P := a ∈ a :: li)) by set_solver.
      case_decide; [|done].
      destruct (payload <$> h !! a); simpl; [|done].
      by rewrite gc_versions_idem.
    + destruct (decide (b ∈ li)).
      * by rewrite decide_True by set_solver.
      * by rewrite decide_False by set_solver.
Qed.

(** ** Finding a key in a well-formed list *)

Section Find.
Context {P : Type}.
Variables (h : gmap nat (Node P)) (header max_level level : nat).
Variable (l : list entry).
Hypothesis HI : Inv h header max_level level l.

Lemma Inv_find_present e :
  e ∈ l → find_node h header level (e_key e) = Some (Some (e_addr e)).
Proof.
  intros He.
  destruct (sorted_split (e_key e) l (inv_sorted _ _ _ _ _ HI))
    as (lt & ge & -> & Hlt & Hge).
  destruct (sorted_head_key (e_key e) lt ge e (inv_sorted _ _ _ _ _ HI)
              Hlt Hge He eq_refl) as [ge' ->].
  rewrite (find_node_spec h header max_level level lt (e :: ge')
             (e_key e) HI Hlt Hge).
  by rewrite decide_True.
Qed.

Lemma Inv_find_absent k :
  (∀ e, e ∈ l → e_key e ≠ k) → find_node h header level k = Some None.
Proof.
  intros Hno.
  destruct (sorted_split k l (inv_sorted _ _ _ _ _ HI))
    as (lt & ge & -> & Hlt & Hge).
  rewrite (find_node_spec h header max_level level lt ge k HI Hlt Hge).
  destruct ge as [|e ge']; [done|].
  rewrite decide_False; [done|]. apply Hno. set_solver.
Qed.

(** Keys identify entries. *)
Lemma Inv_key_inj e1 e2 :
  e1 ∈ l → e2 ∈ l → e_key e1 = e_key e2 → e1 = e2.
Proof.
  intros H1 H2 Hk. pose proof (Inv_find_present e1 H1) as F1.
  pose proof (Inv_find_present e2 H2) as F2. rewrite Hk, F2 in F1.
  injection F1 as Ha.
  destruct (Inv_node _ _ _ _ _ _ HI H1) as (n1 & Hn1 & _ & Hl1 & _).
  destruct (Inv_node _ _ _ _ _ _ HI H2) as (n2 & Hn2 & _ & Hl2 & _).
  rewrite Ha, Hn1 in Hn2. injection Hn2 as <-.
  destruct e1, e2. simpl in *. congruence.
Qed.
End Find.

(** ** The MVCC list *)

Lemma check_active_Some s i t :
  MVCC.txns s !! i = Some t → MVCC.state t = ACTIVE →
  MVCC.check_active s (Some i) = Some (Some t).
Proof.
  intros Ht Hs. unfold MVCC.check_active. rewrite Ht. simpl.
  unfold MVCC.is_active. by rewrite bool_decide_eq_true_2.
Qed.

Lemma check_active_inactive s i t :
  MVCC.txns s !! i = Some t → MVCC.state t ≠ ACTIVE →
  MVCC.check_active s (Some i) = Some None.
Proof.
  intros Ht Hs. unfold MVCC.check_active. rewrite Ht. simpl.
  unfold MVCC.is_active. by rewrite bool_decide_eq_false_2.
Qed.

Lemma check_active_inv s txn t :
  MVCC.check_active s txn = Some (Some t) →
  ∃ i, txn = Some i ∧ MVCC.txns s !! i = Some t ∧ MVCC.state t = ACTIVE.
Proof.
  unfold MVCC.check_active. destruct txn as [i|]; [|done].
  destruct (MVCC.txns s !! i) as [t'|] eqn:Ht; [|done]. simpl.
  unfold MVCC.is_active. case_bool_decide; [|done]. intros [= <-].
  exists i. by rewrite Ht.
Qed.

Lemma MVCC_wf_create max_level : MVCC_wf (MVCC.create max_level) [].
Proof.
  split.
  - apply Inv_create.
  - intros i t a Ht. simpl in Ht. by destruct i.
  - intros a n ver Hn Hver. simpl in Hn.
    apply lookup_singleton_Some in Hn as [_ <-]. simpl in Hver.
    by apply elem_of_nil in Hver.
Qed.

(** Committed versions stay covered when versions keep their origin and
    committed transactions stay committed. *)
Lemma committed_preserved (h h' : gmap nat (Node (list Version)))
    (T T' : list MVCC.Transaction) :
  (∀ i t, T !! i = Some t → MVCC.state t = COMMITTED →
     ∃ t', T' !! i = Some t' ∧ MVCC.txn_id t' = MVCC.txn_id t
           ∧ MVCC.state t' = COMMITTED) →
  (∀ a n' ver, h' !! a = Some n' → ver ∈ payload n' →
     is_committed ver = true →
     (∃ n old, h !! a = Some n ∧ old ∈ payload n
               ∧ create_ts old = create_ts ver ∧ is_committed old = true)
     ∨ (∃ i t, T' !! i = Some t ∧ MVCC.txn_id t = create_ts ver
               ∧ MVCC.state t = COMMITTED)) →
  (∀ a n ver, h !! a = Some n → ver ∈ payload n → is_committed ver = true →
     ∃ i t, T !! i = Some t ∧ MVCC.txn_id t = create_ts ver
            ∧ MVCC.state t = COMMITTED) →
  ∀ a n ver, h' !! a = Some n → ver ∈ payload n → is_committed ver = true →
     ∃ i t, T' !! i = Some t ∧ MVCC.txn_id t = create_ts ver
            ∧ MVCC.state t = COMMITTED.
Proof.
  intros HT Hh Hold a n' ver Hn Hver Hc.
  destruct (Hh a n' ver Hn Hver Hc)
    as [(n & old & Hn0 & Hold0 & Hts & Hc0)|?]; [|done].
  destruct (Hold a n old Hn0 Hold0 Hc0) as (i & t & Ht & Hid & Hst).
  destruct (HT i t Ht Hst) as (t' & Ht' & Hid' & Hst').
  exists i, t'. split; [done|]. split; [congruence|done].
Qed.

Lemma payload_lookup {P} (h : gmap nat (Node P)) a n :
  h !! a = Some n → payload <$> h !! a = Some (payload n).
Proof. by intros ->. Qed.

Lemma payload_lookup_inv {P} (h : gmap nat (Node P)) a c :
  payload <$> h !! a = Some c → ∃ n, h !! a = Some n ∧ payload n = c.
Proof. destruct (h !! a) as [n|]; [|done]. intros [= <-]. eauto. Qed.

Lemma MVCC_begin_wf s l :
  MVCC_wf s l → MVCC_wf (MVCC.begin_transaction s).2 l.
Proof.
  intros [HI Hmod Hcom]. split; simpl.
  - done.
  - intros i t a Ht Ha.
    apply lookup_app_Some in Ht as [Ht|[_ Ht]]; [by eapply Hmod|].
    apply list_lookup_singleton_Some in Ht as [_ <-]. simpl in Ha.
    by apply elem_of_nil in Ha.
  - intros a n ver Hn Hver Hc.
    destruct (Hcom a n ver Hn Hver Hc) as (i & t & Ht & ? & ?).
    exists i, t. split; [|done]. apply lookup_app_Some. by left.
Qed.

Lemma MVCC_commit_spec s l ti t :
  MVCC_wf s l → MVCC.txns s !! ti = Some t → MVCC.state t = ACTIVE →
  ∃ s', MVCC.commit_transaction s (Some ti) = Some (true, s')
    ∧ MVCC_wf s' l
    ∧ MVCC._header s' = MVCC._header s
    ∧ MVCC._max_level s' = MVCC._max_level s
    ∧ MVCC._skip_list_level s' = MVCC._skip_list_level s
    ∧ MVCC._next_txn_id s' = MVCC._next_txn_id s
    ∧ MVCC.txns s'
      = <[ti := MVCC.mkTransaction (MVCC.txn_id t) COMMITTED
                                   (MVCC.modified_nodes t)]> (MVCC.txns s)
    ∧ (∀ b, payload <$> MVCC.heap s' !! b
            = if decide (b ∈ MVCC.modified_nodes t)
              then (λ c, commit_version c (MVCC.txn_id t))
                     <$> (payload <$> MVCC.heap s !! b)
              else payload <$> MVCC.heap s !! b)
    ∧ MVCC._active_transactions s'
      = delete (MVCC.txn_id t) (MVCC._active_transactions s).
Proof.
  intros [HI Hmod Hcom] Ht Hact.
  destruct (for_each_set_payload
              (λ c, commit_version c (MVCC.txn_id t))
              (λ c, commit_version_idem c (MVCC.txn_id t))
              (MVCC.modified_nodes t) (MVCC.heap s))
    as (h' & Hfe & Hfw & Hsh & Hpl).
  { intros a Ha. specialize (Hmod ti t a Ht Ha).
    apply list_elem_of_fmap in Hmod as (e & -> & He).
    destruct (Inv_node _ _ _ _ _ _ HI He) as (n & -> & _). eauto. }
  eexists. unfold MVCC.commit_transaction.
  rewrite (check_active_Some s ti t Ht Hact). cbn [mbind option_bind].
  rewrite Hfe. cbn [mbind option_bind]. split; [done|].
  split; [|by cbn]. split; cbn.
  - by apply (Inv_ext (MVCC.heap s)).
  - intros i t0 a Hi Ha.
    apply list_lookup_insert_Some in Hi as [(-> & <- & _)|[_ Hi]].
    + by eapply Hmod.
    + by eapply Hmod.
  - eapply (committed_preserved (MVCC.heap s) h' (MVCC.txns s));
      [| |exact Hcom].
    + intros i t0 Hi Hst. destruct (decide (i = ti)) as [->|Hne].
      * congruence.
      * exists t0. by rewrite list_lookup_insert_ne.
    + intros a n' ver Hn Hver Hc.
      pose proof (payload_lookup _ _ _ Hn) as Hp. rewrite Hpl in Hp.
      case_decide as Hin.
      * destruct (payload <$> MVCC.heap s !! a) as [c|] eqn:Hc0; [|done].
        simpl in Hp. injection Hp as Hp. rewrite <- Hp in Hver.
        apply payload_lookup_inv in Hc0 as (n & Hn0 & <-).
        apply commit_version_elem in Hver
          as (old & Hold & _ & Hts & _ & [Hsame|Hnew]).
        -- left. exists n, old. repeat split; [done..|congruence].
        -- right. exists ti. eexists. split.
           ++ apply list_lookup_insert_eq. by eapply lookup_lt_Some.
           ++ simpl. split; [congruence|done].
      * apply payload_lookup_inv in Hp as (n & Hn0 & Hp).
        left. exists n, ver. rewrite Hp. done.
Qed.

Lemma MVCC_abort_spec s l ti t :
  MVCC_wf s l → MVCC.txns s !! ti = Some t → MVCC.state t = ACTIVE →
  ∃ s', MVCC.abort_transaction s (Some ti) = Some s'
    ∧ MVCC_wf s' l
    ∧ MVCC._max_level s' = MVCC._max_level s
    ∧ MVCC._header s' = MVCC._header s.
Proof.
  intros [HI Hmod Hcom] Ht Hact. eexists.
  unfold MVCC.abort_transaction.
  rewrite (check_active_Some s ti t Ht Hact). cbn [mbind option_bind].
  split; [done|]. split; [|done]. split; cbn.
  - done.
  - intros i t0 a Hi Ha.
    apply list_lookup_insert_Some in Hi as [(-> & <- & _)|[_ Hi]].
    + by eapply Hmod.
    + by eapply Hmod.
  - intros a n ver Hn Hver Hc.
    destruct (Hcom a n ver Hn Hver Hc) as (i & t0 & Hi & ? & ?).
    exists i, t0. split; [|done]. rewrite list_lookup_insert_ne; [done|].
    intros ->. congruence.
Qed.

Lemma MVCC_chain_of_present s l e :
  MVCC_wf s l → e ∈ l →
  MVCC.chain_of s (e_key e) = Some (payload <$> MVCC.heap s !! e_addr e)
  ∧ is_Some (MVCC.heap s !! e_addr e).
Proof.
  intros [HI _ _] He. unfold MVCC.chain_of.
  rewrite (Inv_find_present _ _ _ _ _ HI e He). cbn [mbind option_bind].
  destruct (Inv_node _ _ _ _ _ _ HI He) as (n & Hn & _). rewrite Hn.
  split; [done|eauto].
Qed.

Lemma MVCC_chain_of_absent s l k :
  MVCC_wf s l → (∀ e, e ∈ l → e_key e ≠ k) →
  MVCC.chain_of s k = Some None.
Proof.
  intros [HI _ _] Hno. unfold MVCC.chain_of.
  by rewrite (Inv_find_absent _ _ _ _ _ HI k Hno).
Qed.

Lemma MVCC_insert_found s l ti t k v coin e :
  MVCC_wf s l → MVCC.txns s !! ti = Some t → MVCC.state t = ACTIVE →
  e ∈ l → e_key e = k →
  ∃ s' old,
    MVCC.insert_element s (Some ti) k v coin = Some (0%Z, s')
    ∧ MVCC_wf s' l
    ∧ payload <$> MVCC.heap s !! e_addr e = Some old
    ∧ payload <$> MVCC.heap s' !! e_addr e
      = Some (new_Version v (MVCC.txn_id t) :: old)
    ∧ (∀ b, b ≠ e_addr e →
         payload <$> MVCC.heap s' !! b = payload <$> MVCC.heap s !! b)
    ∧ MVCC.txns s'
      = <[ti := MVCC.mkTransaction (MVCC.txn_id t) ACTIVE
                  (MVCC.modified_nodes t ++ [e_addr e])]> (MVCC.txns s)
    ∧ MVCC._header s' = MVCC._header s
    ∧ MVCC._max_level s' = MVCC._max_level s
    ∧ MVCC._next_txn_id s' = MVCC._next_txn_id s
    ∧ MVCC._active_transactions s' = MVCC._active_transactions s.
Proof.
  intros [HI Hmod Hcom] Ht Hact He Hk.
  destruct (sorted_split k l (inv_sorted _ _ _ _ _ HI))
    as (lt & ge & -> & Hlt & Hge).
  destruct (sorted_head_key k lt ge e (inv_sorted _ _ _ _ _ HI) Hlt Hge
              He Hk) as [ge' ->].
  destruct (locate_update _ _ _ _ _ _ k HI Hlt Hge)
    as (upd & Hf & Hlen & Hupd).
  destruct (Inv_node _ _ _ _ _ e HI He) as (n & Hn & Hkn & _).
  destruct (set_payload_live (MVCC.heap s) (e_addr e)
              (λ c, add_version c v (MVCC.txn_id t))) as [h' Hh']; [eauto|].
  exists (MVCC.mkList (MVCC._max_level s) (MVCC._skip_list_level s)
            (MVCC._header s) (MVCC._next_txn_id s)
            (MVCC._active_transactions s) (MVCC._total_commits s)
            (MVCC._total_aborts s)
            (MVCC.uint64_succ (MVCC._total_versions s)) h'
            (<[ti := MVCC.mkTransaction (MVCC.txn_id t) ACTIVE
                       (MVCC.modified_nodes t ++ [e_addr e])]> (MVCC.txns s))),
         (payload n).
  split.
  { unfold MVCC.insert_element.
    rewrite (check_active_Some s ti t Ht Hact). cbn [mbind option_bind].
    rewrite Hf. cbn [mbind option_bind].
    rewrite (fwd_pred_zero _ _ _ _ _ _ HI). cbn [mbind option_bind].
    rewrite fmap_cons. cbn [head]. rewrite Hn. cbn [mbind option_bind].
    rewrite bool_decide_eq_true_2 by congruence.
    rewrite Hh'. cbn [mbind option_bind]. unfold MVCC.add_modified_node.
    by rewrite Hact. }
  split; [|cbn; split; [by rewrite Hn|split; [|split; [|done]]]].
  - split; cbn.
    + by eapply Inv_set_payload.
    + intros i t0 a Hi Ha.
      apply list_lookup_insert_Some in Hi as [(-> & <- & _)|[_ Hi]].
      * simpl in Ha. apply elem_of_app in Ha as [Ha|Ha]; [by eapply Hmod|].
        apply list_elem_of_singleton in Ha as ->.
        apply list_elem_of_fmap. eauto.
      * by eapply Hmod.
    + eapply (committed_preserved (MVCC.heap s) h' (MVCC.txns s));
        [| |exact Hcom].
      * intros i t0 Hi Hst. exists t0.
        rewrite list_lookup_insert_ne; [done|]. intros ->. congruence.
      * intros a n' ver Hn' Hver Hc. left.
        pose proof (payload_lookup _ _ _ Hn') as Hp.
        rewrite (payload_set_payload _ _ _ _ a Hh') in Hp.
        case_decide as Ha.
        -- subst a. rewrite Hn in Hp. simpl in Hp. injection Hp as Hp.
           rewrite <- Hp in Hver. unfold add_version in Hver.
           apply elem_of_cons in Hver as [->|Hver]; [done|].
           exists n, ver. done.
        -- apply payload_lookup_inv in Hp as (n0 & Hn0 & Hp).
           exists n0, ver. rewrite Hp. done.
  - rewrite (payload_set_payload _ _ _ _ _ Hh'), decide_True by done.
    by rewrite Hn.
  - intros b Hb.
    by rewrite (payload_set_payload _ _ _ _ _ Hh'), decide_False by done.
Qed.

Lemma MVCC_insert_new s l ti t k v coin :
  MVCC_wf s l → MVCC.txns s !! ti = Some t → MVCC.state t = ACTIVE →
  (∀ e, e ∈ l → e_key e ≠ k) →
  ∃ s' lt ge node,
    l = lt ++ ge
    ∧ MVCC.insert_element s (Some ti) k v coin = Some (0%Z, s')
    ∧ MVCC_wf s' (lt ++ mkEntry node k
                      (get_random_level (MVCC._max_level s) coin) :: ge)
    ∧ MVCC.heap s !! node = None
    ∧ payload <$> MVCC.heap s' !! node
      = Some [new_Version v (MVCC.txn_id t)]
    ∧ (∀ b, b ≠ node →
         payload <$> MVCC.heap s' !! b = payload <$> MVCC.heap s !! b)
    ∧ MVCC.txns s'
      = <[ti := MVCC.mkTransaction (MVCC.txn_id t) ACTIVE
                  (MVCC.modified_nodes t ++ [node])]> (MVCC.txns s)
    ∧ MVCC._header s' = MVCC._header s
    ∧ MVCC._max_level s' = MVCC._max_level s
    ∧ MVCC._next_txn_id s' = MVCC._next_txn_id s
    ∧ MVCC._active_transactions s' = MVCC._active_transactions s.
Proof.
  intros [HI Hmod Hcom] Ht Hact Hnew.
  destruct (sorted_split k l (inv_sorted _ _ _ _ _ HI))
    as (lt & ge & -> & Hlt & Hge).
  destruct (locate_update _ _ _ _ _ _ k HI Hlt Hge)
    as (upd & Hf & Hlen & Hupd).
  set (rl := get_random_level (MVCC._max_level s) coin).
  pose proof (get_random_level_le (MVCC._max_level s) coin) as Hrl.
  fold rl in Hrl.
  destruct (raise_spec _ _ _ _ _ _ HI upd rl Hlen Hrl Hupd)
    as (upd' & Hraise & Hupd').
  set (node := fresh (dom (MVCC.heap s))).
  assert (MVCC.heap s !! node = None) as Hfresh.
  { apply not_elem_of_dom. apply is_fresh. }
  assert (Forall (λ e, (k < e_key e)%Z) ge) as Hgt.
  { apply ge_strict; [done|]. intros e He. apply Hnew. set_solver. }
  destruct (insert_Inv _ _ _ _ _ _ k HI Hlt Hgt node rl
              (add_version [] v (MVCC.txn_id t)) upd' Hfresh Hrl Hupd')
    as (h2 & Hsp & HI2 & Hpl).
  exists (MVCC.mkList (MVCC._max_level s)
            (if decide (MVCC._skip_list_level s < rl) then rl
             else MVCC._skip_list_level s)
            (MVCC._header s) (MVCC._next_txn_id s)
            (MVCC._active_transactions s) (MVCC._total_commits s)
            (MVCC._total_aborts s)
            (MVCC.uint64_succ (MVCC._total_versions s)) h2
            (<[ti := MVCC.mkTransaction (MVCC.txn_id t) ACTIVE
                       (MVCC.modified_nodes t ++ [node])]> (MVCC.txns s))),
         lt, ge, node.
  split; [done|]. split.
  { unfold MVCC.insert_element.
    rewrite (check_active_Some s ti t Ht Hact). cbn [mbind option_bind].
    rewrite Hf. cbn [mbind option_bind].
    rewrite (fwd_pred_zero _ _ _ _ _ _ HI). cbn [mbind option_bind].
    assert (match head (e_addr <$> ge) with
            | None => Some None
            | Some a =>
                n ← MVCC.heap s !! a;
                Some (if bool_decide (key n = k) then Some a else None)
            end = Some None) as ->.
    { destruct ge as [|e ge']; [done|]. simpl.
      destruct (Inv_node _ _ _ _ _ e HI) as (n & Hn & Hkn & _);
        [set_solver|].
      rewrite Hn. simpl. rewrite bool_decide_eq_false_2; [done|].
      rewrite Hkn. apply Hnew. set_solver. }
    cbn [mbind option_bind]. fold rl. rewrite Hraise.
    cbn [mbind option_bind]. fold node. rewrite Hsp.
    cbn [mbind option_bind]. unfold MVCC.add_modified_node.
    by rewrite Hact. }
  split; [|cbn; split; [done|split; [|split; [|done]]]].
  - split; cbn.
    + replace (if decide (MVCC._skip_list_level s < rl) then rl
               else MVCC._skip_list_level s)
        with (MVCC._skip_list_level s `max` rl) by (case_decide; lia).
      done.
    + intros i t0 a Hi Ha. rewrite fmap_app, fmap_cons. simpl.
      assert (∀ a, a ∈ e_addr <$> lt ++ ge →
                a ∈ (e_addr <$> lt) ++ node :: (e_addr <$> ge)) as Hsub.
      { intros x. rewrite fmap_app. set_solver. }
      apply list_lookup_insert_Some in Hi as [(-> & <- & _)|[_ Hi]].
      * simpl in Ha. apply elem_of_app in Ha as [Ha|Ha].
        -- apply Hsub. by eapply Hmod.
        -- set_solver.
      * apply Hsub. by eapply Hmod.
    + eapply (committed_preserved (MVCC.heap s) h2 (MVCC.txns s));
        [| |exact Hcom].
      * intros i t0 Hi Hst. exists t0.
        rewrite list_lookup_insert_ne; [done|]. intros ->. congruence.
      * intros a n' ver Hn' Hver Hc. left.
        pose proof (payload_lookup _ _ _ Hn') as Hp. rewrite Hpl in Hp.
        destruct (decide (a = node)) as [->|Ha].
        -- rewrite lookup_insert_eq in Hp. simpl in Hp.
           injection Hp as Hp. rewrite <- Hp in Hver.
           apply list_elem_of_singleton in Hver as ->. done.
        -- rewrite lookup_insert_ne in Hp by done.
           apply payload_lookup_inv in Hp as (n0 & Hn0 & Hp).
           exists n0, ver. rewrite Hp. done.
  - rewrite Hpl. by rewrite lookup_insert_eq.
  - intros b Hb. rewrite Hpl. by rewrite lookup_insert_ne.
Qed.

Lemma MVCC_delete_spec s l ti t k :
  MVCC_wf s l → MVCC.txns s !! ti = Some t → MVCC.state t = ACTIVE →
  ∃ s', MVCC.delete_element s (Some ti) k = Some s'
    ∧ MVCC_wf s' l
    ∧ MVCC._header s' = MVCC._header s
    ∧ MVCC._max_level s' = MVCC._max_level s
    ∧ MVCC.txns s' = MVCC.txns s.
Proof.
  intros [HI Hmod Hcom] Ht Hact. unfold MVCC.delete_element.
  rewrite (check_active_Some s ti t Ht Hact). cbn [mbind option_bind].
  destruct (decide (Exists (λ e, e_key e = k) l))
    as [(e & He & Hk)%Exists_exists|Hno]; [|rewrite Exists_exists in Hno].
  - subst k. rewrite (Inv_find_present _ _ _ _ _ HI e He).
    cbn [mbind option_bind].
    destruct (Inv_node _ _ _ _ _ _ HI He) as (n & Hn & _).
    destruct (set_payload_live (MVCC.heap s) (e_addr e)
                (λ c, mark_deleted c (MVCC.txn_id t))) as [h' Hh']; [eauto|].
    rewrite Hh'. cbn [mbind option_bind]. eexists. split; [done|].
    split; [|done]. split; cbn.
    + by eapply Inv_set_payload.
    + done.
    + eapply (committed_preserved (MVCC.heap s) h' (MVCC.txns s));
        [| |exact Hcom]; [by intros i t0 Hi Hst; exists t0|].
      intros a n' ver Hn' Hver Hc. left.
      pose proof (payload_lookup _ _ _ Hn') as Hp.
      rewrite (payload_set_payload _ _ _ _ a Hh') in Hp.
      case_decide as Ha.
      * subst a. rewrite Hn in Hp. simpl in Hp. injection Hp as Hp.
        rewrite <- Hp in Hver.
        apply mark_deleted_elem in Hver as (old & Hold & Hts & Hco).
        exists n, old. repeat split; [done..|congruence].
      * apply payload_lookup_inv in Hp as (n0 & Hn0 & Hp).
        exists n0, ver. rewrite Hp. done.
  - rewrite (Inv_find_absent _ _ _ _ _ HI k) by naive_solver.
    cbn [mbind option_bind]. exists s. split; [done|].
    split; [by split|done].
Qed.

Lemma MVCC_gc_spec s l :
  MVCC_wf s l →
  ∃ s', MVCC.gc s = Some s'
    ∧ MVCC_wf s' l
    ∧ MVCC._header s' = MVCC._header s
    ∧ MVCC._max_level s' = MVCC._max_level s
    ∧ MVCC.txns s' = MVCC.txns s
    ∧ (∀ b, payload <$> MVCC.heap s' !! b
            = if decide (b ∈ e_addr <$> l)
              then (λ c, gc_versions c (MVCC.get_min_active_txn_id s))
                     <$> (payload <$> MVCC.heap s !! b)
              else payload <$> MVCC.heap s !! b)
    ∧ MVCC._next_txn_id s' = MVCC._next_txn_id s
    ∧ MVCC._active_transactions s' = MVCC._active_transactions s.
Proof.
  intros [HI Hmod Hcom].
  pose proof (inv_chain _ _ _ _ _ HI 0 (Nat.le_0_l _)) as Hseg.
  rewrite at_level_zero in Hseg. simpl in Hseg. destruct Hseg as [Hh Hseg].
  destruct (gc_loop_spec (MVCC.get_min_active_txn_id s) (e_addr <$> l)
              (size (MVCC.heap s)) (MVCC.heap s) Hseg)
    as (h' & Hg & Hfw & Hsh & Hpl).
  { intros a (e & -> & He)%list_elem_of_fmap.
    destruct (Inv_node _ _ _ _ _ _ HI He) as (n & -> & _). eauto. }
  { rewrite length_fmap. by apply (Inv_fuel _ _ _ _ _ HI). }
  eexists. unfold MVCC.gc. rewrite Hh. cbn [mbind option_bind].
  rewrite Hg. cbn [mbind option_bind]. split; [done|].
  split; [|done]. split; cbn.
  - by apply (Inv_ext (MVCC.heap s)).
  - done.
  - eapply (committed_preserved (MVCC.heap s) h' (MVCC.txns s));
      [| |exact Hcom]; [by intros i t0 Hi Hst; exists t0|].
    intros a n' ver Hn' Hver Hc. left.
    pose proof (payload_lookup _ _ _ Hn') as Hp. rewrite Hpl in Hp.
    case_decide as Ha.
    + destruct (payload <$> MVCC.heap s !! a) as [c|] eqn:Hc0; [|done].
      simpl in Hp. injection Hp as Hp. rewrite <- Hp in Hver.
      apply payload_lookup_inv in Hc0 as (n & Hn0 & <-).
      apply gc_versions_elem in Hver. exists n, ver. done.
    + apply payload_lookup_inv in Hp as (n0 & Hn0 & Hp).
      exists n0, ver. rewrite Hp. done.
Qed.

(** Every call that returns keeps the list well formed. *)
Lemma MVCC_run_wf s l c s' :
  MVCC_wf s l → MVCC.run s c = Some s' →
  ∃ l', MVCC_wf s' l' ∧ MVCC._max_level s' = MVCC._max_level s
        ∧ MVCC._header s' = MVCC._header s.
Proof.
  intros Hwf Hrun. destruct c as [|txn|txn|txn k v coin|txn k|]; simpl in Hrun.
  - injection Hrun as <-. exists l. split; [by apply MVCC_begin_wf|done].
  - destruct (MVCC.check_active s txn) as [[t|]|] eqn:Hchk.
    + apply check_active_inv in Hchk as (i & -> & Ht & Hact).
      destruct (MVCC_commit_spec s l i t Hwf Ht Hact)
        as (s2 & Hc & Hwf' & Hh & Hm & _).
      rewrite Hc in Hrun. injection Hrun as <-. eauto.
    + unfold MVCC.commit_transaction in Hrun. rewrite Hchk in Hrun.
      injection Hrun as <-. eauto.
    + unfold MVCC.commit_transaction in Hrun. by rewrite Hchk in Hrun.
  - destruct (MVCC.check_active s txn) as [[t|]|] eqn:Hchk.
    + apply check_active_inv in Hchk as (i & -> & Ht & Hact).
      destruct (MVCC_abort_spec s l i t Hwf Ht Hact)
        as (s2 & Hc & Hwf' & Hm & Hh).
      rewrite Hc in Hrun. injection Hrun as <-. eauto.
    + unfold MVCC.abort_transaction in Hrun. rewrite Hchk in Hrun.
      injection Hrun as <-. eauto.
    + unfold MVCC.abort_transaction in Hrun. by rewrite Hchk in Hrun.
  - destruct (MVCC.check_active s txn) as [[t|]|] eqn:Hchk.
    + apply check_active_inv in Hchk as (i & -> & Ht & Hact).
      destruct (decide (Exists (λ e, e_key e = k) l))
        as [(e & He & Hk)%Exists_exists|Hno];
        [|rewrite Exists_exists in Hno].
      * destruct (MVCC_insert_found s l i t k v coin e Hwf Ht Hact He Hk)
          as (s2 & old & Hins & Hwf' & _ & _ & _ & _ & Hh & Hm & _).
        rewrite Hins in Hrun. injection Hrun as <-. eauto.
      * destruct (MVCC_insert_new s l i t k v coin Hwf Ht Hact)
          as (s2 & lt & ge & node & -> & Hins & Hwf' & _ & _ & _ & _
              & Hh & Hm & _); [naive_solver|].
        rewrite Hins in Hrun. injection Hrun as <-. eauto.
    + unfold MVCC.insert_element in Hrun. rewrite Hchk in Hrun.
      injection Hrun as <-. eauto.
    + unfold MVCC.insert_element in Hrun. by rewrite Hchk in Hrun.
  - destruct (MVCC.check_active s txn) as [[t|]|] eqn:Hchk.
    + apply check_active_inv in Hchk as (i & -> & Ht & Hact).
      destruct (MVCC_delete_spec s l i t k Hwf Ht Hact)
        as (s2 & Hd & Hwf' & Hh & Hm & _).
      rewrite Hd in Hrun. injection Hrun as <-. eauto.
    + unfold MVCC.delete_element in Hrun. rewrite Hchk in Hrun.
      injection Hrun as <-. eauto.
    + unfold MVCC.delete_element in Hrun. by rewrite Hchk in Hrun.
  - destruct (MVCC_gc_spec s l Hwf) as (s2 & Hg & Hwf' & Hh & Hm & _).
    rewrite Hg in Hrun. injection Hrun as <-. eauto.
Qed.

Lemma MVCC_for_each_wf (calls : list MVCC.call) : ∀ s l s',
  MVCC_wf s l → for_each MVCC.run s calls = Some s' →
  ∃ l', MVCC_wf s' l' ∧ MVCC._max_level s' = MVCC._max_level s
        ∧ MVCC._header s' = MVCC._header s.
Proof.
  induction calls as [|c calls IH]; intros s l s' Hwf Hrun; simpl in Hrun.
  - injection Hrun as <-. eauto.
  - destruct (MVCC.run s c) as [s1|] eqn:Hc; [|done]. simpl in Hrun.
    destruct (MVCC_run_wf s l c s1 Hwf Hc) as (l1 & Hwf1 & Hm & Hh).
    destruct (IH s1 l1 s' Hwf1 Hrun) as (l' & ? & ? & ?).
    exists l'. split; [done|]. split; congruence.
Qed.

Lemma MVCC_after_wf max_level calls s :
  MVCC.after max_level calls = Some s →
  ∃ l, MVCC_wf s l ∧ MVCC._max_level s = max_level ∧ MVCC._header s = 0.
Proof.
  intros H.
  destruct (MVCC_for_each_wf calls _ [] s (MVCC_wf_create max_level) H)
    as (l & ? & ? & ?).
  exists l. done.
Qed.

(** With handles that name transaction objects no call fails. *)
Lemma MVCC_run_total s l c :
  MVCC_wf s l → MVCC.handle_ok s c → is_Some (MVCC.run s c).
Proof.
  intros Hwf Hok.
  assert (∀ i, i < length (MVCC.txns s) →
            ∃ t, MVCC.txns s !! i = Some t
                 ∧ (MVCC.state t = ACTIVE
                    ∨ MVCC.check_active s (Some i) = Some None)) as Hcase.
  { intros i Hi. destruct (lookup_lt_is_Some_2 _ _ Hi) as [t Ht].
    exists t. split; [done|].
    destruct (decide (MVCC.state t = ACTIVE)); [by left|right].
    by apply (check_active_inactive s i t). }
  destruct c as [|[i|]|[i|]|[i|] k v coin|[i|] k|];
    cbn [MVCC.run MVCC.handle_ok] in *; try by eauto.
  - destruct (Hcase i Hok) as (t & Ht & [Hact|Hchk]).
    + destruct (MVCC_commit_spec s l i t Hwf Ht Hact) as (s' & -> & _).
      by eauto.
    + unfold MVCC.commit_transaction. rewrite Hchk. by eauto.
  - destruct (Hcase i Hok) as (t & Ht & [Hact|Hchk]).
    + destruct (MVCC_abort_spec s l i t Hwf Ht Hact) as (s' & -> & _).
      by eauto.
    + unfold MVCC.abort_transaction. rewrite Hchk. by eauto.
  - destruct (Hcase i Hok) as (t & Ht & [Hact|Hchk]).
    + destruct (decide (Exists (λ e, e_key e = k) l))
        as [(e & He & Hk)%Exists_exists|Hno];
        [|rewrite Exists_exists in Hno].
      * destruct (MVCC_insert_found s l i t k v coin e Hwf Ht Hact He Hk)
          as (s' & old & -> & _). by eauto.
      * destruct (MVCC_insert_new s l i t k v coin Hwf Ht Hact)
          as (s' & lt & ge & node & _ & -> & _); [naive_solver|]. by eauto.
    + unfold MVCC.insert_element. rewrite Hchk. by eauto.
  - destruct (Hcase i Hok) as (t & Ht & [Hact|Hchk]).
    + destruct (MVCC_delete_spec s l i t k Hwf Ht Hact) as (s' & -> & _).
      by eauto.
    + unfold MVCC.delete_element. rewrite Hchk. by eauto.
  - destruct (MVCC_gc_spec s l Hwf) as (s' & -> & _). by eauto.
Qed.

(** ** Reads *)

Lemma MVCC_visible_present s l id e c :
  MVCC_wf s l → e ∈ l → payload <$> MVCC.heap s !! e_addr e = Some c →
  MVCC.visible_version s id (e_key e) = Some (get_visible_version c id).
Proof.
  intros [HI _ _] He Hc. unfold MVCC.visible_version.
  rewrite (Inv_find_present _ _ _ _ _ HI e He). cbn [mbind option_bind].
  apply payload_lookup_inv in Hc as (n & -> & <-). done.
Qed.

Lemma MVCC_visible_absent s l id k :
  MVCC_wf s l → (∀ e, e ∈ l → e_key e ≠ k) →
  MVCC.visible_version s id k = Some None.
Proof.
  intros [HI _ _] Hno. unfold MVCC.visible_version.
  by rewrite (Inv_find_absent _ _ _ _ _ HI k Hno).
Qed.

Lemma MVCC_search_present s l ti t e c :
  MVCC_wf s l → MVCC.txns s !! ti = Some t → MVCC.state t = ACTIVE →
  e ∈ l → payload <$> MVCC.heap s !! e_addr e = Some c →
  MVCC.search_element s (Some ti) (e_key e)
  = Some (value <$> get_visible_version c (MVCC.txn_id t)).
Proof.
  intros Hwf Ht Hact He Hc. unfold MVCC.search_element.
  rewrite (check_active_Some s ti t Ht Hact). cbn [mbind option_bind].
  rewrite (MVCC_visible_present s l _ e c Hwf He Hc).
  by destruct (get_visible_version c (MVCC.txn_id t)).
Qed.



(** * The properties of the specification *)

(** ** Visibility and lookup *)

(** C1: a version is visible to transaction [t] exactly when it was created
    by [t] and not deleted at or before [t], or is committed, was created
    before [t] and is not deleted at or before [t]; the lookup returns the
    first visible version of the chain, walking from the head, and nothing
    when no version is visible. *)
Theorem visibility_and_lookup :
  (∀ v t, is_visible v t = true ↔
     (create_ts v = t ∧ (t < delete_ts v)%Z)
     ∨ (is_committed v = true ∧ (create_ts v < t)%Z ∧ (t < delete_ts v)%Z))
  ∧ (∀ chain t ver, get_visible_version chain t = Some ver ↔
       ∃ newer older, chain = newer ++ ver :: older
         ∧ Forall (λ v, is_visible v t = false) newer
         ∧ is_visible ver t = true)
  ∧ (∀ chain t, get_visible_version chain t = None ↔
       Forall (λ v, is_visible v t = false) chain).
Proof.
  split; [|split].
  - intros v t. unfold is_visible.
    destruct (Z.eqb_spec (create_ts v) t) as [Heq|Hne].
    + rewrite Z.ltb_lt. split.
      * intros ?. by left.
      * intros [[_ ?]|(_ & ? & _)]; [done|lia].
    + rewrite !andb_true_iff, !Z.ltb_lt. split.
      * intros [[? ?] ?]. by right.
      * intros [[? _]|(? & ? & ?)]; [done|by repeat split].
  - intros chain t ver. split.
    + induction chain as [|v chain IH]; simpl; [done|].
      destruct (is_visible v t) eqn:Hv.
      * intros [= ->]. exists [], chain. by repeat split.
      * intros (newer & older & -> & Hall & Hvis)%IH.
        exists (v :: newer), older. repeat split; [|done]. by constructor.
    + intros (newer & older & -> & Hall & Hvis).
      induction Hall as [|v newer Hv _ IH]; simpl.
      * by rewrite Hvis.
      * by rewrite Hv.
  - intros chain t. induction chain as [|v chain IH]; simpl.
    + split; [constructor|done].
    + destruct (is_visible v t) eqn:Hv.
      * split; [done|]. intros [Hf _]%Forall_cons. congruence.
      * rewrite IH. split; [by constructor|by intros [_ ?]%Forall_cons].
Qed.

(** ** Operations on a transaction that is not active *)

(** C7: with a null handle or a transaction that is committed or aborted,
    [insert_element] returns -1, [search_element] returns false,
    [delete_element] changes nothing, [range_query] returns the empty
    sequence and [commit_transaction] returns false; the list, the version
    chains and the counters are those of before. *)
Theorem inactive_transaction_is_refused s txn k v coin low high :
  txn = None
  ∨ (∃ i t, txn = Some i ∧ MVCC.txns s !! i = Some t
            ∧ MVCC.state t ≠ ACTIVE) →
  MVCC.insert_element s txn k v coin = Some ((-1)%Z, s)
  ∧ MVCC.search_element s txn k = Some None
  ∧ MVCC.delete_element s txn k = Some s
  ∧ MVCC.range_query s txn low high = Some []
  ∧ MVCC.commit_transaction s txn = Some (false, s)
  ∧ MVCC.abort_transaction s txn = Some s.
Proof.
  intros H.
  assert (MVCC.check_active s txn = Some None) as Hchk.
  { destruct H as [->|(i & t & -> & Ht & Hst)]; [done|].
    by apply (check_active_inactive s i t). }
  unfold MVCC.insert_element, MVCC.search_element, MVCC.delete_element,
    MVCC.range_query, MVCC.commit_transaction, MVCC.abort_transaction.
  rewrite Hchk. by repeat split.
Qed.

Lemma inactive_transaction_is_refused_witness :
  MVCC.insert_element sample_mvcc (Some 0) 7%Z "x"%string 0
    = Some ((-1)%Z, sample_mvcc)
  ∧ MVCC.search_element sample_mvcc (Some 0) 7%Z = Some None
  ∧ MVCC.delete_element sample_mvcc (Some 0) 7%Z = Some sample_mvcc
  ∧ MVCC.range_query sample_mvcc (Some 0) 0%Z 9%Z = Some []
  ∧ MVCC.commit_transaction sample_mvcc (Some 0) = Some (false, sample_mvcc)
  ∧ MVCC.abort_transaction sample_mvcc (Some 0) = Some sample_mvcc.
Proof.
  apply (inactive_transaction_is_refused sample_mvcc (Some 0) 7%Z
           "x"%string 0 0%Z 9%Z).
  right. exists 0, (MVCC.mkTransaction 1 COMMITTED [1]).
  split; [reflexivity|]. split; [vm_compute; reflexivity|discriminate].
Defined.

(** ** Insertion under MVCC *)

(** C10: for an active transaction [insert_element] returns 0 whether the
    key is new or present; either way the key's chain afterwards is its
    old chain (empty for a new key) with one new version of the
    transaction's id in front, and the key's node is appended once to the
    transaction's list of modified nodes. *)
Theorem mvcc_insert_adds_one_version max_level calls s ti t k v coin :
  MVCC.after max_level calls = Some s →
  MVCC.txns s !! ti = Some t → MVCC.state t = ACTIVE →
  ∃ s' a old,
    MVCC.insert_element s (Some ti) k v coin = Some (0%Z, s')
    ∧ (MVCC.chain_of s k = Some (Some old)
       ∨ (MVCC.chain_of s k = Some None ∧ old = []))
    ∧ find_node (MVCC.heap s') (MVCC._header s') (MVCC._skip_list_level s') k
      = Some (Some a)
    ∧ MVCC.chain_of s' k
      = Some (Some (new_Version v (MVCC.txn_id t) :: old))
    ∧ create_ts (new_Version v (MVCC.txn_id t)) = MVCC.txn_id t
    ∧ MVCC.txns s' !! ti
      = Some (MVCC.mkTransaction (MVCC.txn_id t) ACTIVE
                                 (MVCC.modified_nodes t ++ [a])).
Proof.
  intros Hafter Ht Hact.
  destruct (MVCC_after_wf _ _ _ Hafter) as (l & Hwf & _).
  assert (ti < length (MVCC.txns s)) as Hlt by (by eapply lookup_lt_Some).
  destruct (decide (Exists (λ e, e_key e = k) l))
    as [(e & He & Hk)%Exists_exists|Hno]; [|rewrite Exists_exists in Hno].
  - destruct (MVCC_insert_found s l ti t k v coin e Hwf Ht Hact He Hk)
      as (s' & old & Hins & Hwf' & Hold & Hnew & _ & Htx & _).
    exists s', (e_addr e), old. split; [done|]. subst k.
    destruct (MVCC_chain_of_present s l e Hwf He) as [Hc _].
    destruct (MVCC_chain_of_present s' l e Hwf' He) as [Hc' _].
    split; [left; by rewrite Hc, Hold|].
    split; [apply (Inv_find_present _ _ _ _ _ (wf_inv _ _ Hwf') e He)|].
    split; [by rewrite Hc', Hnew|]. split; [done|].
    rewrite Htx. by apply list_lookup_insert_eq.
  - destruct (MVCC_insert_new s l ti t k v coin Hwf Ht Hact)
      as (s' & lt & ge & node & -> & Hins & Hwf' & _ & Hnew & _ & Htx & _);
      [naive_solver|].
    exists s', node, []. split; [done|].
    set (e := mkEntry node k (get_random_level (MVCC._max_level s) coin)).
    assert (e ∈ lt ++ e :: ge) as He by set_solver.
    destruct (MVCC_chain_of_present s' _ e Hwf' He) as [Hc' _].
    unfold e in Hc'. cbn [e_key e_addr] in Hc'.
    split; [right; split; [|done]|].
    { apply (MVCC_chain_of_absent s (lt ++ ge)); [done|naive_solver]. }
    split; [apply (Inv_find_present _ _ _ _ _ (wf_inv _ _ Hwf') e He)|].
    split; [by rewrite Hc', Hnew|]. split; [done|].
    rewrite Htx. by apply list_lookup_insert_eq.
Qed.

Lemma mvcc_insert_adds_one_version_witness :
  ∃ s' a old,
    MVCC.insert_element sample_mvcc (Some 1) 10%Z "updated"%string 0
      = Some (0%Z, s')
    ∧ (MVCC.chain_of sample_mvcc 10%Z = Some (Some old)
       ∨ (MVCC.chain_of sample_mvcc 10%Z = Some None ∧ old = []))
    ∧ find_node (MVCC.heap s') (MVCC._header s') (MVCC._skip_list_level s')
                10%Z = Some (Some a)
    ∧ MVCC.chain_of s' 10%Z
      = Some (Some (new_Version "updated" 2 :: old))
    ∧ create_ts (new_Version "updated" 2) = 2%Z
    ∧ MVCC.txns s' !! 1
      = Some (MVCC.mkTransaction 2 ACTIVE ([] ++ [a])).
Proof.
  apply (mvcc_insert_adds_one_version 4 sample_calls sample_mvcc 1
           (MVCC.mkTransaction 2 ACTIVE []) 10%Z "updated"%string 0).
  - vm_compute. reflexivity.
  - vm_compute. reflexivity.
  - reflexivity.
Defined.

(** ** The order of the forward chains *)

(** C5: after any sequence of calls, on every level up to the current one
    the keys met by following [forward] from the header are strictly
    increasing, in the optimized list and in the MVCC list; no call of the
    optimized list fails, and none of the MVCC list whose handle is null
    or names a transaction object. *)
Theorem forward_chains_strictly_increasing :
  (∀ max_level calls s i,
     Opt.after max_level calls = Some s → i ≤ Opt._skip_list_level s →
     ∃ ks, level_keys (Opt.heap s) (Opt._header s) i = Some ks
           ∧ StronglySorted Z.lt ks)
  ∧ (∀ max_level calls s i,
       MVCC.after max_level calls = Some s → i ≤ MVCC._skip_list_level s →
       ∃ ks, level_keys (MVCC.heap s) (MVCC._header s) i = Some ks
             ∧ StronglySorted Z.lt ks)
  ∧ (∀ max_level calls, is_Some (Opt.after max_level calls))
  ∧ (∀ max_level calls s c,
       MVCC.after max_level calls = Some s → MVCC.handle_ok s c →
       is_Some (MVCC.run s c)).
Proof.
  split; [|split; [|split]].
  - intros max_level calls s i Hafter Hi.
    destruct (Opt_after_wf _ _ _ Hafter) as (l & [HI _] & _).
    apply (Inv_level_sorted _ _ _ _ _ HI).
    pose proof (inv_max _ _ _ _ _ HI). lia.
  - intros max_level calls s i Hafter Hi.
    destruct (MVCC_after_wf _ _ _ Hafter) as (l & [HI _ _] & _).
    apply (Inv_level_sorted _ _ _ _ _ HI).
    pose proof (inv_max _ _ _ _ _ HI). lia.
  - apply Opt_after_total.
  - intros max_level calls s c Hafter Hok.
    destruct (MVCC_after_wf _ _ _ Hafter) as (l & Hwf & _).
    by apply (MVCC_run_total s l c).
Qed.

Lemma forward_chains_strictly_increasing_witness :
  (∃ ks, level_keys (Opt.heap sample_opt) (Opt._header sample_opt) 1
         = Some ks ∧ StronglySorted Z.lt ks)
  ∧ (∃ ks, level_keys (MVCC.heap sample_mvcc) (MVCC._header sample_mvcc) 0
           = Some ks ∧ StronglySorted Z.lt ks).
Proof.
  split.
  - apply (proj1 forward_chains_strictly_increasing 4 sample_opt_calls
             sample_opt 1).
    + vm_compute. reflexivity.
    + vm_compute. lia.
  - apply (proj1 (proj2 forward_chains_strictly_increasing) 4 sample_calls
             sample_mvcc 0).
    + vm_compute. reflexivity.
    + vm_compute. lia.
Defined.

(** ** The current level of the optimized list *)

Lemma filter_all_entries (l : list entry) :
  filter (λ e, 0 ≤ e_level e) l = l.
Proof.
  induction l as [|e l IH]; [done|].
  rewrite filter_cons_True by lia. by rewrite IH.
Qed.

Lemma Forall2_impl_elem {A B} (R R' : A → B → Prop) (l : list A)
    (k : list B) :
  Forall2 R l k → (∀ x y, x ∈ l → R x y → R' x y) → Forall2 R' l k.
Proof.
  induction 1 as [|x y l k HR _ IH]; intros Himp; [constructor|].
  constructor; [apply Himp; [set_solver|done]|].
  apply IH. intros x' y' Hx'. apply Himp. set_solver.
Qed.

Lemma Inv_live_nodes {P} (h : gmap nat (Node P)) header max_level level l :
  Inv h header max_level level l →
  ∃ ns, level_nodes h header 0 = Some ns
    ∧ Forall2 (λ e n, h !! e_addr e = Some n ∧ key n = e_key e
                      ∧ node_level n = e_level e) l ns.
Proof.
  intros HI. destruct (Inv_level_nodes _ _ _ _ _ HI 0) as (ns & Hn & _ & HF);
    [lia|].
  rewrite filter_all_entries in HF. exists ns. split; [done|].
  eapply Forall2_impl_elem; [exact HF|]. intros e n He Hen.
  destruct (Inv_node _ _ _ _ _ e HI He) as (n' & Hn' & ? & ? & _).
  rewrite Hen in Hn'. injection Hn' as <-. done.
Qed.

Lemma max_list_with_Forall2 {A B} (f : A → nat) (g : B → nat)
    (l : list A) (k : list B) :
  Forall2 (λ x y, g y = f x) l k → max_list_with g k = max_list_with f l.
Proof. induction 1 as [|x y l k H _ IH]; simpl; [done|]. by rewrite H, IH. Qed.

(** C9: the current level of the optimized list is the greatest
    [node_level] among the live nodes, and 0 when there is none; unless it
    is 0, the header's forward pointer at the current level is not null
    (the state in which the decrementing loop of [delete_element] stops);
    and deleting the only node leaves the list empty on level 0. *)
Theorem opt_level_is_tallest_tower max_level calls s :
  Opt.after max_level calls = Some s →
  ∃ nodes,
    level_nodes (Opt.heap s) (Opt._header s) 0 = Some nodes
    ∧ Opt._skip_list_level s = max_list_with node_level nodes
    ∧ (nodes = [] → Opt._skip_list_level s = 0)
    ∧ (Opt._skip_list_level s = 0
       ∨ ∃ a, fwd (Opt.heap s) (Opt._header s) (Opt._skip_list_level s)
              = Some (Some a))
    ∧ (∀ n, nodes = [n] →
         ∃ s', Opt.delete_element s (key n) = Some s'
           ∧ Opt._skip_list_level s' = 0
           ∧ level_nodes (Opt.heap s') (Opt._header s') 0 = Some []).
Proof.
  intros Hafter.
  destruct (Opt_after_wf _ _ _ Hafter) as (l & Hwf & _).
  pose proof Hwf as [HI Hpool].
  destruct (Inv_live_nodes _ _ _ _ _ HI) as (ns & Hns & HF).
  assert (Opt._skip_list_level s = max_list_with node_level ns) as Hlv.
  { rewrite (inv_top _ _ _ _ _ HI).
    symmetry. apply max_list_with_Forall2.
    eapply Forall2_impl; [exact HF|]. naive_solver. }
  exists ns. split; [done|]. split; [done|].
  split; [by intros ->|]. split.
  - destruct (decide (Opt._skip_list_level s = 0)) as [|Hpos]; [by left|].
    right. destruct l as [|e0 l0].
    { rewrite (inv_top _ _ _ _ _ HI) in Hpos. done. }
    destruct (max_list_with_attained e_level (e0 :: l0)) as (e & He & Hmax);
      [done|].
    rewrite <- (inv_top _ _ _ _ _ HI) in Hmax.
    pose proof (inv_chain _ _ _ _ _ HI (Opt._skip_list_level s)
                  (inv_max _ _ _ _ _ HI)) as Hseg.
    simpl in Hseg. destruct Hseg as [Hh _].
    destruct (at_level (Opt._skip_list_level s) (e0 :: l0)) as [|a rest]
      eqn:Hat.
    + pose proof (at_level_nil_inv _ _ _ Hat He). lia.
    + exists a. done.
  - intros n ->. apply Forall2_length in HF as Hlen.
    destruct l as [|e [|e' l']]; simplify_eq/=.
    apply Forall2_cons in HF as [(Hn & Hk & _) _].
    destruct (Opt_delete_found s [] [] e Hwf)
      as (s' & Hd & [HI' _] & _).
    exists s'. rewrite Hk. split; [done|]. split.
    + by rewrite (inv_top _ _ _ _ _ HI').
    + destruct (Inv_live_nodes _ _ _ _ _ HI') as (ns' & Hns' & HF').
      apply Forall2_nil_inv_l in HF' as ->. done.
Qed.

Lemma opt_level_is_tallest_tower_witness :
  ∃ nodes,
    level_nodes (Opt.heap sample_opt) (Opt._header sample_opt) 0 = Some nodes
    ∧ Opt._skip_list_level sample_opt = max_list_with node_level nodes
    ∧ (nodes = [] → Opt._skip_list_level sample_opt = 0)
    ∧ (Opt._skip_list_level sample_opt = 0
       ∨ ∃ a, fwd (Opt.heap sample_opt) (Opt._header sample_opt)
                  (Opt._skip_list_level sample_opt) = Some (Some a))
    ∧ (∀ n, nodes = [n] →
         ∃ s', Opt.delete_element sample_opt (key n) = Some s'
           ∧ Opt._skip_list_level s' = 0
           ∧ level_nodes (Opt.heap s') (Opt._header s') 0 = Some []).
Proof.
  apply (opt_level_is_tallest_tower 4 sample_opt_calls sample_opt).
  vm_compute. reflexivity.
Defined.

(** ** Range queries *)

Lemma omap_visible_row_cons id n (ns : list (Node (list Version))) :
  omap (visible_row id) (n :: ns)
  = match get_visible_version (payload n) id with
    | Some ver => (key n, value ver) :: omap (visible_row id) ns
    | None => omap (visible_row id) ns
    end.
Proof.
  simpl. unfold visible_row. by destruct (get_visible_version (payload n) id).
Qed.

Lemma collect_spec (h : gmap nat (Node (list Version))) id (hi : Z) :
  ∀ (inr out : list entry) fuel,
  seg h 0 (e_addr <$> inr ++ out) None →
  (∀ e, e ∈ inr ++ out → ∃ n, h !! e_addr e = Some n ∧ key n = e_key e) →
  Forall (λ e, (e_key e ≤ hi)%Z) inr →
  (∀ e, head out = Some e → (hi < e_key e)%Z) →
  length inr < fuel →
  ∃ ns, Forall2 (λ e n, h !! e_addr e = Some n) inr ns
    ∧ MVCC.collect fuel h id hi (next_of (e_addr <$> inr ++ out) None)
      = Some (omap (visible_row id) ns).
Proof.
  induction inr as [|e inr IH]; intros out fuel Hseg Hnodes Hin Hout Hfuel.
  - exists []. split; [constructor|].
    destruct fuel as [|fuel]; [simpl in Hfuel; lia|].
    destruct out as [|e out]; [done|]. simpl.
    destruct (Hnodes e) as (n & Hn & Hk); [set_solver|].
    rewrite Hn. simpl. specialize (Hout e eq_refl).
    destruct (Z.leb_spec (key n) hi); [lia|done].
  - destruct fuel as [|fuel]; [simpl in Hfuel; lia|].
    rewrite <- app_comm_cons, fmap_cons in Hseg. simpl in Hseg.
    destruct Hseg as [He Hseg].
    apply Forall_cons in Hin as [Hle Hin].
    destruct (Hnodes e) as (n & Hn & Hk); [set_solver|].
    destruct (IH out fuel Hseg) as (ns & HF & Hc); [|done|done| |].
    { intros e' He'. apply Hnodes. set_solver. }
    { simpl in Hfuel. lia. }
    exists (n :: ns). split; [by constructor|].
    rewrite <- app_comm_cons, fmap_cons. cbn [next_of MVCC.collect].
    rewrite Hn. cbn [mbind option_bind].
    destruct (Z.leb_spec (key n) hi); [|lia].
    rewrite He. cbn [mbind option_bind]. rewrite Hc.
    cbn [mbind option_bind]. by rewrite omap_visible_row_cons.
Qed.

Lemma Forall2_lookup_functional {P} (h : gmap nat (Node P))
    (es : list entry) (ns ns' : list (Node P)) :
  Forall2 (λ e n, h !! e_addr e = Some n) es ns →
  Forall2 (λ e n, h !! e_addr e = Some n) es ns' → ns = ns'.
Proof.
  intros H. revert ns'. induction H as [|e n es ns He _ IH]; intros ns' H'.
  - by apply Forall2_nil_inv_l in H'.
  - apply Forall2_cons_inv_l in H' as (n' & ns'' & He' & H' & ->).
    f_equal; [congruence|by apply IH].
Qed.

Lemma nodes_Forall {P} (h : gmap nat (Node P)) (Q : Z → Prop)
    (es : list entry) (ns : list (Node P)) :
  Forall2 (λ e n, h !! e_addr e = Some n ∧ key n = e_key e) es ns →
  Forall (λ e, Q (e_key e)) es → Forall (λ n, Q (key n)) ns.
Proof.
  induction 1 as [|e n es ns [_ Hk] _ IH]; [constructor|].
  intros [Hq Hall]%Forall_cons. constructor; [by rewrite Hk|by apply IH].
Qed.

Lemma filter_none {A} (Q : A → Prop) `{!∀ x, Decision (Q x)} (l : list A) :
  Forall (λ x, ¬ Q x) l → filter Q l = [].
Proof.
  induction 1 as [|x l Hx _ IH]; [done|]. by rewrite filter_cons_False.
Qed.

Lemma filter_all {A} (Q : A → Prop) `{!∀ x, Decision (Q x)} (l : list A) :
  Forall Q l → filter Q l = l.
Proof.
  induction 1 as [|x l Hx _ IH]; [done|]. by rewrite filter_cons_True, IH.
Qed.

Lemma visible_row_key id n r : visible_row id n = Some r → r.1 = key n.
Proof.
  unfold visible_row. destruct (get_visible_version (payload n) id); [|done].
  by intros [= <-].
Qed.

Lemma rows_sorted id (Q : Node (list Version) → Prop)
    `{!∀ n, Decision (Q n)} (ns : list (Node (list Version))) :
  StronglySorted Z.lt (key <$> ns) →
  StronglySorted Z.lt ((omap (visible_row id) (filter Q ns)).*1).
Proof.
  induction ns as [|n ns IH]; [constructor|]. rewrite fmap_cons.
  intros [Hall Hs]%StronglySorted_cons. rewrite filter_cons.
  case_decide; [|by apply IH]. simpl.
  destruct (visible_row id n) as [r|] eqn:Hr; [|by apply IH].
  rewrite fmap_cons. apply StronglySorted_cons. split; [|by apply IH].
  rewrite (visible_row_key _ _ _ Hr). apply Forall_forall.
  intros z (r' & -> & Hr')%list_elem_of_fmap.
  apply list_elem_of_omap in Hr' as (n' & Hn' & Hrow).
  rewrite (visible_row_key _ _ _ Hrow). rewrite Forall_forall in Hall.
  apply Hall. apply list_elem_of_fmap. exists n'. split; [done|].
  by apply list_elem_of_filter in Hn' as [_ ?].
Qed.

(** ** Writes and reads of one key *)

Lemma MVCC_insert_spec s l ti t k v coin :
  MVCC_wf s l → MVCC.txns s !! ti = Some t → MVCC.state t = ACTIVE →
  ∃ s' l' e old,
    MVCC.insert_element s (Some ti) k v coin = Some (0%Z, s')
    ∧ MVCC_wf s' l' ∧ e ∈ l' ∧ e_key e = k
    ∧ MVCC.chain_of s k = Some (if decide (Exists (λ e, e_key e = k) l)
                                then Some old else None)
    ∧ (¬ Exists (λ e, e_key e = k) l → old = [])
    ∧ payload <$> MVCC.heap s' !! e_addr e
      = Some (new_Version v (MVCC.txn_id t) :: old)
    ∧ MVCC.txns s'
      = <[ti := MVCC.mkTransaction (MVCC.txn_id t) ACTIVE
                  (MVCC.modified_nodes t ++ [e_addr e])]> (MVCC.txns s)
    ∧ MVCC._max_level s' = MVCC._max_level s
    ∧ MVCC._next_txn_id s' = MVCC._next_txn_id s
    ∧ MVCC._active_transactions s' = MVCC._active_transactions s.
Proof.
  intros Hwf Ht Hact.
  destruct (decide (Exists (λ e, e_key e = k) l))
    as [(e & He & Hk)%Exists_exists|Hno].
  - destruct (MVCC_insert_found s l ti t k v coin e Hwf Ht Hact He Hk)
      as (s' & old & Hins & Hwf' & Hold & Hnew & _ & Htx & _ & Hm & Hn & Ha).
    exists s', l, e, old. do 4 (split; [done|]).
    split; [|split; [|by do 4 (split; [done|])]].
    + subst k. destruct (MVCC_chain_of_present s l e Hwf He) as [-> _].
      by rewrite Hold.
    + intros Hno. exfalso. apply Hno, Exists_exists. eauto.
  - pose proof Hno as Hno'. rewrite Exists_exists in Hno'.
    destruct (MVCC_insert_new s l ti t k v coin Hwf Ht Hact)
      as (s' & lt & ge & node & -> & Hins & Hwf' & _ & Hnew & _ & Htx & _
          & Hm & Hn & Ha); [naive_solver|].
    exists s', (lt ++ mkEntry node k
                       (get_random_level (MVCC._max_level s) coin) :: ge),
      (mkEntry node k (get_random_level (MVCC._max_level s) coin)), [].
    do 2 (split; [done|]).
    split; [set_solver|]. split; [done|].
    split; [|by do 5 (split; [done|])].
    apply (MVCC_chain_of_absent s (lt ++ ge)); [done|naive_solver].
Qed.

Lemma get_visible_version_elem c id ver :
  get_visible_version c id = Some ver → ver ∈ c ∧ is_visible ver id = true.
Proof.
  induction c as [|v c IH]; simpl; [done|].
  destruct (is_visible v id) eqn:Hv.
  - intros [= ->]. split; [set_solver|done].
  - intros [? ?]%IH. split; [set_solver|done].
Qed.

Lemma commit_version_marks c id ver :
  ver ∈ commit_version c id → create_ts ver = id → is_committed ver = true.
Proof.
  induction c as [|v c IH]; simpl; [by intros ?%elem_of_nil|].
  intros [->|Hin]%elem_of_cons; [|by apply IH].
  destruct (Z.eqb_spec (create_ts v) id); simpl; [done|congruence].
Qed.

Lemma uint64_succ_small id :
  (0 ≤ id < UINT64_MAX)%Z → MVCC.uint64_succ id = (id + 1)%Z.
Proof.
  intros H. unfold MVCC.uint64_succ. apply Z.mod_small.
  unfold UINT64_MAX in *. lia.
Qed.

(** One round of the scenario: begin, write key [k], commit. *)
Lemma gc_round_spec coin s l k v id oc :
  MVCC_wf s l →
  MVCC._active_transactions s = ∅ → MVCC._next_txn_id s = id →
  (0 ≤ id < UINT64_MAX)%Z →
  MVCC.chain_of s k = Some oc →
  ∃ s' l',
    (let '(txn, s1) := MVCC.begin_transaction s in
     '(_, s2) ← MVCC.insert_element s1 (Some txn) k v coin;
     '(_, s3) ← MVCC.commit_transaction s2 (Some txn);
     Some s3) = Some s'
    ∧ MVCC_wf s' l'
    ∧ MVCC._active_transactions s' = ∅
    ∧ MVCC._next_txn_id s' = (id + 1)%Z
    ∧ MVCC._max_level s' = MVCC._max_level s
    ∧ MVCC.chain_of s' k
      = Some (Some (commit_version (new_Version v id :: default [] oc) id)).
Proof.
  intros Hwf Hact Hid Hrange Hchain.
  pose proof (MVCC_begin_wf s l Hwf) as Hwf1.
  destruct (MVCC.begin_transaction s) as [txn s1] eqn:Hb.
  unfold MVCC.begin_transaction in Hb. injection Hb as <- <-.
  set (t := MVCC.mkTransaction (MVCC._next_txn_id s) ACTIVE []).
  set (s1 := MVCC.mkList _ _ _ _ _ _ _ _ _ _) in *.
  assert (MVCC.txns s1 !! length (MVCC.txns s) = Some t) as Ht.
  { unfold s1. cbn. by rewrite lookup_app_r, Nat.sub_diag by lia. }
  destruct (MVCC_insert_spec s1 l (length (MVCC.txns s)) t k v coin Hwf1 Ht
              eq_refl)
    as (s2 & l2 & e & old & Hins & Hwf2 & He & Hk & Hold & Hnil & Hnew & Htx
        & Hm2 & Hn2 & Ha2).
  rewrite Hins. cbn [mbind option_bind].
  set (t2 := MVCC.mkTransaction (MVCC.txn_id t) ACTIVE
               (MVCC.modified_nodes t ++ [e_addr e])) in *.
  assert (MVCC.txns s2 !! length (MVCC.txns s) = Some t2) as Ht2.
  { rewrite Htx. apply list_lookup_insert_eq. by eapply lookup_lt_Some. }
  destruct (MVCC_commit_spec s2 l2 (length (MVCC.txns s)) t2 Hwf2 Ht2 eq_refl)
    as (s3 & Hc & Hwf3 & _ & Hm3 & _ & Hn3 & _ & Hpl & Ha3).
  rewrite Hc. cbn [mbind option_bind]. exists s3, l2.
  split; [done|]. split; [done|].
  split. { rewrite Ha3, Ha2. unfold s1, t2, t. cbn. rewrite Hact.
           by rewrite delete_insert_eq, delete_empty. }
  split. { rewrite Hn3, Hn2. unfold s1. cbn. rewrite Hid.
           by apply uint64_succ_small. }
  split. { by rewrite Hm3, Hm2. }
  assert (MVCC.txn_id t = id) as Hidt by done.
  assert (old = default [] oc) as ->.
  { assert (MVCC.chain_of s1 k = MVCC.chain_of s k) as Heq by done.
    rewrite Heq, Hchain in Hold. injection Hold as ->.
    case_decide as Hex; [done|]. simpl. by apply Hnil. }
  subst k. destruct (MVCC_chain_of_present s3 l2 e Hwf3 He) as [-> _].
  rewrite Hpl. rewrite decide_True by (unfold t2; cbn; set_solver).
  rewrite Hnew. unfold t2. cbn [fmap option_fmap option_map MVCC.txn_id].
  by rewrite Hidt.
Qed.

Lemma MVCC_chain_of_inv s l k c :
  MVCC_wf s l → MVCC.chain_of s k = Some (Some c) →
  ∃ e, e ∈ l ∧ e_key e = k ∧ payload <$> MVCC.heap s !! e_addr e = Some c.
Proof.
  intros Hwf Hc.
  destruct (decide (Exists (λ e, e_key e = k) l))
    as [(e & He & Hk)%Exists_exists|Hno].
  - exists e. split; [done|]. split; [done|]. subst k.
    destruct (MVCC_chain_of_present s l e Hwf He) as [Hp _].
    rewrite Hp in Hc. by injection Hc.
  - rewrite Exists_exists in Hno.
    rewrite (MVCC_chain_of_absent s l k Hwf) in Hc by naive_solver. done.
Qed.

(** [gc()] with no active transaction, then a read by a new one. *)
Lemma gc_then_read s l k c id :
  MVCC_wf s l →
  MVCC._active_transactions s = ∅ → MVCC._next_txn_id s = id →
  MVCC.chain_of s k = Some (Some c) →
  (s' ← MVCC.gc s;
   chain ← MVCC.chain_of s' k;
   let '(txn, s1) := MVCC.begin_transaction s' in
   r ← MVCC.search_element s1 (Some txn) k;
   Some (chain, r))
  = Some (Some (gc_versions c id),
          value <$> get_visible_version (gc_versions c id) id).
Proof.
  intros Hwf Hact Hid Hc.
  destruct (MVCC_chain_of_inv s l k c Hwf Hc) as (e & He & <- & Hp).
  destruct (MVCC_gc_spec s l Hwf)
    as (s' & Hg & Hwf' & _ & _ & _ & Hpl & Hn & Ha).
  rewrite Hg. cbn [mbind option_bind].
  assert (MVCC.get_min_active_txn_id s = id) as Hmin.
  { unfold MVCC.get_min_active_txn_id. by rewrite decide_True. }
  assert (payload <$> MVCC.heap s' !! e_addr e = Some (gc_versions c id))
    as Hp'.
  { rewrite Hpl, decide_True, Hp, Hmin; [done|].
    apply list_elem_of_fmap. eauto. }
  destruct (MVCC_chain_of_present s' l e Hwf' He) as [-> _].
  rewrite Hp'. cbn [mbind option_bind].
  pose proof (MVCC_begin_wf s' l Hwf') as Hwf1.
  destruct (MVCC.begin_transaction s') as [txn s1] eqn:Hb.
  unfold MVCC.begin_transaction in Hb. injection Hb as <- <-.
  set (s1 := MVCC.mkList _ _ _ _ _ _ _ _ _ _) in *.
  set (t := MVCC.mkTransaction (MVCC._next_txn_id s') ACTIVE []).
  assert (MVCC.txns s1 !! length (MVCC.txns s') = Some t) as Ht.
  { unfold s1. cbn. by rewrite lookup_app_r, Nat.sub_diag by lia. }
  rewrite (MVCC_search_present s1 l _ t e (gc_versions c id) Hwf1 Ht eq_refl
             He Hp').
  cbn [mbind option_bind]. unfold t. cbn [MVCC.txn_id].
  by rewrite Hn, Hid.
Qed.

(** ** Garbage collection after ten committed writes *)

Ltac scenario_round :=
  match goal with
  | Hwf : MVCC_wf ?s ?l, Ha : MVCC._active_transactions ?s = ∅,
    Hn : MVCC._next_txn_id ?s = ?id, Hc : MVCC.chain_of ?s 1%Z = Some ?oc
    |- context [gc_round ?coin ?s ?v] =>
      let s' := fresh "s" in
      let l' := fresh "l" in
      let Hr := fresh "Hr" in
      let Hwf' := fresh "Hwf" in
      let Ha' := fresh "Ha" in
      let Hn' := fresh "Hn" in
      let Hc' := fresh "Hc" in
      destruct (gc_round_spec coin s l 1%Z v id oc Hwf Ha Hn
                  ltac:(unfold UINT64_MAX; lia) Hc)
        as (s' & l' & Hr & Hwf' & Ha' & Hn' & _ & Hc');
      change (gc_round coin s v = Some s') in Hr;
      rewrite Hr; cbn [mbind option_bind for_each];
      clear Hwf Ha Hn Hc Hr;
      match type of Hn' with
      | _ = ?n => let n' := eval vm_compute in n in change n with n' in Hn'
      end;
      match type of Hc' with
      | _ = Some (Some ?c) =>
          let c' := eval vm_compute in c in change c with c' in Hc'
      end
  end.

(** C3, what the code does in the scenario of the claim: after ten
    transactions have written [v0] to [v9] to key 1 and committed one
    after the other, and with no transaction active, [gc()] leaves the
    chain as it was, [v9] in front of [v8] down to [v0], where the claim
    and the comment in [gc_versions] (a version no active transaction can
    see may be reclaimed) expect [v9] alone.  [add_version] gives the
    version it supersedes no [delete_ts], so the test
    [delete_ts < min_active_txn_id] of [gc_versions] never holds for it.
    The read by a new transaction does return [v9].  This holds for every
    maximum level and every random tower height. *)
Theorem gc_keeps_superseded_versions max_level coin :
  gc_scenario max_level coin
  = Some (Some [committed_version "v9" 10; committed_version "v8" 9;
                committed_version "v7" 8; committed_version "v6" 7;
                committed_version "v5" 6; committed_version "v4" 5;
                committed_version "v3" 4; committed_version "v2" 3;
                committed_version "v1" 2; committed_version "v0" 1],
          Some "v9"%string).
Proof.
  unfold gc_scenario, ten_values.
  pose proof (MVCC_wf_create max_level) as Hwf.
  assert (MVCC._active_transactions (MVCC.create max_level) = ∅) as Ha
    by done.
  assert (MVCC._next_txn_id (MVCC.create max_level) = 1%Z) as Hn by done.
  pose proof (MVCC_chain_of_absent (MVCC.create max_level) [] 1%Z Hwf) as Hc.
  specialize (Hc ltac:(by intros e ?%elem_of_nil)).
  cbn [for_each].
  do 10 scenario_round.
  match goal with
  | Hwf : MVCC_wf ?s ?l, Ha : MVCC._active_transactions ?s = ∅,
    Hn : MVCC._next_txn_id ?s = ?id,
    Hc : MVCC.chain_of ?s 1%Z = Some (Some ?c) |- _ =>
      rewrite (gc_then_read s l 1%Z c id Hwf Ha Hn Hc)
  end.
  vm_compute. reflexivity.
Qed.

(** The scenario of [test_garbage_collection] (maximum level 6): the
    chain of key 1 after [gc()] is not [v9] alone. *)
Lemma gc_reclaims_nothing_counterexample :
  ¬ ∃ r, gc_scenario 6 0 = Some (Some [committed_version "v9" 10], r).
Proof.
  intros [r H]. vm_compute in H. discriminate H.
Qed.

(** ** The node pool *)

Lemma memset_null_all (fw : list (option nat)) n :
  length fw = n → Opt.memset_null fw n = Some (replicate n None).
Proof.
  intros H. unfold Opt.memset_null. rewrite decide_True by lia.
  rewrite drop_ge by lia. by rewrite app_nil_r.
Qed.

(** C8 as stated fails: a node allocated for level 3 does not have 3
    forward slots. *)
Lemma allocate_slots_counterexample :
  ¬ ∃ node pool h n,
      Opt.allocate (Opt.mkPool [] 0 0) ∅ 5%Z "x"%string 3
        = Some (node, pool, h)
      ∧ h !! node = Some n ∧ length (forward n) = 3.
Proof.
  intros (node & pool & h & n & Ha & Hn & Hlen).
  vm_compute in Ha. injection Ha as <- _ <-.
  vm_compute in Hn. injection Hn as <-. vm_compute in Hlen. discriminate.
Qed.

(** C8, as the code has it: when every pooled node is live and owns
    [node_level + 1] slots, [allocate(key, value, level)] returns a node
    with the given key and value whose forward array has exactly
    [level + 1] slots, all null; it is the last node of the free list when
    there is one (taken off the list, counted as reused), and a node at a
    new address otherwise (counted as allocated); no other node
    changes. *)
Theorem allocate_returns_clean_node pool h k v level :
  (∀ a, a ∈ Opt._free_list pool →
     ∃ n, h !! a = Some n ∧ length (forward n) = S (node_level n)) →
  ∃ node pool' h',
    Opt.allocate pool h k v level = Some (node, pool', h')
    ∧ h' !! node = Some (mkNode k level (replicate (S level) None) v)
    ∧ (∀ b, b ≠ node → h' !! b = h !! b)
    ∧ match last (Opt._free_list pool) with
      | Some a =>
          node = a
          ∧ Opt._free_list pool' = removelast (Opt._free_list pool)
          ∧ Opt._reused_count pool' = (Opt._reused_count pool + 1)%Z
          ∧ Opt._allocated_count pool' = Opt._allocated_count pool
      | None =>
          h !! node = None
          ∧ Opt._free_list pool' = Opt._free_list pool
          ∧ Opt._allocated_count pool' = (Opt._allocated_count pool + 1)%Z
          ∧ Opt._reused_count pool' = Opt._reused_count pool
      end.
Proof.
  intros Hpool. unfold Opt.allocate.
  destruct (last (Opt._free_list pool)) as [a|] eqn:Hlast.
  - destruct (Hpool a) as (n & Hn & Hlen).
    { apply last_Some in Hlast as [l' ->]. set_solver. }
    unfold Opt.reinitialize_node. rewrite Hn. cbn [mbind option_bind].
    rewrite memset_null_all.
    2:{ case_decide; [by rewrite length_replicate|]. 
        rewrite Hlen. f_equal. by destruct (decide (node_level n = level)). }
    cbn [mbind option_bind]. eexists _, _, _. split; [done|].
    split.
    + rewrite lookup_insert_eq. do 2 f_equal.
      case_decide as Hne; [done|]. by destruct (decide (node_level n = level)).
    + split; [|done]. intros b Hb. by rewrite lookup_insert_ne.
  - eexists _, _, _. split; [done|].
    split; [by rewrite lookup_insert_eq|].
    split; [intros b Hb; by rewrite lookup_insert_ne|].
    split; [|done]. apply not_elem_of_dom, is_fresh.
Qed.

Lemma allocate_returns_clean_node_witness :
  ∃ node pool' h',
    Opt.allocate sample_pool sample_pool_heap 4%Z "new"%string 3
      = Some (node, pool', h')
    ∧ h' !! node = Some (mkNode 4%Z 3 (replicate 4 None) "new"%string)
    ∧ (∀ b, b ≠ node → h' !! b = sample_pool_heap !! b)
    ∧ match last (Opt._free_list sample_pool) with
      | Some a =>
          node = a
          ∧ Opt._free_list pool' = removelast (Opt._free_list sample_pool)
          ∧ Opt._reused_count pool' = (Opt._reused_count sample_pool + 1)%Z
          ∧ Opt._allocated_count pool' = Opt._allocated_count sample_pool
      | None =>
          sample_pool_heap !! node = None
          ∧ Opt._free_list pool' = Opt._free_list sample_pool
          ∧ Opt._allocated_count pool'
            = (Opt._allocated_count sample_pool + 1)%Z
          ∧ Opt._reused_count pool' = Opt._reused_count sample_pool
      end.
Proof.
  apply (allocate_returns_clean_node sample_pool sample_pool_heap 4%Z
           "new"%string 3).
  intros a Ha. apply list_elem_of_singleton in Ha as ->.
  exists (new_node 9%Z 2 "old"%string). split; reflexivity.
Defined.

(** ** Two inserts of one key *)

Lemma Opt_search_present s l e w :
  Opt_wf s l → e ∈ l → payload <$> Opt.heap s !! e_addr e = Some w →
  Opt.search_element s (e_key e) = Some (true, Some w).
Proof.
  intros [HI _] He Hw. unfold Opt.search_element.
  rewrite (Inv_find_present _ _ _ _ _ HI e He). cbn [mbind option_bind].
  apply payload_lookup_inv in Hw as (n & -> & <-). done.
Qed.



(** ** Own writes and committed writes *)




(** ** The optimized list as a sorted table of rows *)

Lemma Inv_entry_live {P} (h : gmap nat (Node P)) header max_level level l e :
  Inv h header max_level level l → e ∈ l → is_Some (h !! e_addr e).
Proof.
  intros HI He. pose proof (inv_nodes _ _ _ _ _ HI e He) as Hn.
  destruct (h !! e_addr e); [eauto|done].
Qed.

Lemma Opt_rows_dump s l :
  Opt_wf s l → ∃ rows, Opt_rows s l rows ∧ OptMore.dump_file s = Some rows.
Proof.
  intros [HI _].
  destruct (Inv_live_nodes _ _ _ _ _ HI) as (ns & Hn & HF).
  exists (OptMore.row <$> ns). split.
  - apply Forall2_fmap_r. eapply Forall2_impl; [exact HF|].
    intros e n (Hl & Hk & _). unfold OptMore.row. cbn.
    split; [done|]. by rewrite Hl.
  - unfold OptMore.dump_file. by rewrite Hn.
Qed.

Lemma Opt_rows_keys s l rows : Opt_rows s l rows → rows.*1 = e_key <$> l.
Proof.
  induction 1 as [|e r l rows [Hk _] _ IH]; [done|].
  cbn. by rewrite Hk, IH.
Qed.

Lemma Opt_rows_functional s l rows rows' :
  Opt_rows s l rows → Opt_rows s l rows' → rows = rows'.
Proof.
  intros H. revert rows'.
  induction H as [|e r l rows [Hk Hp] _ IH]; intros rows' H'.
  - by inversion H'.
  - inversion H' as [|? r' ? rows'' [Hk' Hp'] Hrest]; subst.
    f_equal; [|by apply IH].
    destruct r, r'; cbn in *. congruence.
Qed.

Lemma Opt_rows_frame s s' l rows :
  (∀ e, e ∈ l → payload <$> Opt.heap s' !! e_addr e
                = payload <$> Opt.heap s !! e_addr e) →
  Opt_rows s l rows → Opt_rows s' l rows.
Proof.
  intros Hf H. eapply Forall2_impl_elem; [exact H|].
  intros e r He [Hk Hp]. split; [done|]. by rewrite Hf.
Qed.

Lemma Opt_rows_elem s l rows k v :
  Opt_rows s l rows → (k, v) ∈ rows →
  ∃ e, e ∈ l ∧ e_key e = k ∧ payload <$> Opt.heap s !! e_addr e = Some v.
Proof.
  induction 1 as [|e r l rows [Hk Hp] _ IH]; intros Hin.
  - by apply elem_of_nil in Hin.
  - apply elem_of_cons in Hin as [<-|Hin].
    + exists e. cbn in *. split; [left|]. done.
    + destruct (IH Hin) as (e' & He' & ?). exists e'. split; [by right|done].
Qed.

Lemma Opt_rows_key_elem s l rows k :
  Opt_rows s l rows → k ∈ rows.*1 ↔ ∃ e, e ∈ l ∧ e_key e = k.
Proof.
  intros H. rewrite (Opt_rows_keys _ _ _ H), list_elem_of_fmap.
  naive_solver.
Qed.

(** Inserting an absent key: the rows split around the new one. *)
Lemma Opt_rows_insert_new s l rows k v coin :
  Opt_wf s l → Opt_rows s l rows → k ∉ rows.*1 →
  ∃ s' l' lt ge,
    Opt.insert_element s k v coin = Some (0%Z, s')
    ∧ Opt_wf s' l'
    ∧ length l' = S (length l)
    ∧ rows = lt ++ ge
    ∧ Forall (λ x, (x.1 < k)%Z) lt ∧ Forall (λ x, (k < x.1)%Z) ge
    ∧ Opt_rows s' l' (lt ++ (k, v) :: ge)
    ∧ Opt._max_level s' = Opt._max_level s
    ∧ Opt._header s' = Opt._header s.
Proof.
  intros Hwf Hrows Hk.
  assert (Habs : ∀ e, e ∈ l → e_key e ≠ k).
  { intros e He Hek. apply Hk.
    apply (Opt_rows_key_elem _ _ _ _ Hrows). eauto. }
  destruct (Opt_insert_new s l k v coin Hwf Habs)
    as (s' & elt & ege & node & -> & Hins & Hwf' & Hm & Hh & Hpn & Hpo).
  apply Forall2_app_inv_l in Hrows as (lt & ge & Hlt & Hge & ->).
  exists s', (elt ++ mkEntry node k
                (get_random_level (Opt._max_level s) coin) :: ege), lt, ge.
  destruct Hwf' as [HI' Hfree'].
  pose proof (inv_sorted _ _ _ _ _ HI') as Hs.
  apply sorted_around in Hs as [Hs1 Hs2]. cbn [e_key] in Hs1, Hs2.
  pose proof (inv_nodup _ _ _ _ _ HI') as Hnd.
  apply NoDup_cons in Hnd as [_ Hnd].
  rewrite fmap_app, fmap_cons in Hnd. cbn [e_addr] in Hnd.
  apply NoDup_app in Hnd as (_ & Hn1 & Hnd).
  apply NoDup_cons in Hnd as [Hn2 _].
  split; [done|]. split; [by split|].
  split; [rewrite !length_app; cbn; lia|].
  split; [done|].
  split.
  { clear -Hlt Hs1. induction Hlt as [|e r ? ? [Hr _] _ IH]; [done|].
    apply Forall_cons in Hs1 as [? ?]. constructor; [lia|auto]. }
  split.
  { clear -Hge Hs2. induction Hge as [|e r ? ? [Hr _] _ IH]; [done|].
    apply Forall_cons in Hs2 as [? ?]. constructor; [lia|auto]. }
  split; [|done].
  apply Forall2_app; [|constructor].
  - eapply Forall2_impl_elem; [exact Hlt|].
    intros e r He [Hr Hp]. split; [done|]. rewrite Hpo; [done|].
    intros Heq. apply (Hn1 node); [|left].
    rewrite <- Heq. apply list_elem_of_fmap. eauto.
  - by cbn.
  - eapply Forall2_impl_elem; [exact Hge|].
    intros e r He [Hr Hp]. split; [done|]. rewrite Hpo; [done|].
    intros Heq. apply Hn2. rewrite <- Heq. apply list_elem_of_fmap. eauto.
Qed.

Lemma Opt_rows_insert_found s l rows k v coin :
  Opt_wf s l → Opt_rows s l rows → k ∈ rows.*1 →
  Opt.insert_element s k v coin = Some (1%Z, s).
Proof.
  intros Hwf Hrows Hk.
  apply (Opt_rows_key_elem _ _ _ _ Hrows) in Hk as (e & He & Hek).
  by eapply Opt_insert_found.
Qed.

(** X1: on every list a client can build, [insert_element] of a key that
    [dump_file] lists returns 1 and leaves the whole list as it was (the
    stored value is not replaced); of any other key it returns 0 and
    [dump_file] then lists the new pair between the pairs with smaller
    and those with greater keys, every other pair as before. *)
Theorem opt_insert_updates_rows max_level calls s k v coin :
  Opt.after max_level calls = Some s →
  ∃ rows r s',
    OptMore.dump_file s = Some rows
    ∧ Opt.insert_element s k v coin = Some (r, s')
    ∧ (k ∈ rows.*1 → r = 1%Z ∧ s' = s)
    ∧ (k ∉ rows.*1 →
       r = 0%Z
       ∧ ∃ lt ge, rows = lt ++ ge
           ∧ Forall (λ x, (x.1 < k)%Z) lt ∧ Forall (λ x, (k < x.1)%Z) ge
           ∧ OptMore.dump_file s' = Some (lt ++ (k, v) :: ge)).
Proof.
  intros Hs. destruct (Opt_after_wf _ _ _ Hs) as (l & Hwf & _ & _).
  destruct (Opt_rows_dump _ _ Hwf) as (rows & Hrows & Hdump).
  exists rows.
  destruct (decide (k ∈ rows.*1)) as [Hin|Hout].
  - exists 1%Z, s. split; [done|].
    split; [by eapply Opt_rows_insert_found|]. split; [done|].
    intros Hn. by destruct Hn.
  - destruct (Opt_rows_insert_new s l rows k v coin Hwf Hrows Hout)
      as (s' & l' & lt & ge & Hins & Hwf' & _ & -> & Hlt & Hge & Hrows' & _).
    exists 0%Z, s'. split; [done|]. split; [done|].
    split; [intros Hin; by destruct Hout|].
    intros _. split; [done|]. exists lt, ge.
    split; [done|]. split; [done|]. split; [done|].
    destruct (Opt_rows_dump _ _ Hwf') as (rows' & Hr' & ->).
    f_equal. by eapply Opt_rows_functional.
Qed.

Lemma opt_insert_updates_rows_witness :
  ∃ rows r s',
    OptMore.dump_file sample_opt = Some rows
    ∧ Opt.insert_element sample_opt 4%Z "d"%string 1 = Some (r, s')
    ∧ (4%Z ∈ rows.*1 → r = 1%Z ∧ s' = sample_opt)
    ∧ (4%Z ∉ rows.*1 →
       r = 0%Z
       ∧ ∃ lt ge, rows = lt ++ ge
           ∧ Forall (λ x, (x.1 < 4)%Z) lt ∧ Forall (λ x, (4 < x.1)%Z) ge
           ∧ OptMore.dump_file s' = Some (lt ++ (4%Z, "d"%string) :: ge)).
Proof.
  apply (opt_insert_updates_rows 4 sample_opt_calls).
  vm_compute. reflexivity.
Defined.

Lemma Opt_search_absent s l k :
  Opt_wf s l → (∀ e, e ∈ l → e_key e ≠ k) →
  Opt.search_element s k = Some (false, None)
  ∧ OptMore.search_element_silent s k = Some false.
Proof.
  intros [HI _] Habs.
  unfold Opt.search_element, OptMore.search_element_silent.
  by rewrite (Inv_find_absent _ _ _ _ _ HI k Habs).
Qed.

Lemma Opt_search_found s l e w :
  Opt_wf s l → e ∈ l → payload <$> Opt.heap s !! e_addr e = Some w →
  Opt.search_element s (e_key e) = Some (true, Some w)
  ∧ OptMore.search_element_silent s (e_key e) = Some true.
Proof.
  intros Hwf He Hp. split; [by eapply Opt_search_present|].
  destruct Hwf as [HI _]. unfold OptMore.search_element_silent.
  by rewrite (Inv_find_present _ _ _ _ _ HI e He).
Qed.

Lemma Opt_rows_keys_lt s l rows (k : Z) :
  Opt_rows s l rows → Forall (λ e, (e_key e < k)%Z) l →
  Forall (λ x, (x.1 < k)%Z) rows.
Proof.
  induction 1 as [|e r ? ? [Hr _] _ IH]; intros HF; [done|].
  apply Forall_cons in HF as [? ?]. constructor; [lia|auto].
Qed.

Lemma Opt_rows_keys_gt s l rows (k : Z) :
  Opt_rows s l rows → Forall (λ e, (k < e_key e)%Z) l →
  Forall (λ x, (k < x.1)%Z) rows.
Proof.
  induction 1 as [|e r ? ? [Hr _] _ IH]; intros HF; [done|].
  apply Forall_cons in HF as [? ?]. constructor; [lia|auto].
Qed.

(** Removing a present key: its row goes, the others stay. *)
Lemma Opt_rows_delete_found s l rows k :
  Opt_wf s l → Opt_rows s l rows → k ∈ rows.*1 →
  ∃ s' l',
    Opt.delete_element s k = Some s'
    ∧ Opt_wf s' l'
    ∧ S (length l') = length l
    ∧ Opt_rows s' l' (filter (λ x, x.1 ≠ k) rows)
    ∧ (∀ e, e ∈ l' → e_key e ≠ k)
    ∧ Opt._max_level s' = Opt._max_level s
    ∧ Opt._header s' = Opt._header s.
Proof.
  intros Hwf Hrows Hk.
  apply (Opt_rows_key_elem _ _ _ _ Hrows) in Hk as (e & He & Hek).
  apply list_elem_of_split in He as (elt & ege & ->).
  destruct (Opt_delete_found s elt ege e Hwf)
    as (s' & Hdel & Hwf' & Hm & Hh & Hgone & Hpo).
  rewrite Hek in Hdel.
  exists s', (elt ++ ege).
  pose proof (inv_sorted _ _ _ _ _ (proj1 Hwf)) as Hs.
  apply sorted_around in Hs as [Hs1 Hs2]. rewrite Hek in Hs1, Hs2.
  split; [done|]. split; [done|].
  split; [rewrite !length_app; cbn; lia|].
  split; [|split; [|done]].
  - apply Forall2_app_inv_l in Hrows as (lt & ge' & Hlt & Hge & ->).
    inversion Hge as [|? r ? ge [Hr Hp] Hge']; subst.
    rewrite filter_app, filter_cons.
    rewrite decide_False by (intros Hne; apply Hne; congruence).
    rewrite !filter_all.
    + apply Forall2_app.
      * eapply Forall2_impl_elem; [exact Hlt|].
        intros x y Hx [Hy Hpy]. split; [done|]. rewrite Hpo; [done|].
        intros Heq. destruct Hwf' as [HI' _].
        assert (Hin : x ∈ elt ++ ege) by (apply elem_of_app; by left).
        apply (Inv_entry_live _ _ _ _ _ _ HI') in Hin.
        rewrite Heq, Hgone in Hin. by destruct Hin.
      * eapply Forall2_impl_elem; [exact Hge'|].
        intros x y Hx [Hy Hpy]. split; [done|]. rewrite Hpo; [done|].
        intros Heq. destruct Hwf' as [HI' _].
        assert (Hin : x ∈ elt ++ ege) by (apply elem_of_app; by right).
        apply (Inv_entry_live _ _ _ _ _ _ HI') in Hin.
        rewrite Heq, Hgone in Hin. by destruct Hin.
    + eapply Forall_impl; [eapply Opt_rows_keys_gt; eauto|].
      cbn. intros; lia.
    + eapply Forall_impl; [eapply Opt_rows_keys_lt; eauto|].
      cbn. intros; lia.
  - intros x Hx Hxk. apply elem_of_app in Hx as [Hx|Hx].
    + rewrite Forall_forall in Hs1. apply Hs1 in Hx. lia.
    + rewrite Forall_forall in Hs2. apply Hs2 in Hx. lia.
Qed.

Lemma Opt_rows_delete_absent s l rows k :
  Opt_wf s l → Opt_rows s l rows → k ∉ rows.*1 →
  Opt.delete_element s k = Some s
  ∧ filter (λ x : Z * string, x.1 ≠ k) rows = rows.
Proof.
  intros Hwf Hrows Hk. split.
  - eapply Opt_delete_absent; [done|].
    intros e He Hek. apply Hk.
    apply (Opt_rows_key_elem _ _ _ _ Hrows). eauto.
  - apply filter_all. apply Forall_forall. intros x Hx Hxk.
    apply Hk. apply list_elem_of_fmap. eauto.
Qed.

(** X2: on every list a client can build, [delete_element] returns;
    afterwards [dump_file] lists the pairs it listed before except the
    one with the deleted key, a search for the key fails, and when the
    key was not listed the whole list is as it was. *)
Theorem opt_delete_removes_row max_level calls s k :
  Opt.after max_level calls = Some s →
  ∃ rows s',
    OptMore.dump_file s = Some rows
    ∧ Opt.delete_element s k = Some s'
    ∧ OptMore.dump_file s' = Some (filter (λ x, x.1 ≠ k) rows)
    ∧ Opt.search_element s' k = Some (false, None)
    ∧ (k ∉ rows.*1 → s' = s).
Proof.
  intros Hs. destruct (Opt_after_wf _ _ _ Hs) as (l & Hwf & _ & _).
  destruct (Opt_rows_dump _ _ Hwf) as (rows & Hrows & Hdump).
  exists rows.
  destruct (decide (k ∈ rows.*1)) as [Hin|Hout].
  - destruct (Opt_rows_delete_found s l rows k Hwf Hrows Hin)
      as (s' & l' & Hdel & Hwf' & _ & Hrows' & Habs & _).
    exists s'. split; [done|]. split; [done|].
    split.
    { destruct (Opt_rows_dump _ _ Hwf') as (rows' & Hr' & ->).
      f_equal. by eapply Opt_rows_functional. }
    split; [by apply (Opt_search_absent s' l')|].
    intros Hn. by destruct Hn.
  - destruct (Opt_rows_delete_absent s l rows k Hwf Hrows Hout)
      as [Hdel Hfil].
    exists s. split; [done|]. split; [done|].
    split; [by rewrite Hfil|].
    split; [|done].
    apply (Opt_search_absent s l); [done|].
    intros e He Hek. apply Hout.
    apply (Opt_rows_key_elem _ _ _ _ Hrows). eauto.
Qed.

Lemma opt_delete_removes_row_witness :
  ∃ rows s',
    OptMore.dump_file sample_opt = Some rows
    ∧ Opt.delete_element sample_opt 3%Z = Some s'
    ∧ OptMore.dump_file s' = Some (filter (λ x, x.1 ≠ 3%Z) rows)
    ∧ Opt.search_element s' 3%Z = Some (false, None)
    ∧ (3%Z ∉ rows.*1 → s' = sample_opt).
Proof.
  apply (opt_delete_removes_row 4 sample_opt_calls).
  vm_compute. reflexivity.
Defined.

(** X3: on every list a client can build, [search_element] finds a key
    exactly when [dump_file] lists it, and then prints the value listed
    with it; [search_element_silent] gives the same answer. *)
Theorem opt_search_agrees_with_dump max_level calls s k :
  Opt.after max_level calls = Some s →
  ∃ rows,
    OptMore.dump_file s = Some rows
    ∧ (∀ v, (k, v) ∈ rows →
         Opt.search_element s k = Some (true, Some v)
         ∧ OptMore.search_element_silent s k = Some true)
    ∧ (k ∉ rows.*1 →
         Opt.search_element s k = Some (false, None)
         ∧ OptMore.search_element_silent s k = Some false).
Proof.
  intros Hs. destruct (Opt_after_wf _ _ _ Hs) as (l & Hwf & _ & _).
  destruct (Opt_rows_dump _ _ Hwf) as (rows & Hrows & Hdump).
  exists rows. split; [done|]. split.
  - intros v Hin.
    destruct (Opt_rows_elem _ _ _ _ _ Hrows Hin) as (e & He & <- & Hp).
    by eapply Opt_search_found.
  - intros Hout. apply (Opt_search_absent s l); [done|].
    intros e He Hek. apply Hout.
    apply (Opt_rows_key_elem _ _ _ _ Hrows). eauto.
Qed.

Lemma opt_search_agrees_with_dump_witness :
  ∃ rows,
    OptMore.dump_file sample_opt = Some rows
    ∧ (∀ v, (5%Z, v) ∈ rows →
         Opt.search_element sample_opt 5%Z = Some (true, Some v)
         ∧ OptMore.search_element_silent sample_opt 5%Z = Some true)
    ∧ (5%Z ∉ rows.*1 →
         Opt.search_element sample_opt 5%Z = Some (false, None)
         ∧ OptMore.search_element_silent sample_opt 5%Z = Some false).
Proof.
  apply (opt_search_agrees_with_dump 4 sample_opt_calls).
  vm_compute. reflexivity.
Defined.

(** ** Which objects the operations allocate and free *)

Section Domains.
Context {P : Type}.
Implicit Types (h : gmap nat (Node P)).

Lemma set_forward_dom h a i v h' :
  set_forward h a i v = Some h' → dom h' = dom h.
Proof.
  intros H. apply set_forward_inv in H as (n & Hn & _ & ->).
  rewrite dom_insert_L. apply (elem_of_dom_2 h) in Hn. set_solver.
Qed.

Lemma set_payload_dom_eq h a f h' :
  set_payload h a f = Some h' → dom h' = dom h.
Proof.
  intros H. apply set_payload_inv in H as (n & Hn & ->).
  rewrite dom_insert_L. apply (elem_of_dom_2 h) in Hn. set_solver.
Qed.

Lemma for_each_dom {A} (body : gmap nat (Node P) → A → option (gmap nat (Node P))) :
  (∀ h x h', body h x = Some h' → dom h' = dom h) →
  ∀ xs h h', for_each body h xs = Some h' → dom h' = dom h.
Proof.
  intros Hb xs. induction xs as [|x xs IH]; intros h h' H; cbn in H.
  - by inversion H.
  - destruct (body h x) as [h1|] eqn:E; [|done]. cbn in H.
    rewrite (IH _ _ H). eauto.
Qed.

Lemma splice_level_dom upd node h i h' :
  splice_level upd node h i = Some h' → dom h' = dom h.
Proof.
  unfold splice_level. intros H.
  destruct (update_at upd i) as [p|]; [|done]. cbn in H.
  destruct (fwd h p i) as [nxt|]; [|done]. cbn in H.
  destruct (set_forward h node i nxt) as [h1|] eqn:E1; [|done]. cbn in H.
  rewrite (set_forward_dom _ _ _ _ _ H).
  by eapply set_forward_dom.
Qed.

Lemma splice_dom upd node h rl h' :
  splice upd node h rl = Some h' → dom h' = dom h.
Proof.
  apply for_each_dom. intros ? ? ?. apply splice_level_dom.
Qed.

Lemma unsplice_dom upd cur : ∀ n i h h',
  unsplice upd cur h i n = Some h' → dom h' = dom h.
Proof.
  induction n as [|n IH]; intros i h h' H; cbn in H.
  - by inversion H.
  - destruct (update_at upd i) as [p|]; [|done]. cbn in H.
    destruct (fwd h p i) as [nxt|]; [|done]. cbn in H.
    destruct (decide (nxt = Some cur)); [|by inversion H].
    destruct (fwd h cur i) as [aft|]; [|done]. cbn in H.
    destruct (set_forward h p i aft) as [h1|] eqn:E1; [|done]. cbn in H.
    rewrite (IH _ _ _ H). by eapply set_forward_dom.
Qed.
End Domains.

(** What [insert_element] of the optimized list does to the counters and
    to the heap when the pool is empty. *)
Lemma Opt_insert_fields s k v coin r s' :
  Opt.insert_element s k v coin = Some (r, s') →
  Opt._free_list (Opt._memory_pool s) = [] →
  (r = 1%Z ∧ s' = s)
  ∨ (r = 0%Z
     ∧ Opt._element_count s' = (Opt._element_count s + 1)%Z
     ∧ Opt._memory_pool s'
       = Opt.mkPool [] (Opt._allocated_count (Opt._memory_pool s) + 1)
                    (Opt._reused_count (Opt._memory_pool s))
     ∧ dom (Opt.heap s') = {[fresh (dom (Opt.heap s))]} ∪ dom (Opt.heap s)).
Proof.
  unfold Opt.insert_element. intros H Hfree.
  destruct (find_update _ _ _ _ _ _) as [[current update]|]; [|done].
  cbn [mbind option_bind] in H.
  destruct (fwd _ current 0) as [nxt|]; [|done]. cbn [mbind option_bind] in H.
  destruct (match nxt with
            | Some a => _
            | None => Some false
            end) as [[]|]; cbn [mbind option_bind] in H; [left; by inversion H| |done].
  right.
  destruct (if decide _ then _ else Some update) as [update'|]; [|done].
  cbn [mbind option_bind] in H. unfold Opt.allocate in H. rewrite Hfree in H.
  cbn [last mbind option_bind] in H.
  destruct (@splice string _ _ _ _) as [h2|] eqn:E; [|done]. cbn [mbind option_bind] in H.
  inversion H; subst; clear H. cbn [Opt._element_count Opt._memory_pool Opt.heap].
  split; [done|]. split; [done|]. split; [by rewrite <- Hfree|].
  rewrite (splice_dom _ _ _ _ _ E), dom_insert_L. done.
Qed.

(** What [delete_element] of the optimized list does to the counters and
    to the heap. *)
Lemma Opt_delete_fields s k s' :
  Opt.delete_element s k = Some s' →
  s' = s
  ∨ (Opt._element_count s' = (Opt._element_count s - 1)%Z
     ∧ Opt._memory_pool s' = Opt._memory_pool s
     ∧ ∃ a, a ∈ dom (Opt.heap s)
         ∧ dom (Opt.heap s') = dom (Opt.heap s) ∖ {[a]}).
Proof.
  unfold Opt.delete_element. intros H.
  destruct (find_update _ _ _ _ _ _) as [[current update]|]; [|done].
  cbn [mbind option_bind] in H.
  destruct (fwd _ current 0) as [[a|]|]; cbn [mbind option_bind] in H;
    [|left; by inversion H|done].
  destruct (Opt.heap s !! a) as [n|] eqn:En; [|done]. cbn [mbind option_bind] in H.
  destruct (bool_decide _); [|left; by inversion H].
  destruct (@unsplice string _ _ _ _ _) as [h1|] eqn:E; [|done]. cbn [mbind option_bind] in H.
  destruct (@lower_level string _ _ _) as [lv|]; [|done]. cbn [mbind option_bind] in H.
  inversion H; subst; clear H. cbn [Opt._element_count Opt._memory_pool Opt.heap]. right.
  split; [done|]. split; [done|]. exists a.
  split; [by eapply elem_of_dom_2|].
  by rewrite dom_delete_L, (unsplice_dom _ _ _ _ _ _ E).
Qed.

Lemma Opt_books_create max_level : Opt_books (Opt.create max_level) [].
Proof.
  split; [apply Opt_wf_create|done|done|done|].
  cbn. by rewrite map_size_singleton.
Qed.

Lemma size_dom_fresh {P} (h h' : gmap nat (Node P)) :
  dom h' = {[fresh (dom h)]} ∪ dom h → size h' = S (size h).
Proof.
  intros Hd. rewrite <- (size_dom h'), Hd, size_union, size_singleton.
  - by rewrite size_dom.
  - pose proof (is_fresh (dom h)). set_solver.
Qed.

Lemma size_dom_remove {P} (h h' : gmap nat (Node P)) a :
  a ∈ dom h → dom h' = dom h ∖ {[a]} → S (size h') = size h.
Proof.
  intros Ha Hd.
  rewrite <- (size_dom h'), Hd, size_difference by set_solver.
  rewrite size_singleton, size_dom.
  assert (size h ≠ 0); [|lia].
  intros Hz. apply map_size_empty_iff in Hz. subst.
  by rewrite dom_empty_L in Ha.
Qed.

Lemma Opt_books_run s l c :
  Opt_books s l →
  ∃ s' l', Opt.run s c = Some s' ∧ Opt_books s' l'
           ∧ Opt._max_level s' = Opt._max_level s
           ∧ Opt._header s' = Opt._header s.
Proof.
  intros [Hwf Hc Hr Ha Hh].
  destruct (Opt_rows_dump _ _ Hwf) as (rows & Hrows & _).
  destruct c as [k v coin|k]; cbn [Opt.run].
  - destruct (decide (k ∈ rows.*1)) as [Hin|Hout].
    + rewrite (Opt_rows_insert_found s l rows k v coin Hwf Hrows Hin).
      exists s, l. split; [done|]. split; [by split|]. done.
    + destruct (Opt_rows_insert_new s l rows k v coin Hwf Hrows Hout)
        as (s' & l' & lt & ge & Hins & Hwf' & Hlen & _ & _ & _ & _ & Hm & Hd).
      rewrite Hins. exists s', l'. split; [done|]. split; [|done].
      destruct (Opt_insert_fields _ _ _ _ _ _ Hins (proj2 Hwf))
        as [[? _]|(_ & Hc' & Hp' & Hdom)]; [done|].
      split; [done| | | |].
      * rewrite Hc', Hc, Hlen. lia.
      * by rewrite Hp'.
      * rewrite Hp', Hlen. cbn. lia.
      * rewrite (size_dom_fresh _ _ Hdom), Hh, Hlen. done.
  - destruct (decide (k ∈ rows.*1)) as [Hin|Hout].
    + destruct (Opt_rows_delete_found s l rows k Hwf Hrows Hin)
        as (s' & l' & Hdel & Hwf' & Hlen & _ & _ & Hm & Hd).
      rewrite Hdel. exists s', l'. split; [done|]. split; [|done].
      destruct (Opt_delete_fields _ _ _ Hdel)
        as [->|(Hc' & Hp' & a & Hin' & Hdom)].
      * destruct Hwf as [HI _], Hwf' as [HI' _].
        pose proof (Inv_level_keys _ _ _ _ _ HI 0 (Nat.le_0_l _)) as K1.
        pose proof (Inv_level_keys _ _ _ _ _ HI' 0 (Nat.le_0_l _)) as K2.
        rewrite K1 in K2. inversion K2 as [K].
        rewrite !filter_all_entries in K.
        apply (f_equal length) in K. rewrite !length_fmap in K. lia.
      * split; [done| | | |].
        -- rewrite Hc', Hc. lia.
        -- by rewrite Hp'.
        -- rewrite Hp'. lia.
        -- pose proof (size_dom_remove _ _ _ Hin' Hdom). lia.
    + destruct (Opt_rows_delete_absent s l rows k Hwf Hrows Hout) as [-> _].
      exists s, l. split; [done|]. split; [by split|]. done.
Qed.

Lemma Opt_books_for_each (calls : list Opt.call) : ∀ s l,
  Opt_books s l →
  ∃ s' l', for_each Opt.run s calls = Some s' ∧ Opt_books s' l'
           ∧ Opt._max_level s' = Opt._max_level s
           ∧ Opt._header s' = Opt._header s.
Proof.
  induction calls as [|c calls IH]; intros s l Hb.
  - exists s, l. split; [done|]. split; [done|]. done.
  - destruct (Opt_books_run s l c Hb) as (s1 & l1 & Hrun & Hb1 & Hm & Hh).
    destruct (IH s1 l1 Hb1) as (s' & l' & Hfe & Hb' & Hm' & Hh').
    exists s', l'. cbn. rewrite Hrun. cbn.
    split; [done|]. split; [done|]. split; congruence.
Qed.

Lemma Opt_after_books max_level calls s :
  Opt.after max_level calls = Some s →
  ∃ l, Opt_books s l ∧ Opt._max_level s = max_level ∧ Opt._header s = 0.
Proof.
  intros Hs.
  destruct (Opt_books_for_each calls _ _ (Opt_books_create max_level))
    as (s' & l & Hfe & Hb & Hm & Hh).
  unfold Opt.after in Hs. rewrite Hfe in Hs. inversion Hs; subst.
  exists l. done.
Qed.

(** X4: on every list a client can build, [size()] is the number of pairs
    [dump_file] lists, and the heap holds the header and one node for each
    of them, nothing else (the counter is an [int] taken as unbounded). *)
Theorem opt_size_counts_rows max_level calls s :
  Opt.after max_level calls = Some s →
  ∃ rows,
    OptMore.dump_file s = Some rows
    ∧ Opt.size s = Z.of_nat (length rows)
    ∧ size (Opt.heap s) = S (length rows).
Proof.
  intros Hs. destruct (Opt_after_books _ _ _ Hs) as (l & Hb & _).
  destruct Hb as [Hwf Hc _ _ Hh].
  destruct (Opt_rows_dump _ _ Hwf) as (rows & Hrows & Hdump).
  exists rows. split; [done|].
  assert (length rows = length l) as ->.
  { symmetry. by eapply Forall2_length. }
  done.
Qed.

Lemma opt_size_counts_rows_witness :
  ∃ rows,
    OptMore.dump_file sample_opt = Some rows
    ∧ Opt.size sample_opt = Z.of_nat (length rows)
    ∧ size (Opt.heap sample_opt) = S (length rows).
Proof.
  apply (opt_size_counts_rows 4 sample_opt_calls).
  vm_compute. reflexivity.
Defined.

(** X5: the optimized list never hands a node back to its pool: on every
    list a client can build the free list is empty, no allocation was a
    reuse, the pool has allocated at least [size()] nodes, and an
    [insert_element] is one more allocation exactly when it returns 0. *)
Theorem opt_list_never_reuses_nodes max_level calls s k v coin :
  Opt.after max_level calls = Some s →
  OptMore.get_free_list_size (Opt._memory_pool s) = 0
  ∧ Opt._reused_count (Opt._memory_pool s) = 0%Z
  ∧ (Opt.size s ≤ Opt._allocated_count (Opt._memory_pool s))%Z
  ∧ ∃ r s', Opt.insert_element s k v coin = Some (r, s')
      ∧ Opt._allocated_count (Opt._memory_pool s')
        = (Opt._allocated_count (Opt._memory_pool s) + (1 - r))%Z.
Proof.
  intros Hs. destruct (Opt_after_books _ _ _ Hs) as (l & Hb & _).
  destruct Hb as [Hwf Hc Hr Ha Hh].
  split; [unfold OptMore.get_free_list_size; by rewrite (proj2 Hwf)|].
  split; [done|]. split; [unfold Opt.size; lia|].
  destruct (Opt_books_run s l (Opt.Insert k v coin))
    as (s' & l' & Hrun & _); [by split|].
  cbn [Opt.run] in Hrun.
  destruct (Opt.insert_element s k v coin) as [[r s'']|] eqn:Hins; [|done].
  exists r, s''. split; [done|].
  destruct (Opt_insert_fields _ _ _ _ _ _ Hins (proj2 Hwf))
    as [[-> ->]|(-> & _ & -> & _)]; cbn; lia.
Qed.

Lemma opt_list_never_reuses_nodes_witness :
  OptMore.get_free_list_size (Opt._memory_pool sample_opt) = 0
  ∧ Opt._reused_count (Opt._memory_pool sample_opt) = 0%Z
  ∧ (Opt.size sample_opt
     ≤ Opt._allocated_count (Opt._memory_pool sample_opt))%Z
  ∧ ∃ r s', Opt.insert_element sample_opt 2%Z "b"%string 0 = Some (r, s')
      ∧ Opt._allocated_count (Opt._memory_pool s')
        = (Opt._allocated_count (Opt._memory_pool sample_opt) + (1 - r))%Z.
Proof.
  apply (opt_list_never_reuses_nodes 4 sample_opt_calls).
  vm_compute. reflexivity.
Defined.

(** ** The destructor *)

Lemma clear_spec (h : gmap nat (Node string)) : ∀ li a fuel,
  seg h 0 (a :: li) None → NoDup (a :: li) →
  (∀ b, b ∈ a :: li → is_Some (h !! b)) → length li < fuel →
  OptMore.clear fuel h a = Some (foldr delete h (a :: li)).
Proof.
  induction li as [|b li IH]; intros a fuel Hseg Hnd Hlive Hf;
    (destruct fuel as [|fuel]; [cbn in Hf; lia|]);
    destruct Hseg as [Ha Hseg]; cbn [OptMore.clear]; rewrite Ha;
    cbn [next_of mbind option_bind].
  - destruct (Hlive a) as [n Hn]; [left|]. by rewrite Hn.
  - rewrite (IH b fuel); [|done|by apply NoDup_cons in Hnd as [_ ?]| |cbn in Hf; lia].
    2: { intros c Hc. apply Hlive. by right. }
    cbn [mbind option_bind].
    destruct (Hlive a) as [n Hn]; [left|].
    assert (Hkeep : foldr delete h (b :: li) !! a = Some n).
    { apply NoDup_cons in Hnd as [Hna _]. clear -Hna Hn.
      induction (b :: li) as [|c cs IHc]; [done|]. cbn.
      rewrite lookup_delete_ne; [apply IHc|]; set_solver. }
    by rewrite Hkeep.
Qed.

Lemma foldr_delete_lookup {P} (h : gmap nat (Node P)) (li : list nat) a :
  foldr delete h li !! a = if decide (a ∈ li) then None else h !! a.
Proof.
  induction li as [|b li IH]; [done|]. cbn.
  destruct (decide (a = b)) as [->|Hne].
  - rewrite lookup_delete_eq. rewrite decide_True; [done|left].
  - rewrite lookup_delete_ne by done. rewrite IH.
    destruct (decide (a ∈ li)).
    + rewrite decide_True; [done|by right].
    + rewrite decide_False; [done|]. set_solver.
Qed.

Lemma Opt_books_dom s l :
  Opt_books s l →
  ∀ a, is_Some (Opt.heap s !! a) → a ∈ Opt._header s :: (e_addr <$> l).
Proof.
  intros [[HI _] _ _ _ Hsize] a Ha.
  pose proof (inv_nodup _ _ _ _ _ HI) as Hnd.
  set (X := list_to_set (Opt._header s :: (e_addr <$> l)) : gset nat).
  assert (Hsub : X ⊆ dom (Opt.heap s)).
  { intros b Hb. apply elem_of_list_to_set in Hb. apply elem_of_dom.
    apply elem_of_cons in Hb as [->|Hb].
    - destruct (inv_header _ _ _ _ _ HI) as (n & -> & _). eauto.
    - apply list_elem_of_fmap in Hb as (e & -> & He).
      by eapply Inv_entry_live. }
  assert (HX : size X = S (length l)).
  { unfold X. rewrite size_list_to_set by done. cbn. by rewrite length_fmap. }
  assert (Heq : X = dom (Opt.heap s)).
  { apply set_subseteq_size_eq; [done|]. rewrite size_dom. lia. }
  apply elem_of_dom in Ha. rewrite <- Heq in Ha.
  by apply elem_of_list_to_set in Ha.
Qed.

(** X6: the destructor of every list a client can build returns and
    leaves the heap empty: [clear] deletes each node of level 0 once, the
    header is deleted last, and no other object was allocated. *)
Theorem opt_destructor_frees_everything max_level calls s :
  Opt.after max_level calls = Some s →
  OptMore.destructor s = Some ∅.
Proof.
  intros Hs. destruct (Opt_after_books _ _ _ Hs) as (l & Hb & _).
  pose proof (Opt_books_dom _ _ Hb) as Hdom.
  destruct Hb as [[HI _] _ _ _ Hsize].
  pose proof (inv_nodup _ _ _ _ _ HI) as Hnd.
  pose proof (inv_chain _ _ _ _ _ HI 0 (Nat.le_0_l _)) as Hseg.
  unfold at_level in Hseg. rewrite filter_all_entries in Hseg.
  destruct (inv_header _ _ _ _ _ HI) as (hn & Hhn & _).
  unfold OptMore.destructor. cbn zeta.
  destruct Hseg as [Hfirst Hseg]. rewrite Hfirst.
  cbn [mbind option_bind].
  assert (Hh1 : match next_of (e_addr <$> l) None with
                | Some a => OptMore.clear (size (Opt.heap s)) (Opt.heap s) a
                | None => Some (Opt.heap s)
                end = Some (foldr delete (Opt.heap s) (e_addr <$> l))).
  { destruct l as [|e l']; [done|]. cbn [fmap list_fmap next_of].
    apply clear_spec.
    - exact Hseg.
    - by apply NoDup_cons in Hnd as [_ ?].
    - intros b Hb. change (b ∈ e_addr <$> e :: l') in Hb.
      apply list_elem_of_fmap in Hb as (x & -> & Hx).
      by eapply Inv_entry_live.
    - rewrite Hsize, length_fmap. cbn. lia. }
  rewrite Hh1. cbn [mbind option_bind].
  rewrite foldr_delete_lookup, decide_False, Hhn
    by (by apply NoDup_cons in Hnd as [? _]).
  f_equal. apply map_eq. intros a. rewrite lookup_empty.
  destruct (decide (a = Opt._header s)) as [->|Hne].
  - by rewrite lookup_delete_eq.
  - rewrite lookup_delete_ne by done. rewrite foldr_delete_lookup.
    destruct (decide (a ∈ e_addr <$> l)); [done|].
    destruct (Opt.heap s !! a) eqn:E; [|done].
    specialize (Hdom a ltac:(eauto)). set_solver.
Qed.

Lemma opt_destructor_frees_everything_witness :
  OptMore.destructor sample_opt = Some ∅.
Proof.
  apply (opt_destructor_frees_everything 4 sample_opt_calls).
  vm_compute. reflexivity.
Defined.

(** ** The pool's [clear] *)

Lemma clear_node_undefined m node : Mem.clear_node m node = None.
Proof.
  unfold Mem.clear_node, Mem.delete_node, Mem.delete_array.
  destruct (Mem.nodes m !! node) as [n|] eqn:En; [|done].
  cbn [mbind option_bind].
  destruct (Mem.arrays m !! Mem.forward n) eqn:Ea; [|done].
  cbn [mbind option_bind Mem.nodes Mem.arrays]. rewrite En.
  cbn [mbind option_bind]. by rewrite lookup_delete_eq.
Qed.

(** X7: [NodeMemoryPool::clear] (and the loop of the pool's destructor)
    frees the forward array of a pooled node itself and then deletes the
    node, whose destructor frees the same array again: the call is
    defined only when the free list is empty, and then changes nothing
    but to leave the free list empty. *)
Theorem pool_clear_defined_only_when_empty pool m :
  Mem.clear pool m
  = match Opt._free_list pool with
    | [] => Some (pool, m)
    | _ :: _ => None
    end.
Proof.
  unfold Mem.clear. destruct pool as [[|a fl] ac rc]; cbn; [done|].
  by rewrite clear_node_undefined.
Qed.

(** ** What [display_list] prints *)

Lemma sublist_omap {A B} (f : A → option B) (l1 l2 : list A) :
  l1 `sublist_of` l2 → omap f l1 `sublist_of` omap f l2.
Proof.
  induction 1 as [|x l1 l2 _ IH|x l1 l2 _ IH]; cbn.
  - constructor.
  - destruct (f x); [by constructor|done].
  - destruct (f x); [by constructor|done].
Qed.

Lemma sublist_filter_impl {A} (Q1 Q2 : A → Prop)
    `{!∀ x, Decision (Q1 x)} `{!∀ x, Decision (Q2 x)} (l : list A) :
  (∀ x, Q1 x → Q2 x) → filter Q1 l `sublist_of` filter Q2 l.
Proof.
  intros Himp. induction l as [|x l IH]; [constructor|].
  rewrite !filter_cons.
  destruct (decide (Q1 x)) as [H1|H1].
  - rewrite decide_True by auto. by constructor.
  - destruct (decide (Q2 x)); [by constructor|done].
Qed.

Lemma omap_entry_row (h : gmap nat (Node string)) (es : list entry) ns :
  Forall2 (λ e n, h !! e_addr e = Some n) es ns →
  omap (entry_row h) es = OptMore.row <$> ns.
Proof.
  induction 1 as [|e n es ns Hn _ IH]; [done|].
  cbn. unfold entry_row at 1. rewrite Hn. cbn. by rewrite IH.
Qed.

Lemma level_attained (l : list entry) i :
  i ≤ max_list_with e_level l → 0 < max_list_with e_level l →
  filter (λ e, i ≤ e_level e) l ≠ [].
Proof.
  intros Hi Hpos Hnil.
  induction l as [|e l IH]; [cbn in Hpos; lia|].
  rewrite filter_cons in Hnil. cbn in Hi, Hpos.
  destruct (decide (i ≤ e_level e)); [done|].
  apply IH; [lia|lia|done].
Qed.

(** X8: on every list a client can build, [display_list] of the
    optimized list prints one line for each level from 0 to the current
    level; the line of level 0 is what [dump_file] writes, the line of
    each further level is a sublist of the line below it, and when the
    current level is above 0 no line is empty. *)
Theorem opt_display_list_levels max_level calls s :
  Opt.after max_level calls = Some s →
  ∃ levels,
    OptMore.display_list s = Some levels
    ∧ length levels = S (Opt._skip_list_level s)
    ∧ levels !! 0 = OptMore.dump_file s
    ∧ (∀ i a b, levels !! i = Some a → levels !! S i = Some b →
         b `sublist_of` a)
    ∧ (∀ a, 0 < Opt._skip_list_level s → a ∈ levels → a ≠ []).
Proof.
  intros Hs. destruct (Opt_after_wf _ _ _ Hs) as (l & [HI _] & _ & _).
  set (line := λ i, omap (entry_row (Opt.heap s))
                         (filter (λ e, i ≤ e_level e) l)).
  assert (Hline : ∀ i, i ≤ Opt._max_level s →
    match level_nodes (Opt.heap s) (Opt._header s) i with
    | Some nodes => Some (OptMore.row <$> nodes)
    | None => None
    end = Some (line i)).
  { intros i Hi.
    destruct (Inv_level_nodes _ _ _ _ _ HI i Hi) as (ns & -> & _ & HF).
    unfold line. by rewrite (omap_entry_row _ _ _ HF). }
  pose proof (inv_max _ _ _ _ _ HI) as Hmax.
  exists (line <$> seq 0 (S (Opt._skip_list_level s))).
  split.
  { unfold OptMore.display_list. apply mapM_Some_2.
    apply Forall2_fmap_r, Forall_Forall2_diag, Forall_forall.
    intros i Hi. apply elem_of_seq in Hi. apply Hline. lia. }
  split; [by rewrite length_fmap, length_seq|].
  split.
  { unfold OptMore.dump_file. rewrite Hline by lia. done. }
  split.
  { intros i a b Ha Hb.
    rewrite list_lookup_fmap in Ha, Hb.
    destruct (seq 0 _ !! i) as [x|] eqn:Ex; [|done].
    destruct (seq 0 _ !! S i) as [y|] eqn:Ey; [|done].
    apply lookup_seq in Ex as [-> _]. apply lookup_seq in Ey as [-> _].
    cbn in Ha, Hb. inversion Ha; inversion Hb; subst.
    apply sublist_omap, sublist_filter_impl. intros e ?. cbn in *. lia. }
  intros a Hpos Ha Hnil.
  apply list_elem_of_fmap in Ha as (i & -> & Hi).
  apply elem_of_seq in Hi.
  pose proof (inv_top _ _ _ _ _ HI) as Htop.
  assert (Hne : filter (λ e, i ≤ e_level e) l ≠ []).
  { apply level_attained; lia. }
  destruct (filter (λ e, i ≤ e_level e) l) as [|e es] eqn:Ef; [done|].
  assert (He : e ∈ l).
  { assert (e ∈ filter (λ e, i ≤ e_level e) l) as Hin by (rewrite Ef; left).
    by apply list_elem_of_filter in Hin as [_ ?]. }
  destruct (Inv_entry_live _ _ _ _ _ _ HI He) as [n Hn].
  unfold line in Hnil. rewrite Ef in Hnil. cbn in Hnil.
  unfold entry_row in Hnil at 1. rewrite Hn in Hnil. done.
Qed.

Lemma opt_display_list_levels_witness :
  ∃ levels,
    OptMore.display_list sample_opt = Some levels
    ∧ length levels = S (Opt._skip_list_level sample_opt)
    ∧ levels !! 0 = OptMore.dump_file sample_opt
    ∧ (∀ i a b, levels !! i = Some a → levels !! S i = Some b →
         b `sublist_of` a)
    ∧ (∀ a, 0 < Opt._skip_list_level sample_opt → a ∈ levels → a ≠ []).
Proof.
  apply (opt_display_list_levels 4 sample_opt_calls).
  vm_compute. reflexivity.
Defined.

(** ** The MVCC list: what each call changes *)

Lemma MVCC_delete_found s l ti t e :
  MVCC_wf s l → MVCC.txns s !! ti = Some t → MVCC.state t = ACTIVE →
  e ∈ l →
  ∃ h',
    set_payload (MVCC.heap s) (e_addr e)
                (λ c, mark_deleted c (MVCC.txn_id t)) = Some h'
    ∧ MVCC.delete_element s (Some ti) (e_key e)
      = Some (MVCC.with_heap s h')
    ∧ MVCC_wf (MVCC.with_heap s h') l.
Proof.
  intros Hwf Ht Hact He.
  destruct (MVCC_delete_spec s l ti t (e_key e) Hwf Ht Hact)
    as (s' & Hdel & Hwf' & _).
  destruct Hwf as [HI _ _].
  destruct (Inv_entry_live _ _ _ _ _ _ HI He) as [n Hn].
  destruct (set_payload_live (MVCC.heap s) (e_addr e)
              (λ c, mark_deleted c (MVCC.txn_id t))) as [h' Hh']; [eauto|].
  exists h'. split; [done|].
  unfold MVCC.delete_element in *.
  rewrite (check_active_Some s ti t Ht Hact) in *.
  cbn [mbind option_bind] in *.
  rewrite (Inv_find_present _ _ _ _ _ HI e He) in *.
  cbn [mbind option_bind] in *. rewrite Hh' in *.
  cbn [mbind option_bind] in *. by inversion Hdel; subst.
Qed.

Lemma MVCC_delete_absent s l txn k :
  MVCC_wf s l → (∀ e, e ∈ l → e_key e ≠ k) →
  is_Some (MVCC.check_active s txn) →
  MVCC.delete_element s txn k = Some s.
Proof.
  intros [HI _ _] Habs [chk Hchk]. unfold MVCC.delete_element.
  rewrite Hchk. cbn [mbind option_bind]. destruct chk; [|done].
  by rewrite (Inv_find_absent _ _ _ _ _ HI k Habs).
Qed.

Lemma MVCC_abort_full s l ti t :
  MVCC_wf s l → MVCC.txns s !! ti = Some t → MVCC.state t = ACTIVE →
  ∃ s', MVCC.abort_transaction s (Some ti) = Some s'
    ∧ MVCC_wf s' l
    ∧ MVCC.heap s' = MVCC.heap s
    ∧ MVCC._header s' = MVCC._header s
    ∧ MVCC._max_level s' = MVCC._max_level s
    ∧ MVCC._skip_list_level s' = MVCC._skip_list_level s
    ∧ MVCC._next_txn_id s' = MVCC._next_txn_id s
    ∧ MVCC.txns s'
      = <[ti := MVCC.mkTransaction (MVCC.txn_id t) ABORTED
                                   (MVCC.modified_nodes t)]> (MVCC.txns s)
    ∧ MVCC._active_transactions s'
      = delete (MVCC.txn_id t) (MVCC._active_transactions s)
    ∧ MVCC._total_commits s' = MVCC._total_commits s
    ∧ MVCC._total_aborts s' = MVCC.uint64_succ (MVCC._total_aborts s)
    ∧ MVCC._total_versions s' = MVCC._total_versions s.
Proof.
  intros Hwf Ht Hact.
  destruct (MVCC_abort_spec s l ti t Hwf Ht Hact) as (s' & Hab & Hwf' & _).
  exists s'. split; [done|]. split; [done|].
  unfold MVCC.abort_transaction in Hab.
  rewrite (check_active_Some s ti t Ht Hact) in Hab.
  cbn [mbind option_bind] in Hab. by inversion Hab.
Qed.

Lemma MVCC_gc_fields s s' :
  MVCC.gc s = Some s' → s' = MVCC.with_heap s (MVCC.heap s').
Proof.
  unfold MVCC.gc. intros H.
  destruct (fwd _ _ 0) as [first|]; [|done]. cbn [mbind option_bind] in H.
  destruct (MVCC.gc_loop _ _ _ _) as [h'|]; [|done].
  cbn [mbind option_bind] in H. by inversion H.
Qed.

Lemma MVCC_commit_fields s ti t s' :
  MVCC.txns s !! ti = Some t → MVCC.state t = ACTIVE →
  MVCC.commit_transaction s (Some ti) = Some (true, s') →
  MVCC._total_commits s' = MVCC.uint64_succ (MVCC._total_commits s)
  ∧ MVCC._total_aborts s' = MVCC._total_aborts s
  ∧ MVCC._total_versions s' = MVCC._total_versions s.
Proof.
  intros Ht Hact. unfold MVCC.commit_transaction.
  rewrite (check_active_Some s ti t Ht Hact). cbn [mbind option_bind].
  destruct (for_each _ _ _) as [h'|]; [|done]. cbn [mbind option_bind].
  intros H. by inversion H.
Qed.

Lemma MVCC_insert_fields s ti t k v coin s' :
  MVCC.txns s !! ti = Some t → MVCC.state t = ACTIVE →
  MVCC.insert_element s (Some ti) k v coin = Some (0%Z, s') →
  MVCC._total_commits s' = MVCC._total_commits s
  ∧ MVCC._total_aborts s' = MVCC._total_aborts s
  ∧ MVCC._total_versions s' = MVCC.uint64_succ (MVCC._total_versions s).
Proof.
  intros Ht Hact. unfold MVCC.insert_element.
  rewrite (check_active_Some s ti t Ht Hact). cbn [mbind option_bind].
  destruct (find_update _ _ _ _ _ _) as [[current update]|]; [|done].
  cbn [mbind option_bind].
  destruct (fwd _ current 0) as [nxt|]; [|done]. cbn [mbind option_bind].
  destruct (match nxt with
            | Some a => _
            | None => Some None
            end) as [[a|]|]; cbn [mbind option_bind]; [| |done].
  - destruct (set_payload _ _ _) as [h'|]; [|done].
    cbn [mbind option_bind]. intros H. by inversion H.
  - destruct (if decide _ then _ else Some update) as [update'|]; [|done].
    cbn [mbind option_bind].
    destruct (@splice (list Version) _ _ _ _) as [h2|]; [|done].
    cbn [mbind option_bind]. intros H. by inversion H.
Qed.

(** The refused calls: a null or inactive handle. *)
Lemma MVCC_refused s txn :
  MVCC.check_active s txn = Some None →
  MVCC.commit_transaction s txn = Some (false, s)
  ∧ MVCC.abort_transaction s txn = Some s
  ∧ (∀ k v coin, MVCC.insert_element s txn k v coin = Some ((-1)%Z, s))
  ∧ (∀ k, MVCC.delete_element s txn k = Some s).
Proof.
  intros Hchk.
  unfold MVCC.commit_transaction, MVCC.abort_transaction,
    MVCC.insert_element, MVCC.delete_element.
  rewrite Hchk. cbn [mbind option_bind]. done.
Qed.

Lemma check_active_cases s txn :
  MVCC.handle_ok s (MVCC.Abort txn) →
  MVCC.check_active s txn = Some None
  ∨ ∃ ti t, txn = Some ti ∧ MVCC.txns s !! ti = Some t
            ∧ MVCC.state t = ACTIVE
            ∧ MVCC.check_active s txn = Some (Some t).
Proof.
  intros Hok. destruct txn as [ti|]; [|by left]. cbn in Hok.
  destruct (lookup_lt_is_Some_2 _ _ Hok) as [t Ht].
  destruct (decide (MVCC.state t = ACTIVE)) as [Hact|Hna].
  - right. exists ti, t. by rewrite (check_active_Some s ti t Ht Hact).
  - left. by eapply check_active_inactive.
Qed.

(** The entries after a call: the same, or one more for an inserted
    key. *)
Lemma MVCC_run_entries s l c s' :
  MVCC_wf s l → MVCC.run s c = Some s' →
  ∃ l', MVCC_wf s' l'
    ∧ MVCC._max_level s' = MVCC._max_level s
    ∧ MVCC._header s' = MVCC._header s
    ∧ (l' = l
       ∨ ∃ lt ge e txn v coin,
           l = lt ++ ge ∧ l' = lt ++ e :: ge
           ∧ (∀ x, x ∈ l → e_key x ≠ e_key e)
           ∧ c = MVCC.Insert txn (e_key e) v coin).
Proof.
  intros Hwf Hrun.
  destruct c as [|txn|txn|txn k v coin|txn k|]; cbn [MVCC.run] in Hrun.
  - injection Hrun as <-. exists l.
    split; [by apply MVCC_begin_wf|]. split; [done|]. split; [done|by left].
  - destruct (MVCC.check_active s txn) as [[t|]|] eqn:Hchk.
    + apply check_active_inv in Hchk as (i & -> & Ht & Hact).
      destruct (MVCC_commit_spec s l i t Hwf Ht Hact)
        as (s2 & Hc & Hwf' & Hh & Hm & _).
      rewrite Hc in Hrun. injection Hrun as <-. exists l.
      split; [done|]. split; [done|]. split; [done|by left].
    + destruct (MVCC_refused s txn Hchk) as (Hc & _).
      rewrite Hc in Hrun. injection Hrun as <-. exists l.
      split; [done|]. split; [done|]. split; [done|by left].
    + unfold MVCC.commit_transaction in Hrun. by rewrite Hchk in Hrun.
  - destruct (MVCC.check_active s txn) as [[t|]|] eqn:Hchk.
    + apply check_active_inv in Hchk as (i & -> & Ht & Hact).
      destruct (MVCC_abort_spec s l i t Hwf Ht Hact)
        as (s2 & Hc & Hwf' & Hm & Hh).
      rewrite Hc in Hrun. injection Hrun as <-. exists l.
      split; [done|]. split; [done|]. split; [done|by left].
    + destruct (MVCC_refused s txn Hchk) as (_ & Hc & _).
      rewrite Hc in Hrun. injection Hrun as <-. exists l.
      split; [done|]. split; [done|]. split; [done|by left].
    + unfold MVCC.abort_transaction in Hrun. by rewrite Hchk in Hrun.
  - destruct (MVCC.check_active s txn) as [[t|]|] eqn:Hchk.
    + apply check_active_inv in Hchk as (i & -> & Ht & Hact).
      destruct (decide (Exists (λ e, e_key e = k) l))
        as [(e & He & Hk)%Exists_exists|Hno];
        [|rewrite Exists_exists in Hno].
      * destruct (MVCC_insert_found s l i t k v coin e Hwf Ht Hact He Hk)
          as (s2 & old & Hins & Hwf' & _ & _ & _ & _ & Hh & Hm & _).
        rewrite Hins in Hrun. injection Hrun as <-. exists l.
        split; [done|]. split; [done|]. split; [done|by left].
      * destruct (MVCC_insert_new s l i t k v coin Hwf Ht Hact)
          as (s2 & lt & ge & node & -> & Hins & Hwf' & _ & _ & _ & _
              & Hh & Hm & _); [naive_solver|].
        rewrite Hins in Hrun. injection Hrun as <-.
        eexists. split; [exact Hwf'|]. split; [done|]. split; [done|].
        right. exists lt, ge, (mkEntry node k
          (get_random_level (MVCC._max_level s) coin)), (Some i), v, coin.
        split; [done|]. split; [done|]. split; [|done].
        intros x Hx Hxk. apply Hno. eauto.
    + destruct (MVCC_refused s txn Hchk) as (_ & _ & Hc & _).
      rewrite Hc in Hrun. injection Hrun as <-. exists l.
      split; [done|]. split; [done|]. split; [done|by left].
    + unfold MVCC.insert_element in Hrun. by rewrite Hchk in Hrun.
  - destruct (MVCC.check_active s txn) as [[t|]|] eqn:Hchk.
    + apply check_active_inv in Hchk as (i & -> & Ht & Hact).
      destruct (MVCC_delete_spec s l i t k Hwf Ht Hact)
        as (s2 & Hd & Hwf' & Hh & Hm & _).
      rewrite Hd in Hrun. injection Hrun as <-. exists l.
      split; [done|]. split; [done|]. split; [done|by left].
    + destruct (MVCC_refused s txn Hchk) as (_ & _ & _ & Hc).
      rewrite Hc in Hrun. injection Hrun as <-. exists l.
      split; [done|]. split; [done|]. split; [done|by left].
    + unfold MVCC.delete_element in Hrun. by rewrite Hchk in Hrun.
  - destruct (MVCC_gc_spec s l Hwf) as (s2 & Hg & Hwf' & Hh & Hm & _).
    rewrite Hg in Hrun. injection Hrun as <-. exists l.
    split; [done|]. split; [done|]. split; [done|by left].
Qed.

Lemma MVCC_keys s l :
  MVCC_wf s l →
  level_keys (MVCC.heap s) (MVCC._header s) 0 = Some (e_key <$> l)
  ∧ MVCC.size s = Some (length l).
Proof.
  intros [HI _ _]. split.
  - rewrite (Inv_level_keys _ _ _ _ _ HI 0 (Nat.le_0_l _)).
    by rewrite filter_all_entries.
  - unfold MVCC.size.
    destruct (Inv_walk _ _ _ _ _ HI 0 (Nat.le_0_l _)) as (first & -> & Hw).
    cbn [mbind option_bind]. rewrite Hw. cbn.
    unfold at_level. by rewrite filter_all_entries, length_fmap.
Qed.

(** X9: no call of the MVCC list removes a key: on every list a client
    can build, a call that returns leaves the keys of level 0 as they
    were, except an [insert_element] of a key that was not among them,
    which adds this key in its place; [delete_element], [gc],
    [commit_transaction] and [abort_transaction] unlink nothing, and
    [size()] never decreases. *)
Theorem mvcc_keys_are_never_removed max_level calls s c s' :
  MVCC.after max_level calls = Some s →
  MVCC.run s c = Some s' →
  ∃ ks ks' n n',
    level_keys (MVCC.heap s) (MVCC._header s) 0 = Some ks
    ∧ level_keys (MVCC.heap s') (MVCC._header s') 0 = Some ks'
    ∧ MVCC.size s = Some n ∧ MVCC.size s' = Some n' ∧ n ≤ n'
    ∧ (ks' = ks
       ∨ ∃ lt ge txn k v coin,
           c = MVCC.Insert txn k v coin ∧ k ∉ ks
           ∧ ks = lt ++ ge ∧ ks' = lt ++ k :: ge).
Proof.
  intros Hs Hrun. destruct (MVCC_after_wf _ _ _ Hs) as (l & Hwf & _).
  destruct (MVCC_run_entries s l c s' Hwf Hrun)
    as (l' & Hwf' & _ & _ & Hl).
  destruct (MVCC_keys s l Hwf) as [Hk Hn].
  destruct (MVCC_keys s' l' Hwf') as [Hk' Hn'].
  exists (e_key <$> l), (e_key <$> l'), (length l), (length l').
  split; [done|]. split; [done|]. split; [done|]. split; [done|].
  destruct Hl as [->|(lt & ge & e & txn & v & coin & -> & -> & Hne & ->)].
  - split; [done|by left].
  - split; [rewrite !length_app; cbn; lia|].
    right. exists (e_key <$> lt), (e_key <$> ge), txn, (e_key e), v, coin.
    split; [done|]. split.
    { intros (x & Hx & Hin)%list_elem_of_fmap. by eapply Hne. }
    by rewrite !fmap_app.
Qed.

Lemma mvcc_keys_are_never_removed_witness :
  ∃ ks ks' n n',
    level_keys (MVCC.heap sample_mvcc) (MVCC._header sample_mvcc) 0
      = Some ks
    ∧ level_keys (MVCC.heap sample_mvcc_deleted)
                 (MVCC._header sample_mvcc_deleted) 0 = Some ks'
    ∧ MVCC.size sample_mvcc = Some n
    ∧ MVCC.size sample_mvcc_deleted = Some n'
    ∧ n ≤ n'
    ∧ (ks' = ks
       ∨ ∃ lt ge txn k v coin,
           MVCC.Delete (Some 1) 10%Z = MVCC.Insert txn k v coin ∧ k ∉ ks
           ∧ ks = lt ++ ge ∧ ks' = lt ++ k :: ge).
Proof.
  apply (mvcc_keys_are_never_removed 4 sample_calls sample_mvcc
           (MVCC.Delete (Some 1) 10%Z) sample_mvcc_deleted).
  - vm_compute. reflexivity.
  - vm_compute. reflexivity.
Defined.

(** ** Every call is one step *)

Lemma MVCC_run_step s l c s' :
  MVCC_wf s l → MVCC.run s c = Some s' →
  ∃ l', MVCC_wf s' l' ∧ MVCC_step s l s' l'.
Proof.
  intros Hwf Hrun.
  destruct c as [|txn|txn|txn k v coin|txn k|]; cbn [MVCC.run] in Hrun.
  - injection Hrun as <-. exists l.
    split; [by apply MVCC_begin_wf|constructor].
  - destruct (MVCC.check_active s txn) as [[t|]|] eqn:Hchk.
    + apply check_active_inv in Hchk as (i & -> & Ht & Hact).
      destruct (MVCC_commit_spec s l i t Hwf Ht Hact)
        as (s2 & Hc & Hwf' & _ & _ & _ & Hnext & Htx & Hpl & Hactive).
      destruct (MVCC_commit_fields s i t s2 Ht Hact Hc) as (Hcc & Hca & _).
      rewrite Hc in Hrun. injection Hrun as <-. exists l.
      split; [done|]. by eapply step_commit.
    + destruct (MVCC_refused s txn Hchk) as (Hc & _).
      rewrite Hc in Hrun. injection Hrun as <-. exists l.
      split; [done|constructor].
    + unfold MVCC.commit_transaction in Hrun. by rewrite Hchk in Hrun.
  - destruct (MVCC.check_active s txn) as [[t|]|] eqn:Hchk.
    + apply check_active_inv in Hchk as (i & -> & Ht & Hact).
      destruct (MVCC_abort_full s l i t Hwf Ht Hact)
        as (s2 & Hc & Hwf' & Hheap & _ & _ & _ & Hnext & Htx & Hactive
            & Hcc & Hca & _).
      rewrite Hc in Hrun. injection Hrun as <-. exists l.
      split; [done|]. by eapply step_abort.
    + destruct (MVCC_refused s txn Hchk) as (_ & Hc & _).
      rewrite Hc in Hrun. injection Hrun as <-. exists l.
      split; [done|constructor].
    + unfold MVCC.abort_transaction in Hrun. by rewrite Hchk in Hrun.
  - destruct (MVCC.check_active s txn) as [[t|]|] eqn:Hchk.
    + apply check_active_inv in Hchk as (i & -> & Ht & Hact).
      destruct (decide (Exists (λ e, e_key e = k) l))
        as [(e & He & Hk)%Exists_exists|Hno];
        [|rewrite Exists_exists in Hno].
      * destruct (MVCC_insert_found s l i t k v coin e Hwf Ht Hact He Hk)
          as (s2 & old & Hins & Hwf' & Hold & Hnew & Hoth & Htx & _ & _
              & Hnext & Hactive).
        destruct (MVCC_insert_fields s i t k v coin s2 Ht Hact Hins)
          as (Hcc & Hca & _).
        rewrite Hins in Hrun. injection Hrun as <-. exists l.
        split; [done|].
        eapply (step_write s l i t s2 l (e_addr e) old v); try done.
        left. split; [done|]. split; [done|]. by exists e.
      * destruct (MVCC_insert_new s l i t k v coin Hwf Ht Hact)
          as (s2 & lt & ge & node & -> & Hins & Hwf' & Hfresh & Hnew & Hoth
              & Htx & _ & _ & Hnext & Hactive); [naive_solver|].
        destruct (MVCC_insert_fields s i t k v coin s2 Ht Hact Hins)
          as (Hcc & Hca & _).
        rewrite Hins in Hrun. injection Hrun as <-.
        eexists. split; [exact Hwf'|].
        eapply (step_write s _ i t s2 _ node [] v); try done.
        right. split; [done|]. split; [done|].
        by eexists lt, ge, _.
    + destruct (MVCC_refused s txn Hchk) as (_ & _ & Hc & _).
      rewrite Hc in Hrun. injection Hrun as <-. exists l.
      split; [done|constructor].
    + unfold MVCC.insert_element in Hrun. by rewrite Hchk in Hrun.
  - destruct (MVCC.check_active s txn) as [[t|]|] eqn:Hchk.
    + apply check_active_inv in Hchk as (i & -> & Ht & Hact).
      destruct (decide (Exists (λ e, e_key e = k) l))
        as [(e & He & Hk)%Exists_exists|Hno];
        [|rewrite Exists_exists in Hno].
      * subst k.
        destruct (MVCC_delete_found s l i t e Hwf Ht Hact He)
          as (h' & Hset & Hdel & Hwf').
        rewrite Hdel in Hrun. injection Hrun as <-. exists l.
        split; [done|].
        eapply (step_delete s l i t _ e); try done.
        intros b. cbn [MVCC.heap MVCC.with_heap].
        apply (payload_set_payload _ _ _ _ b Hset).
      * rewrite (MVCC_delete_absent s l (Some i) k Hwf) in Hrun.
        -- injection Hrun as <-. exists l. split; [done|constructor].
        -- naive_solver.
        -- rewrite (check_active_Some s i t Ht Hact). eauto.
    + destruct (MVCC_refused s txn Hchk) as (_ & _ & _ & Hc).
      rewrite Hc in Hrun. injection Hrun as <-. exists l.
      split; [done|constructor].
    + unfold MVCC.delete_element in Hrun. by rewrite Hchk in Hrun.
  - destruct (MVCC_gc_spec s l Hwf)
      as (s2 & Hg & Hwf' & _ & _ & Htx & Hpl & Hnext & Hactive).
    pose proof (MVCC_gc_fields s s2 Hg) as Hf.
    rewrite Hg in Hrun. injection Hrun as <-. exists l.
    split; [done|]. eapply step_gc; [done| |done].
    rewrite Hf. done.
Qed.

Lemma MVCC_step_length s l s' l' :
  MVCC_step s l s' l' →
  length (MVCC.txns s) ≤ length (MVCC.txns s').
Proof.
  intros [| |ti t s2 _ _ Htx|ti t s2 _ _ Htx|ti t s2 l2 a old v _ _ Htx
          |ti t s2 e _ _ _ [Htx _]|s2 [Htx _]];
    try rewrite Htx; try rewrite length_insert; try done.
  cbn. rewrite length_app. lia.
Qed.

Lemma no_wrap_step s l s' l' :
  MVCC_step s l s' l' → no_wrap s' → no_wrap s.
Proof.
  intros Hst Hn. apply MVCC_step_length in Hst. unfold no_wrap in *. lia.
Qed.

(** *** The ids *)

Lemma MVCC_ids_create max_level : MVCC_ids (MVCC.create max_level).
Proof.
  split; cbn.
  - intros i t Hi. by destruct i.
  - done.
  - intros id i. rewrite lookup_empty. split; [done|].
    intros (_ & t & Ht & _). by destruct i.
Qed.

Lemma MVCC_ids_inj s i j t t' :
  MVCC_ids s → MVCC.txns s !! i = Some t → MVCC.txns s !! j = Some t' →
  MVCC.txn_id t = MVCC.txn_id t' → i = j.
Proof.
  intros Hids Hi Hj Heq.
  rewrite (ids_txn _ Hids _ _ Hi), (ids_txn _ Hids _ _ Hj) in Heq. lia.
Qed.

(** A transaction is replaced by one with the same id. *)
Lemma MVCC_ids_update s s' ti t t' :
  MVCC_ids s → MVCC.txns s !! ti = Some t → MVCC.state t = ACTIVE →
  MVCC.txns s' = <[ti := t']> (MVCC.txns s) →
  MVCC.txn_id t' = MVCC.txn_id t →
  MVCC._next_txn_id s' = MVCC._next_txn_id s →
  (MVCC.state t' = ACTIVE
   ∧ MVCC._active_transactions s' = MVCC._active_transactions s)
  ∨ (MVCC.state t' ≠ ACTIVE
     ∧ MVCC._active_transactions s'
       = delete (MVCC.txn_id t) (MVCC._active_transactions s)) →
  MVCC_ids s'.
Proof.
  intros Hids Ht Hact Htx Hid Hnext Hcase.
  pose proof (lookup_lt_Some _ _ _ Ht) as Hlt.
  split.
  - intros i t0 Hi. rewrite Htx in Hi.
    apply list_lookup_insert_Some in Hi as [(-> & <- & _)|[Hne Hi]].
    + rewrite Hid. by apply (ids_txn _ Hids).
    + by apply (ids_txn _ Hids).
  - rewrite Hnext, Htx, length_insert. apply (ids_next _ Hids).
  - intros id i.
    destruct Hcase as [[Hst ->]|[Hst ->]].
    + rewrite (ids_active _ Hids). rewrite Htx.
      split; intros (-> & t0 & Hi & Ha); (split; [done|]).
      * destruct (decide (i = ti)) as [->|Hne].
        -- exists t'. by rewrite list_lookup_insert_eq.
        -- exists t0. by rewrite list_lookup_insert_ne.
      * apply list_lookup_insert_Some in Hi as [(-> & <- & _)|[Hne Hi]];
          eauto.
    + rewrite lookup_delete_Some, (ids_active _ Hids). rewrite Htx.
      rewrite (ids_txn _ Hids _ _ Ht).
      split.
      * intros (Hne & -> & t0 & Hi & Ha). split; [done|].
        exists t0. rewrite list_lookup_insert_ne; [done|]. intros ->. lia.
      * intros (-> & t0 & Hi & Ha).
        apply list_lookup_insert_Some in Hi as [(-> & <- & _)|[Hne Hi]];
          [done|].
        split; [lia|]. split; [done|]. eauto.
Qed.

Lemma MVCC_ids_step s l s' l' :
  MVCC_step s l s' l' → MVCC_ids s → no_wrap s' → MVCC_ids s'.
Proof.
  intros Hst Hids Hnw.
  destruct Hst as [| |ti t s2 Ht Hact Htx Hav Hnx _ _ _
                  |ti t s2 Ht Hact Htx Hav Hnx _ _ _
                  |ti t s2 l2 a old v Ht Hact Htx Hav Hnx _ _ _ _
                  |ti t s2 e _ _ _ (Htx & Hav & Hnx) _ _
                  |s2 (Htx & Hav & Hnx) _ _].
  - done.
  - unfold no_wrap in Hnw. cbn in Hnw. rewrite length_app in Hnw.
    cbn in Hnw.
    pose proof (ids_next _ Hids) as Hn.
    split; cbn.
    + intros i t Hi. apply lookup_app_Some in Hi as [Hi|[Hge Hi]].
      * by apply (ids_txn _ Hids).
      * apply list_lookup_singleton_Some in Hi as [Hi <-]. cbn.
        rewrite Hn. f_equal. lia.
    + rewrite length_app. cbn. rewrite Hn.
      rewrite uint64_succ_small by lia. lia.
    + intros id i. rewrite lookup_insert_Some, (ids_active _ Hids), Hn.
      split.
      * intros [[<- <-]|(Hne & -> & t & Hi & Ha)].
        -- split; [done|]. eexists. split.
           ++ rewrite lookup_app_r by done. by rewrite Nat.sub_diag.
           ++ done.
        -- split; [done|]. exists t. split; [|done].
           apply lookup_app_Some. by left.
      * intros (-> & t & Hi & Ha).
        apply lookup_app_Some in Hi as [Hi|[Hge Hi]].
        -- right. pose proof (lookup_lt_Some _ _ _ Hi).
           split; [lia|]. split; [done|]. eauto.
        -- apply list_lookup_singleton_Some in Hi as [Hi _].
           left. split; [f_equal; lia|lia].
  - eapply (MVCC_ids_update s s2 ti t); try done. right. by split.
  - eapply (MVCC_ids_update s s2 ti t); try done. right. by split.
  - eapply (MVCC_ids_update s s2 ti t); try done. left. by split.
  - destruct Hids as [H1 H2 H3]. split; rewrite ?Htx, ?Hav, ?Hnx; done.
  - destruct Hids as [H1 H2 H3]. split; rewrite ?Htx, ?Hav, ?Hnx; done.
Qed.

(** *** The versions *)

Lemma payload_fmap_inv {P} (h h' : gmap nat (Node P)) a n' (f : P → P) :
  h' !! a = Some n' →
  payload <$> h' !! a = f <$> (payload <$> h !! a) →
  ∃ n, h !! a = Some n ∧ payload n' = f (payload n).
Proof.
  intros Hn' Heq. rewrite Hn' in Heq. cbn in Heq.
  destruct (h !! a) as [n|]; [|done]. cbn in Heq.
  exists n. split; [done|congruence].
Qed.

Lemma payload_same_inv {P} (h h' : gmap nat (Node P)) a n' :
  h' !! a = Some n' →
  payload <$> h' !! a = payload <$> h !! a →
  ∃ n, h !! a = Some n ∧ payload n' = payload n.
Proof.
  intros Hn' Heq. rewrite Hn' in Heq. cbn in Heq.
  destruct (h !! a) as [n|]; [|done]. cbn in Heq.
  exists n. split; [done|congruence].
Qed.

(** Where a version of the new state comes from: an older version of the
    same node with the same creator whose mark was not taken away, or the
    version a write has just put in front. *)
Lemma MVCC_step_provenance s l s' l' a n' ver :
  MVCC_step s l s' l' →
  MVCC.heap s' !! a = Some n' → ver ∈ payload n' →
  (∃ n old, MVCC.heap s !! a = Some n ∧ old ∈ payload n
            ∧ create_ts ver = create_ts old ∧ value ver = value old
            ∧ (is_committed old = true → is_committed ver = true))
  ∨ (∃ ti t v, MVCC.txns s !! ti = Some t ∧ MVCC.state t = ACTIVE
       ∧ MVCC.txns s'
         = <[ti := MVCC.mkTransaction (MVCC.txn_id t) ACTIVE
                     (MVCC.modified_nodes t ++ [a])]> (MVCC.txns s)
       ∧ ver = new_Version v (MVCC.txn_id t)).
Proof.
  intros Hst Hn' Hver.
  destruct Hst as [| |ti t s2 Ht Hact Htx _ _ _ _ Hpl
                  |ti t s2 Ht Hact Htx _ _ _ _ Hheap
                  |ti t s2 l2 a0 old v Ht Hact Htx _ _ _ Hnew Hold Hoth
                  |ti t s2 e Ht Hact He _ _ Hpl
                  |s2 _ _ Hpl].
  - left. exists n', ver. done.
  - left. exists n', ver. done.
  - left. specialize (Hpl a). case_decide.
    + apply (payload_fmap_inv _ _ _ _ _ Hn') in Hpl as (n & Hn & Hp).
      rewrite Hp in Hver. pose proof Hver as Hver'.
      apply commit_version_elem in Hver as (o & Ho & Hv & Hc & _ & Hm).
      exists n, o. repeat split; try done.
      intros Hco. destruct Hm as [->|Hid]; [done|].
      eapply commit_version_marks; [exact Hver'|]. congruence.
    + apply (payload_same_inv _ _ _ _ Hn') in Hpl as (n & Hn & Hp).
      exists n, ver. rewrite <- Hp. done.
  - left. rewrite Hheap in Hn'. exists n', ver. done.
  - destruct (decide (a = a0)) as [->|Hne].
    + rewrite Hn' in Hnew. cbn in Hnew. injection Hnew as Hnew.
      rewrite Hnew in Hver. apply elem_of_cons in Hver as [->|Hver].
      * right. exists ti, t, v. done.
      * left. destruct Hold as [(Hold & _)|(_ & -> & _)].
        -- apply payload_lookup_inv in Hold as (n & Hn & Hp).
           exists n, ver. rewrite Hp. done.
        -- by apply elem_of_nil in Hver.
    + left. specialize (Hoth a Hne).
      apply (payload_same_inv _ _ _ _ Hn') in Hoth as (n & Hn & Hp).
      exists n, ver. rewrite <- Hp. done.
  - left. specialize (Hpl a). case_decide.
    + apply (payload_fmap_inv _ _ _ _ _ Hn') in Hpl as (n & Hn & Hp).
      rewrite Hp in Hver.
      destruct (payload n) as [|hd tl] eqn:Ec; [by apply elem_of_nil in Hver|].
      cbn in Hver. apply elem_of_cons in Hver as [->|Hver].
      * exists n, hd. rewrite Ec. split; [done|]. split; [left|]. done.
      * exists n, ver. rewrite Ec. split; [done|]. split; [by right|done].
    + apply (payload_same_inv _ _ _ _ Hn') in Hpl as (n & Hn & Hp).
      exists n, ver. rewrite <- Hp. done.
  - left. specialize (Hpl a). case_decide.
    + apply (payload_fmap_inv _ _ _ _ _ Hn') in Hpl as (n & Hn & Hp).
      rewrite Hp in Hver. apply gc_versions_elem in Hver.
      exists n, ver. done.
    + apply (payload_same_inv _ _ _ _ Hn') in Hpl as (n & Hn & Hp).
      exists n, ver. rewrite <- Hp. done.
Qed.

(** What becomes of a transaction in one step. *)
Lemma MVCC_step_txns s l s' l' i t :
  MVCC_step s l s' l' → MVCC.txns s !! i = Some t →
  ∃ t', MVCC.txns s' !! i = Some t'
    ∧ MVCC.txn_id t' = MVCC.txn_id t
    ∧ (∀ a, a ∈ MVCC.modified_nodes t → a ∈ MVCC.modified_nodes t')
    ∧ (MVCC.state t' = MVCC.state t ∨ MVCC.state t = ACTIVE).
Proof.
  intros Hst Hi.
  assert (Hupd : ∀ ti t0 tn (T' : list MVCC.Transaction),
    MVCC.txns s !! ti = Some t0 → MVCC.state t0 = ACTIVE →
    T' = <[ti := tn]> (MVCC.txns s) →
    MVCC.txn_id tn = MVCC.txn_id t0 →
    (∀ a, a ∈ MVCC.modified_nodes t0 → a ∈ MVCC.modified_nodes tn) →
    ∃ t', T' !! i = Some t'
      ∧ MVCC.txn_id t' = MVCC.txn_id t
      ∧ (∀ a, a ∈ MVCC.modified_nodes t → a ∈ MVCC.modified_nodes t')
      ∧ (MVCC.state t' = MVCC.state t ∨ MVCC.state t = ACTIVE)).
  { intros ti t0 tn T' Ht0 Hact -> Hid Hm.
    destruct (decide (i = ti)) as [->|Hne].
    - exists tn. rewrite list_lookup_insert_eq
        by (by eapply lookup_lt_Some).
      assert (t0 = t) as -> by congruence. auto.
    - exists t. rewrite list_lookup_insert_ne by done. auto. }
  destruct Hst as [| |ti t0 s2 Ht Hact Htx _ _ _ _ _
                  |ti t0 s2 Ht Hact Htx _ _ _ _ _
                  |ti t0 s2 l2 a0 old v Ht Hact Htx _ _ _ _ _ _
                  |ti t0 s2 e _ _ _ (Htx & _) _ _
                  |s2 (Htx & _) _ _].
  - exists t. auto.
  - exists t. cbn. split; [|auto]. apply lookup_app_Some. by left.
  - by eapply (Hupd ti t0 _ _ Ht Hact Htx).
  - by eapply (Hupd ti t0 _ _ Ht Hact Htx).
  - eapply (Hupd ti t0 _ _ Ht Hact Htx); [done|].
    cbn. intros a Ha. apply elem_of_app. by left.
  - exists t. rewrite Htx. auto.
  - exists t. rewrite Htx. auto.
Qed.

(** Where a committed transaction of the new state comes from. *)
Lemma MVCC_step_committed s l s' l' i t' :
  MVCC_step s l s' l' → MVCC.txns s' !! i = Some t' →
  MVCC.state t' = COMMITTED →
  ∃ t, MVCC.txns s !! i = Some t ∧ MVCC.txn_id t = MVCC.txn_id t'
    ∧ (MVCC.state t = COMMITTED
       ∨ (MVCC.state t = ACTIVE
          ∧ ∀ b, payload <$> MVCC.heap s' !! b
                 = if decide (b ∈ MVCC.modified_nodes t)
                   then (λ c, commit_version c (MVCC.txn_id t))
                          <$> (payload <$> MVCC.heap s !! b)
                   else payload <$> MVCC.heap s !! b)).
Proof.
  intros Hst Hi Hc.
  destruct Hst as [| |ti t0 s2 Ht Hact Htx _ _ _ _ Hpl
                  |ti t0 s2 Ht Hact Htx _ _ _ _ _
                  |ti t0 s2 l2 a0 old v Ht Hact Htx _ _ _ _ _ _
                  |ti t0 s2 e _ _ _ (Htx & _) _ _
                  |s2 (Htx & _) _ _].
  - exists t'. auto.
  - cbn in Hi. apply lookup_app_Some in Hi as [Hi|[_ Hi]].
    + exists t'. auto.
    + apply list_lookup_singleton_Some in Hi as [_ <-]. done.
  - rewrite Htx in Hi.
    apply list_lookup_insert_Some in Hi as [(-> & <- & _)|[Hne Hi]].
    + exists t0. cbn. auto.
    + exists t'. auto.
  - rewrite Htx in Hi.
    apply list_lookup_insert_Some in Hi as [(-> & <- & _)|[Hne Hi]].
    + done.
    + exists t'. auto.
  - rewrite Htx in Hi.
    apply list_lookup_insert_Some in Hi as [(-> & <- & _)|[Hne Hi]].
    + done.
    + exists t'. auto.
  - rewrite Htx in Hi. exists t'. auto.
  - rewrite Htx in Hi. exists t'. auto.
Qed.

Lemma MVCC_versions_create max_level :
  MVCC_versions (MVCC.create max_level).
Proof.
  split; cbn.
  - intros a n ver Hn Hver.
    apply lookup_singleton_Some in Hn as [_ <-]. cbn in Hver.
    by apply elem_of_nil in Hver.
  - intros a n ver i t _ _ Hi. by destruct i.
Qed.

Lemma MVCC_versions_step s l s' l' :
  MVCC_step s l s' l' → MVCC_ids s → MVCC_versions s → MVCC_versions s'.
Proof.
  intros Hst Hids [Hcr Hmk]. split.
  - intros a n' ver Hn' Hver.
    destruct (MVCC_step_provenance _ _ _ _ _ _ _ Hst Hn' Hver)
      as [(n & old & Hn & Hold & Hts & _)
         |(ti & t & v & Ht & Hact & Htx & ->)].
    + destruct (Hcr a n old Hn Hold) as (i & t & Hi & Hid & Ha).
      destruct (MVCC_step_txns _ _ _ _ _ _ Hst Hi)
        as (t' & Hi' & Hid' & Hm & _).
      exists i, t'. split; [done|]. split; [congruence|auto].
    + exists ti. eexists. rewrite Htx.
      rewrite list_lookup_insert_eq by (by eapply lookup_lt_Some).
      split; [done|]. cbn. split; [done|]. apply elem_of_app. right. left.
  - intros a n' ver i t' Hn' Hver Hi' Hid' Hc'.
    destruct (MVCC_step_committed _ _ _ _ _ _ Hst Hi' Hc')
      as (t & Hi & Hid & Hcase).
    destruct (MVCC_step_provenance _ _ _ _ _ _ _ Hst Hn' Hver)
      as [(n & old & Hn & Hold & Hts & _ & Hkeep)
         |(ti & t0 & v & Ht0 & Hact0 & Htx & ->)].
    + destruct Hcase as [Hc|[Hact Hpl]].
      * apply Hkeep. eapply (Hmk a n old i t); try done. congruence.
      * destruct (Hcr a n old Hn Hold) as (j & tj & Hj & Hidj & Ha).
        assert (j = i) as ->.
        { eapply (MVCC_ids_inj s); try done. congruence. }
        assert (tj = t) as -> by congruence.
        specialize (Hpl a). rewrite decide_True in Hpl by done.
        apply (payload_fmap_inv _ _ _ _ _ Hn') in Hpl as (n0 & Hn0 & Hp).
        rewrite Hp in Hver.
        eapply commit_version_marks; [exact Hver|]. congruence.
    + cbn in Hid'.
      assert (i = ti) as ->.
      { eapply (MVCC_ids_inj s); try done. congruence. }
      assert (t = t0) as -> by congruence.
      destruct Hcase as [Hc|[_ Hpl]]; [congruence|].
      rewrite Htx in Hi'.
      rewrite list_lookup_insert_eq in Hi' by (by eapply lookup_lt_Some).
      injection Hi' as <-. done.
Qed.

(** *** The statistics *)

Lemma count_state_insert st (T : list MVCC.Transaction) : ∀ i t t',
  T !! i = Some t → MVCC.state t ≠ st →
  count_state st (<[i := t']> T)
  = count_state st T + (if decide (MVCC.state t' = st) then 1 else 0).
Proof.
  unfold count_state.
  induction T as [|x T IH]; intros i t t' Hi Hne; [by destruct i|].
  destruct i as [|i]; cbn in Hi.
  - injection Hi as ->.
    change (<[0 := t']> (t :: T)) with (t' :: T).
    rewrite !filter_cons.
    rewrite (decide_False (P := MVCC.state t = st)) by done.
    destruct (decide (MVCC.state t' = st)); cbn [length]; lia.
  - specialize (IH i t t' Hi Hne).
    change (<[S i := t']> (x :: T)) with (x :: <[i := t']> T).
    rewrite !filter_cons.
    destruct (decide (MVCC.state x = st)); cbn [length]; lia.
Qed.

Lemma count_state_lt st (T : list MVCC.Transaction) : ∀ i t,
  T !! i = Some t → MVCC.state t ≠ st → count_state st T < length T.
Proof.
  unfold count_state.
  induction T as [|x T IH]; intros i t Hi Hne; [by destruct i|].
  rewrite filter_cons. destruct i as [|i]; cbn in Hi.
  - injection Hi as ->. rewrite decide_False by done.
    pose proof (length_filter (λ t, MVCC.state t = st) T). cbn. lia.
  - specialize (IH i t Hi Hne).
    destruct (decide (MVCC.state x = st)); cbn; lia.
Qed.

Lemma count_state_app st (T : list MVCC.Transaction) t :
  MVCC.state t ≠ st → count_state st (T ++ [t]) = count_state st T.
Proof.
  intros Hne. unfold count_state. rewrite filter_app, length_app.
  rewrite filter_cons, decide_False by done. cbn. lia.
Qed.

Lemma MVCC_counts_create max_level : MVCC_counts (MVCC.create max_level).
Proof. by split. Qed.

Lemma MVCC_counts_step s l s' l' :
  MVCC_step s l s' l' → MVCC_counts s → no_wrap s' → MVCC_counts s'.
Proof.
  intros Hst [Hc Ha] Hnw.
  pose proof (no_wrap_step _ _ _ _ Hst Hnw) as Hnw0. unfold no_wrap in Hnw0.
  destruct Hst as [| |ti t s2 Ht Hact Htx _ _ Hcc Hca _
                  |ti t s2 Ht Hact Htx _ _ Hcc Hca _
                  |ti t s2 l2 a old v Ht Hact Htx _ _ [Hcc Hca] _ _ _
                  |ti t s2 e _ _ _ (Htx & _) [Hcc Hca] _
                  |s2 (Htx & _) [Hcc Hca] _].
  - by split.
  - split; cbn -[count_state]; rewrite count_state_app by done; done.
  - assert (MVCC.state t ≠ COMMITTED) as Hn1 by congruence.
    assert (MVCC.state t ≠ ABORTED) as Hn2 by congruence.
    pose proof (count_state_lt COMMITTED _ _ _ Ht Hn1).
    split; rewrite ?Hcc, ?Hca, Htx.
    + rewrite (count_state_insert _ _ _ _ _ Ht Hn1). cbn [MVCC.state].
      rewrite decide_True by done.
      rewrite Hc, uint64_succ_small by lia. lia.
    + rewrite (count_state_insert _ _ _ _ _ Ht Hn2). cbn [MVCC.state].
      rewrite decide_False by done. rewrite Ha. f_equal. lia.
  - assert (MVCC.state t ≠ COMMITTED) as Hn1 by congruence.
    assert (MVCC.state t ≠ ABORTED) as Hn2 by congruence.
    pose proof (count_state_lt ABORTED _ _ _ Ht Hn2).
    split; rewrite ?Hcc, ?Hca, Htx.
    + rewrite (count_state_insert _ _ _ _ _ Ht Hn1). cbn [MVCC.state].
      rewrite decide_False by done. rewrite Hc. f_equal. lia.
    + rewrite (count_state_insert _ _ _ _ _ Ht Hn2). cbn [MVCC.state].
      rewrite decide_True by done.
      rewrite Ha, uint64_succ_small by lia. lia.
  - assert (MVCC.state t ≠ COMMITTED) as Hn1 by congruence.
    assert (MVCC.state t ≠ ABORTED) as Hn2 by congruence.
    split; rewrite ?Hcc, ?Hca, Htx.
    + rewrite (count_state_insert _ _ _ _ _ Ht Hn1). cbn [MVCC.state].
      rewrite decide_False by done. rewrite Hc. f_equal. lia.
    + rewrite (count_state_insert _ _ _ _ _ Ht Hn2). cbn [MVCC.state].
      rewrite decide_False by done. rewrite Ha. f_equal. lia.
  - split; rewrite ?Hcc, ?Hca, Htx; done.
  - split; rewrite ?Hcc, ?Hca, Htx; done.
Qed.

(** *** Reachable lists *)

Lemma for_each_snoc {S A} (body : S → A → option S) (xs : list A) x :
  ∀ s, for_each body s (xs ++ [x])
       = for_each body s xs ≫= λ s', body s' x.
Proof.
  induction xs as [|y xs IH]; intros s; cbn.
  - by destruct (body s x).
  - destruct (body s y) as [s1|]; cbn; [apply IH|done].
Qed.

Lemma MVCC_after_books max_level calls : ∀ s,
  MVCC.after max_level calls = Some s → no_wrap s →
  ∃ l, MVCC_wf s l ∧ MVCC_ids s ∧ MVCC_versions s ∧ MVCC_counts s.
Proof.
  induction calls as [|c calls IH] using rev_ind; intros s Hs Hnw.
  - injection Hs as <-. exists [].
    split; [apply MVCC_wf_create|].
    split; [apply MVCC_ids_create|].
    split; [apply MVCC_versions_create|apply MVCC_counts_create].
  - unfold MVCC.after in Hs. rewrite for_each_snoc in Hs.
    destruct (for_each MVCC.run (MVCC.create max_level) calls)
      as [s0|] eqn:E; [|done].
    cbn [mbind option_bind] in Hs.
    destruct (MVCC_after_wf _ _ _ E) as (l0 & Hwf0 & _).
    destruct (MVCC_run_step s0 l0 c s Hwf0 Hs) as (l & Hwf & Hst).
    pose proof (no_wrap_step _ _ _ _ Hst Hnw) as Hnw0.
    destruct (IH s0 E Hnw0) as (l1 & _ & Hids & Hver & Hcnt).
    exists l. split; [done|].
    split; [by eapply MVCC_ids_step|].
    split; [by eapply MVCC_versions_step|by eapply MVCC_counts_step].
Qed.

(** ** Transaction ids, statistics and commit marks *)

(** X10: while fewer than [UINT64_MAX] transactions have begun, the
    transactions of every list a client can build carry the ids 1, 2, 3,
    ... in the order of their [begin_transaction] calls, the id counter
    holds the next number, and the table of active transactions holds
    exactly the ids of the transactions whose state is ACTIVE, each bound
    to its transaction. *)
Theorem mvcc_ids_are_sequential max_level calls s :
  MVCC.after max_level calls = Some s → no_wrap s →
  (∀ i t, MVCC.txns s !! i = Some t → MVCC.txn_id t = Z.of_nat (S i))
  ∧ MVCC._next_txn_id s = Z.of_nat (S (length (MVCC.txns s)))
  ∧ (∀ id i, MVCC._active_transactions s !! id = Some i ↔
       ∃ t, MVCC.txns s !! i = Some t ∧ MVCC.state t = ACTIVE
            ∧ MVCC.txn_id t = id)
  ∧ (∀ i j t t', MVCC.txns s !! i = Some t → MVCC.txns s !! j = Some t' →
       MVCC.txn_id t = MVCC.txn_id t' → i = j).
Proof.
  intros Hs Hnw.
  destruct (MVCC_after_books _ _ _ Hs Hnw) as (l & _ & Hids & _ & _).
  split; [apply (ids_txn _ Hids)|]. split; [apply (ids_next _ Hids)|].
  split.
  - intros id i. rewrite (ids_active _ Hids). split.
    + intros (-> & t & Ht & Ha). exists t.
      by rewrite (ids_txn _ Hids _ _ Ht).
    + intros (t & Ht & Ha & <-). split; [by apply (ids_txn _ Hids)|eauto].
  - intros i j t t'. by apply MVCC_ids_inj.
Qed.

Lemma mvcc_ids_are_sequential_witness :
  (∀ i t, MVCC.txns sample_mvcc !! i = Some t →
     MVCC.txn_id t = Z.of_nat (S i))
  ∧ MVCC._next_txn_id sample_mvcc
    = Z.of_nat (S (length (MVCC.txns sample_mvcc)))
  ∧ (∀ id i, MVCC._active_transactions sample_mvcc !! id = Some i ↔
       ∃ t, MVCC.txns sample_mvcc !! i = Some t ∧ MVCC.state t = ACTIVE
            ∧ MVCC.txn_id t = id)
  ∧ (∀ i j t t', MVCC.txns sample_mvcc !! i = Some t →
       MVCC.txns sample_mvcc !! j = Some t' →
       MVCC.txn_id t = MVCC.txn_id t' → i = j).
Proof.
  apply (mvcc_ids_are_sequential 4 sample_calls).
  - vm_compute. reflexivity.
  - vm_compute. reflexivity.
Defined.

(** X11: while fewer than [UINT64_MAX] transactions have begun, the
    counters [print_stats] prints as total commits and total aborts are
    the numbers of transactions in state COMMITTED and ABORTED. *)
Theorem mvcc_stats_count_transactions max_level calls s :
  MVCC.after max_level calls = Some s → no_wrap s →
  MVCC._total_commits s = Z.of_nat (count_state COMMITTED (MVCC.txns s))
  ∧ MVCC._total_aborts s = Z.of_nat (count_state ABORTED (MVCC.txns s)).
Proof.
  intros Hs Hnw.
  destruct (MVCC_after_books _ _ _ Hs Hnw) as (l & _ & _ & _ & [Hc Ha]).
  done.
Qed.

Lemma mvcc_stats_count_transactions_witness :
  MVCC._total_commits sample_mvcc
  = Z.of_nat (count_state COMMITTED (MVCC.txns sample_mvcc))
  ∧ MVCC._total_aborts sample_mvcc
    = Z.of_nat (count_state ABORTED (MVCC.txns sample_mvcc)).
Proof.
  apply (mvcc_stats_count_transactions 4 sample_calls).
  - vm_compute. reflexivity.
  - vm_compute. reflexivity.
Defined.

Lemma is_visible_other ver id :
  is_visible ver id = true → id ≠ create_ts ver → is_committed ver = true.
Proof.
  unfold is_visible. intros Hv Hne.
  destruct (Z.eqb_spec (create_ts ver) id) as [Heq|_]; [by subst|].
  by destruct (is_committed ver).
Qed.

(** X12: while fewer than [UINT64_MAX] transactions have begun, every
    version in the chain of a key was written by exactly one transaction,
    the one whose id is its [create_ts]; the version is marked committed
    exactly when that transaction is in state COMMITTED (a commit marks
    all versions of the transaction, in whatever nodes they are), so a
    version whose writer is still active or was aborted is visible to no
    transaction with another id. *)
Theorem mvcc_marked_iff_writer_committed max_level calls s k c ver :
  MVCC.after max_level calls = Some s → no_wrap s →
  MVCC.chain_of s k = Some (Some c) → ver ∈ c →
  ∃ i t,
    MVCC.txns s !! i = Some t ∧ MVCC.txn_id t = create_ts ver
    ∧ (∀ j t', MVCC.txns s !! j = Some t' →
         MVCC.txn_id t' = create_ts ver → j = i)
    ∧ (is_committed ver = true ↔ MVCC.state t = COMMITTED)
    ∧ (∀ id, id ≠ create_ts ver → is_visible ver id = true →
         MVCC.state t = COMMITTED).
Proof.
  intros Hs Hnw Hc Hver.
  destruct (MVCC_after_books _ _ _ Hs Hnw)
    as (l & Hwf & Hids & [Hcr Hmk] & _).
  destruct (MVCC_chain_of_inv s l k c Hwf Hc) as (e & He & Hk & Hp).
  apply payload_lookup_inv in Hp as (n & Hn & <-).
  destruct (Hcr _ _ _ Hn Hver) as (i & t & Hi & Hid & _).
  exists i, t. split; [done|]. split; [done|].
  assert (Hiff : is_committed ver = true ↔ MVCC.state t = COMMITTED).
  { split.
    - intros Hco.
      destruct (wf_committed _ _ Hwf _ _ _ Hn Hver Hco)
        as (j & tj & Hj & Hidj & Hst).
      assert (j = i) as ->.
      { eapply (MVCC_ids_inj s); try done. congruence. }
      congruence.
    - intros Hst. by eapply (Hmk _ n ver i t). }
  split.
  { intros j t' Hj Hidj. eapply (MVCC_ids_inj s); try done. congruence. }
  split; [done|].
  intros id Hne Hvis. apply Hiff. by eapply is_visible_other.
Qed.

Lemma mvcc_marked_iff_writer_committed_witness :
  ∃ i t,
    MVCC.txns sample_mvcc !! i = Some t
    ∧ MVCC.txn_id t = create_ts (committed_version "initial" 1)
    ∧ (∀ j t', MVCC.txns sample_mvcc !! j = Some t' →
         MVCC.txn_id t' = create_ts (committed_version "initial" 1) →
         j = i)
    ∧ (is_committed (committed_version "initial" 1) = true
       ↔ MVCC.state t = COMMITTED)
    ∧ (∀ id, id ≠ create_ts (committed_version "initial" 1) →
         is_visible (committed_version "initial" 1) id = true →
         MVCC.state t = COMMITTED).
Proof.
  apply (mvcc_marked_iff_writer_committed 4 sample_calls sample_mvcc 10%Z
           [committed_version "initial" 1]).
  - vm_compute. reflexivity.
  - vm_compute. reflexivity.
  - vm_compute. reflexivity.
  - left.
Defined.

(** ** Garbage collection and reads *)

Lemma is_visible_bound ver id :
  is_visible ver id = true → (id < delete_ts ver)%Z.
Proof.
  unfold is_visible. intros Hv.
  destruct (create_ts ver =? id)%Z.
  - by apply Z.ltb_lt.
  - apply andb_true_iff in Hv as [_ Hv]. by apply Z.ltb_lt.
Qed.

Lemma gc_tail_visible c m id :
  (m ≤ id)%Z →
  get_visible_version (gc_tail c m) id = get_visible_version c id.
Proof.
  intros Hm. induction c as [|ver c IH]; [done|]. cbn.
  destruct (Z.ltb_spec (delete_ts ver) m) as [Hd|Hd].
  - destruct (is_visible ver id) eqn:Hv; [|done].
    apply is_visible_bound in Hv. lia.
  - cbn. by rewrite IH.
Qed.

Lemma gc_versions_visible c m id :
  (m ≤ id)%Z →
  get_visible_version (gc_versions c m) id = get_visible_version c id.
Proof.
  intros Hm. destruct c as [|ver c]; [done|]. cbn.
  by rewrite gc_tail_visible.
Qed.

Lemma min_active_le (A : gmap Z nat) :
  let r := map_fold (λ id (_ : nat) min_id, Z.min min_id id) UINT64_MAX A in
  (r ≤ UINT64_MAX)%Z ∧ ∀ id i, A !! id = Some i → (r ≤ id)%Z.
Proof.
  cbn zeta.
  apply (map_fold_weak_ind
    (λ r (A : gmap Z nat),
       (r ≤ UINT64_MAX)%Z ∧ ∀ id i, A !! id = Some i → (r ≤ id)%Z)).
  - split; [done|]. intros id i. by rewrite lookup_empty.
  - intros id0 x A' r Hnone [Hr IH]. split; [lia|].
    intros id i Hi. apply lookup_insert_Some in Hi as [[<- _]|[_ Hi]].
    + lia.
    + specialize (IH id i Hi). lia.
Qed.

Lemma get_min_active_le s id i :
  MVCC._active_transactions s !! id = Some i →
  (MVCC.get_min_active_txn_id s ≤ id)%Z.
Proof.
  intros Hi. unfold MVCC.get_min_active_txn_id.
  destruct (decide (MVCC._active_transactions s = ∅)) as [He|_].
  - rewrite He in Hi. by rewrite lookup_empty in Hi.
  - by eapply (proj2 (min_active_le _)).
Qed.

Lemma get_min_active_next s :
  MVCC_ids s →
  (MVCC.get_min_active_txn_id s ≤ MVCC._next_txn_id s)%Z.
Proof.
  intros Hids. unfold MVCC.get_min_active_txn_id.
  destruct (decide (MVCC._active_transactions s = ∅)) as [He|Hne]; [done|].
  apply map_choose in Hne as (id & i & Hi).
  pose proof (proj2 (min_active_le _) id i Hi) as Hle.
  apply (ids_active _ Hids) in Hi as (-> & t & Ht & _).
  rewrite (ids_next _ Hids). apply lookup_lt_Some in Ht. lia.
Qed.

Lemma check_active_txns s s' txn :
  MVCC.txns s' = MVCC.txns s →
  MVCC.check_active s' txn = MVCC.check_active s txn.
Proof. intros H. unfold MVCC.check_active. by rewrite H. Qed.

(** The version a read resolves to, from the entries. *)
Lemma MVCC_visible_spec s l id k :
  MVCC_wf s l →
  MVCC.visible_version s id k
  = Some (match list_find (λ e, e_key e = k) l with
          | Some (_, e) =>
              get_visible_version
                (default [] (payload <$> MVCC.heap s !! e_addr e)) id
          | None => None
          end).
Proof.
  intros Hwf.
  destruct (list_find (λ e, e_key e = k) l) as [[j e]|] eqn:Ef.
  - apply list_find_Some in Ef as (Hj & Hk & _). subst k.
    assert (He : e ∈ l) by (by eapply list_elem_of_lookup_2).
    destruct (Inv_entry_live _ _ _ _ _ _ (wf_inv _ _ Hwf) He) as [n Hn].
    rewrite (MVCC_visible_present s l id e (payload n) Hwf He);
      [|by rewrite Hn].
    by rewrite Hn.
  - apply list_find_None in Ef. rewrite Forall_forall in Ef.
    by rewrite (MVCC_visible_absent s l id k Hwf).
Qed.

(** X13: while fewer than [UINT64_MAX] transactions have begun, [gc]
    returns and changes no read: the bound it computes is at most the id
    of every active transaction and at most the next id to be handed out,
    and a read of any key under an id from the bound on resolves to the
    same version after [gc] as before, so [search_element] returns the
    same for every active transaction. *)
Theorem mvcc_gc_preserves_reads max_level calls s :
  MVCC.after max_level calls = Some s → no_wrap s →
  ∃ s',
    MVCC.gc s = Some s'
    ∧ (MVCC.get_min_active_txn_id s ≤ MVCC._next_txn_id s)%Z
    ∧ (∀ id k, (MVCC.get_min_active_txn_id s ≤ id)%Z →
         MVCC.visible_version s' id k = MVCC.visible_version s id k)
    ∧ (∀ ti t k, MVCC.txns s !! ti = Some t → MVCC.state t = ACTIVE →
         (MVCC.get_min_active_txn_id s ≤ MVCC.txn_id t)%Z
         ∧ MVCC.search_element s' (Some ti) k
           = MVCC.search_element s (Some ti) k).
Proof.
  intros Hs Hnw.
  destruct (MVCC_after_books _ _ _ Hs Hnw) as (l & Hwf & Hids & _ & _).
  destruct (MVCC_gc_spec s l Hwf)
    as (s' & Hg & Hwf' & _ & _ & Htx & Hpl & _ & _).
  exists s'. split; [done|].
  split; [by apply get_min_active_next|].
  assert (Hvis : ∀ id k, (MVCC.get_min_active_txn_id s ≤ id)%Z →
            MVCC.visible_version s' id k = MVCC.visible_version s id k).
  { intros id k Hid.
    rewrite (MVCC_visible_spec s l id k Hwf),
      (MVCC_visible_spec s' l id k Hwf').
    f_equal.
    destruct (list_find (λ e, e_key e = k) l) as [[j e]|] eqn:Ef; [|done].
    apply list_find_Some in Ef as (Hj & _ & _).
    assert (He : e ∈ l) by (by eapply list_elem_of_lookup_2).
    rewrite Hpl, decide_True by (apply list_elem_of_fmap; eauto).
    destruct (payload <$> MVCC.heap s !! e_addr e) as [c|]; [|done].
    cbn. by apply gc_versions_visible. }
  split; [done|].
  intros ti t k Ht Hact.
  assert (Hle : (MVCC.get_min_active_txn_id s ≤ MVCC.txn_id t)%Z).
  { apply (get_min_active_le s _ ti). apply (ids_active _ Hids).
    split; [by apply (ids_txn _ Hids)|eauto]. }
  split; [done|].
  unfold MVCC.search_element.
  rewrite (check_active_txns s s' _ Htx).
  rewrite (check_active_Some s ti t Ht Hact). cbn [mbind option_bind].
  by rewrite Hvis.
Qed.

Lemma mvcc_gc_preserves_reads_witness :
  ∃ s',
    MVCC.gc sample_mvcc = Some s'
    ∧ (MVCC.get_min_active_txn_id sample_mvcc
       ≤ MVCC._next_txn_id sample_mvcc)%Z
    ∧ (∀ id k, (MVCC.get_min_active_txn_id sample_mvcc ≤ id)%Z →
         MVCC.visible_version s' id k
         = MVCC.visible_version sample_mvcc id k)
    ∧ (∀ ti t k, MVCC.txns sample_mvcc !! ti = Some t →
         MVCC.state t = ACTIVE →
         (MVCC.get_min_active_txn_id sample_mvcc ≤ MVCC.txn_id t)%Z
         ∧ MVCC.search_element s' (Some ti) k
           = MVCC.search_element sample_mvcc (Some ti) k).
Proof.
  apply (mvcc_gc_preserves_reads 4 sample_calls).
  - vm_compute. reflexivity.
  - vm_compute. reflexivity.
Defined.

(** ** Deleting in the MVCC list *)

Lemma Inv_addr_inj {P} (h : gmap nat (Node P)) header max_level level l
    e1 e2 :
  Inv h header max_level level l →
  e1 ∈ l → e2 ∈ l → e_addr e1 = e_addr e2 → e1 = e2.
Proof.
  intros HI H1 H2 Heq.
  pose proof (inv_nodup _ _ _ _ _ HI) as Hnd.
  apply NoDup_cons in Hnd as [_ Hnd].
  apply list_elem_of_lookup in H1 as [i Hi].
  apply list_elem_of_lookup in H2 as [j Hj].
  assert (i = j) as ->; [|congruence].
  eapply (NoDup_lookup _ _ _ _ Hnd); rewrite list_lookup_fmap.
  - by rewrite Hi.
  - rewrite Hj. cbn. by rewrite Heq.
Qed.

(** The chain stored for a key, from the entries. *)
Lemma MVCC_chain_spec s l k :
  MVCC_wf s l →
  MVCC.chain_of s k
  = Some (match list_find (λ e, e_key e = k) l with
          | Some (_, e) => payload <$> MVCC.heap s !! e_addr e
          | None => None
          end).
Proof.
  intros Hwf.
  destruct (list_find (λ e, e_key e = k) l) as [[j e]|] eqn:Ef.
  - apply list_find_Some in Ef as (Hj & Hk & _). subst k.
    assert (He : e ∈ l) by (by eapply list_elem_of_lookup_2).
    by destruct (MVCC_chain_of_present s l e Hwf He) as [-> _].
  - apply list_find_None in Ef. rewrite Forall_forall in Ef.
    by rewrite (MVCC_chain_of_absent s l k Hwf).
Qed.




(** ** Range reads, point reads and the dump *)

Lemma MVCC_range_spec s l ti t low high :
  MVCC_wf s l → MVCC.txns s !! ti = Some t → MVCC.state t = ACTIVE →
  ∃ ns,
    level_nodes (MVCC.heap s) (MVCC._header s) 0 = Some ns
    ∧ Forall2 (λ e n, MVCC.heap s !! e_addr e = Some n
                      ∧ key n = e_key e) l ns
    ∧ MVCC.range_query s (Some ti) low high
      = Some (omap (visible_row (MVCC.txn_id t))
                   (filter (λ n, (low ≤ key n ≤ high)%Z) ns)).
Proof.
  intros [HI _ _] Ht Hact.
  destruct (Inv_live_nodes _ _ _ _ _ HI) as (ns & Hns & HF).
  assert (Forall2 (λ e n, MVCC.heap s !! e_addr e = Some n
                          ∧ key n = e_key e) l ns) as HF'.
  { eapply Forall2_impl; [exact HF|]. naive_solver. }
  assert (key <$> ns = e_key <$> l) as Hkeys.
  { clear -HF'. induction HF' as [|e n es ns' [_ Hk] _ IH]; [done|].
    by rewrite !fmap_cons, Hk, IH. }
  assert (StronglySorted Z.lt (key <$> ns)) as Hsorted.
  { rewrite Hkeys. apply (inv_sorted _ _ _ _ _ HI). }
  exists ns. split; [done|]. split; [done|].
  assert ((high < low)%Z →
          filter (λ n, (low ≤ key n ≤ high)%Z) ns = []) as Hempty.
  { intros Hlh. apply filter_none.
    apply (nodes_Forall (MVCC.heap s) (λ z, ¬ (low ≤ z ≤ high)%Z) l ns HF').
    apply Forall_forall. intros e _. lia. }
  unfold MVCC.range_query. rewrite (check_active_Some s ti t Ht Hact).
  cbn [mbind option_bind].
  destruct (Z.ltb_spec high low) as [Hlh|Hlh].
  - by rewrite Hempty.
  - destruct (sorted_split low l (inv_sorted _ _ _ _ _ HI))
      as (lt & ge & -> & Hlt & Hge).
    rewrite (find_prev_spec _ _ _ _ lt ge low HI Hlt Hge
               (MVCC._skip_list_level s) (MVCC._header s)
               (size (MVCC.heap s)));
      [|apply (inv_max _ _ _ _ _ HI) | set_solver
       |by apply (Inv_fuel _ _ _ _ _ HI)].
    cbn [mbind option_bind].
    rewrite (fwd_pred_zero _ _ _ _ _ _ HI). cbn [mbind option_bind].
    pose proof (inv_sorted _ _ _ _ _ HI) as Hs.
    rewrite fmap_app in Hs. apply StronglySorted_app_1_r in Hs.
    destruct (sorted_split (high + 1) ge Hs) as (inr & out & -> & Hin & Hout).
    pose proof (level_seg _ _ _ _ lt (inr ++ out) HI 0 (Nat.le_0_l _))
      as Hseg.
    rewrite app_comm_cons in Hseg. apply seg_app in Hseg as [_ Hseg].
    rewrite at_level_zero in Hseg.
    destruct (collect_spec (MVCC.heap s) (MVCC.txn_id t) high inr out
                (size (MVCC.heap s)) Hseg) as (ns_in & HFin & Hc).
    { intros e He.
      destruct (Inv_node _ _ _ _ _ e HI) as (n & ? & ? & _); [set_solver|].
      eauto. }
    { eapply Forall_impl; [exact Hin|]. simpl. lia. }
    { intros e He. destruct out as [|e' out']; simplify_eq/=.
      apply Forall_cons in Hout as [Hout _]. lia. }
    { pose proof (Inv_fuel _ _ _ _ _ HI) as Hfuel.
      rewrite !length_app in Hfuel. lia. }
    assert (head (e_addr <$> inr ++ out)
            = next_of (e_addr <$> inr ++ out) None) as -> by
      (by destruct (e_addr <$> inr ++ out)).
    rewrite Hc. f_equal.
    apply Forall2_app_inv_l in HF' as (ns1 & ns23 & HF1 & HF23 & ->).
    apply Forall2_app_inv_l in HF23 as (ns2 & ns3 & HF2 & HF3 & ->).
    assert (ns2 = ns_in) as ->.
    { eapply Forall2_lookup_functional; [|exact HFin].
      eapply Forall2_impl; [exact HF2|]. naive_solver. }
    rewrite !filter_app.
    rewrite (filter_none _ ns1).
    2:{ apply (nodes_Forall (MVCC.heap s) (λ z, ¬ (low ≤ z ≤ high)%Z)
                 lt ns1 HF1).
        eapply Forall_impl; [exact Hlt|]. simpl. lia. }
    rewrite (filter_none _ ns3).
    2:{ apply (nodes_Forall (MVCC.heap s) (λ z, ¬ (low ≤ z ≤ high)%Z)
                 out ns3 HF3).
        eapply Forall_impl; [exact Hout|]. simpl. lia. }
    rewrite (filter_all _ ns_in).
    2:{ apply (nodes_Forall (MVCC.heap s) (λ z, (low ≤ z ≤ high)%Z)
                 inr ns_in HF2).
        apply Forall_forall. intros e He.
        rewrite Forall_forall in Hin, Hge. specialize (Hin e He).
        assert (low ≤ e_key e)%Z by (apply Hge; set_solver). lia. }
    by rewrite app_nil_l, app_nil_r.
Qed.

Lemma omap_visible_row_single id (n : Node (list Version)) :
  omap (visible_row id) [n]
  = match get_visible_version (payload n) id with
    | Some ver => [(key n, value ver)]
    | None => []
    end.
Proof. rewrite omap_visible_row_cons. by destruct (get_visible_version _ _). Qed.

(** X15: on every list a client can build, a [range_query] of an active
    transaction over the one-key range from [k] to [k] returns the pair
    of [k] and the value [search_element] delivers for [k] in the same
    transaction, and nothing when [search_element] returns false. *)
Theorem mvcc_range_of_one_key max_level calls s ti t k :
  MVCC.after max_level calls = Some s →
  MVCC.txns s !! ti = Some t → MVCC.state t = ACTIVE →
  ∃ r,
    MVCC.search_element s (Some ti) k = Some r
    ∧ MVCC.range_query s (Some ti) k k
      = Some (match r with Some v => [(k, v)] | None => [] end).
Proof.
  intros Hs Ht Hact.
  destruct (MVCC_after_wf _ _ _ Hs) as (l & Hwf & _).
  destruct (MVCC_range_spec s l ti t k k Hwf Ht Hact)
    as (ns & _ & HF & ->).
  destruct (decide (Exists (λ e, e_key e = k) l))
    as [(e & He & Hk)%Exists_exists|Hno]; [|rewrite Exists_exists in Hno].
  - subst k. apply list_elem_of_split in He as (lt & ge & ->).
    pose proof (inv_sorted _ _ _ _ _ (wf_inv _ _ Hwf)) as Hsort.
    apply sorted_around in Hsort as [Hlt Hge].
    apply Forall2_app_inv_l in HF as (ns1 & ns23 & HF1 & HF23 & ->).
    inversion HF23 as [|? n ? ns3 [Hn Hkn] HF3]; subst.
    exists (value <$> get_visible_version (payload n) (MVCC.txn_id t)).
    split.
    { apply (MVCC_search_present s (lt ++ e :: ge)); try done.
      - apply elem_of_app. right. left.
      - by rewrite Hn. }
    f_equal. rewrite filter_app, filter_cons.
    rewrite decide_True by lia.
    rewrite (filter_none _ ns1).
    2:{ apply (nodes_Forall (MVCC.heap s)
                 (λ z, ¬ (e_key e ≤ z ≤ e_key e)%Z) lt ns1 HF1).
        eapply Forall_impl; [exact Hlt|]. cbn. lia. }
    rewrite (filter_none _ ns3).
    2:{ apply (nodes_Forall (MVCC.heap s)
                 (λ z, ¬ (e_key e ≤ z ≤ e_key e)%Z) ge ns3 HF3).
        eapply Forall_impl; [exact Hge|]. cbn. lia. }
    rewrite app_nil_l, omap_visible_row_single, Hkn.
    by destruct (get_visible_version _ _).
  - exists None. split.
    { unfold MVCC.search_element.
      rewrite (check_active_Some s ti t Ht Hact). cbn [mbind option_bind].
      rewrite (MVCC_visible_absent s l _ k Hwf); [done|naive_solver]. }
    f_equal. rewrite (filter_none _ ns); [done|].
    apply (nodes_Forall (MVCC.heap s) (λ z, ¬ (k ≤ z ≤ k)%Z) l ns HF).
    apply Forall_forall. intros e He Hk. cbn in Hk.
    apply Hno. exists e. split; [done|lia].
Qed.

Lemma mvcc_range_of_one_key_witness :
  ∃ r,
    MVCC.search_element sample_mvcc (Some 1) 10%Z = Some r
    ∧ MVCC.range_query sample_mvcc (Some 1) 10%Z 10%Z
      = Some (match r with Some v => [(10%Z, v)] | None => [] end).
Proof.
  apply (mvcc_range_of_one_key 4 sample_calls sample_mvcc 1
           (MVCC.mkTransaction 2 ACTIVE [])).
  - vm_compute. reflexivity.
  - vm_compute. reflexivity.
  - reflexivity.
Defined.

Lemma omap_filter_rows id (Q : Z → Prop) `{!∀ z, Decision (Q z)}
    (ns : list (Node (list Version))) :
  omap (visible_row id) (filter (λ n, Q (key n)) ns)
  = filter (λ r, Q r.1) (omap (visible_row id) ns).
Proof.
  induction ns as [|n ns IH]; [done|].
  rewrite filter_cons. cbn [omap list_omap].
  destruct (visible_row id n) as [r|] eqn:Er.
  - rewrite filter_cons, (visible_row_key _ _ _ Er).
    destruct (decide (Q (key n))); [|done].
    cbn [omap list_omap]. by rewrite Er, IH.
  - destruct (decide (Q (key n))); [|done].
    cbn [omap list_omap]. by rewrite Er.
Qed.

(** X16: [dump_file] of the MVCC list writes what a transaction begun at
    that moment would read: a [range_query] of such a transaction returns
    the dumped pairs whose key lies in the range.  While fewer than
    [UINT64_MAX] transactions have begun, every dumped value is that of a
    version marked committed, written under an id below the next id. *)
Theorem mvcc_dump_is_a_fresh_snapshot max_level calls s :
  MVCC.after max_level calls = Some s → no_wrap s →
  ∃ rows,
    MVCCMore.dump_file s = Some rows
    ∧ (∀ low high,
         MVCC.range_query (MVCC.begin_transaction s).2
                          (Some (MVCC.begin_transaction s).1) low high
         = Some (filter (λ r, (low ≤ r.1 ≤ high)%Z) rows))
    ∧ (∀ k v, (k, v) ∈ rows →
         ∃ c ver, MVCC.chain_of s k = Some (Some c) ∧ ver ∈ c
           ∧ value ver = v ∧ is_committed ver = true
           ∧ (create_ts ver < MVCC._next_txn_id s)%Z).
Proof.
  intros Hs Hnw.
  destruct (MVCC_after_books _ _ _ Hs Hnw)
    as (l & Hwf & Hids & [Hcr _] & _).
  pose proof (MVCC_begin_wf s l Hwf) as Hwf1.
  set (new := MVCC.mkTransaction (MVCC._next_txn_id s) ACTIVE []).
  assert (Hnew : MVCC.txns (MVCC.begin_transaction s).2
                 !! (MVCC.begin_transaction s).1 = Some new).
  { cbn. rewrite lookup_app_r by done. by rewrite Nat.sub_diag. }
  destruct (MVCC_range_spec _ l _ new 0 0 Hwf1 Hnew eq_refl)
    as (ns & Hns & HF & _).
  cbn [MVCC.begin_transaction snd MVCC.heap MVCC._header] in Hns, HF.
  exists (omap (visible_row (MVCC._next_txn_id s)) ns).
  split; [unfold MVCCMore.dump_file; by rewrite Hns|].
  split.
  { intros low high.
    destruct (MVCC_range_spec _ l _ new low high Hwf1 Hnew eq_refl)
      as (ns' & Hns' & _ & ->).
    cbn [MVCC.begin_transaction snd MVCC.heap MVCC._header] in Hns'.
    assert (ns' = ns) as -> by congruence.
    f_equal. unfold new. cbn [MVCC.txn_id].
    pose proof (omap_filter_rows (MVCC._next_txn_id s)
                  (λ z, (low ≤ z ≤ high)%Z) ns) as Hrows.
    exact Hrows. }
  intros k v Hin.
  apply list_elem_of_omap in Hin as (n & Hn & Hrow).
  unfold visible_row in Hrow.
  destruct (get_visible_version (payload n) (MVCC._next_txn_id s))
    as [ver|] eqn:Ev; [|done].
  injection Hrow as <- <-.
  apply get_visible_version_elem in Ev as [Hver Hvis].
  apply list_elem_of_lookup in Hn as [j Hj].
  destruct (Forall2_lookup_r _ _ _ _ _ HF Hj) as (e & He & Hne & Hke).
  assert (Hel : e ∈ l) by (by eapply list_elem_of_lookup_2).
  destruct (MVCC_chain_of_present s l e Hwf Hel) as [Hc _].
  rewrite Hne in Hc. cbn in Hc. rewrite <- Hke in Hc.
  exists (payload n), ver. split; [done|].
  split; [done|]. split; [done|].
  destruct (Hcr _ _ _ Hne Hver) as (i & t & Hi & Hid & _).
  assert (Hlt : (create_ts ver < MVCC._next_txn_id s)%Z).
  { rewrite <- Hid, (ids_txn _ Hids _ _ Hi), (ids_next _ Hids).
    apply lookup_lt_Some in Hi. lia. }
  split; [|done]. eapply is_visible_other; [exact Hvis|lia].
Qed.

Lemma mvcc_dump_is_a_fresh_snapshot_witness :
  ∃ rows,
    MVCCMore.dump_file sample_mvcc = Some rows
    ∧ (∀ low high,
         MVCC.range_query (MVCC.begin_transaction sample_mvcc).2
                          (Some (MVCC.begin_transaction sample_mvcc).1)
                          low high
         = Some (filter (λ r, (low ≤ r.1 ≤ high)%Z) rows))
    ∧ (∀ k v, (k, v) ∈ rows →
         ∃ c ver, MVCC.chain_of sample_mvcc k = Some (Some c) ∧ ver ∈ c
           ∧ value ver = v ∧ is_committed ver = true
           ∧ (create_ts ver < MVCC._next_txn_id sample_mvcc)%Z).
Proof.
  apply (mvcc_dump_is_a_fresh_snapshot 4 sample_calls).
  - vm_compute. reflexivity.
  - vm_compute. reflexivity.
Defined.

(** X17: on every list a client can build, [display_list] of the MVCC
    list prints one line of keys per level from 0 to the current level;
    the line of level 0 holds every key of the list, each line is
    strictly increasing, and the line of each higher level is a sublist
    of the line below it. *)
Theorem mvcc_display_list_levels max_level calls s :
  MVCC.after max_level calls = Some s →
  ∃ levels,
    MVCCMore.display_list s = Some levels
    ∧ length levels = S (MVCC._skip_list_level s)
    ∧ levels !! 0 = level_keys (MVCC.heap s) (MVCC._header s) 0
    ∧ (∀ a, a ∈ levels → StronglySorted Z.lt a)
    ∧ (∀ i a b, levels !! i = Some a → levels !! S i = Some b →
         b `sublist_of` a).
Proof.
  intros Hs. destruct (MVCC_after_wf _ _ _ Hs) as (l & [HI _ _] & _).
  set (line := λ i, e_key <$> filter (λ e, i ≤ e_level e) l).
  pose proof (inv_max _ _ _ _ _ HI) as Hmax.
  exists (line <$> seq 0 (S (MVCC._skip_list_level s))).
  split.
  { unfold MVCCMore.display_list. apply mapM_Some_2.
    apply Forall2_fmap_r, Forall_Forall2_diag, Forall_forall.
    intros i Hi. apply elem_of_seq in Hi.
    apply (Inv_level_keys _ _ _ _ _ HI). lia. }
  split; [by rewrite length_fmap, length_seq|].
  split.
  { rewrite (Inv_level_keys _ _ _ _ _ HI 0) by lia. done. }
  split.
  { intros a Ha. apply list_elem_of_fmap in Ha as (i & -> & _).
    apply sorted_filter_keys, (inv_sorted _ _ _ _ _ HI). }
  intros i a b Ha Hb.
  rewrite list_lookup_fmap in Ha, Hb.
  destruct (seq 0 _ !! i) as [x|] eqn:Ex; [|done].
  destruct (seq 0 _ !! S i) as [y|] eqn:Ey; [|done].
  apply lookup_seq in Ex as [-> _]. apply lookup_seq in Ey as [-> _].
  cbn in Ha, Hb. inversion Ha; inversion Hb; subst.
  apply fmap_sublist, sublist_filter_impl. intros e ?. cbn in *. lia.
Qed.

Lemma mvcc_display_list_levels_witness :
  ∃ levels,
    MVCCMore.display_list sample_mvcc = Some levels
    ∧ length levels = S (MVCC._skip_list_level sample_mvcc)
    ∧ levels !! 0
      = level_keys (MVCC.heap sample_mvcc) (MVCC._header sample_mvcc) 0
    ∧ (∀ a, a ∈ levels → StronglySorted Z.lt a)
    ∧ (∀ i a b, levels !! i = Some a → levels !! S i = Some b →
         b `sublist_of` a).
Proof.
  apply (mvcc_display_list_levels 4 sample_calls).
  vm_compute. reflexivity.
Defined.

(** ** Writes and the other transactions *)

Lemma new_version_invisible v id id' c :
  id' ≠ id →
  get_visible_version (new_Version v id :: c) id'
  = get_visible_version c id'.
Proof.
  intros Hne. cbn. unfold is_visible. cbn.
  destruct (Z.eqb_spec id id'); [by subst|done].
Qed.

(** X18: on every list a client can build, an [insert_element] by an
    active transaction returns 0 and changes no read made under any
    other id: for every key, the one written included, such a read
    resolves to the same version as before, and [search_element] returns
    the same for every other active transaction with a different id. *)
Theorem mvcc_insert_invisible_to_others max_level calls s ti t k v coin :
  MVCC.after max_level calls = Some s →
  MVCC.txns s !! ti = Some t → MVCC.state t = ACTIVE →
  ∃ s',
    MVCC.insert_element s (Some ti) k v coin = Some (0%Z, s')
    ∧ (∀ id' k', id' ≠ MVCC.txn_id t →
         MVCC.visible_version s' id' k' = MVCC.visible_version s id' k')
    ∧ (∀ tj t' k', MVCC.txns s !! tj = Some t' → MVCC.state t' = ACTIVE →
         MVCC.txn_id t' ≠ MVCC.txn_id t →
         MVCC.search_element s' (Some tj) k'
         = MVCC.search_element s (Some tj) k').
Proof.
  intros Hs Ht Hact.
  destruct (MVCC_after_wf _ _ _ Hs) as (l & Hwf & _).
  assert (Hgoal : ∃ s',
    MVCC.insert_element s (Some ti) k v coin = Some (0%Z, s')
    ∧ (∀ tj, tj ≠ ti → MVCC.txns s' !! tj = MVCC.txns s !! tj)
    ∧ (∀ id' k', id' ≠ MVCC.txn_id t →
         MVCC.visible_version s' id' k' = MVCC.visible_version s id' k')).
  { destruct (decide (Exists (λ e, e_key e = k) l))
      as [(e & He & Hk)%Exists_exists|Hno];
      [|rewrite Exists_exists in Hno].
    - destruct (MVCC_insert_found s l ti t k v coin e Hwf Ht Hact He Hk)
        as (s' & old & Hins & Hwf' & Hold & Hnew & Hoth & Htx & _).
      exists s'. split; [done|]. split.
      { intros tj Hne. by rewrite Htx, list_lookup_insert_ne. }
      intros id' k' Hne.
      rewrite (MVCC_visible_spec s l id' k' Hwf),
        (MVCC_visible_spec s' l id' k' Hwf').
      f_equal.
      destruct (list_find (λ e, e_key e = k') l) as [[j e']|] eqn:Ef;
        [|done].
      destruct (decide (e_addr e' = e_addr e)) as [Heq|Hna].
      + rewrite Heq, Hnew, Hold. cbn. by apply new_version_invisible.
      + by rewrite Hoth.
    - destruct (MVCC_insert_new s l ti t k v coin Hwf Ht Hact)
        as (s' & lt & ge & node & -> & Hins & Hwf' & Hfresh & Hnew & Hoth
            & Htx & _); [naive_solver|].
      exists s'. split; [done|]. split.
      { intros tj Hne. by rewrite Htx, list_lookup_insert_ne. }
      intros id' k' Hne.
      set (e := mkEntry node k
                  (get_random_level (MVCC._max_level s) coin)) in *.
      destruct (decide (k' = k)) as [->|Hk'].
      + rewrite (MVCC_visible_absent s (lt ++ ge) id' k Hwf)
          by naive_solver.
        pose proof (MVCC_visible_present s' (lt ++ e :: ge) id' e
                      [new_Version v (MVCC.txn_id t)] Hwf'
                      ltac:(set_solver) Hnew) as Hv.
        unfold e in Hv. cbn [e_key] in Hv. rewrite Hv.
        by rewrite new_version_invisible.
      + destruct (decide (Exists (λ x, e_key x = k') (lt ++ ge)))
          as [(x & Hx & Hxk)%Exists_exists|Hno'];
          [|rewrite Exists_exists in Hno'].
        * subst k'.
          destruct (Inv_entry_live _ _ _ _ _ _ (wf_inv _ _ Hwf) Hx)
            as [n Hn].
          assert (Hxn : e_addr x ≠ node) by (intros Heq; congruence).
          rewrite (MVCC_visible_present s (lt ++ ge) id' x (payload n)
                     Hwf Hx) by (by rewrite Hn).
          rewrite (MVCC_visible_present s' (lt ++ e :: ge) id' x
                     (payload n) Hwf'); [done|set_solver|].
          rewrite Hoth by done. by rewrite Hn.
        * rewrite (MVCC_visible_absent s (lt ++ ge) id' k' Hwf)
            by naive_solver.
          rewrite (MVCC_visible_absent s' (lt ++ e :: ge) id' k' Hwf');
            [done|].
          intros x Hx Hxk. apply elem_of_app in Hx as [Hx|Hx].
          -- apply Hno'. exists x. split; [set_solver|done].
          -- apply elem_of_cons in Hx as [->|Hx]; [by cbn in Hxk|].
             apply Hno'. exists x. split; [set_solver|done]. }
  destruct Hgoal as (s' & Hins & Htx & Hvis).
  exists s'. split; [done|]. split; [done|].
  intros tj t' k' Htj Hact' Hne.
  assert (tj ≠ ti) by (intros ->; congruence).
  unfold MVCC.search_element.
  rewrite (check_active_Some s tj t' Htj Hact').
  rewrite (check_active_Some s' tj t'); [|by rewrite Htx|done].
  cbn [mbind option_bind]. by rewrite Hvis.
Qed.

Lemma mvcc_insert_invisible_to_others_witness :
  ∃ s',
    MVCC.insert_element sample_mvcc (Some 1) 10%Z "draft"%string 0
      = Some (0%Z, s')
    ∧ (∀ id' k', id' ≠ 2%Z →
         MVCC.visible_version s' id' k'
         = MVCC.visible_version sample_mvcc id' k')
    ∧ (∀ tj t' k', MVCC.txns sample_mvcc !! tj = Some t' →
         MVCC.state t' = ACTIVE → MVCC.txn_id t' ≠ 2%Z →
         MVCC.search_element s' (Some tj) k'
         = MVCC.search_element sample_mvcc (Some tj) k').
Proof.
  apply (mvcc_insert_invisible_to_others 4 sample_calls sample_mvcc 1
           (MVCC.mkTransaction 2 ACTIVE [])).
  - vm_compute. reflexivity.
  - vm_compute. reflexivity.
  - reflexivity.
Defined.

Lemma commit_version_visible c id id' :
  (id' ≤ id)%Z →
  get_visible_version (commit_version c id) id'
  = match get_visible_version c id' with
    | Some ver => Some (if (create_ts ver =? id)%Z
                        then {| value := value ver;
                                create_ts := create_ts ver;
                                delete_ts := delete_ts ver;
                                is_committed := true |}
                        else ver)
    | None => None
    end.
Proof.
  intros Hle. induction c as [|ver c IH]; [done|].
  cbn [commit_version get_visible_version].
  rewrite IH. clear IH.
  unfold is_visible.
  destruct (Z.eqb_spec (create_ts ver) id) as [Heq|Hne];
    cbn [create_ts delete_ts is_committed];
    destruct (Z.eqb_spec (create_ts ver) id') as [Heq'|Hne'];
    destruct (Z.ltb_spec id' (delete_ts ver));
    destruct (Z.ltb_spec (create_ts ver) id');
    destruct (is_committed ver); cbn; try done; try lia.
  all: try (destruct (Z.eqb_spec (create_ts ver) id); [done|lia]).
  all: try (destruct (Z.eqb_spec (create_ts ver) id); [lia|done]).
Qed.

(** X19: on every list a client can build, [commit_transaction] of an
    active transaction changes the reads of greater ids only: under every
    id up to the committer's own, a read of any key resolves to the same
    version, with the same value, as before (at most its committed mark
    is new); and [abort_transaction] leaves the heap as it is, so the
    writes of the aborted transaction stay in their chains and no read
    under any id changes. *)
Theorem mvcc_commit_and_abort_keep_reads max_level calls s ti t :
  MVCC.after max_level calls = Some s →
  MVCC.txns s !! ti = Some t → MVCC.state t = ACTIVE →
  (∃ s',
     MVCC.commit_transaction s (Some ti) = Some (true, s')
     ∧ ∀ id' k, (id' ≤ MVCC.txn_id t)%Z →
         ∃ r r', MVCC.visible_version s id' k = Some r
           ∧ MVCC.visible_version s' id' k = Some r'
           ∧ value <$> r' = value <$> r
           ∧ create_ts <$> r' = create_ts <$> r
           ∧ delete_ts <$> r' = delete_ts <$> r)
  ∧ (∃ s',
       MVCC.abort_transaction s (Some ti) = Some s'
       ∧ MVCC.heap s' = MVCC.heap s
       ∧ (∀ k, MVCC.chain_of s' k = MVCC.chain_of s k)
       ∧ ∀ id' k, MVCC.visible_version s' id' k
                  = MVCC.visible_version s id' k).
Proof.
  intros Hs Ht Hact.
  destruct (MVCC_after_wf _ _ _ Hs) as (l & Hwf & _).
  split.
  - destruct (MVCC_commit_spec s l ti t Hwf Ht Hact)
      as (s' & Hc & Hwf' & _ & _ & _ & _ & _ & Hpl & _).
    exists s'. split; [done|]. intros id' k Hle.
    rewrite (MVCC_visible_spec s l id' k Hwf),
      (MVCC_visible_spec s' l id' k Hwf').
    eexists _, _. split; [done|]. split; [done|].
    destruct (list_find (λ e, e_key e = k) l) as [[j e]|]; [|done].
    rewrite Hpl. case_decide; [|done].
    destruct (payload <$> MVCC.heap s !! e_addr e) as [c|]; [|done].
    cbn. rewrite commit_version_visible by done.
    destruct (get_visible_version c id') as [ver|]; [|done].
    cbn. by destruct (create_ts ver =? MVCC.txn_id t)%Z.
  - destruct (MVCC_abort_full s l ti t Hwf Ht Hact)
      as (s' & Ha & Hwf' & Hheap & _).
    exists s'. split; [done|]. split; [done|]. split.
    + intros k.
      rewrite (MVCC_chain_spec s l k Hwf), (MVCC_chain_spec s' l k Hwf').
      by rewrite Hheap.
    + intros id' k.
      rewrite (MVCC_visible_spec s l id' k Hwf),
        (MVCC_visible_spec s' l id' k Hwf').
      by rewrite Hheap.
Qed.

Lemma mvcc_commit_and_abort_keep_reads_witness :
  (∃ s',
     MVCC.commit_transaction sample_mvcc (Some 1) = Some (true, s')
     ∧ ∀ id' k, (id' ≤ 2)%Z →
         ∃ r r', MVCC.visible_version sample_mvcc id' k = Some r
           ∧ MVCC.visible_version s' id' k = Some r'
           ∧ value <$> r' = value <$> r
           ∧ create_ts <$> r' = create_ts <$> r
           ∧ delete_ts <$> r' = delete_ts <$> r)
  ∧ (∃ s',
       MVCC.abort_transaction sample_mvcc (Some 1) = Some s'
       ∧ MVCC.heap s' = MVCC.heap sample_mvcc
       ∧ (∀ k, MVCC.chain_of s' k = MVCC.chain_of sample_mvcc k)
       ∧ ∀ id' k, MVCC.visible_version s' id' k
                  = MVCC.visible_version sample_mvcc id' k).
Proof.
  apply (mvcc_commit_and_abort_keep_reads 4 sample_calls sample_mvcc 1
           (MVCC.mkTransaction 2 ACTIVE [])).
  - vm_compute. reflexivity.
  - vm_compute. reflexivity.
  - reflexivity.
Defined.

(** ** The pool: returned nodes come back last in, first out *)

Lemma reinitialize_node_spec (h : gmap nat (Node string)) a n k v level :
  h !! a = Some n → length (forward n) = S (node_level n) →
  Opt.reinitialize_node h a k v level
  = Some (<[a := mkNode k level (replicate (S level) None) v]> h).
Proof.
  intros Hn Hlen. unfold Opt.reinitialize_node. rewrite Hn.
  cbn [mbind option_bind].
  destruct (decide (node_level n ≠ level)) as [Hne|Heq].
  - rewrite memset_null_all by (by rewrite length_replicate). done.
  - apply dec_stable in Heq. subst level.
    rewrite memset_null_all by done. done.
Qed.

(** X20: [deallocate] of a null pointer changes nothing; after
    [deallocate] of a live node whose forward array has the length its
    level asks for, the next [allocate] returns this very node,
    re-initialised with the new key, value and level and with all forward
    slots null, counts one reuse and leaves the free list as it was
    before the pair of calls.  The pool does not notice a node that is
    returned twice: it then hands the same node out twice, and the second
    allocation overwrites the first. *)
Theorem pool_reuses_last_returned pool (h : gmap nat (Node string)) a n
    k1 v1 level1 k2 v2 level2 :
  h !! a = Some n → length (forward n) = S (node_level n) →
  Opt.deallocate pool None = pool
  ∧ OptMore.get_free_list_size (Opt.deallocate pool (Some a))
    = S (OptMore.get_free_list_size pool)
  ∧ Opt.allocate (Opt.deallocate pool (Some a)) h k1 v1 level1
    = Some (a,
            Opt.mkPool (Opt._free_list pool) (Opt._allocated_count pool)
                       (Opt._reused_count pool + 1),
            <[a := mkNode k1 level1 (replicate (S level1) None) v1]> h)
  ∧ ∃ p1 h1 p2 h2,
      Opt.allocate
        (Opt.deallocate (Opt.deallocate pool (Some a)) (Some a))
        h k1 v1 level1 = Some (a, p1, h1)
      ∧ Opt.allocate p1 h1 k2 v2 level2 = Some (a, p2, h2)
      ∧ h2 !! a = Some (mkNode k2 level2 (replicate (S level2) None) v2)
      ∧ Opt._free_list p2 = Opt._free_list pool.
Proof.
  intros Hn Hlen.
  assert (Hal : ∀ fl ac rc (h0 : gmap nat (Node string)) n0 k v level,
    h0 !! a = Some n0 → length (forward n0) = S (node_level n0) →
    Opt.allocate (Opt.mkPool (fl ++ [a]) ac rc) h0 k v level
    = Some (a, Opt.mkPool fl ac (rc + 1)%Z,
            <[a := mkNode k level (replicate (S level) None) v]> h0)).
  { intros fl ac rc h0 n0 k v level H0 Hl. unfold Opt.allocate.
    cbn [Opt._free_list Opt._allocated_count Opt._reused_count].
    rewrite last_snoc, (reinitialize_node_spec _ _ _ _ _ _ H0 Hl).
    cbn [mbind option_bind]. by rewrite removelast_last. }
  split; [done|].
  split; [unfold OptMore.get_free_list_size; cbn; rewrite length_app;
          cbn; lia|].
  split; [by apply (Hal _ _ _ _ n)|].
  eexists _, _, _, _. cbn [Opt.deallocate Opt._free_list
    Opt._allocated_count Opt._reused_count].
  split; [by apply (Hal _ _ _ _ n)|].
  split.
  - apply (Hal _ _ _ _ (mkNode k1 level1 (replicate (S level1) None) v1)).
    + by rewrite lookup_insert_eq.
    + cbn. by rewrite length_replicate.
  - by rewrite lookup_insert_eq.
Qed.

Lemma pool_reuses_last_returned_witness :
  Opt.deallocate sample_pool None = sample_pool
  ∧ OptMore.get_free_list_size (Opt.deallocate sample_pool (Some 0))
    = S (OptMore.get_free_list_size sample_pool)
  ∧ Opt.allocate (Opt.deallocate sample_pool (Some 0)) sample_pool_heap
                 1%Z "a"%string 1
    = Some (0,
            Opt.mkPool (Opt._free_list sample_pool)
                       (Opt._allocated_count sample_pool)
                       (Opt._reused_count sample_pool + 1),
            <[0 := mkNode 1%Z 1 (replicate 2 None) "a"%string]>
              sample_pool_heap)
  ∧ ∃ p1 h1 p2 h2,
      Opt.allocate
        (Opt.deallocate (Opt.deallocate sample_pool (Some 0)) (Some 0))
        sample_pool_heap 1%Z "a"%string 1 = Some (0, p1, h1)
      ∧ Opt.allocate p1 h1 2%Z "b"%string 3 = Some (0, p2, h2)
      ∧ h2 !! 0 = Some (mkNode 2%Z 3 (replicate 4 None) "b"%string)
      ∧ Opt._free_list p2 = Opt._free_list sample_pool.
Proof.
  apply (pool_reuses_last_returned sample_pool sample_pool_heap 0
           (new_node 9%Z 2 "old"%string)).
  - vm_compute. reflexivity.
  - reflexivity.
Defined.

(** ** Lines of the dump file *)

Section Lines.
Import Stdlib.Strings.Ascii.

Lemma find_colon_app (k v : string) :
  ¬ In ":"%char (String.list_ascii_of_string k) →
  OptMore.find_colon (k +:+ String ":" v) = Some (String.length k).
Proof.
  induction k as [|c k IH]; intros Hk; simpl.
  - done.
  - destruct (Ascii.eqb_spec c ":") as [->|Hc].
    + exfalso. apply Hk. by left.
    + rewrite IH; [done|]. intros Hin. apply Hk. by right.
Qed.

Lemma find_colon_none (k : string) :
  ¬ In ":"%char (String.list_ascii_of_string k) → OptMore.find_colon k = None.
Proof.
  induction k as [|c k IH]; intros Hk; simpl; [done|].
  destruct (Ascii.eqb_spec c ":") as [->|Hc].
  - exfalso. apply Hk. by left.
  - rewrite IH; [done|]. intros Hin. apply Hk. by right.
Qed.

Lemma substring_all (s : string) m :
  String.length s ≤ m → String.substring 0 m s = s.
Proof.
  revert m. induction s as [|c s IH]; intros m Hm; simpl in *.
  - by destruct m.
  - destruct m as [|m]; [lia|]. rewrite IH; [done|lia].
Qed.

Lemma substring_prefix (k s : string) :
  String.substring 0 (String.length k) (k +:+ s) = k.
Proof.
  induction k as [|c k IH]; simpl.
  - by destruct s.
  - by rewrite IH.
Qed.

Lemma substring_skip (k s : string) n m :
  String.substring (String.length k + n) m (k +:+ s)
  = String.substring n m s.
Proof. induction k as [|c k IH]; simpl; [done|exact IH]. Qed.

Lemma length_append (a b : string) :
  String.length (a +:+ b) = String.length a + String.length b.
Proof. induction a as [|c a IH]; simpl; [done|by rewrite IH]. Qed.

Lemma valid_line (k v : string) :
  ¬ In ":"%char (String.list_ascii_of_string k) →
  OptMore.is_valid_string (k +:+ String ":" v) = true.
Proof.
  intros Hk. unfold OptMore.is_valid_string.
  rewrite (find_colon_app k v Hk). by destruct k.
Qed.

Lemma key_value_of_line (k v key value : string) :
  ¬ In ":"%char (String.list_ascii_of_string k) →
  OptMore.get_key_value_from_string (k +:+ String ":" v) key value
  = (k, v).
Proof.
  intros Hk. unfold OptMore.get_key_value_from_string.
  rewrite (valid_line k v Hk), (find_colon_app k v Hk).
  rewrite substring_prefix, substring_skip.
  rewrite length_append. simpl.
  f_equal. replace (String.length k + S (String.length v))
    with (S (String.length k + String.length v)) by lia.
  apply substring_all. lia.
Qed.

(** X21: a line that holds a colon splits at its first colon:
    [get_key_value_from_string] stores the text before it as the key and
    the text behind it, further colons included, as the value, and
    [is_valid_string] accepts the line.  A line without a colon (the
    empty line among them) is rejected by [is_valid_string], and
    [get_key_value_from_string] then leaves the key and the value the
    caller passed in as they are. *)
Theorem key_value_split (k v key value : string) :
  ¬ In ":"%char (String.list_ascii_of_string k) →
  OptMore.is_valid_string (k +:+ String ":" v) = true
  ∧ OptMore.get_key_value_from_string (k +:+ String ":" v) key value
    = (k, v)
  ∧ OptMore.is_valid_string k = false
  ∧ OptMore.get_key_value_from_string k key value = (key, value).
Proof.
  intros Hk. split; [by apply valid_line|].
  split; [by apply key_value_of_line|].
  assert (Hinv : OptMore.is_valid_string k = false).
  { unfold OptMore.is_valid_string. rewrite (find_colon_none k Hk).
    by destruct k. }
  split; [done|].
  unfold OptMore.get_key_value_from_string. by rewrite Hinv.
Qed.

Lemma key_value_split_witness :
  OptMore.is_valid_string ("12" +:+ String ":" "a:b")%string = true
  ∧ OptMore.get_key_value_from_string ("12" +:+ String ":" "a:b")%string
      "old"%string "stale"%string = ("12", "a:b")%string
  ∧ OptMore.is_valid_string "12"%string = false
  ∧ OptMore.get_key_value_from_string "12"%string "old"%string
      "stale"%string
    = ("old", "stale")%string.
Proof.
  apply (key_value_split "12" "a:b" "old" "stale").
  vm_compute. intros [H|[H|[]]]; discriminate H.
Defined.
End Lines.

(** ** Numbers in the dump file *)

Section Numbers.
Import Stdlib.Strings.Ascii.

Ltac digit_step :=
  match goal with
  | |- context [Text.digit_of ?c] =>
      let v := eval vm_compute in (Text.digit_of c) in
      change (Text.digit_of c) with v
  end.

Lemma digits_acc (d : Decimal.uint) : ∀ acc : positive,
  Text.digits (Some (Z.pos acc)) (DecimalString.NilEmpty.string_of_uint d)
  = Some (Z.pos (Pos.of_uint_acc d acc)).
Proof.
  induction d as [|d IH|d IH|d IH|d IH|d IH|d IH|d IH|d IH|d IH|d IH];
    intros acc;
    cbn [DecimalString.NilEmpty.string_of_uint Text.digits Pos.of_uint_acc];
    [done|..];
    digit_step; cbn [default]; rewrite <- IH; f_equal; f_equal;
    unfold id; lia.
Qed.

Lemma digits_uint (d : Decimal.uint) (acc : option Z) :
  default 0%Z acc = 0%Z → d ≠ Decimal.Nil →
  Text.digits acc (DecimalString.NilEmpty.string_of_uint d)
  = Some (Z.of_N (Pos.of_uint d)).
Proof.
  intros Hacc. revert acc Hacc.
  induction d as [|d IH|d IH|d IH|d IH|d IH|d IH|d IH|d IH|d IH|d IH];
    intros acc Hacc Hd; [done|..];
    cbn [DecimalString.NilEmpty.string_of_uint Text.digits Pos.of_uint];
    digit_step; cbn iota; rewrite Hacc; cbn [Z.mul Z.add Z.of_nat Z.of_N];
    try apply digits_acc.
  destruct d; [done|..]; by apply IH.
Qed.

Lemma show_pos (p : positive) :
  Text.show (Z.pos p)
  = DecimalString.NilEmpty.string_of_uint (Pos.to_uint p).
Proof.
  unfold Text.show. cbn.
  pose proof (DecimalPos.Unsigned.to_uint_nonnil p).
  by destruct (Pos.to_uint p).
Qed.

Lemma show_neg (p : positive) :
  Text.show (Z.neg p)
  = String "-" (DecimalString.NilEmpty.string_of_uint (Pos.to_uint p)).
Proof.
  unfold Text.show. cbn.
  pose proof (DecimalPos.Unsigned.to_uint_nonnil p).
  by destruct (Pos.to_uint p).
Qed.

(** The characters of a printed natural number are digits. *)
Lemma uint_chars (d : Decimal.uint) c :
  In c (String.list_ascii_of_string
          (DecimalString.NilEmpty.string_of_uint d)) →
  is_Some (Text.digit_of c).
Proof.
  induction d as [|d IH|d IH|d IH|d IH|d IH|d IH|d IH|d IH|d IH|d IH];
    cbn [DecimalString.NilEmpty.string_of_uint String.list_ascii_of_string];
    [done|..]; (intros [<-|Hin]; [vm_compute; eauto|by apply IH]).
Qed.

Lemma uint_head (d : Decimal.uint) :
  d ≠ Decimal.Nil →
  ∃ c rest, DecimalString.NilEmpty.string_of_uint d = String c rest
    ∧ is_Some (Text.digit_of c).
Proof.
  intros Hd. destruct d; [done|..]; cbn; eexists _, _;
    (split; [done|vm_compute; eauto]).
Qed.

Lemma digit_not_special c :
  is_Some (Text.digit_of c) →
  Text.is_space c = false ∧ Ascii.eqb c "-" = false
  ∧ Ascii.eqb c "+" = false ∧ Ascii.eqb c ":" = false
  ∧ Ascii.eqb c Text.newline = false.
Proof.
  intros [z Hz]. unfold Text.digit_of in Hz.
  destruct (48 <=? nat_of_ascii c) eqn:H1; [|done].
  destruct (nat_of_ascii c <=? 57) eqn:H2; [|done].
  apply Nat.leb_le in H1, H2.
  assert (Hc : c = ascii_of_nat (nat_of_ascii c))
    by (by rewrite ascii_nat_embedding).
  assert (Hn : ∀ n, nat_of_ascii c ≠ n → n < 256 → c ≠ ascii_of_nat n).
  { intros n Hne Hlt ->. apply Hne. by rewrite nat_ascii_embedding. }
  unfold Text.is_space.
  repeat split.
  - apply orb_false_iff. split; [apply Nat.eqb_neq; lia|].
    apply andb_false_iff. right. apply Nat.leb_gt. lia.
  - apply Ascii.eqb_neq. apply (Hn 45); lia.
  - apply Ascii.eqb_neq. apply (Hn 43); lia.
  - apply Ascii.eqb_neq. apply (Hn 58); lia.
  - apply Ascii.eqb_neq. apply (Hn 10); lia.
Qed.

Lemma stoi_show z :
  (Text.INT_MIN ≤ z ≤ Text.INT_MAX)%Z → Text.stoi (Text.show z) = Some z.
Proof.
  intros Hz.
  assert (Hrange : ((Text.INT_MIN <=? z)%Z && (z <=? Text.INT_MAX)%Z)
                   = true).
  { apply andb_true_iff. split; apply Z.leb_le; lia. }
  destruct z as [|p|p].
  - done.
  - rewrite show_pos.
    destruct (uint_head (Pos.to_uint p)) as (c & rest & Hs & Hc);
      [apply DecimalPos.Unsigned.to_uint_nonnil|].
    destruct (digit_not_special c Hc) as (H1 & H2 & H3 & _).
    unfold Text.stoi. rewrite Hs. cbn [Text.skip_space].
    rewrite H1, H2, H3. rewrite <- Hs.
    rewrite digits_uint;
      [|done|apply DecimalPos.Unsigned.to_uint_nonnil].
    rewrite DecimalPos.Unsigned.of_to. cbn [mbind option_bind Z.of_N].
    by rewrite Hrange.
  - rewrite show_neg. unfold Text.stoi. cbn [Text.skip_space].
    change (Text.is_space "-") with false. cbn iota.
    change (Ascii.eqb "-" "-") with true. cbn iota.
    rewrite digits_uint;
      [|done|apply DecimalPos.Unsigned.to_uint_nonnil].
    rewrite DecimalPos.Unsigned.of_to. cbn [mbind option_bind Z.of_N].
    change (- Z.pos p)%Z with (Z.neg p). by rewrite Hrange.
Qed.

Lemma show_chars z c :
  In c (String.list_ascii_of_string (Text.show z)) →
  c ≠ ":"%char ∧ c ≠ Text.newline.
Proof.
  assert (Hd : ∀ c, is_Some (Text.digit_of c) →
            c ≠ ":"%char ∧ c ≠ Text.newline).
  { intros c0 Hc0.
    destruct (digit_not_special c0 Hc0) as (_ & _ & _ & H4 & H5).
    split; by apply Ascii.eqb_neq. }
  destruct z as [|p|p].
  - cbn. intros [<-|[]]. split; discriminate.
  - rewrite show_pos. intros Hin. apply Hd. by eapply uint_chars.
  - rewrite show_neg. cbn [String.list_ascii_of_string].
    intros [<-|Hin]; [split; discriminate|].
    apply Hd. by eapply uint_chars.
Qed.

Lemma show_not_empty z : Text.empty (Text.show z) = false.
Proof.
  destruct z as [|p|p]; [done| |by rewrite show_neg].
  rewrite show_pos.
  destruct (uint_head (Pos.to_uint p)) as (c & rest & -> & _);
    [apply DecimalPos.Unsigned.to_uint_nonnil|done].
Qed.
End Numbers.

(** ** The optimized list refines a sorted table *)

Lemma put_split k v (lt ge : list (Z * string)) :
  Forall (λ r, (r.1 < k)%Z) lt → Forall (λ r, (k < r.1)%Z) ge →
  put k v (lt ++ ge) = lt ++ (k, v) :: ge.
Proof.
  intros Hlt Hge. induction Hlt as [|r lt Hr _ IH]; cbn.
  - destruct Hge as [|r ge Hr _]; [done|]. cbn.
    destruct (Z.ltb_spec r.1 k); [lia|].
    destruct (Z.eqb_spec r.1 k); [lia|done].
  - destruct (Z.ltb_spec r.1 k); [|lia]. by rewrite IH.
Qed.

Lemma put_present k v (rows : list (Z * string)) :
  StronglySorted Z.lt (rows.*1) → k ∈ rows.*1 → put k v rows = rows.
Proof.
  induction rows as [|r rows IH]; intros Hs Hk; cbn in *.
  - by apply elem_of_nil in Hk.
  - apply StronglySorted_inv in Hs as [Hs Hr].
    destruct (Z.ltb_spec r.1 k) as [Hlt|Hge].
    + rewrite IH; [done|done|].
      apply elem_of_cons in Hk as [Hk|Hk]; [lia|done].
    + destruct (Z.eqb_spec r.1 k) as [Heq|Hne]; [done|].
      apply elem_of_cons in Hk as [Hk|Hk]; [congruence|].
      rewrite Forall_forall in Hr. specialize (Hr k Hk). lia.
Qed.

Lemma put_keys k v (rows : list (Z * string)) : k ∈ (put k v rows).*1.
Proof.
  induction rows as [|r rows IH]; cbn; [left|].
  destruct (Z.ltb_spec r.1 k); [by right|].
  destruct (Z.eqb_spec r.1 k) as [<-|]; cbn; left.
Qed.

Lemma Opt_rows_sorted s l rows :
  Opt_wf s l → Opt_rows s l rows → StronglySorted Z.lt (rows.*1).
Proof.
  intros [HI _] Hrows. rewrite (Opt_rows_keys _ _ _ Hrows).
  apply (inv_sorted _ _ _ _ _ HI).
Qed.

Lemma Opt_table_step s l rows c :
  Opt_wf s l → Opt_rows s l rows →
  ∃ s' l', Opt.run s c = Some s' ∧ Opt_wf s' l'
    ∧ Opt_rows s' l' (apply_call rows c).
Proof.
  intros Hwf Hrows.
  pose proof (Opt_rows_sorted _ _ _ Hwf Hrows) as Hsort.
  destruct c as [k v coin|k]; cbn [Opt.run apply_call].
  - destruct (decide (k ∈ rows.*1)) as [Hin|Hout].
    + rewrite (Opt_rows_insert_found s l rows k v coin Hwf Hrows Hin).
      exists s, l. rewrite put_present by done. done.
    + destruct (Opt_rows_insert_new s l rows k v coin Hwf Hrows Hout)
        as (s' & l' & lt & ge & -> & Hwf' & _ & -> & Hlt & Hge & Hr' & _).
      exists s', l'. rewrite put_split by done. done.
  - destruct (decide (k ∈ rows.*1)) as [Hin|Hout].
    + destruct (Opt_rows_delete_found s l rows k Hwf Hrows Hin)
        as (s' & l' & -> & Hwf' & _ & Hr' & _).
      exists s', l'. done.
    + destruct (Opt_rows_delete_absent s l rows k Hwf Hrows Hout)
        as [-> ->].
      exists s, l. done.
Qed.

Lemma Opt_table_for_each (calls : list Opt.call) : ∀ s l rows,
  Opt_wf s l → Opt_rows s l rows →
  ∃ s' l', for_each Opt.run s calls = Some s' ∧ Opt_wf s' l'
    ∧ Opt_rows s' l' (foldl apply_call rows calls).
Proof.
  induction calls as [|c calls IH]; intros s l rows Hwf Hrows.
  - exists s, l. done.
  - destruct (Opt_table_step s l rows c Hwf Hrows)
      as (s1 & l1 & Hrun & Hwf1 & Hrows1).
    destruct (IH s1 l1 _ Hwf1 Hrows1) as (s' & l' & Hfe & Hwf' & Hrows').
    exists s', l'. cbn. rewrite Hrun. done.
Qed.

Lemma Opt_rows_is_dump s l rows :
  Opt_wf s l → Opt_rows s l rows → OptMore.dump_file s = Some rows.
Proof.
  intros Hwf Hrows.
  destruct (Opt_rows_dump _ _ Hwf) as (rows' & Hr' & ->).
  f_equal. by eapply Opt_rows_functional.
Qed.

Lemma Opt_rows_search s l rows k :
  Opt_wf s l → Opt_rows s l rows →
  Opt.search_element s k
  = Some (match list_find (λ r, r.1 = k) rows with
          | Some (_, r) => (true, Some r.2)
          | None => (false, None)
          end).
Proof.
  intros Hwf Hrows.
  destruct (list_find (λ r, r.1 = k) rows) as [[i r]|] eqn:Ef.
  - apply list_find_Some in Ef as (Hi & <- & _).
    assert (Hin : (r.1, r.2) ∈ rows).
    { destruct r. by eapply list_elem_of_lookup_2. }
    destruct (Opt_rows_elem _ _ _ _ _ Hrows Hin) as (e & He & <- & Hp).
    by eapply Opt_search_present.
  - apply list_find_None in Ef. rewrite Forall_forall in Ef.
    apply (Opt_search_absent s l); [done|].
    intros e He Hek.
    assert (Hk : k ∈ rows.*1).
    { apply (Opt_rows_key_elem _ _ _ _ Hrows). eauto. }
    apply list_elem_of_fmap in Hk as (r & -> & Hr). by apply (Ef r).
Qed.

(** X22: the optimized list refines a sorted table.  For every maximum
    level and every sequence of [insert_element] and [delete_element]
    calls, with whatever coins, the calls return, and [dump_file] then
    writes exactly the rows of [table], the list obtained by putting each
    inserted pair at the place of its key unless the key is present
    (then nothing changes) and dropping the row of each deleted key; the
    tower heights have no influence on the contents, and
    [search_element] answers from the same rows. *)
Theorem opt_refines_table max_level calls :
  ∃ s,
    Opt.after max_level calls = Some s
    ∧ OptMore.dump_file s = Some (table calls)
    ∧ StronglySorted Z.lt ((table calls).*1)
    ∧ ∀ k, Opt.search_element s k
           = Some (match list_find (λ r, r.1 = k) (table calls) with
                   | Some (_, r) => (true, Some r.2)
                   | None => (false, None)
                   end).
Proof.
  destruct (Opt_table_for_each calls (Opt.create max_level) [] [])
    as (s & l & Hfe & Hwf & Hrows);
    [apply Opt_wf_create|constructor|].
  exists s. split; [done|].
  split; [by eapply Opt_rows_is_dump|].
  split; [by eapply Opt_rows_sorted|].
  intros k. by eapply Opt_rows_search.
Qed.

(** ** Loading a file *)

Section Load.
Import Stdlib.Strings.Ascii.

Lemma list_ascii_app (a b : string) :
  String.list_ascii_of_string (a +:+ b)
  = (String.list_ascii_of_string a ++ String.list_ascii_of_string b)%list.
Proof. induction a as [|c a IH]; simpl; [done|by rewrite IH]. Qed.

Lemma getlines_line (l rest : string) :
  ¬ In Text.newline (String.list_ascii_of_string l) →
  Text.getlines (l +:+ String Text.newline rest) = l :: Text.getlines rest.
Proof.
  induction l as [|c l IH]; intros Hl.
  - reflexivity.
  - change (Text.getlines (String c l +:+ String Text.newline rest))
      with (if Ascii.eqb c Text.newline
            then EmptyString
                 :: Text.getlines (l +:+ String Text.newline rest)
            else match Text.getlines (l +:+ String Text.newline rest) with
                 | [] => [String c EmptyString]
                 | line :: lines => String c line :: lines
                 end).
    destruct (Ascii.eqb_spec c Text.newline) as [->|Hc].
    + exfalso. apply Hl. by left.
    + rewrite IH; [done|]. intros Hin. apply Hl. by right.
Qed.

Lemma line_chars r :
  clean_row r →
  ¬ In Text.newline (String.list_ascii_of_string (Text.line r)).
Proof.
  intros [_ Hv]. unfold Text.line. rewrite list_ascii_app. simpl.
  intros Hin. apply in_app_or in Hin as [Hin|[Hin|Hin]].
  - by apply show_chars in Hin as [_ ?].
  - discriminate Hin.
  - done.
Qed.

Lemma getlines_dump (rows : list (Z * string)) :
  Forall clean_row rows →
  Text.getlines (Text.dump_text rows) = Text.line <$> rows.
Proof.
  induction 1 as [|r rows Hr _ IH]; [done|].
  cbn [Text.dump_text foldr fmap list_fmap].
  rewrite getlines_line by (by apply line_chars).
  f_equal. exact IH.
Qed.

Lemma show_no_colon z :
  ¬ In ":"%char (String.list_ascii_of_string (Text.show z)).
Proof. intros Hin. by apply show_chars in Hin as [? _]. Qed.

Lemma get_key_value_junk junk key value :
  OptMore.find_colon junk = None →
  OptMore.get_key_value_from_string junk key value = (key, value).
Proof.
  intros Hj. unfold OptMore.get_key_value_from_string,
    OptMore.is_valid_string. rewrite Hj. by destruct junk.
Qed.

Lemma load_lines_items (items : list ((Z * string) + string)) :
  ∀ s l rows key value coins,
  Opt_wf s l → Opt_rows s l rows → stale_ok rows key value →
  Forall item_ok items →
  ∃ s' l',
    OptFile.load_lines s (render <$> items) key value coins = Some s'
    ∧ Opt_wf s' l'
    ∧ Opt_rows s' l' (foldl (λ rows r, put r.1 r.2 rows) rows
                            (loaded items)).
Proof.
  induction items as [|item items IH];
    intros s l rows key value coins Hwf Hrows Hstale Hok.
  - exists s, l. done.
  - apply Forall_cons in Hok as [Hitem Hok].
    cbn [fmap list_fmap OptFile.load_lines].
    destruct item as [r|junk]; cbn [render item_ok] in *.
    + unfold Text.line.
      rewrite key_value_of_line by apply show_no_colon.
      rewrite show_not_empty. cbn [orb].
      unfold loaded. cbn [omap list_omap].
      destruct (Text.empty r.2) eqn:Ev.
      * apply (IH s l rows); try done. left.
        by rewrite show_not_empty.
      * rewrite stoi_show by done. cbn [mbind option_bind].
        destruct (Opt_table_step s l rows
                    (Opt.Insert r.1 r.2 (hd 0 coins)) Hwf Hrows)
          as (s1 & l1 & Hrun & Hwf1 & Hrows1).
        cbn [Opt.run apply_call] in Hrun, Hrows1.
        destruct (Opt.insert_element s r.1 r.2 (hd 0 coins))
          as [[x s1']|]; [|done].
        cbn in Hrun. injection Hrun as ->. cbn [mbind option_bind].
        cbn [foldl].
        apply (IH s1 l1 (put r.1 r.2 rows)); try done.
        right. exists r.1. split; [done|]. split; [done|apply put_keys].
    + rewrite (get_key_value_junk junk key value Hitem).
      unfold loaded. cbn [omap list_omap]. fold (loaded items).
      destruct (Text.empty key || Text.empty value) eqn:Ee.
      * by apply (IH s l rows).
      * destruct Hstale as [Hs|(k & -> & Hk & Hin)]; [congruence|].
        rewrite stoi_show by done. cbn [mbind option_bind].
        rewrite (Opt_rows_insert_found s l rows k value (hd 0 coins)
                   Hwf Hrows Hin).
        cbn [mbind option_bind].
        apply (IH s l rows); try done. right. eauto.
Qed.

(** X23: [load_file] of the optimized list on lines that are rendered
    rows with an [int] key, or texts without a colon: the call returns,
    and the list then holds its former rows and each rendered row with a
    non-empty value whose key was not present before its line was read.
    A line without a colon makes [load_file] submit the pair of the line
    before once more, which changes nothing; a row with an empty value
    is skipped. *)
Theorem opt_load_file_tolerates_lines max_level calls s items coins :
  Opt.after max_level calls = Some s → Forall item_ok items →
  ∃ rows s',
    OptMore.dump_file s = Some rows
    ∧ OptFile.load_lines s (render <$> items) EmptyString EmptyString
                         coins = Some s'
    ∧ OptMore.dump_file s'
      = Some (foldl (λ rows r, put r.1 r.2 rows) rows (loaded items)).
Proof.
  intros Hs Hok. destruct (Opt_after_wf _ _ _ Hs) as (l & Hwf & _).
  destruct (Opt_rows_dump _ _ Hwf) as (rows & Hrows & Hdump).
  destruct (load_lines_items items s l rows EmptyString EmptyString coins
              Hwf Hrows) as (s' & l' & Hload & Hwf' & Hrows');
    [by left|done|].
  exists rows, s'. split; [done|]. split; [done|].
  by eapply Opt_rows_is_dump.
Qed.

Lemma opt_load_file_tolerates_lines_witness :
  ∃ rows s',
    OptMore.dump_file sample_opt = Some rows
    ∧ OptFile.load_lines sample_opt
        (render <$> [inl (7%Z, "g"%string); inr "no colon here"%string;
                     inl (3%Z, "again"%string); inl (8%Z, ""%string)])
        EmptyString EmptyString [0; 1] = Some s'
    ∧ OptMore.dump_file s'
      = Some (foldl (λ rows r, put r.1 r.2 rows) rows
                (loaded [inl (7%Z, "g"%string);
                         inr "no colon here"%string;
                         inl (3%Z, "again"%string);
                         inl (8%Z, ""%string)])).
Proof.
  apply (opt_load_file_tolerates_lines 4 sample_opt_calls).
  - vm_compute. reflexivity.
  - repeat constructor; vm_compute; try reflexivity; discriminate.
Defined.

Lemma foldl_put_sorted (rows : list (Z * string)) : ∀ rows0,
  StronglySorted Z.lt ((rows0 ++ rows).*1) →
  foldl (λ rows r, put r.1 r.2 rows) rows0 rows = rows0 ++ rows.
Proof.
  induction rows as [|r rows IH]; intros rows0 Hs; cbn.
  - by rewrite app_nil_r.
  - assert (Hlt : Forall (λ x, (x.1 < r.1)%Z) rows0).
    { apply Forall_forall. intros x Hx.
      rewrite fmap_app in Hs.
      eapply (StronglySorted_app_1_elem_of _ _ _ _ _ Hs).
      - apply list_elem_of_fmap. eauto.
      - cbn. left. }
    pose proof (put_split r.1 r.2 rows0 [] Hlt (Forall_nil_2 _)) as Hp.
    rewrite app_nil_r in Hp. rewrite Hp.
    rewrite IH; rewrite <- app_assoc; cbn; by destruct r.
Qed.

Lemma loaded_rows (rows : list (Z * string)) :
  Forall (λ r, r.2 ≠ EmptyString) rows → loaded (inl <$> rows) = rows.
Proof.
  induction 1 as [|r rows Hr _ IH]; [done|].
  unfold loaded in *. cbn. rewrite IH.
  destruct r as [k v]. cbn in *. by destruct v.
Qed.

(** X24: what [dump_file] of the optimized list writes, [load_file]
    reads back.  When the keys of a list are [int]s and its values are
    not empty and hold no newline, [load_file] of a new list (of any
    maximum level, with any coins) on the dumped text returns, and the
    new list dumps the same rows and the same text. *)
Theorem opt_load_restores_dump max_level calls s rows max_level' coins :
  Opt.after max_level calls = Some s →
  OptMore.dump_file s = Some rows →
  Forall clean_row rows → Forall (λ r, r.2 ≠ EmptyString) rows →
  ∃ s',
    OptFile.load_file (Opt.create max_level') (Text.dump_text rows) coins
    = Some s'
    ∧ OptMore.dump_file s' = Some rows
    ∧ OptFile.dump_file s' = OptFile.dump_file s.
Proof.
  intros Hs Hdump Hclean Hne.
  destruct (Opt_after_wf _ _ _ Hs) as (l & Hwf & _).
  destruct (Opt_rows_dump _ _ Hwf) as (rows' & Hrows & Hd').
  assert (rows' = rows) as -> by congruence.
  pose proof (Opt_rows_sorted _ _ _ Hwf Hrows) as Hsort.
  destruct (load_lines_items (inl <$> rows) (Opt.create max_level') [] []
              EmptyString EmptyString coins)
    as (s' & l' & Hload & Hwf' & Hrows');
    [apply Opt_wf_create|constructor|by left| |].
  { apply Forall_fmap. eapply Forall_impl; [exact Hclean|].
    intros r [Hr _]. exact Hr. }
  rewrite (loaded_rows rows Hne) in Hrows'.
  rewrite (foldl_put_sorted rows []) in Hrows' by done.
  exists s'.
  assert (Hds : OptMore.dump_file s' = Some rows)
    by (by eapply Opt_rows_is_dump).
  split.
  - unfold OptFile.load_file. rewrite getlines_dump by done.
    rewrite <- Hload. f_equal. by rewrite <- list_fmap_compose.
  - split; [done|]. unfold OptFile.dump_file. by rewrite Hds, Hdump.
Qed.

Lemma opt_load_restores_dump_witness :
  ∃ s',
    OptFile.load_file (Opt.create 6)
      (Text.dump_text [(1%Z, "a"%string); (3%Z, "c"%string);
                       (5%Z, "e"%string)]) [2; 0; 1]
    = Some s'
    ∧ OptMore.dump_file s'
      = Some [(1%Z, "a"%string); (3%Z, "c"%string); (5%Z, "e"%string)]
    ∧ OptFile.dump_file s' = OptFile.dump_file sample_opt.
Proof.
  apply (opt_load_restores_dump 4 sample_opt_calls).
  - vm_compute. reflexivity.
  - vm_compute. reflexivity.
  - repeat constructor; vm_compute; try discriminate;
      intros H; repeat (destruct H as [H|H]; [discriminate H|]); exact H.
  - repeat constructor; discriminate.
Defined.
End Load.

(** ** Loading a dump into the MVCC list *)

Section LoadMVCC.
Import Stdlib.Strings.Ascii.

Lemma mvcc_load_lines_rows txn (rows : list (Z * string)) :
  ∀ s coins,
  Forall (λ r, (Text.INT_MIN ≤ r.1 ≤ Text.INT_MAX)%Z) rows →
  MVCCFile.load_lines s txn (Text.line <$> rows) coins
  = for_each MVCC.run s (mvcc_inserts txn rows coins).
Proof.
  induction rows as [|r rows IH]; intros s coins Hok; [done|].
  apply Forall_cons in Hok as [Hr Hok].
  cbn [fmap list_fmap MVCCFile.load_lines mvcc_inserts for_each MVCC.run].
  change (Text.line r) with (Text.show r.1 +:+ String ":" r.2).
  rewrite find_colon_app by apply show_no_colon.
  cbv iota beta.
  rewrite substring_prefix, stoi_show by done.
  cbn [mbind option_bind].
  rewrite substring_skip, length_append. simpl String.length.
  replace (String.substring 1 _ (String ":" r.2)) with r.2.
  2:{ simpl. symmetry.
      replace (String.length (Text.show r.1) + S (String.length r.2))
        with (S (String.length (Text.show r.1) + String.length r.2))
        by lia.
      apply substring_all. lia. }
  destruct (MVCC.insert_element s (Some txn) r.1 r.2 (hd 0 coins))
    as [[x s']|]; [|done].
  cbn. by apply IH.
Qed.

(** One transaction inserts rows with increasing keys behind the rows
    it has inserted before. *)
Lemma mvcc_inserts_sorted ti id (rows : list (Z * string)) :
  ∀ s l rows0 mods coins,
  MVCC_wf s l →
  Forall2 (λ e r, r.1 = e_key e
                  ∧ payload <$> MVCC.heap s !! e_addr e
                    = Some [new_Version r.2 id]) l rows0 →
  MVCC.txns s !! ti = Some (MVCC.mkTransaction id ACTIVE mods) →
  (∀ e, e ∈ l → e_addr e ∈ mods) →
  StronglySorted Z.lt ((rows0 ++ rows).*1) →
  ∃ s' l' mods',
    for_each MVCC.run s (mvcc_inserts ti rows coins) = Some s'
    ∧ MVCC_wf s' l'
    ∧ Forall2 (λ e r, r.1 = e_key e
                      ∧ payload <$> MVCC.heap s' !! e_addr e
                        = Some [new_Version r.2 id]) l' (rows0 ++ rows)
    ∧ MVCC.txns s' !! ti = Some (MVCC.mkTransaction id ACTIVE mods')
    ∧ (∀ e, e ∈ l' → e_addr e ∈ mods')
    ∧ MVCC._next_txn_id s' = MVCC._next_txn_id s.
Proof.
  induction rows as [|r rows IH];
    intros s l rows0 mods coins Hwf Hrows Ht Hmods Hs.
  - exists s, l, mods. rewrite app_nil_r. done.
  - assert (Hkeys : rows0.*1 = e_key <$> l).
    { clear -Hrows. induction Hrows as [|e x l rows0 [Hk _] _ IH]; [done|].
      cbn. by rewrite Hk, IH. }
    assert (Hlt : ∀ e, e ∈ l → (e_key e < r.1)%Z).
    { intros e He. rewrite fmap_app in Hs.
      eapply (StronglySorted_app_1_elem_of _ _ _ _ _ Hs).
      - rewrite Hkeys. apply list_elem_of_fmap. eauto.
      - cbn. left. }
    destruct (MVCC_insert_new s l ti _ r.1 r.2 (hd 0 coins) Hwf Ht eq_refl)
      as (s1 & lt & ge & node & -> & Hins & Hwf1 & Hfresh & Hnew & Hoth
          & Htx & _ & _ & Hnext & _).
    { intros e He Hk. specialize (Hlt e He). lia. }
    cbn [MVCC.txn_id MVCC.modified_nodes] in *.
    assert (ge = []) as ->.
    { destruct ge as [|g ge]; [done|]. exfalso.
      pose proof (inv_sorted _ _ _ _ _ (wf_inv _ _ Hwf1)) as Hs1.
      apply sorted_around in Hs1 as [_ Hs1]. cbn [e_key] in Hs1.
      apply Forall_cons in Hs1 as [Hg _].
      assert (e_key g < r.1)%Z by (apply Hlt; set_solver). lia. }
    rewrite app_nil_r in *.
    set (e := mkEntry node r.1
                (get_random_level (MVCC._max_level s) (hd 0 coins))) in *.
    destruct (IH s1 (lt ++ [e]) (rows0 ++ [r]) (mods ++ [node]) (tl coins))
      as (s' & l' & mods' & Hfe & Hwf' & Hrows' & Ht' & Hmods' & Hnext');
      [done| | | | |].
    + apply Forall2_app.
      * eapply Forall2_impl_elem; [exact Hrows|].
        intros x y Hx [Hk Hp]. split; [done|]. rewrite Hoth; [done|].
        intros Heq.
        destruct (Inv_entry_live _ _ _ _ _ _ (wf_inv _ _ Hwf) Hx)
          as [n Hn].
        congruence.
      * constructor; [|constructor]. by cbn.
    + rewrite Htx. rewrite list_lookup_insert_eq; [done|].
      by eapply lookup_lt_Some.
    + intros x Hx. apply elem_of_app in Hx as [Hx|Hx].
      * apply elem_of_app. left. by apply Hmods.
      * apply list_elem_of_singleton in Hx as ->.
        apply elem_of_app. right. left.
    + by rewrite <- app_assoc.
    + exists s', l', mods'.
      cbn [mvcc_inserts for_each MVCC.run]. rewrite Hins.
      cbn [fmap option_fmap option_map mbind option_bind snd].
      split; [done|]. split; [done|].
      split; [by rewrite <- app_assoc in Hrows'|].
      split; [done|]. split; [done|congruence].
Qed.

Lemma omap_visible_rows id (ns : list (Node (list Version)))
    (rows : list (Z * string)) :
  Forall2 (λ n r, key n = r.1
                  ∧ get_visible_version (payload n) id
                    = Some (committed_version r.2 (id - 1))) ns rows →
  omap (visible_row id) ns = rows.
Proof.
  induction 1 as [|n r ns rows [Hk Hv] _ IH]; [done|].
  rewrite omap_visible_row_cons, Hv, IH, Hk. cbn. by destruct r.
Qed.

(** X25: what [dump_file] of the MVCC list writes, [load_file] reads
    back.  When the dumped keys are [int]s and the dumped values hold no
    newline, [load_file] of a new list (of any maximum level, with any
    coins) on the dumped text returns: its one transaction inserts every
    row and commits, and the new list dumps the same rows and the same
    text. *)
Theorem mvcc_load_restores_dump max_level calls s rows max_level' coins :
  MVCC.after max_level calls = Some s →
  MVCCMore.dump_file s = Some rows → Forall clean_row rows →
  ∃ s',
    MVCCFile.load_file (MVCC.create max_level') (Text.dump_text rows)
                       coins = Some s'
    ∧ MVCCMore.dump_file s' = Some rows
    ∧ MVCCFile.dump_file s' = MVCCFile.dump_file s.
Proof.
  intros Hs Hdump Hclean.
  assert (Hsorted : StronglySorted Z.lt (rows.*1)).
  { destruct (MVCC_after_wf _ _ _ Hs) as (l & [HI _ _] & _).
    destruct (Inv_live_nodes _ _ _ _ _ HI) as (ns & Hns & HF).
    unfold MVCCMore.dump_file in Hdump. rewrite Hns in Hdump.
    injection Hdump as <-.
    rewrite <- (filter_all (λ _, True) ns) by (by apply Forall_forall).
    apply rows_sorted.
    assert (key <$> ns = e_key <$> l) as ->.
    { clear -HF. induction HF as [|e n es ns' (_ & Hk & _) _ IH]; [done|].
      by rewrite !fmap_cons, Hk, IH. }
    apply (inv_sorted _ _ _ _ _ HI). }
  set (s0 := MVCC.create max_level').
  pose proof (MVCC_begin_wf s0 [] (MVCC_wf_create max_level')) as Hwf1.
  destruct (mvcc_inserts_sorted 0 1 rows (MVCC.begin_transaction s0).2
              [] [] [] coins Hwf1)
    as (s2 & l2 & mods & Hfe & Hwf2 & Hrows2 & Ht2 & Hmods & Hnext2);
    [constructor|done|intros e He; by apply elem_of_nil in He|done|].
  cbn [app] in Hrows2.
  destruct (MVCC_commit_spec s2 l2 0 _ Hwf2 Ht2 eq_refl)
    as (s3 & Hc & Hwf3 & _ & _ & _ & Hnext3 & _ & Hpl & _).
  cbn [MVCC.txn_id MVCC.modified_nodes] in Hpl.
  exists s3.
  assert (Hd3 : MVCCMore.dump_file s3 = Some rows).
  { destruct (Inv_live_nodes _ _ _ _ _ (wf_inv _ _ Hwf3))
      as (ns & Hns & HF).
    unfold MVCCMore.dump_file. rewrite Hns. f_equal.
    rewrite Hnext3, Hnext2.
    change (MVCC._next_txn_id (MVCC.begin_transaction s0).2) with 2%Z.
    apply omap_visible_rows.
    clear -HF Hrows2 Hpl Hmods.
    revert ns HF. induction Hrows2 as [|e r l2 rows [Hk Hp] _ IH];
      intros ns HF.
    - inversion HF. constructor.
    - inversion HF as [|? n ? ns' (Hn & Hkn & _) HF']; subst.
      constructor.
      + split; [congruence|].
        specialize (Hpl (e_addr e)).
        rewrite decide_True in Hpl by (apply Hmods; left).
        rewrite Hp, Hn in Hpl. cbn in Hpl. injection Hpl as ->. done.
      + apply IH; [|done]. intros x Hx. apply Hmods. by right. }
  split.
  - unfold MVCCFile.load_file.
    change (MVCC.begin_transaction s0)
      with (0, (MVCC.begin_transaction s0).2) at 1.
    cbv iota beta. rewrite getlines_dump by done.
    rewrite mvcc_load_lines_rows.
    2:{ eapply Forall_impl; [exact Hclean|]. by intros r [? _]. }
    rewrite Hfe. cbn [mbind option_bind]. rewrite Hc. done.
  - split; [done|]. unfold MVCCFile.dump_file. by rewrite Hd3, Hdump.
Qed.

Lemma mvcc_load_restores_dump_witness :
  ∃ s',
    MVCCFile.load_file (MVCC.create 6)
      (Text.dump_text [(10%Z, "initial"%string)]) [3] = Some s'
    ∧ MVCCMore.dump_file s' = Some [(10%Z, "initial"%string)]
    ∧ MVCCFile.dump_file s' = MVCCFile.dump_file sample_mvcc.
Proof.
  apply (mvcc_load_restores_dump 4 sample_calls).
  - vm_compute. reflexivity.
  - vm_compute. reflexivity.
  - repeat constructor; vm_compute; try discriminate.
    intros H; repeat (destruct H as [H|H]; [discriminate H|]); exact H.
Defined.
End LoadMVCC.

(** ** What [gc] removes *)

Lemma gc_tail_filter c m :
  gc_tail c m = filter (λ ver, (m ≤ delete_ts ver)%Z) c.
Proof.
  induction c as [|ver c IH]; [done|]. cbn [gc_tail]. rewrite filter_cons.
  destruct (Z.ltb_spec (delete_ts ver) m).
  - rewrite decide_False by lia. exact IH.
  - rewrite decide_True by lia. by rewrite IH.
Qed.

Lemma gc_versions_sublist c m : gc_versions c m `sublist_of` c.
Proof.
  destruct c as [|ver c]; [done|]. cbn. constructor.
  rewrite gc_tail_filter. apply sublist_filter.
Qed.

Lemma gc_versions_keeps c m ver :
  ver ∈ c → (m ≤ delete_ts ver)%Z → ver ∈ gc_versions c m.
Proof.
  destruct c as [|hd c]; [done|]. cbn. intros Hin Hle.
  apply elem_of_cons in Hin as [->|Hin]; [left|right].
  rewrite gc_tail_filter. apply list_elem_of_filter. done.
Qed.

Lemma MVCC_next_bound max_level calls : ∀ s,
  MVCC.after max_level calls = Some s →
  (MVCC._next_txn_id s ≤ UINT64_MAX)%Z.
Proof.
  induction calls as [|c0 calls IH] using rev_ind; intros s Hs.
  - injection Hs as <-. cbn. unfold UINT64_MAX. lia.
  - unfold MVCC.after in Hs. rewrite for_each_snoc in Hs.
    destruct (for_each MVCC.run (MVCC.create max_level) calls)
      as [s0|] eqn:E; [|done].
    cbn [mbind option_bind] in Hs. specialize (IH s0 E).
    destruct (MVCC_after_wf _ _ _ E) as (l0 & Hwf0 & _).
    destruct (MVCC_run_step s0 l0 c0 s Hwf0 Hs) as (l1 & _ & Hst).
    destruct Hst as [| |? ? ? _ _ _ _ Hn _ _ _|? ? ? _ _ _ _ Hn _ _ _
                    |? ? ? ? ? ? ? _ _ _ _ Hn _ _ _ _
                    |? ? ? ? _ _ _ (_ & _ & Hn) _ _
                    |? (_ & _ & Hn) _ _];
      try (rewrite Hn; exact IH); try exact IH.
    cbn. unfold MVCC.uint64_succ.
    pose proof (Z.mod_pos_bound (MVCC._next_txn_id s0 + 1)
                  (UINT64_MAX + 1) ltac:(unfold UINT64_MAX; lia)).
    lia.
Qed.

(** X26: on every list a client can build, [gc] returns and rewrites the
    chain of each key in place: the head version stays, what remains is
    a sublist of the old chain in the old order, and a version is
    dropped only if its [delete_ts] lies below the bound, so a version
    that [delete_element] never marked is never reclaimed.  A second
    [gc] right after the first changes no chain. *)
Theorem mvcc_gc_drops_only_deleted max_level calls s k c :
  MVCC.after max_level calls = Some s →
  MVCC.chain_of s k = Some (Some c) →
  ∃ s' c' s'',
    MVCC.gc s = Some s'
    ∧ MVCC.chain_of s' k = Some (Some c')
    ∧ head c' = head c
    ∧ c' `sublist_of` c
    ∧ (∀ ver, ver ∈ c →
         (MVCC.get_min_active_txn_id s ≤ delete_ts ver)%Z → ver ∈ c')
    ∧ (∀ ver, ver ∈ c → delete_ts ver = UINT64_MAX → ver ∈ c')
    ∧ MVCC.gc s' = Some s''
    ∧ MVCC.chain_of s'' k = Some (Some c').
Proof.
  intros Hs Hc. destruct (MVCC_after_wf _ _ _ Hs) as (l & Hwf & _).
  destruct (MVCC_gc_spec s l Hwf)
    as (s' & Hg & Hwf' & _ & _ & Htx & Hpl & Hnext & Hact).
  destruct (MVCC_gc_spec s' l Hwf')
    as (s'' & Hg' & Hwf'' & _ & _ & _ & Hpl' & _ & _).
  assert (Hm : MVCC.get_min_active_txn_id s'
               = MVCC.get_min_active_txn_id s).
  { unfold MVCC.get_min_active_txn_id. by rewrite Hact, Hnext. }
  destruct (MVCC_chain_of_inv s l k c Hwf Hc) as (e & He & <- & Hp).
  assert (Hin : e_addr e ∈ e_addr <$> l) by (apply list_elem_of_fmap; eauto).
  exists s', (gc_versions c (MVCC.get_min_active_txn_id s)), s''.
  split; [done|].
  split.
  { destruct (MVCC_chain_of_present s' l e Hwf' He) as [-> _].
    by rewrite Hpl, decide_True, Hp. }
  split; [by destruct c|].
  split; [apply gc_versions_sublist|].
  split; [intros ver Hv Hle; by apply gc_versions_keeps|].
  split.
  { intros ver Hv Hd. apply gc_versions_keeps; [done|]. rewrite Hd.
    unfold MVCC.get_min_active_txn_id.
    destruct (decide (MVCC._active_transactions s = ∅)).
    - by eapply MVCC_next_bound.
    - apply (proj1 (min_active_le _)). }
  split; [done|].
  destruct (MVCC_chain_of_present s'' l e Hwf'' He) as [-> _].
  rewrite Hpl', decide_True, Hpl, decide_True, Hp, Hm by done.
  cbn. by rewrite gc_versions_idem.
Qed.

Lemma mvcc_gc_drops_only_deleted_witness :
  ∃ s' c' s'',
    MVCC.gc sample_mvcc = Some s'
    ∧ MVCC.chain_of s' 10%Z = Some (Some c')
    ∧ head c' = head [committed_version "initial" 1]
    ∧ c' `sublist_of` [committed_version "initial" 1]
    ∧ (∀ ver, ver ∈ [committed_version "initial" 1] →
         (MVCC.get_min_active_txn_id sample_mvcc ≤ delete_ts ver)%Z →
         ver ∈ c')
    ∧ (∀ ver, ver ∈ [committed_version "initial" 1] →
         delete_ts ver = UINT64_MAX → ver ∈ c')
    ∧ MVCC.gc s' = Some s''
    ∧ MVCC.chain_of s'' 10%Z = Some (Some c').
Proof.
  apply (mvcc_gc_drops_only_deleted 4 sample_calls).
  - vm_compute. reflexivity.
  - vm_compute. reflexivity.
Defined.

(** ** Tower heights *)

Lemma get_random_level_ge max_level coin :
  Nat.min 1 max_level ≤ get_random_level max_level coin.
Proof.
  unfold get_random_level. destruct (Nat.ltb_spec (S coin) max_level); lia.
Qed.

Lemma Opt_levels_run s l c :
  Opt_wf s l →
  Forall (λ e, Nat.min 1 (Opt._max_level s) ≤ e_level e) l →
  ∃ s' l', Opt.run s c = Some s' ∧ Opt_wf s' l'
    ∧ Opt._max_level s' = Opt._max_level s
    ∧ Forall (λ e, Nat.min 1 (Opt._max_level s') ≤ e_level e) l'.
Proof.
  intros Hwf Hlv. destruct c as [k v coin|k]; cbn [Opt.run].
  - destruct (decide (Exists (λ e, e_key e = k) l))
      as [(e & He & Hk)%Exists_exists|Hno];
      [|rewrite Exists_exists in Hno].
    + rewrite (Opt_insert_found s l k v coin e Hwf He Hk).
      exists s, l. done.
    + destruct (Opt_insert_new s l k v coin Hwf)
        as (s' & lt & ge & node & -> & -> & Hwf' & Hm & _);
        [naive_solver|].
      eexists s', _. split; [done|]. split; [exact Hwf'|].
      split; [done|]. rewrite Hm.
      apply Forall_app in Hlv as [H1 H2].
      apply Forall_app. split; [done|]. constructor; [|done].
      cbn. apply get_random_level_ge.
  - destruct (decide (Exists (λ e, e_key e = k) l))
      as [(e & He & Hk)%Exists_exists|Hno];
      [|rewrite Exists_exists in Hno].
    + subst k. apply list_elem_of_split in He as (lt & ge & ->).
      destruct (Opt_delete_found s lt ge e Hwf)
        as (s' & -> & Hwf' & Hm & _).
      exists s', (lt ++ ge). split; [done|]. split; [done|].
      split; [done|]. rewrite Hm.
      apply Forall_app in Hlv as [H1 H2].
      apply Forall_cons in H2 as [_ H2]. by apply Forall_app.
    + rewrite (Opt_delete_absent s l k Hwf) by naive_solver.
      exists s, l. done.
Qed.

Lemma Opt_levels_for_each (calls : list Opt.call) : ∀ s l,
  Opt_wf s l →
  Forall (λ e, Nat.min 1 (Opt._max_level s) ≤ e_level e) l →
  ∃ s' l', for_each Opt.run s calls = Some s' ∧ Opt_wf s' l'
    ∧ Opt._max_level s' = Opt._max_level s
    ∧ Forall (λ e, Nat.min 1 (Opt._max_level s') ≤ e_level e) l'.
Proof.
  induction calls as [|c calls IH]; intros s l Hwf Hlv.
  - exists s, l. done.
  - destruct (Opt_levels_run s l c Hwf Hlv)
      as (s1 & l1 & Hrun & Hwf1 & Hm1 & Hlv1).
    destruct (IH s1 l1 Hwf1 Hlv1) as (s' & l' & Hfe & Hwf' & Hm' & Hlv').
    exists s', l'. cbn. rewrite Hrun. cbn.
    split; [done|]. split; [done|]. split; [congruence|done].
Qed.

(** X27: [get_random_level] never returns 0 when the maximum level is at
    least 1, so every node of every optimized list a client can build
    stands on level 1 as well: the forward chain of level 1 visits the
    same keys as that of level 0, the current level of a list that is
    not empty is at least 1, and every node has a level between 1 and
    the maximum level and a forward array of one slot more. *)
Theorem opt_every_tower_reaches_level_one max_level calls s :
  Opt.after max_level calls = Some s → 1 ≤ max_level →
  ∃ ks nodes,
    level_keys (Opt.heap s) (Opt._header s) 0 = Some ks
    ∧ level_keys (Opt.heap s) (Opt._header s) 1 = Some ks
    ∧ (ks ≠ [] → 1 ≤ Opt._skip_list_level s)
    ∧ level_nodes (Opt.heap s) (Opt._header s) 0 = Some nodes
    ∧ Forall (λ n, 1 ≤ node_level n ≤ max_level
                   ∧ length (forward n) = S (node_level n)) nodes.
Proof.
  intros Hs Hmax.
  destruct (Opt_levels_for_each calls (Opt.create max_level) []
              (Opt_wf_create max_level) (Forall_nil_2 _))
    as (s' & l & Hfe & Hwf & Hm & Hlv).
  unfold Opt.after in Hs. rewrite Hfe in Hs. injection Hs as ->.
  cbn in Hm. rewrite Hm in Hlv.
  replace (Nat.min 1 max_level) with 1 in Hlv by lia.
  destruct Hwf as [HI _]. rewrite Hm in HI.
  destruct (Inv_live_nodes _ _ _ _ _ HI) as (ns & Hns & HF).
  exists (e_key <$> l), ns.
  split.
  { rewrite (Inv_level_keys _ _ _ _ _ HI 0) by lia.
    by rewrite filter_all_entries. }
  split.
  { rewrite (Inv_level_keys _ _ _ _ _ HI 1) by lia.
    by rewrite (filter_all _ l). }
  split.
  { intros Hne. rewrite (inv_top _ _ _ _ _ HI).
    destruct l as [|e l']; [done|]. cbn.
    apply Forall_cons in Hlv as [He _]. lia. }
  split; [done|].
  apply (Forall2_Forall_r _ _ _ _ HF). apply Forall_forall.
  intros e He n (Hn & Hk & Hl).
  pose proof (inv_nodes _ _ _ _ _ HI e He) as Hsh.
  rewrite Hn in Hsh. cbn in Hsh. injection Hsh as _ Hlv' Hlen.
  rewrite Forall_forall in Hlv. specialize (Hlv e He).
  pose proof (Inv_level_le _ _ _ _ _ _ HI He) as Hle.
  pose proof (inv_max _ _ _ _ _ HI).
  split; [lia|]. by rewrite Hlen, Hlv'.
Qed.

Lemma opt_every_tower_reaches_level_one_witness :
  ∃ ks nodes,
    level_keys (Opt.heap sample_opt) (Opt._header sample_opt) 0 = Some ks
    ∧ level_keys (Opt.heap sample_opt) (Opt._header sample_opt) 1
      = Some ks
    ∧ (ks ≠ [] → 1 ≤ Opt._skip_list_level sample_opt)
    ∧ level_nodes (Opt.heap sample_opt) (Opt._header sample_opt) 0
      = Some nodes
    ∧ Forall (λ n, 1 ≤ node_level n ≤ 4
                   ∧ length (forward n) = S (node_level n)) nodes.
Proof.
  apply (opt_every_tower_reaches_level_one 4 sample_opt_calls).
  - vm_compute. reflexivity.
  - lia.
Defined.

(** ** Inserting a key and deleting it again *)

Lemma Opt_display_spec s l :
  Opt_wf s l →
  OptMore.display_list s
  = Some ((λ i, omap (entry_row (Opt.heap s))
                     (filter (λ e, i ≤ e_level e) l))
          <$> seq 0 (S (Opt._skip_list_level s))).
Proof.
  intros [HI _]. pose proof (inv_max _ _ _ _ _ HI) as Hmax.
  unfold OptMore.display_list. apply mapM_Some_2.
  apply Forall2_fmap_r, Forall_Forall2_diag, Forall_forall.
  intros i Hi. apply elem_of_seq in Hi.
  destruct (Inv_level_nodes _ _ _ _ _ HI i ltac:(lia))
    as (ns & -> & _ & HF).
  unfold compose. by rewrite (omap_entry_row _ _ _ HF).
Qed.

Lemma entry_row_spec s l e :
  Opt_wf s l → e ∈ l →
  entry_row (Opt.heap s) e
  = (λ p, (e_key e, p)) <$> (payload <$> Opt.heap s !! e_addr e).
Proof.
  intros [HI _] He. unfold entry_row.
  pose proof (inv_nodes _ _ _ _ _ HI e He) as Hsh.
  destruct (Opt.heap s !! e_addr e) as [n|]; [|done].
  cbn in *. injection Hsh as Hk _ _. unfold OptMore.row. by rewrite Hk.
Qed.

Lemma omap_ext_elem {A B} (f g : A → option B) (l : list A) :
  (∀ x, x ∈ l → f x = g x) → omap f l = omap g l.
Proof.
  induction l as [|x l IH]; intros H; [done|]. cbn.
  rewrite (H x) by left. rewrite IH; [done|].
  intros y Hy. apply H. by right.
Qed.

Lemma Opt_wf_length s l l' : Opt_wf s l → Opt_wf s l' → length l = length l'.
Proof.
  intros [HI _] [HI' _].
  pose proof (Inv_level_keys _ _ _ _ _ HI 0 (Nat.le_0_l _)) as K1.
  pose proof (Inv_level_keys _ _ _ _ _ HI' 0 (Nat.le_0_l _)) as K2.
  rewrite K1 in K2. injection K2 as K.
  rewrite !filter_all_entries in K.
  apply (f_equal length) in K. by rewrite !length_fmap in K.
Qed.

(** X28: on every list a client can build, [insert_element] of a key
    that is not in the list followed by [delete_element] of the same key
    leaves the list as it was found: [dump_file] and [display_list]
    write the same, [size()], the current level and the number of
    allocated objects are the same; only the pool remembers one more
    allocation. *)
Theorem opt_insert_then_delete max_level calls s rows k v coin :
  Opt.after max_level calls = Some s →
  OptMore.dump_file s = Some rows → k ∉ rows.*1 →
  ∃ s1 s2,
    Opt.insert_element s k v coin = Some (0%Z, s1)
    ∧ Opt.delete_element s1 k = Some s2
    ∧ OptMore.dump_file s2 = Some rows
    ∧ OptMore.display_list s2 = OptMore.display_list s
    ∧ Opt.size s2 = Opt.size s
    ∧ Opt._skip_list_level s2 = Opt._skip_list_level s
    ∧ size (Opt.heap s2) = size (Opt.heap s)
    ∧ Opt._allocated_count (Opt._memory_pool s2)
      = (Opt._allocated_count (Opt._memory_pool s) + 1)%Z.
Proof.
  intros Hs Hdump Hk.
  destruct (Opt_after_books _ _ _ Hs) as (l & Hb & _).
  pose proof (books_wf _ _ Hb) as Hwf.
  destruct (Opt_rows_dump _ _ Hwf) as (rows' & Hrows & Hd').
  assert (rows' = rows) as -> by congruence.
  assert (Habs : ∀ e, e ∈ l → e_key e ≠ k).
  { intros e He Hek. apply Hk.
    apply (Opt_rows_key_elem _ _ _ _ Hrows). eauto. }
  destruct (Opt_insert_new s l k v coin Hwf Habs)
    as (s1 & lt & ge & node & -> & Hins & Hwf1 & _ & _ & Hpn & Hpo).
  set (e := mkEntry node k (get_random_level (Opt._max_level s) coin))
    in *.
  destruct (Opt_delete_found s1 lt ge e Hwf1)
    as (s2 & Hdel & Hwf2 & _ & _ & Hgone & Hpo2).
  cbn [e_key e_addr e] in Hdel, Hgone, Hpo2.
  exists s1, s2. split; [done|]. split; [done|].
  assert (Hnode : ∀ x, x ∈ lt ++ ge → e_addr x ≠ node).
  { intros x Hx Heq.
    apply (Inv_entry_live _ _ _ _ _ _ (proj1 Hwf2)) in Hx.
    rewrite Heq, Hgone in Hx. by destruct Hx. }
  assert (Hpay : ∀ x, x ∈ lt ++ ge →
            payload <$> Opt.heap s2 !! e_addr x
            = payload <$> Opt.heap s !! e_addr x).
  { intros x Hx. rewrite Hpo2, Hpo by (by apply Hnode). done. }
  assert (Hlevel : Opt._skip_list_level s2 = Opt._skip_list_level s).
  { rewrite (inv_top _ _ _ _ _ (proj1 Hwf2)).
    by rewrite (inv_top _ _ _ _ _ (proj1 Hwf)). }
  split.
  { eapply Opt_rows_is_dump; [exact Hwf2|].
    by eapply Opt_rows_frame. }
  split.
  { rewrite (Opt_display_spec s2 _ Hwf2), (Opt_display_spec s _ Hwf).
    rewrite Hlevel. f_equal. apply list_fmap_ext. intros _ i _.
    apply omap_ext_elem. intros x Hx.
    apply list_elem_of_filter in Hx as [_ Hx].
    rewrite (entry_row_spec s2 _ x Hwf2 Hx),
      (entry_row_spec s _ x Hwf Hx).
    by rewrite Hpay. }
  destruct (Opt_books_run s _ (Opt.Insert k v coin) Hb)
    as (s1' & l1 & Hrun1 & Hb1 & _).
  cbn [Opt.run] in Hrun1. rewrite Hins in Hrun1. cbn in Hrun1.
  injection Hrun1 as <-.
  destruct (Opt_books_run s1 l1 (Opt.Delete k) Hb1)
    as (s2' & l2 & Hrun2 & Hb2 & _).
  cbn [Opt.run] in Hrun2. rewrite Hdel in Hrun2. injection Hrun2 as <-.
  pose proof (Opt_wf_length s2 _ _ (books_wf _ _ Hb2) Hwf2) as Hlen.
  split.
  { unfold Opt.size.
    rewrite (books_count _ _ Hb2), (books_count _ _ Hb). by rewrite Hlen. }
  split; [done|].
  split.
  { rewrite (books_heap _ _ Hb2), (books_heap _ _ Hb). by rewrite Hlen. }
  destruct (Opt_insert_fields _ _ _ _ _ _ Hins (proj2 Hwf))
    as [[? _]|(_ & _ & Hp1 & _)]; [done|].
  destruct (Opt_delete_fields _ _ _ Hdel) as [->|(_ & Hp2 & _)].
  - by rewrite Hp1.
  - by rewrite Hp2, Hp1.
Qed.

Lemma opt_insert_then_delete_witness :
  ∃ s1 s2,
    Opt.insert_element sample_opt 4%Z "d"%string 2 = Some (0%Z, s1)
    ∧ Opt.delete_element s1 4%Z = Some s2
    ∧ OptMore.dump_file s2
      = Some [(1%Z, "a"%string); (3%Z, "c"%string); (5%Z, "e"%string)]
    ∧ OptMore.display_list s2 = OptMore.display_list sample_opt
    ∧ Opt.size s2 = Opt.size sample_opt
    ∧ Opt._skip_list_level s2 = Opt._skip_list_level sample_opt
    ∧ size (Opt.heap s2) = size (Opt.heap sample_opt)
    ∧ Opt._allocated_count (Opt._memory_pool s2)
      = (Opt._allocated_count (Opt._memory_pool sample_opt) + 1)%Z.
Proof.
  apply (opt_insert_then_delete 4 sample_opt_calls).
  - vm_compute. reflexivity.
  - vm_compute. reflexivity.
  - vm_compute. intros H.
    repeat (apply elem_of_cons in H as [H|H]; [discriminate H|]).
    by apply elem_of_nil in H.
Defined.

(** ** The MVCC list refines its ledger *)

Lemma write_new k ver (lt ge : list (Z * list Version)) :
  Forall (λ r, (r.1 < k)%Z) lt → Forall (λ r, (k < r.1)%Z) ge →
  Ledger.write k ver (lt ++ ge) = lt ++ (k, [ver]) :: ge.
Proof.
  intros Hlt Hge. induction Hlt as [|r lt Hr _ IH]; cbn.
  - destruct Hge as [|r ge Hr _]; [done|]. cbn.
    destruct (Z.ltb_spec r.1 k); [lia|].
    destruct (Z.eqb_spec r.1 k); [lia|done].
  - destruct (Z.ltb_spec r.1 k); [|lia]. by rewrite IH.
Qed.

Lemma write_present k ver (cs : list (Z * list Version)) :
  StronglySorted Z.lt (cs.*1) → k ∈ cs.*1 →
  Ledger.write k ver cs
  = Ledger.change (λ k', bool_decide (k' = k)) (λ c, ver :: c) cs.
Proof.
  unfold Ledger.change.
  induction cs as [|r cs IH]; intros Hs Hk; cbn in *.
  - by apply elem_of_nil in Hk.
  - apply StronglySorted_inv in Hs as [Hs Hr].
    rewrite Forall_forall in Hr.
    destruct (Z.ltb_spec r.1 k) as [Hlt|Hge].
    + rewrite bool_decide_eq_false_2 by lia. f_equal. apply IH; [done|].
      apply elem_of_cons in Hk as [Hk|Hk]; [lia|done].
    + destruct (Z.eqb_spec r.1 k) as [Heq|Hne].
      * rewrite bool_decide_eq_true_2 by done. f_equal.
        clear IH Hk Hs. induction cs as [|r' cs IH]; [done|]. cbn.
        rewrite bool_decide_eq_false_2.
        -- destruct r'. f_equal. apply IH. intros x Hx. apply Hr. by right.
        -- assert (r.1 < r'.1)%Z by (apply Hr; left). lia.
      * apply elem_of_cons in Hk as [Hk|Hk]; [congruence|].
        specialize (Hr k Hk). lia.
Qed.

Lemma chains_keys (h : gmap nat (Node (list Version))) l cs :
  Forall2 (λ e r, r.1 = e_key e ∧ payload <$> h !! e_addr e = Some r.2) l cs →
  cs.*1 = e_key <$> l.
Proof.
  induction 1 as [|e r l cs [Hk _] _ IH]; [done|]. cbn. by rewrite Hk, IH.
Qed.

Lemma chains_change (h h' : gmap nat (Node (list Version)))
    (q : Z → bool) (f : list Version → list Version) : ∀ l cs,
  Forall2 (λ e r, r.1 = e_key e ∧ payload <$> h !! e_addr e = Some r.2)
          l cs →
  (∀ e c, e ∈ l → payload <$> h !! e_addr e = Some c →
     payload <$> h' !! e_addr e = Some (if q (e_key e) then f c else c)) →
  Forall2 (λ e r, r.1 = e_key e ∧ payload <$> h' !! e_addr e = Some r.2)
          l (Ledger.change q f cs).
Proof.
  intros l cs HF. induction HF as [|e r l cs [Hk Hp] _ IH]; intros Hch; cbn.
  - constructor.
  - constructor.
    + rewrite Hk. assert (e ∈ e :: l) as He by left.
      pose proof (Hch e r.2 He Hp) as Hn.
      by destruct (q (e_key e)).
    + apply IH. intros e' c He'. apply Hch. by right.
Qed.

Lemma txn_agrees_mono l l' t m :
  (∀ e, e ∈ l → e ∈ l') → txn_agrees l t m → txn_agrees l' t m.
Proof.
  intros Hsub (Hid & Hst & Hk). split; [done|]. split; [done|].
  eapply Forall2_impl; [exact Hk|]. naive_solver.
Qed.

Lemma txns_guard s l L handle :
  Forall2 (txn_agrees l) (MVCC.txns s) (Ledger.txns L) →
  match MVCC.check_active s handle with
  | Some (Some t) =>
      ∃ i m, handle = Some i ∧ MVCC.txns s !! i = Some t
        ∧ MVCC.state t = ACTIVE ∧ Ledger.txns L !! i = Some m
        ∧ txn_agrees l t m ∧ Ledger.guard L handle = Some (i, m)
  | Some None => Ledger.guard L handle = None
  | None => True
  end.
Proof.
  intros Htx. destruct handle as [i|]; [|done].
  unfold MVCC.check_active, Ledger.guard. cbn [mbind option_bind].
  destruct (MVCC.txns s !! i) as [t|] eqn:Ht; [|done].
  cbn [mbind option_bind].
  destruct (Forall2_lookup_l _ _ _ _ _ Htx Ht) as (m & Hm & Hag).
  rewrite Hm. cbn [mbind option_bind]. unfold MVCC.is_active.
  pose proof Hag as (_ & Hst & _). rewrite <- Hst.
  case_bool_decide; [|done]. exists i, m. done.
Qed.

Lemma modified_keys s l mods ks e :
  MVCC_wf s l →
  Forall2 (λ a k, ∃ e, e ∈ l ∧ e_addr e = a ∧ e_key e = k) mods ks →
  e ∈ l → e_addr e ∈ mods ↔ e_key e ∈ ks.
Proof.
  intros [HI _ _] HF He.
  induction HF as [|a k mods ks (e' & He' & <- & <-) _ IH].
  - split; intros H; by apply elem_of_nil in H.
  - rewrite !elem_of_cons, IH. split; intros [Heq|?]; auto; left.
    + by rewrite (Inv_addr_inj _ _ _ _ _ _ _ HI He He' Heq).
    + by rewrite (Inv_key_inj _ _ _ _ _ HI _ _ He He' Heq).
Qed.

Lemma MVCC_ledger_step s l L c s' :
  MVCC_wf s l → MVCC_refines s l L → MVCC.run s c = Some s' →
  ∃ l', MVCC_wf s' l' ∧ MVCC_refines s' l' (Ledger.step L c).
Proof.
  intros Hwf [Hch Htx Hnx Hac] Hrun.
  pose proof (txns_guard s l L) as Hg.
  destruct c as [|txn|txn|txn k v coin|txn k|];
    cbn [MVCC.run Ledger.step] in *.
  - injection Hrun as <-. exists l. split; [by apply MVCC_begin_wf|].
    split; cbn.
    + done.
    + apply Forall2_app; [done|]. constructor; [|constructor].
      split; [done|]. split; [done|]. constructor.
    + by rewrite Hnx.
    + by rewrite Hnx, Hac, (Forall2_length _ _ _ Htx).
  - specialize (Hg txn Htx).
    destruct (MVCC.check_active s txn) as [[t|]|] eqn:Hchk.
    + destruct Hg as (i & m & -> & Ht & Hact & Hm & Hag & ->).
      destruct (MVCC_commit_spec s l i t Hwf Ht Hact)
        as (s2 & Hc & Hwf' & _ & _ & _ & Hnext & Htx' & Hpl & Hactive).
      rewrite Hc in Hrun. injection Hrun as <-. exists l. split; [done|].
      destruct Hag as (Hid & Hst & Hmods).
      split; cbn.
      * apply (chains_change (MVCC.heap s)); [done|].
        intros e c He Hp. rewrite Hpl, Hp, Hid.
        pose proof (modified_keys s l _ _ e Hwf Hmods He) as Hiff.
        case_decide; case_bool_decide; naive_solver.
      * rewrite Htx'. apply Forall2_insert; [done|]. by split.
      * congruence.
      * by rewrite Hactive, Hac, Hid.
    + rewrite Hg. destruct (MVCC_refused s txn Hchk) as (Hc & _).
      rewrite Hc in Hrun. injection Hrun as <-. exists l. by split.
    + unfold MVCC.commit_transaction in Hrun. by rewrite Hchk in Hrun.
  - specialize (Hg txn Htx).
    destruct (MVCC.check_active s txn) as [[t|]|] eqn:Hchk.
    + destruct Hg as (i & m & -> & Ht & Hact & Hm & Hag & ->).
      destruct (MVCC_abort_full s l i t Hwf Ht Hact)
        as (s2 & Hc & Hwf' & Hheap & _ & _ & _ & Hnext & Htx' & Hactive & _).
      rewrite Hc in Hrun. injection Hrun as <-. exists l. split; [done|].
      destruct Hag as (Hid & Hst & Hmods).
      split; cbn.
      * by rewrite Hheap.
      * rewrite Htx'. apply Forall2_insert; [done|]. by split.
      * congruence.
      * by rewrite Hactive, Hac, Hid.
    + rewrite Hg. destruct (MVCC_refused s txn Hchk) as (_ & Hc & _).
      rewrite Hc in Hrun. injection Hrun as <-. exists l. by split.
    + unfold MVCC.abort_transaction in Hrun. by rewrite Hchk in Hrun.
  - specialize (Hg txn Htx).
    destruct (MVCC.check_active s txn) as [[t|]|] eqn:Hchk.
    + destruct Hg as (i & m & -> & Ht & Hact & Hm & Hag & ->).
      destruct Hag as (Hid & Hst & Hmods).
      pose proof (chains_keys _ _ _ Hch) as Hkeys.
      destruct (decide (Exists (λ e, e_key e = k) l))
        as [(e & He & Hk)%Exists_exists|Hno];
        [|rewrite Exists_exists in Hno].
      * destruct (MVCC_insert_found s l i t k v coin e Hwf Ht Hact He Hk)
          as (s2 & old & Hins & Hwf' & Hold & Hnew & Hoth & Htx' & _ & _
              & Hnext & Hactive).
        rewrite Hins in Hrun. injection Hrun as <-. exists l.
        split; [done|]. destruct Hwf as [HI _ _].
        split; cbn.
        -- rewrite write_present.
           ++ apply (chains_change (MVCC.heap s)); [done|].
              intros e' c He' Hp. case_bool_decide as Hek.
              ** assert (e' = e) as ->.
                 { apply (Inv_key_inj _ _ _ _ _ HI _ _ He' He).
                   congruence. }
                 rewrite Hnew, <- Hid. congruence.
              ** rewrite Hoth; [done|]. intros Heq. apply Hek.
                 by rewrite (Inv_addr_inj _ _ _ _ _ _ _ HI He' He Heq).
           ++ rewrite Hkeys. apply (inv_sorted _ _ _ _ _ HI).
           ++ rewrite Hkeys. apply list_elem_of_fmap. eauto.
        -- rewrite Htx'. apply Forall2_insert; [done|].
           split; [done|]. split; [done|]. cbn.
           apply Forall2_app; [done|]. constructor; [|constructor]. eauto.
        -- congruence.
        -- congruence.
      * destruct (MVCC_insert_new s l i t k v coin Hwf Ht Hact)
          as (s2 & lt & ge & node & -> & Hins & Hwf' & Hfresh & Hnew & Hoth
              & Htx' & _ & _ & Hnext & Hactive); [naive_solver|].
        rewrite Hins in Hrun. injection Hrun as <-.
        eexists. split; [exact Hwf'|].
        apply Forall2_app_inv_l in Hch as (c1 & c2 & Hc1 & Hc2 & Hcs).
        destruct Hwf' as [HI' _ _].
        pose proof (inv_sorted _ _ _ _ _ HI') as Hs.
        apply sorted_around in Hs as [Hs1 Hs2]. cbn [e_key] in Hs1, Hs2.
        assert (Hfar : ∀ e c, payload <$> MVCC.heap s !! e_addr e = Some c →
                  payload <$> MVCC.heap s2 !! e_addr e = Some c).
        { intros e c Hp. rewrite Hoth; [done|]. intros Heq.
          rewrite Heq, Hfresh in Hp. done. }
        split; cbn.
        -- rewrite Hcs, write_new.
           ++ apply Forall2_app; [|constructor].
              ** eapply Forall2_impl; [exact Hc1|]. naive_solver.
              ** cbn. by rewrite Hnew, Hid.
              ** eapply Forall2_impl; [exact Hc2|]. naive_solver.
           ++ clear -Hc1 Hs1. induction Hc1 as [|e r ? ? [Hr _] _ IH]; [done|].
              apply Forall_cons in Hs1 as [? ?]. constructor; [lia|auto].
           ++ clear -Hc2 Hs2. induction Hc2 as [|e r ? ? [Hr _] _ IH]; [done|].
              apply Forall_cons in Hs2 as [? ?]. constructor; [lia|auto].
        -- rewrite Htx'. apply Forall2_insert.
           ++ eapply Forall2_impl; [exact Htx|]. intros t0 m0.
              apply txn_agrees_mono. set_solver.
           ++ split; [done|]. split; [done|]. cbn.
              apply Forall2_app.
              ** eapply Forall2_impl; [exact Hmods|]. set_solver.
              ** constructor; [|constructor].
                 exists (mkEntry node k
                           (get_random_level (MVCC._max_level s) coin)).
                 split; [set_solver|done].
        -- congruence.
        -- congruence.
    + rewrite Hg. destruct (MVCC_refused s txn Hchk) as (_ & _ & Hc & _).
      rewrite Hc in Hrun. injection Hrun as <-. exists l. by split.
    + unfold MVCC.insert_element in Hrun. by rewrite Hchk in Hrun.
  - specialize (Hg txn Htx).
    destruct (MVCC.check_active s txn) as [[t|]|] eqn:Hchk.
    + destruct Hg as (i & m & -> & Ht & Hact & Hm & Hag & ->).
      destruct Hag as (Hid & Hst & Hmods).
      destruct (decide (Exists (λ e, e_key e = k) l))
        as [(e & He & Hk)%Exists_exists|Hno];
        [|rewrite Exists_exists in Hno].
      * subst k.
        destruct (MVCC_delete_found s l i t e Hwf Ht Hact He)
          as (h' & Hset & Hdel & Hwf').
        rewrite Hdel in Hrun. injection Hrun as <-. exists l.
        split; [done|]. destruct Hwf as [HI _ _].
        split; cbn; [|done..].
        apply (chains_change (MVCC.heap s)); [done|].
        intros e' c He' Hp.
        rewrite (payload_set_payload _ _ _ _ (e_addr e') Hset), Hp, Hid.
        case_decide as Ha; case_bool_decide as Hek; [done| | |done].
        -- by rewrite (Inv_addr_inj _ _ _ _ _ _ _ HI He' He Ha) in Hek.
        -- by rewrite (Inv_key_inj _ _ _ _ _ HI _ _ He' He Hek) in Ha.
      * rewrite (MVCC_delete_absent s l (Some i) k Hwf) in Hrun.
        -- injection Hrun as <-. exists l. split; [done|].
           split; cbn; [|done..].
           apply (chains_change (MVCC.heap s)); [done|].
           intros e' c He' Hp. rewrite bool_decide_eq_false_2; [done|].
           naive_solver.
        -- naive_solver.
        -- rewrite (check_active_Some s i t Ht Hact). eauto.
    + rewrite Hg. destruct (MVCC_refused s txn Hchk) as (_ & _ & _ & Hc).
      rewrite Hc in Hrun. injection Hrun as <-. exists l. by split.
    + unfold MVCC.delete_element in Hrun. by rewrite Hchk in Hrun.
  - destruct (MVCC_gc_spec s l Hwf)
      as (s2 & Hgc & Hwf' & _ & _ & Htx' & Hpl & Hnext & Hactive).
    rewrite Hgc in Hrun. injection Hrun as <-. exists l.
    split; [done|]. split; cbn.
    + apply (chains_change (MVCC.heap s)); [done|].
      intros e c He Hp. rewrite Hpl, Hp.
      rewrite decide_True by (apply list_elem_of_fmap; eauto).
      cbn. do 2 f_equal. unfold MVCC.get_min_active_txn_id, Ledger.min_active.
      by rewrite Hac, Hnx.
    + by rewrite Htx'.
    + congruence.
    + congruence.
Qed.

Lemma MVCC_ledger_for_each (calls : list MVCC.call) : ∀ s l L s',
  MVCC_wf s l → MVCC_refines s l L →
  for_each MVCC.run s calls = Some s' →
  ∃ l', MVCC_wf s' l' ∧ MVCC_refines s' l' (foldl Ledger.step L calls).
Proof.
  induction calls as [|c calls IH]; intros s l L s' Hwf Hr Hfe; cbn in *.
  - injection Hfe as <-. eauto.
  - destruct (MVCC.run s c) as [s1|] eqn:Hrun; [|done].
    destruct (MVCC_ledger_step s l L c s1 Hwf Hr Hrun) as (l1 & Hwf1 & Hr1).
    by eapply IH.
Qed.

Lemma MVCC_after_ledger max_level calls s :
  MVCC.after max_level calls = Some s →
  ∃ l, MVCC_wf s l ∧ MVCC_refines s l (Ledger.after calls).
Proof.
  intros Hs.
  apply (MVCC_ledger_for_each calls (MVCC.create max_level) [] Ledger.init);
    [apply MVCC_wf_create| |done].
  split; cbn; by constructor.
Qed.

Lemma chains_find (h : gmap nat (Node (list Version))) l cs k :
  Forall2 (λ e r, r.1 = e_key e ∧ payload <$> h !! e_addr e = Some r.2) l cs →
  match list_find (λ e, e_key e = k) l with
  | Some (_, e) => payload <$> h !! e_addr e
  | None => None
  end = (λ p, p.2.2) <$> list_find (λ r, r.1 = k) cs
  ∧ match list_find (λ e, e_key e = k) l with
    | Some (_, e) => is_Some (payload <$> h !! e_addr e)
    | None => True
    end.
Proof.
  induction 1 as [|e r l cs [Hk Hp] _ IH]; [done|]. cbn. rewrite Hk.
  destruct (decide (e_key e = k)) as [_|_]; cbn; [by rewrite Hp|].
  destruct (list_find (λ e, e_key e = k) l) as [[j e']|];
    destruct (list_find (λ r, r.1 = k) cs) as [[j' r']|]; cbn in *; done.
Qed.

Lemma nodes_chains (h : gmap nat (Node (list Version))) l ns : ∀ cs,
  Forall2 (λ e n, h !! e_addr e = Some n ∧ key n = e_key e) l ns →
  Forall2 (λ e r, r.1 = e_key e ∧ payload <$> h !! e_addr e = Some r.2) l cs →
  Forall2 (λ n (r : Z * list Version), key n = r.1 ∧ payload n = r.2) ns cs.
Proof.
  intros cs H1. revert cs.
  induction H1 as [|e n l ns [Hn Hk] _ IH]; intros cs H2.
  - apply Forall2_nil_inv_l in H2 as ->. constructor.
  - apply Forall2_cons_inv_l in H2 as (r & cs' & [Hr Hp] & H2 & ->).
    constructor; [|by apply IH]. rewrite Hn in Hp. cbn in Hp.
    split; congruence.
Qed.

Lemma row_of_chain id n (r : Z * list Version) :
  key n = r.1 → payload n = r.2 → visible_row id n = Ledger.row id r.
Proof.
  intros Hk Hp. unfold visible_row, Ledger.row. rewrite Hk, Hp.
  by destruct (get_visible_version r.2 id).
Qed.

Lemma rows_of_chains id (ns : list (Node (list Version))) cs :
  Forall2 (λ n (r : Z * list Version), key n = r.1 ∧ payload n = r.2) ns cs →
  omap (visible_row id) ns = omap (Ledger.row id) cs.
Proof.
  induction 1 as [|n r ns cs [Hk Hp] _ IH]; [done|]. cbn.
  by rewrite (row_of_chain id n r Hk Hp), IH.
Qed.

Lemma rows_of_range id low high (ns : list (Node (list Version))) cs :
  Forall2 (λ n (r : Z * list Version), key n = r.1 ∧ payload n = r.2) ns cs →
  omap (visible_row id) (filter (λ n, (low ≤ key n ≤ high)%Z) ns)
  = omap (Ledger.row id) (filter (λ r, (low ≤ r.1 ≤ high)%Z) cs).
Proof.
  induction 1 as [|n r ns cs [Hk Hp] _ IH]; [done|].
  rewrite !filter_cons, Hk.
  destruct (decide (low ≤ r.1 ≤ high)%Z); [|done]. cbn.
  by rewrite (row_of_chain id n r Hk Hp), IH.
Qed.

(** X29: the MVCC list refines a ledger that has no nodes, pointers,
    levels or coins.  On every list a client can build from
    [begin_transaction], [commit_transaction], [abort_transaction],
    [insert_element], [delete_element] and [gc], the ledger computed from
    the same calls (one version chain per key, in key order: a write puts
    a version in front of the chain of its key, a delete applies
    [mark_deleted] to it, a commit applies [commit_version] to the chains
    of the keys the transaction wrote, gc applies [gc_versions] to every
    chain) tells what the list stores and answers: the chain of every key,
    [search_element] and [range_query] for every handle the client holds,
    [dump_file], [size], the keys on level 0, the ids and states of the
    transactions, the id counter and the table of active transactions.
    None of them depends on the coins. *)
Theorem mvcc_refines_ledger max_level calls s :
  MVCC.after max_level calls = Some s →
  (∀ k, MVCC.chain_of s k = Some (Ledger.chain (Ledger.after calls) k))
  ∧ (∀ handle k, MVCC.handle_ok s (MVCC.Abort handle) →
       MVCC.search_element s handle k
       = Some (Ledger.search (Ledger.after calls) handle k))
  ∧ (∀ handle low high, MVCC.handle_ok s (MVCC.Abort handle) →
       MVCC.range_query s handle low high
       = Some (Ledger.range (Ledger.after calls) handle low high))
  ∧ MVCCMore.dump_file s = Some (Ledger.dump (Ledger.after calls))
  ∧ MVCC.size s = Some (length (Ledger.chains (Ledger.after calls)))
  ∧ level_keys (MVCC.heap s) (MVCC._header s) 0
    = Some (Ledger.chains (Ledger.after calls)).*1
  ∧ (λ t, (MVCC.txn_id t, MVCC.state t)) <$> MVCC.txns s
    = (λ m, (Ledger.id m, Ledger.st m)) <$> Ledger.txns (Ledger.after calls)
  ∧ MVCC._next_txn_id s = Ledger.next (Ledger.after calls)
  ∧ MVCC._active_transactions s = Ledger.active (Ledger.after calls).
Proof.
  intros Hs.
  destruct (MVCC_after_ledger _ _ _ Hs) as (l & Hwf & [Hch Htx Hnx Hac]).
  set (L := Ledger.after calls) in *.
  pose proof (chains_keys _ _ _ Hch) as Hkeys.
  destruct (MVCC_keys s l Hwf) as [Hlk Hsz].
  pose proof Hwf as [HI _ _].
  destruct (Inv_live_nodes _ _ _ _ _ HI) as (ns & Hns & HF).
  assert (Hnc : Forall2 (λ n (r : Z * list Version),
                  key n = r.1 ∧ payload n = r.2) ns (Ledger.chains L)).
  { apply (nodes_chains (MVCC.heap s) l); [|done].
    eapply Forall2_impl; [exact HF|]. naive_solver. }
  split.
  { intros k. rewrite (MVCC_chain_spec s l k Hwf). f_equal.
    apply (chains_find _ _ _ k Hch). }
  split.
  { intros handle k Hok. unfold MVCC.search_element, Ledger.search.
    pose proof (txns_guard s l L handle Htx) as Hg.
    destruct (check_active_cases s handle Hok)
      as [Hchk|(ti & t & -> & Ht & Hact & Hchk)]; rewrite Hchk in Hg |- *.
    - by rewrite Hg.
    - destruct Hg as (i & m & [= <-] & _ & _ & Hm & (Hid & _) & ->).
      cbn [mbind option_bind].
      rewrite (MVCC_visible_spec s l _ k Hwf). unfold Ledger.chain.
      destruct (chains_find _ _ _ k Hch) as [Hfind Hlive].
      rewrite <- Hfind, <- Hid.
      destruct (list_find (λ e, e_key e = k) l) as [[j e]|]; [|done].
      destruct Hlive as [c Hc]. rewrite Hc. cbn.
      by destruct (get_visible_version c (MVCC.txn_id t)). }
  split.
  { intros handle low high Hok. unfold Ledger.range.
    pose proof (txns_guard s l L handle Htx) as Hg.
    destruct (check_active_cases s handle Hok)
      as [Hchk|(ti & t & -> & Ht & Hact & Hchk)]; rewrite Hchk in Hg.
    - rewrite Hg. unfold MVCC.range_query. by rewrite Hchk.
    - destruct Hg as (i & m & [= <-] & _ & _ & Hm & (Hid & _) & ->).
      destruct (MVCC_range_spec s l ti t low high Hwf Ht Hact)
        as (ns' & Hns' & _ & ->).
      assert (ns' = ns) as -> by congruence.
      by rewrite <- Hid, (rows_of_range _ low high ns _ Hnc). }
  split.
  { unfold MVCCMore.dump_file, Ledger.dump. rewrite Hns, Hnx.
    by rewrite (rows_of_chains _ ns _ Hnc). }
  split.
  { by rewrite Hsz, (Forall2_length _ _ _ Hch). }
  split; [by rewrite Hkeys|].
  split; [|done].
  clear -Htx. induction Htx as [|t m ? ? (Hid & Hst & _) _ IH]; [done|].
  cbn. by rewrite Hid, Hst, IH.
Qed.

Lemma mvcc_refines_ledger_witness :
  (∀ k, MVCC.chain_of sample_mvcc k
        = Some (Ledger.chain (Ledger.after sample_calls) k))
  ∧ MVCCMore.dump_file sample_mvcc
    = Some (Ledger.dump (Ledger.after sample_calls)).
Proof.
  destruct (mvcc_refines_ledger 4 sample_calls sample_mvcc)
    as (H1 & _ & _ & H4 & _); [vm_compute; reflexivity|].
  split; [exact H1|exact H4].
Defined.

(** ** The sorted linked list refines the same table *)

Lemma linked_app h a b e :
  linked h (a ++ b) e ↔ linked h a (next_cell b e) ∧ linked h b e.
Proof.
  induction a as [|x a IH]; cbn; [tauto|].
  rewrite IH. destruct a; cbn; tauto.
Qed.

Lemma linked_frame h h' l e :
  (∀ x, x ∈ l → h' !! x.1 = h !! x.1) → linked h l e → linked h' l e.
Proof.
  induction l as [|x l IH]; intros Hsame; cbn; [done|].
  intros [Hx Hl]. split.
  - rewrite Hsame; [done|left].
  - apply IH; [|done]. intros y Hy. apply Hsame. by right.
Qed.

Lemma linked_live h l e x :
  linked h l e → x ∈ l →
  ∃ nx, h !! x.1 = Some (Sorted.mkNode x.2.1 x.2.2 nx).
Proof.
  induction l as [|y l IH]; intros Hl Hx; [by apply elem_of_nil in Hx|].
  destruct Hl as [Hy Hl].
  apply elem_of_cons in Hx as [->|Hx]; [eauto|by apply IH].
Qed.

Lemma cells_split k (l : list (nat * (Z * string))) :
  StronglySorted Z.lt (l.*2.*1) →
  ∃ lt ge, l = lt ++ ge ∧ Forall (λ x, (x.2.1 < k)%Z) lt
    ∧ (Forall (λ x, (k < x.2.1)%Z) ge
       ∨ ∃ x ge', ge = x :: ge' ∧ x.2.1 = k
                  ∧ Forall (λ y, (k < y.2.1)%Z) ge').
Proof.
  induction l as [|x l IH]; intros Hs.
  - exists [], []. split; [done|]. split; [done|]. by left.
  - cbn in Hs. apply StronglySorted_inv in Hs as [Hs Hx].
    assert (Hx' : Forall (λ y, (x.2.1 < y.2.1)%Z) l).
    { rewrite !Forall_fmap in Hx. exact Hx. }
    destruct (Z.lt_trichotomy x.2.1 k) as [Hlt|[Heq|Hgt]].
    + destruct (IH Hs) as (lt & ge & -> & Hl & Hg).
      exists (x :: lt), ge. split; [done|]. split; [by constructor|done].
    + exists [], (x :: l). split; [done|]. split; [done|].
      right. exists x, l. split; [done|]. split; [done|]. by rewrite <- Heq.
    + exists [], (x :: l). split; [done|]. split; [done|]. left.
      constructor; [done|]. eapply Forall_impl; [exact Hx'|].
      intros y Hy. cbn in Hy. lia.
Qed.

Lemma scan_spec h k ge : ∀ mid x fuel,
  linked h (x :: mid ++ ge) None →
  Forall (λ y, (y.2.1 < k)%Z) mid →
  match ge with [] => True | z :: _ => (k ≤ z.2.1)%Z end →
  length mid < fuel →
  ∃ pre y, x :: mid = pre ++ [y] ∧ Sorted.scan fuel h k x.1 = Some y.1.
Proof.
  induction mid as [|m mid IH]; intros x fuel Hl Hmid Hge Hfuel;
    (destruct fuel as [|fuel]; [cbn in Hfuel; lia|]);
    destruct Hl as [Hx Hl]; cbn [Sorted.scan]; rewrite Hx;
    cbn [mbind option_bind Sorted.next].
  - exists [], x. split; [done|]. cbn.
    destruct ge as [|z ge]; cbn; [done|].
    destruct Hl as [Hz _]. rewrite Hz. cbn.
    destruct (Z.ltb_spec z.2.1 k); [lia|done].
  - cbn [app next_cell].
    pose proof Hl as [Hm _]. rewrite Hm. cbn.
    apply Forall_cons in Hmid as [Hmk Hmid].
    destruct (Z.ltb_spec m.2.1 k); [|lia].
    destruct (IH m fuel Hl Hmid Hge) as (pre & y & Heq & ->);
      [cbn in Hfuel; lia|].
    exists (x :: pre), y. split; [|done]. cbn. by rewrite Heq.
Qed.

Lemma Sorted_heap_size s l :
  Sorted_wf s l → size (Sorted.heap s) = length l.
Proof.
  intros [_ _ Hdom Hnd _ _].
  rewrite <- size_dom, Hdom, size_list_to_set by done.
  by rewrite length_fmap.
Qed.

Lemma Sorted_fresh s l :
  Sorted_wf s l →
  Sorted.heap s !! fresh (dom (Sorted.heap s)) = None
  ∧ fresh (dom (Sorted.heap s)) ∉ l.*1.
Proof.
  intros [_ _ Hdom _ _ _].
  pose proof (is_fresh (dom (Sorted.heap s))) as Hf. split.
  - by apply not_elem_of_dom.
  - rewrite Hdom in Hf at 2. by rewrite elem_of_list_to_set in Hf.
Qed.

Lemma rows_lt k (l : list (nat * (Z * string))) :
  Forall (λ x, (x.2.1 < k)%Z) l → Forall (λ r, (r.1 < k)%Z) (l.*2).
Proof. intros H. by rewrite Forall_fmap. Qed.

Lemma rows_gt k (l : list (nat * (Z * string))) :
  Forall (λ x, (k < x.2.1)%Z) l → Forall (λ r, (k < r.1)%Z) (l.*2).
Proof. intros H. by rewrite Forall_fmap. Qed.

Lemma cells_sorted_add (lt ge : list (nat * (Z * string))) x :
  StronglySorted Z.lt ((lt ++ ge).*2.*1) →
  Forall (λ y, (y.2.1 < x.2.1)%Z) lt → Forall (λ y, (x.2.1 < y.2.1)%Z) ge →
  StronglySorted Z.lt ((lt ++ x :: ge).*2.*1).
Proof.
  intros Hs Hlt Hge. rewrite !fmap_app in Hs.
  apply StronglySorted_app in Hs as (H12 & H1 & H2).
  rewrite !fmap_app, !fmap_cons. apply StronglySorted_app.
  split; [|split].
  - intros k1 k2 Hk1 Hk2.
    apply elem_of_cons in Hk2 as [->|Hk2]; [|by apply H12].
    apply list_elem_of_fmap in Hk1 as (r & -> & Hr).
    apply list_elem_of_fmap in Hr as (y & -> & Hy).
    rewrite Forall_forall in Hlt. by apply Hlt.
  - done.
  - apply StronglySorted_cons. split; [|done].
    by rewrite !Forall_fmap.
Qed.

Lemma cells_sorted_drop (lt ge : list (nat * (Z * string))) x :
  StronglySorted Z.lt ((lt ++ x :: ge).*2.*1) →
  StronglySorted Z.lt ((lt ++ ge).*2.*1).
Proof.
  rewrite !fmap_app, !fmap_cons.
  intros (H12 & H1 & [_ H2]%StronglySorted_cons)%StronglySorted_app.
  apply StronglySorted_app. split; [|done].
  intros k1 k2 Hk1 Hk2. apply H12; [done|by right].
Qed.

Lemma cells_distinct (pre ge : list (nat * (Z * string))) y z :
  NoDup ((pre ++ y :: ge).*1) → z ∈ pre ++ ge → z.1 ≠ y.1.
Proof.
  rewrite fmap_app, fmap_cons.
  intros (_ & Hpre & [Hy _]%NoDup_cons)%NoDup_app Hz Heq.
  apply elem_of_app in Hz as [Hz|Hz].
  - apply (Hpre z.1); [by apply list_elem_of_fmap; eauto|].
    rewrite Heq. left.
  - apply Hy. rewrite <- Heq. apply list_elem_of_fmap; eauto.
Qed.

Lemma cells_nodup_add (lt ge : list (nat * (Z * string))) x :
  NoDup ((lt ++ ge).*1) → x.1 ∉ (lt ++ ge).*1 →
  NoDup ((lt ++ x :: ge).*1).
Proof.
  rewrite !fmap_app, fmap_cons, !NoDup_app, NoDup_cons, not_elem_of_app.
  intros (H1 & H12 & H2) [Hx1 Hx2]. split; [done|]. split; [|done].
  intros b Hb Hin. apply elem_of_cons in Hin as [->|Hin]; [done|].
  by apply (H12 b).
Qed.

Lemma cells_nodup_drop (lt ge : list (nat * (Z * string))) x :
  NoDup ((lt ++ x :: ge).*1) → NoDup ((lt ++ ge).*1).
Proof.
  rewrite !fmap_app, fmap_cons, !NoDup_app, NoDup_cons.
  intros (H1 & H12 & _ & H2). split; [done|]. split; [|done].
  intros b Hb Hin. apply (H12 b Hb). by right.
Qed.

Lemma cells_dom_add (lt ge : list (nat * (Z * string))) x :
  (list_to_set ((lt ++ x :: ge).*1) : gset nat)
  = {[x.1]} ∪ list_to_set ((lt ++ ge).*1).
Proof.
  rewrite !fmap_app, fmap_cons, !list_to_set_app_L. cbn. set_solver.
Qed.

Lemma Sorted_insert s l k v :
  Sorted_wf s l →
  ∃ s' l', Sorted.insert s k v = Some s' ∧ Sorted_wf s' l'
    ∧ l'.*2 = put k v (l.*2).
Proof.
  intros Hwf.
  destruct (Sorted_fresh s l Hwf) as [Ha Hal].
  pose proof (Sorted_heap_size s l Hwf) as Hsize.
  destruct Hwf as [Hhd Hl Hdom Hnd Hs Hcnt].
  destruct s as [hd cnt hp];
    cbn [Sorted.head Sorted.heap Sorted.element_count] in *.
  unfold Sorted.insert.
  cbn [Sorted.head Sorted.heap Sorted.element_count]. subst hd.
  set (a := fresh (dom hp)) in *.
  set (h := <[a := Sorted.mkNode k v None]> hp).
  assert (Hha : h !! a = Some (Sorted.mkNode k v None))
    by apply lookup_insert_eq.
  assert (Hne : ∀ x, x ∈ l → x.1 ≠ a).
  { intros x Hx Heq. apply Hal. rewrite <- Heq.
    apply list_elem_of_fmap; eauto. }
  assert (Hlh : linked h l None).
  { apply (linked_frame hp); [|done]. intros x Hx. unfold h.
    rewrite lookup_insert_ne; [done|]. intros Heq. by apply (Hne x). }
  assert (Hpresent : k ∈ l.*2.*1 →
    ∃ s' l', Some (Sorted.mkList (next_cell l None) cnt (delete a h))
            = Some s'
      ∧ Sorted_wf s' l' ∧ l'.*2 = put k v (l.*2)).
  { intros Hk. exists (Sorted.mkList (next_cell l None) cnt hp), l. unfold h.
    rewrite delete_insert_id by done. split; [done|].
    split; [by split|]. by rewrite put_present. }
  assert (Hathead : Forall (λ x, (k < x.2.1)%Z) l →
    ∃ s' l', (h1 ← Sorted.set_next h a (next_cell l None);
              Some (Sorted.mkList (Some a) (cnt + 1) h1)) = Some s'
      ∧ Sorted_wf s' l' ∧ l'.*2 = put k v (l.*2)).
  { intros Hgt. unfold Sorted.set_next, h. rewrite lookup_insert_eq.
    cbn. eexists _, ((a, (k, v)) :: l). split; [done|]. split.
    - split; cbn.
      + done.
      + split; [by rewrite lookup_insert_eq|].
        apply (linked_frame hp); [|done]. intros x Hx.
        rewrite !lookup_insert_ne; [done|..];
          intros Heq; by apply (Hne x).
      + rewrite !dom_insert_L, Hdom. set_solver.
      + by constructor.
      + constructor; [done|]. by rewrite !Forall_fmap.
      + lia.
    - cbn. symmetry.
      exact (put_split k v [] (l.*2) (Forall_nil_2 _) (rows_gt k l Hgt)). }
  destruct (cells_split k l Hs) as (lt & ge & Heq & Hlt & Hge).
  destruct lt as [|x mid].
  - cbn in Heq. subst ge.
    destruct Hge as [Hgt|(x & ge' & -> & Hxk & Hgt)].
    + destruct l as [|x ge']; [by apply Hathead|]. cbn [next_cell].
      destruct Hlh as [Hx _]. rewrite Hx.
      cbn [mbind option_bind Sorted.key].
      pose proof Hgt as [Hxk _]%Forall_cons.
      destruct (Z.leb_spec k x.2.1); [|lia].
      destruct (Z.eqb_spec x.2.1 k); [lia|]. by apply Hathead.
    + cbn [next_cell]. destruct Hlh as [Hx _]. rewrite Hx.
      cbn [mbind option_bind Sorted.key].
      destruct (Z.leb_spec k x.2.1); [|lia].
      destruct (Z.eqb_spec x.2.1 k); [|lia].
      apply Hpresent. cbn. rewrite Hxk. left.
  - subst l. cbn [next_cell app].
    pose proof Hlh as [Hx _]. rewrite Hx.
    cbn [mbind option_bind Sorted.key].
    apply Forall_cons in Hlt as [Hxk Hmid].
    destruct (Z.leb_spec k x.2.1); [lia|].
    destruct (scan_spec h k ge mid x (size h) Hlh Hmid)
      as (pre & y & Hpre & ->).
    { destruct Hge as [Hgt|(z & ge' & -> & Hz & _)]; [|lia].
      destruct ge as [|z ge']; [done|].
      apply Forall_cons in Hgt as [? _]. lia. }
    { unfold h. rewrite map_size_insert_None by done. rewrite Hsize.
      cbn. rewrite length_app. lia. }
    cbn [mbind option_bind].
    change ((x :: mid) ++ ge) with (x :: mid ++ ge) in *.
    rewrite app_comm_cons, Hpre in Hlh, Hnd, Hs, Hne, Hpresent |- *.
    rewrite <- app_assoc in Hnd. cbn [app] in Hnd.
    apply linked_app in Hlh as [Hpy Hlge].
    apply linked_app in Hpy as [Hlpre [Hy _]].
    cbn [next_cell] in Hlpre, Hy. rewrite Hy. cbn [mbind option_bind].
    destruct Hge as [Hgt|(z & ge' & -> & Hz & Hgt)].
    + assert (Sorted.next_has_key h
                (Sorted.mkNode y.2.1 y.2.2 (next_cell ge None)) k
              = Some false) as ->.
      { unfold Sorted.next_has_key. cbn.
        destruct ge as [|z ge']; [done|]. cbn.
        destruct Hlge as [Hz _]. rewrite Hz. cbn.
        apply Forall_cons in Hgt as [? _].
        by destruct (Z.eqb_spec z.2.1 k); [lia|]. }
      cbn [mbind option_bind Sorted.next]. unfold Sorted.set_next.
      rewrite Hha. cbn [mbind option_bind Sorted.key Sorted.value].
      assert (Hya : y.1 ≠ a).
      { apply Hne. apply elem_of_app. left. apply elem_of_app. right. left. }
      rewrite lookup_insert_ne by done. rewrite Hy.
      cbn [mbind option_bind Sorted.key Sorted.value].
      eexists _, ((pre ++ [y]) ++ (a, (k, v)) :: ge).
      split; [done|]. split.
      * assert (Hfar : ∀ z, z ∈ pre ++ ge →
          <[y.1:=Sorted.mkNode y.2.1 y.2.2 (Some a)]>
            (<[a:=Sorted.mkNode k v (next_cell ge None)]> h) !! z.1
          = h !! z.1).
        { intros z Hz. rewrite !lookup_insert_ne; [done|..].
          - intros Heq. apply (Hne z); [|done].
            apply elem_of_app in Hz as [Hz|Hz]; set_solver.
          - intros Heq. by apply (cells_distinct pre ge y z Hnd). }
        split; cbn [Sorted.head Sorted.heap Sorted.element_count].
        -- rewrite <- Hpre. done.
        -- apply linked_app. split; [apply linked_app; split|].
           ++ cbn [next_cell].
              apply (linked_frame h); [|done]. intros z Hz.
              apply Hfar. set_solver.
           ++ cbn. by rewrite lookup_insert_eq.
           ++ cbn. split.
              ** rewrite lookup_insert_ne by done.
                 by rewrite lookup_insert_eq.
              ** apply (linked_frame h); [|done]. intros z Hz.
                 apply Hfar. set_solver.
        -- unfold h. rewrite !dom_insert_L, Hdom, cells_dom_add.
           rewrite app_comm_cons, Hpre. cbn [fst].
           assert (Hyin : y.1 ∈ (list_to_set ((pre ++ [y]) ++ ge).*1
                                 : gset nat)).
           { apply elem_of_list_to_set, list_elem_of_fmap. exists y.
             split; [done|]. apply elem_of_app. left.
             apply elem_of_app. right. left. }
           clear -Hyin. set_solver.
        -- apply (cells_nodup_add (pre ++ [y]) ge (a, (k, v))).
           ++ by rewrite <- app_assoc.
           ++ cbn [fst]. intros Hin.
              apply list_elem_of_fmap in Hin as (z & Hz1 & Hz).
              by apply (Hne z).
        -- apply (cells_sorted_add (pre ++ [y]) ge (a, (k, v)));
             [done|rewrite <- Hpre; by constructor|done].
        -- pose proof (f_equal length Hpre) as Hlen. subst cnt.
           rewrite !length_app in *. cbn [length] in *.
           rewrite !length_app in *. lia.
      * rewrite (fmap_app _ (pre ++ [y]) ge).
        rewrite (fmap_app _ (pre ++ [y]) (_ :: ge)), fmap_cons.
        cbn [snd]. symmetry. apply put_split; [|by apply rows_gt].
        apply rows_lt. rewrite <- Hpre. by constructor.
    + assert (Sorted.next_has_key h
                (Sorted.mkNode y.2.1 y.2.2 (next_cell (z :: ge') None)) k
              = Some true) as ->.
      { unfold Sorted.next_has_key. cbn.
        destruct Hlge as [Hz' _]. rewrite Hz'. cbn.
        by destruct (Z.eqb_spec z.2.1 k). }
      cbn [mbind option_bind]. rewrite <- Hpre in Hpresent |- *.
      apply Hpresent. rewrite !fmap_app, !fmap_cons, Hz.
      apply elem_of_app. right. left.
Qed.

Lemma rows_ne k (l : list (nat * (Z * string))) :
  Forall (λ x, x.2.1 ≠ k) l → filter (λ r, r.1 ≠ k) (l.*2) = l.*2.
Proof. intros H. apply filter_all. by rewrite Forall_fmap. Qed.

Lemma cells_remove_dom (D S' : gset nat) (y z : nat) :
  D = {[z]} ∪ S' → z ∉ S' → y ∈ S' → ({[y]} ∪ D) ∖ {[z]} = S'.
Proof. set_solver. Qed.

Lemma cells_head_dom (x : nat) (L : list nat) :
  x ∉ L → (list_to_set (x :: L) : gset nat) ∖ {[x]} = list_to_set L.
Proof. intros H. cbn. set_solver. Qed.

Lemma Sorted_remove s l k :
  Sorted_wf s l →
  ∃ s' l', Sorted.remove s k = Some s' ∧ Sorted_wf s' l'
    ∧ l'.*2 = filter (λ r, r.1 ≠ k) (l.*2).
Proof.
  intros Hwf.
  pose proof (Sorted_heap_size s l Hwf) as Hsize.
  pose proof Hwf as [Hhd Hl Hdom Hnd Hs Hcnt].
  destruct s as [hd cnt hp];
    cbn [Sorted.head Sorted.heap Sorted.element_count] in *.
  unfold Sorted.remove.
  cbn [Sorted.head Sorted.heap Sorted.element_count]. subst hd.
  destruct l as [|x rest]; [by exists (Sorted.mkList None cnt hp), []|].
  cbn [next_cell]. pose proof Hl as [Hx Hrest]. rewrite Hx.
  cbn [mbind option_bind Sorted.key Sorted.next].
  pose proof Hs as Hs0. cbn in Hs0.
  apply StronglySorted_inv in Hs0 as [Hsr Hxr].
  rewrite !Forall_fmap in Hxr.
  pose proof Hnd as Hnd0. cbn in Hnd0.
  apply NoDup_cons in Hnd0 as [Hxn Hndr].
  destruct (Z.eqb_spec x.2.1 k) as [Hxk|Hxk].
  - eexists _, rest. split; [done|]. split.
    + split; cbn [Sorted.head Sorted.heap Sorted.element_count].
      * done.
      * apply (linked_frame hp); [|done]. intros z Hz.
        rewrite lookup_delete_ne; [done|]. intros Heq. apply Hxn.
        rewrite Heq. apply list_elem_of_fmap; eauto.
      * rewrite dom_delete_L, Hdom. by apply cells_head_dom.
      * done.
      * done.
      * cbn [length] in Hcnt. lia.
    + rewrite fmap_cons, filter_cons_False by (cbn; tauto).
      symmetry. apply rows_ne. eapply Forall_impl; [exact Hxr|].
      intros y Hy. cbn in Hy. lia.
  - destruct (cells_split k rest Hsr) as (mid & ge & -> & Hmid & Hge).
    destruct (scan_spec hp k ge mid x (size hp) Hl Hmid)
      as (pre & y & Hpre & ->).
    { destruct Hge as [Hgt|(z & ge' & -> & Hz & _)]; [|lia].
      destruct ge as [|z ge']; [done|].
      apply Forall_cons in Hgt as [? _]. lia. }
    { rewrite Hsize. cbn. rewrite length_app. lia. }
    cbn [mbind option_bind].
    assert (Hpm : Forall (λ w, w.2.1 ≠ k) (pre ++ [y])).
    { rewrite <- Hpre. constructor; [done|].
      eapply Forall_impl; [exact Hmid|]. intros w Hw. cbn in Hw. lia. }
    change (x :: mid ++ ge) with ((x :: mid) ++ ge) in *.
    rewrite Hpre in Hl, Hnd, Hs, Hdom.
    apply linked_app in Hl as [Hpy Hlge].
    apply linked_app in Hpy as [Hlpre [Hy _]].
    cbn [next_cell] in Hlpre, Hy. rewrite Hy.
    cbn [mbind option_bind Sorted.next].
    destruct Hge as [Hgt|(z & ge' & -> & Hz & Hgt)].
    + assert (Hsame : filter (λ r, r.1 ≠ k) (((x :: mid) ++ ge).*2)
                      = ((x :: mid) ++ ge).*2).
      { apply rows_ne. rewrite Hpre. apply Forall_app. split; [done|].
        eapply Forall_impl; [exact Hgt|]. intros w Hw. cbn in Hw. lia. }
      destruct ge as [|z ge']; cbn [next_cell].
      * by exists (Sorted.mkList (Some x.1) cnt hp), ((x :: mid) ++ []).
      * destruct Hlge as [Hz _]. rewrite Hz.
        cbn [mbind option_bind Sorted.key].
        apply Forall_cons in Hgt as [Hzk _].
        destruct (Z.eqb_spec z.2.1 k); [lia|].
        by exists (Sorted.mkList (Some x.1) cnt hp),
                  ((x :: mid) ++ z :: ge').
    + cbn [next_cell]. pose proof Hlge as [Hz' Hlge']. rewrite Hz'.
      cbn [mbind option_bind Sorted.key Sorted.next].
      destruct (Z.eqb_spec z.2.1 k); [|lia].
      unfold Sorted.set_next. rewrite Hy.
      cbn [mbind option_bind Sorted.key Sorted.value].
      eexists _, ((pre ++ [y]) ++ ge'). split; [done|].
      assert (Hyz : y.1 ≠ z.1).
      { apply (cells_distinct (pre ++ [y]) ge' z y Hnd).
        apply elem_of_app. left. apply elem_of_app. right. left. }
      assert (Hfar : ∀ w, w ∈ pre ++ ge' →
        delete z.1 (<[y.1:=Sorted.mkNode y.2.1 y.2.2 (next_cell ge' None)]>
                      hp) !! w.1 = hp !! w.1).
      { intros w Hw. rewrite lookup_delete_ne, lookup_insert_ne; [done|..].
        - intros Heq. symmetry in Heq. revert Heq.
          apply (cells_distinct pre (z :: ge') y w).
          + by rewrite <- app_assoc in Hnd.
          + apply elem_of_app in Hw as [Hw|Hw];
              apply elem_of_app; [by left|right; by right].
        - intros Heq. symmetry in Heq. revert Heq.
          apply (cells_distinct (pre ++ [y]) ge' z w Hnd).
          apply elem_of_app in Hw as [Hw|Hw]; apply elem_of_app;
            [left; apply elem_of_app; by left|by right]. }
      split.
      * split; cbn [Sorted.head Sorted.heap Sorted.element_count].
        -- by rewrite <- Hpre.
        -- apply linked_app. split; [apply linked_app; split|].
           ++ cbn [next_cell]. apply (linked_frame hp); [|done].
              intros w Hw. apply Hfar. apply elem_of_app. by left.
           ++ cbn. rewrite lookup_delete_ne by done.
              by rewrite lookup_insert_eq.
           ++ apply (linked_frame hp); [|done].
              intros w Hw. apply Hfar. apply elem_of_app. by right.
        -- rewrite dom_delete_L, dom_insert_L, Hdom.
           apply cells_remove_dom.
           ++ apply cells_dom_add.
           ++ rewrite elem_of_list_to_set. intros Hin.
              apply list_elem_of_fmap in Hin as (w & Hw1 & Hw).
              symmetry in Hw1. revert Hw1.
              by apply (cells_distinct (pre ++ [y]) ge' z w Hnd).
           ++ apply elem_of_list_to_set, list_elem_of_fmap. exists y.
              split; [done|]. apply elem_of_app. left.
              apply elem_of_app. right. left.
        -- by apply (cells_nodup_drop _ _ z).
        -- by apply (cells_sorted_drop _ _ z).
        -- pose proof (f_equal length Hpre) as Hlen. subst cnt.
           rewrite !length_app in *. cbn [length] in *.
           rewrite ?length_app in *. cbn [length] in *. lia.
      * rewrite Hpre. rewrite (fmap_app _ (pre ++ [y]) ge').
        rewrite (fmap_app _ (pre ++ [y]) (z :: ge')), fmap_cons.
        rewrite filter_app, filter_cons_False by (cbn; tauto).
        rewrite !rows_ne; [done|..|done].
        eapply Forall_impl; [exact Hgt|]. intros w Hw. cbn in Hw. lia.
Qed.

Lemma find_spec h k : ∀ l fuel,
  linked h l None → StronglySorted Z.lt (l.*2.*1) → length l < fuel →
  Sorted.find fuel h k (next_cell l None) = Some (table_value (l.*2) k).
Proof.
  induction l as [|x l IH]; intros fuel Hl Hs Hf;
    (destruct fuel as [|fuel]; [cbn in Hf; lia|]);
    cbn [Sorted.find next_cell]; [done|].
  destruct Hl as [Hx Hl]. rewrite Hx.
  cbn [mbind option_bind Sorted.key Sorted.value Sorted.next].
  cbn in Hs. apply StronglySorted_inv in Hs as [Hs Hxl].
  unfold table_value. rewrite fmap_cons. cbn [list_find].
  destruct (Z.eqb_spec x.2.1 k) as [Hk|Hk].
  - by rewrite decide_True.
  - rewrite decide_False by done.
    destruct (Z.ltb_spec k x.2.1) as [Hlt|Hge].
    + assert (list_find (λ r, r.1 = k) (l.*2) = None) as ->; [|done].
      apply list_find_None. rewrite Forall_fmap.
      rewrite !Forall_fmap in Hxl. eapply Forall_impl; [exact Hxl|].
      intros y Hy. cbn in *. lia.
    + rewrite IH; [|done|done|cbn in Hf; lia]. unfold table_value.
      by destruct (list_find (λ r, r.1 = k) (l.*2)) as [[j r]|].
Qed.

Lemma pairs_spec h : ∀ l fuel,
  linked h l None → length l < fuel →
  Sorted.pairs fuel h (next_cell l None) = Some (l.*2).
Proof.
  induction l as [|x l IH]; intros fuel Hl Hf;
    (destruct fuel as [|fuel]; [cbn in Hf; lia|]);
    cbn [Sorted.pairs next_cell]; [done|].
  destruct Hl as [Hx Hl]. rewrite Hx.
  cbn [mbind option_bind Sorted.key Sorted.value Sorted.next].
  rewrite IH; [|done|cbn in Hf; lia]. cbn. by destruct x as [a [k v]].
Qed.

Lemma cells_destroy_dom (D D' S' : gset nat) (x : nat) :
  D' = D ∖ {[x]} ∖ S' → D' = D ∖ ({[x]} ∪ S').
Proof. set_solver. Qed.

Lemma destroy_spec : ∀ l h fuel,
  linked h l None → NoDup (l.*1) → length l < fuel →
  ∃ h', Sorted.destroy fuel h (next_cell l None) = Some h'
    ∧ dom h' = dom h ∖ list_to_set (l.*1).
Proof.
  induction l as [|x l IH]; intros h fuel Hl Hnd Hf;
    (destruct fuel as [|fuel]; [cbn in Hf; lia|]);
    cbn [Sorted.destroy next_cell].
  - exists h. split; [done|]. cbn. set_solver.
  - destruct Hl as [Hx Hl]. rewrite Hx.
    cbn [mbind option_bind Sorted.next].
    cbn in Hnd. apply NoDup_cons in Hnd as [Hxn Hnd].
    destruct (IH (delete x.1 h) fuel) as (h' & -> & Hdom).
    + apply (linked_frame h); [|done]. intros z Hz.
      rewrite lookup_delete_ne; [done|]. intros Heq. apply Hxn.
      rewrite Heq. apply list_elem_of_fmap; eauto.
    + done.
    + cbn in Hf. lia.
    + exists h'. split; [done|]. cbn. apply cells_destroy_dom.
      by rewrite Hdom, dom_delete_L.
Qed.

Lemma Sorted_wf_create : Sorted_wf Sorted.create [].
Proof. split; cbn; try done; constructor. Qed.

Lemma Sorted_for_each calls : ∀ s l,
  Sorted_wf s l →
  ∃ s' l', for_each Sorted.run s calls = Some s' ∧ Sorted_wf s' l'
    ∧ l'.*2 = foldl sorted_apply (l.*2) calls.
Proof.
  induction calls as [|c calls IH]; intros s l Hwf; cbn.
  - by exists s, l.
  - assert (∃ s1 l1, Sorted.run s c = Some s1 ∧ Sorted_wf s1 l1
                     ∧ l1.*2 = sorted_apply (l.*2) c)
      as (s1 & l1 & -> & Hwf1 & Hrows).
    { destruct c as [k v|k]; [by apply Sorted_insert|by apply Sorted_remove]. }
    cbn. rewrite <- Hrows. by apply IH.
Qed.

Lemma table_with_coins calls : ∀ (coin : nat → nat) rows,
  foldl apply_call rows (imap (λ i, Sorted.with_coin (coin i)) calls)
  = foldl sorted_apply rows calls.
Proof.
  induction calls as [|c calls IH]; intros coin rows; [done|].
  cbn. rewrite <- (IH (coin ∘ S)). by destruct c.
Qed.

(** X30: the sorted linked list of the first stage refines the same table
    as the optimized skip list.  Every sequence of [insert] and [remove]
    calls returns ([int] taken as unbounded); [display] then prints the
    rows of the table obtained by putting each inserted pair at the place
    of its key unless the key is present and dropping the row of each
    removed key, followed by their number unless there is none; the rows
    are in strictly increasing key order, [size] is their number,
    [search] finds exactly the keys of the table and prints the value
    stored first, the heap holds one node per row (the node allocated for
    a key already present has been freed), the destructor frees them all,
    and the optimized skip list given the same calls, with any maximum
    level and any coins, dumps the same rows. *)
Theorem sorted_list_refines_table calls :
  ∃ s,
    Sorted.after calls = Some s
    ∧ Sorted.display s
      = Some (sorted_table calls,
              match sorted_table calls with
              | [] => None
              | _ :: _ => Some (Z.of_nat (length (sorted_table calls)))
              end)
    ∧ Sorted.size s = Z.of_nat (length (sorted_table calls))
    ∧ StronglySorted Z.lt ((sorted_table calls).*1)
    ∧ (∀ k, Sorted.search s k = Some (table_value (sorted_table calls) k))
    ∧ size (Sorted.heap s) = length (sorted_table calls)
    ∧ Sorted.destructor s = Some ∅
    ∧ ∀ max_level (coin : nat → nat),
        ∃ o, Opt.after max_level
               (imap (λ i, Sorted.with_coin (coin i)) calls) = Some o
          ∧ OptMore.dump_file o = Some (sorted_table calls).
Proof.
  destruct (Sorted_for_each calls Sorted.create [] Sorted_wf_create)
    as (s & l & Hfe & Hwf & Hrows).
  change (foldl sorted_apply [].*2 calls) with (sorted_table calls) in Hrows.
  exists s. pose proof (Sorted_heap_size s l Hwf) as Hsize.
  pose proof Hwf as [Hhd Hl Hdom Hnd Hs Hcnt].
  assert (Hlen : length (sorted_table calls) = length l)
    by (by rewrite <- Hrows, length_fmap).
  rewrite <- Hrows. split; [done|]. split.
  { unfold Sorted.display.
    rewrite Hhd, (pairs_spec _ l) by (done || lia). cbn.
    rewrite length_fmap. destruct l; cbn in *; by rewrite ?Hcnt. }
  split; [unfold Sorted.size; by rewrite length_fmap|].
  split; [done|]. split.
  { intros k. unfold Sorted.search. rewrite Hhd.
    apply find_spec; [done|done|lia]. }
  split; [by rewrite length_fmap|]. split.
  { unfold Sorted.destructor. rewrite Hhd.
    destruct (destroy_spec l (Sorted.heap s) (S (size (Sorted.heap s))))
      as (h' & -> & Hd); [done|done|lia|].
    f_equal. apply dom_empty_iff_L. rewrite Hd, Hdom. set_solver. }
  intros max_level coin.
  destruct (Opt_table_for_each
              (imap (λ i, Sorted.with_coin (coin i)) calls)
              (Opt.create max_level) [] [])
    as (o & lo & Hfo & Hwfo & Hro); [apply Opt_wf_create|constructor|].
  exists o. split; [done|].
  rewrite (Opt_rows_is_dump o lo _ Hwfo Hro). f_equal.
  rewrite Hrows. apply table_with_coins.
Qed.

(** ** Range queries, by the versions they return *)

Lemma is_visible_cases v t :
  is_visible v t = true ↔
    (create_ts v = t ∧ (t < delete_ts v)%Z)
    ∨ (is_committed v = true ∧ (create_ts v < t)%Z ∧ (t < delete_ts v)%Z).
Proof.
  unfold is_visible. destruct (Z.eqb_spec (create_ts v) t) as [Heq|Hne].
  - rewrite Z.ltb_lt. split; [by left|].
    intros [[_ ?]|(_ & ? & _)]; [done|lia].
  - rewrite !andb_true_iff, !Z.ltb_lt. split; [tauto|].
    intros [[? _]|(? & ? & ?)]; [done|tauto].
Qed.

Lemma get_visible_first chain t ver :
  get_visible_version chain t = Some ver ↔
    ∃ newer older, chain = newer ++ ver :: older
      ∧ Forall (λ u, is_visible u t = false) newer
      ∧ is_visible ver t = true.
Proof.
  split.
  - induction chain as [|u chain IH]; cbn; [done|].
    destruct (is_visible u t) eqn:Hu.
    + intros [= ->]. by exists [], chain.
    + intros (newer & older & -> & Hall & Hvis)%IH.
      exists (u :: newer), older. split; [done|]. split; [|done].
      by constructor.
  - intros (newer & older & -> & Hall & Hvis).
    induction Hall as [|u newer Hu _ IH]; cbn; [by rewrite Hvis|].
    by rewrite Hu.
Qed.

Lemma visible_row_first id n k v :
  visible_row id n = Some (k, v) ↔
    key n = k
    ∧ ∃ newer ver older,
        payload n = newer ++ ver :: older
        ∧ Forall (λ u,
            ¬ ((create_ts u = id ∧ (id < delete_ts u)%Z)
               ∨ (is_committed u = true ∧ (create_ts u < id)%Z
                  ∧ (id < delete_ts u)%Z))) newer
        ∧ ((create_ts ver = id ∧ (id < delete_ts ver)%Z)
           ∨ (is_committed ver = true ∧ (create_ts ver < id)%Z
              ∧ (id < delete_ts ver)%Z))
        ∧ value ver = v.
Proof.
  unfold visible_row. split.
  - destruct (get_visible_version (payload n) id) as [ver|] eqn:Hg; [|done].
    intros [= <- <-]. split; [done|].
    apply get_visible_first in Hg as (newer & older & Hp & Hall & Hvis).
    exists newer, ver, older. split; [done|]. split; [|split; [|done]].
    + eapply Forall_impl; [exact Hall|]. intros u Hu Hc.
      apply is_visible_cases in Hc. congruence.
    + by apply is_visible_cases.
  - intros (<- & newer & ver & older & Hp & Hall & Hvis & <-).
    assert (get_visible_version (payload n) id = Some ver) as ->; [|done].
    apply get_visible_first. exists newer, older. split; [done|].
    split; [|by apply is_visible_cases].
    eapply Forall_impl; [exact Hall|]. intros u Hu.
    destruct (is_visible u id) eqn:Hv; [|done].
    by apply is_visible_cases in Hv.
Qed.

(** C6: for an active transaction [range_query] returns, in ascending key
    order, exactly the pairs [(k, v)] such that [low ≤ k ≤ high], [k] is
    the key of a node of level 0, and [v] is the value of the first
    version of that node's chain, walking from the head, that the
    transaction sees: one it created itself and that is not deleted at or
    before its id, or a committed one created before its id and not
    deleted at or before its id.  Keys without such a version are left
    out, and the sequence is empty when [low > high]. *)
Theorem range_query_returns_visible_rows max_level calls s ti t low high :
  MVCC.after max_level calls = Some s →
  MVCC.txns s !! ti = Some t → MVCC.state t = ACTIVE →
  ∃ nodes rows,
    level_nodes (MVCC.heap s) (MVCC._header s) 0 = Some nodes
    ∧ StronglySorted Z.lt (key <$> nodes)
    ∧ MVCC.range_query s (Some ti) low high = Some rows
    ∧ StronglySorted Z.lt (rows.*1)
    ∧ (∀ k v, (k, v) ∈ rows ↔
         (low ≤ k ≤ high)%Z
         ∧ ∃ n newer ver older,
             n ∈ nodes ∧ key n = k
             ∧ payload n = newer ++ ver :: older
             ∧ Forall (λ u,
                 ¬ ((create_ts u = MVCC.txn_id t
                     ∧ (MVCC.txn_id t < delete_ts u)%Z)
                    ∨ (is_committed u = true
                       ∧ (create_ts u < MVCC.txn_id t)%Z
                       ∧ (MVCC.txn_id t < delete_ts u)%Z))) newer
             ∧ ((create_ts ver = MVCC.txn_id t
                 ∧ (MVCC.txn_id t < delete_ts ver)%Z)
                ∨ (is_committed ver = true
                   ∧ (create_ts ver < MVCC.txn_id t)%Z
                   ∧ (MVCC.txn_id t < delete_ts ver)%Z))
             ∧ value ver = v)
    ∧ rows = omap (visible_row (MVCC.txn_id t))
                  (filter (λ n, (low ≤ key n ≤ high)%Z) nodes)
    ∧ ((high < low)%Z → rows = []).
Proof.
  intros Hafter Ht Hact.
  destruct (MVCC_after_wf _ _ _ Hafter) as (l & Hwf & _).
  destruct (MVCC_range_spec s l ti t low high Hwf Ht Hact)
    as (ns & Hns & HF & Hrq).
  assert (key <$> ns = e_key <$> l) as Hkeys.
  { clear -HF. induction HF as [|e n es ns' [_ Hk] _ IH]; [done|].
    by rewrite !fmap_cons, Hk, IH. }
  assert (StronglySorted Z.lt (key <$> ns)) as Hsorted.
  { rewrite Hkeys. apply (inv_sorted _ _ _ _ _ (wf_inv _ _ Hwf)). }
  set (rows := omap (visible_row (MVCC.txn_id t))
                    (filter (λ n, (low ≤ key n ≤ high)%Z) ns)).
  assert (Hiff : ∀ k v, (k, v) ∈ rows ↔
    (low ≤ k ≤ high)%Z
    ∧ ∃ n newer ver older,
        n ∈ ns ∧ key n = k ∧ payload n = newer ++ ver :: older
        ∧ Forall (λ u,
            ¬ ((create_ts u = MVCC.txn_id t
                ∧ (MVCC.txn_id t < delete_ts u)%Z)
               ∨ (is_committed u = true
                  ∧ (create_ts u < MVCC.txn_id t)%Z
                  ∧ (MVCC.txn_id t < delete_ts u)%Z))) newer
        ∧ ((create_ts ver = MVCC.txn_id t
            ∧ (MVCC.txn_id t < delete_ts ver)%Z)
           ∨ (is_committed ver = true
              ∧ (create_ts ver < MVCC.txn_id t)%Z
              ∧ (MVCC.txn_id t < delete_ts ver)%Z))
        ∧ value ver = v).
  { intros k v. unfold rows. rewrite list_elem_of_omap. split.
    - intros (n & [Hq Hn]%list_elem_of_filter & Hrow).
      apply visible_row_first in Hrow
        as (Hk & newer & ver & older & Hp & Hall & Hvis & Hv).
      split; [by rewrite <- Hk|]. by exists n, newer, ver, older.
    - intros (Hk & n & newer & ver & older & Hn & Hkn & Hp & Hall & Hvis
              & Hv).
      exists n. split; [apply list_elem_of_filter; by rewrite Hkn|].
      apply visible_row_first. split; [done|].
      by exists newer, ver, older. }
  exists ns, rows. split; [done|]. split; [done|]. split; [done|].
  split; [by apply rows_sorted|]. split; [done|]. split; [done|].
  intros Hlh. destruct rows as [|[k v] rest] eqn:Hr; [done|].
  assert ((k, v) ∈ (k, v) :: rest) as Hin by left.
  apply Hiff in Hin as [Hk _]. lia.
Qed.

Lemma range_query_returns_visible_rows_witness :
  ∃ nodes rows,
    level_nodes (MVCC.heap sample_mvcc) (MVCC._header sample_mvcc) 0
      = Some nodes
    ∧ StronglySorted Z.lt (key <$> nodes)
    ∧ MVCC.range_query sample_mvcc (Some 1) 5%Z 15%Z = Some rows
    ∧ StronglySorted Z.lt (rows.*1)
    ∧ (∀ k v, (k, v) ∈ rows ↔
         (5 ≤ k ≤ 15)%Z
         ∧ ∃ n newer ver older,
             n ∈ nodes ∧ key n = k
             ∧ payload n = newer ++ ver :: older
             ∧ Forall (λ u,
                 ¬ ((create_ts u = 2%Z ∧ (2 < delete_ts u)%Z)
                    ∨ (is_committed u = true ∧ (create_ts u < 2)%Z
                       ∧ (2 < delete_ts u)%Z))) newer
             ∧ ((create_ts ver = 2%Z ∧ (2 < delete_ts ver)%Z)
                ∨ (is_committed ver = true ∧ (create_ts ver < 2)%Z
                   ∧ (2 < delete_ts ver)%Z))
             ∧ value ver = v)
    ∧ rows = omap (visible_row 2)
                  (filter (λ n, (5 ≤ key n ≤ 15)%Z) nodes)
    ∧ ((15 < 5)%Z → rows = []).
Proof.
  apply (range_query_returns_visible_rows 4 sample_calls sample_mvcc 1
           (MVCC.mkTransaction 2 ACTIVE []) 5%Z 15%Z).
  - vm_compute. reflexivity.
  - vm_compute. reflexivity.
  - reflexivity.
Defined.

(** ** The newest committed version, for transactions begun later *)










